(** * markdown-to-bgg: the GeekText <-> Markdown converter of [src/index.js]

    A shallow embedding of the ESM copy of the converter (the second half of
    [src/index.js]: [protectSegments], [sizeToHeading], [headingToSize],
    [quoteBodyToMarkdown], [blockquoteMarkdownToBgg], [bggToMarkdown],
    [markdownToBgg], [convert]) together with the part of the ECMAScript
    library the converter runs on: strings of UTF-16 code units, a
    backtracking regular-expression matcher written after the continuation
    semantics of ECMA-262, and [String.prototype.replace], [split], [trim],
    [Array.prototype.join], [parseInt]. *)

From Stdlib Require Import List NArith ZArith Bool Arith Lia String Ascii.
Import ListNotations.


(** ** Strings *)

(** A JavaScript string is a sequence of UTF-16 code units. *)
Definition char := N.
Definition str := list char.

Definition char_of_ascii (a : ascii) : char := N_of_ascii a.

(** String literals are read the way a JavaScript literal is: the escapes
    backslash-n, backslash-r, backslash-t and backslash-backslash stand for
    one code unit. *)
Fixpoint js_chars (l : list ascii) : str :=
  match l with
  | [] => []
  | a :: l1 =>
      match N_of_ascii a, l1 with
      | 92%N, b :: l2 =>
          match N_of_ascii b with
          | 110%N => 10%N :: js_chars l2
          | 114%N => 13%N :: js_chars l2
          | 116%N => 9%N :: js_chars l2
          | 92%N => 92%N :: js_chars l2
          | _ => N_of_ascii a :: js_chars l1
          end
      | _, _ => N_of_ascii a :: js_chars l1
      end
  end.

Definition js (s : string) : str := js_chars (list_ascii_of_string s).

Definition ch (s : string) : char :=
  match js s with c :: _ => c | [] => 0%N end.

Definition str_eqb (a b : str) : bool :=
  if list_eq_dec N.eq_dec a b then true else false.

(** WhiteSpace and LineTerminator code points of ECMA-262: the set that
    [\s] matches and that [String.prototype.trim] removes. *)
Definition is_line_terminator (c : char) : bool :=
  (c =? 10)%N || (c =? 13)%N || (c =? 8232)%N || (c =? 8233)%N.

Definition is_space (c : char) : bool :=
  (c =? 9)%N || (c =? 10)%N || (c =? 11)%N || (c =? 12)%N || (c =? 13)%N ||
  (c =? 32)%N || (c =? 160)%N || (c =? 5760)%N ||
  ((8192 <=? c)%N && (c <=? 8202)%N) ||
  (c =? 8232)%N || (c =? 8233)%N || (c =? 8239)%N || (c =? 8287)%N ||
  (c =? 12288)%N || (c =? 65279)%N.

Definition is_digit (c : char) : bool := (48 <=? c)%N && (c <=? 57)%N.

(** [String.prototype.trim]. *)
Fixpoint trimStart (s : str) : str :=
  match s with
  | c :: s' => if is_space c then trimStart s' else s
  | [] => []
  end.

Definition trimEnd (s : str) : str := rev (trimStart (rev s)).

Definition trim (s : str) : str := trimEnd (trimStart s).

(** [Array.prototype.join]. *)
Fixpoint join (sep : str) (l : list str) : str :=
  match l with
  | [] => []
  | [x] => x
  | x :: l' => x ++ sep ++ join sep l'
  end.

(** [s.slice(a, b)] and [s.slice(a)] for indices that are not negative. *)
Definition slice (s : str) (a b : nat) : str := firstn (b - a) (skipn a s).
Definition slice_from (s : str) (a : nat) : str := skipn a s.

(** Decimal rendering of a non-negative integer, as string concatenation
    with a number produces it. *)
Fixpoint uint_chars (d : Decimal.uint) : str :=
  match d with
  | Decimal.Nil => []
  | Decimal.D0 d' => 48%N :: uint_chars d'
  | Decimal.D1 d' => 49%N :: uint_chars d'
  | Decimal.D2 d' => 50%N :: uint_chars d'
  | Decimal.D3 d' => 51%N :: uint_chars d'
  | Decimal.D4 d' => 52%N :: uint_chars d'
  | Decimal.D5 d' => 53%N :: uint_chars d'
  | Decimal.D6 d' => 54%N :: uint_chars d'
  | Decimal.D7 d' => 55%N :: uint_chars d'
  | Decimal.D8 d' => 56%N :: uint_chars d'
  | Decimal.D9 d' => 57%N :: uint_chars d'
  end.

Definition number_to_str (n : nat) : str := uint_chars (Nat.to_uint n).

(** ** Regular expressions *)

(** The syntax covers what the converter's patterns use. *)
Inductive citem : Type :=
| IChar (c : char)            (* a character *)
| IRange (lo hi : char)       (* lo-hi *)
| ISpace                      (* \s *)
| INotSpace                   (* \S *)
| IDigit.                     (* \d *)

Inductive regex : Type :=
| Empty
| Chr (c : char)                          (* a pattern character *)
| Dot                                     (* . *)
| Class (neg : bool) (items : list citem) (* [...] and [^...] *)
| Seq (r1 r2 : regex)
| Alt (r1 r2 : regex)                     (* r1|r2 *)
| Rep (r : regex) (min : nat) (max : option nat) (greedy : bool)
| Group (i : nat) (r : regex)             (* the i-th capturing group *)
| Backref (i : nat)                       (* \i *)
| Bol                                     (* ^ *)
| Eol                                     (* $ *)
| NegLookahead (r : regex)                (* (?!r) *)
| NegLookbehindChr (c : char).            (* (?<!c) for one character c *)

Record flags : Type := { icase : bool; multiline : bool }.

Record regexp : Type := { source : regex; reflags : flags }.

(** Derived forms. *)
Definition star (r : regex) : regex := Rep r 0 None true.
Definition plus (r : regex) : regex := Rep r 1 None true.
Definition opt (r : regex) : regex := Rep r 0 (Some 1) true.
Definition lazy_star (r : regex) : regex := Rep r 0 None false.
Definition lazy_plus (r : regex) : regex := Rep r 1 None false.
Definition any : regex := Class false [ISpace; INotSpace].   (* [\s\S] *)
Definition space : regex := Class false [ISpace].            (* \s *)
Definition digit : regex := Class false [IDigit].            (* \d *)

Fixpoint lit_chars (s : str) : regex :=
  match s with
  | [] => Empty
  | c :: s' => Seq (Chr c) (lit_chars s')
  end.

Definition lit (s : string) : regex := lit_chars (js s).

Fixpoint seqs (l : list regex) : regex :=
  match l with
  | [] => Empty
  | r :: l' => Seq r (seqs l')
  end.

(** The capturing groups inside a regex: a quantifier clears them before
    each iteration. *)
Fixpoint groups (r : regex) : list nat :=
  match r with
  | Seq r1 r2 | Alt r1 r2 => groups r1 ++ groups r2
  | Rep r1 _ _ _ | NegLookahead r1 => groups r1
  | Group i r1 => i :: groups r1
  | _ => []
  end.

(** ** Match states *)

(** The input is held as a zipper: [before] is the text to the left of the
    current position, nearest character first, [after] the text to its
    right. [caps] records the participating capture groups. *)
Record mstate : Type := MState {
  before : str;
  after : str;
  caps : list (nat * str)
}.

Definition cont := mstate -> option mstate.

Definition get_cap (i : nat) (cs : list (nat * str)) : option str :=
  match find (fun p => Nat.eqb (fst p) i) cs with
  | Some p => Some (snd p)
  | None => None
  end.

Definition clear_caps (ids : list nat) (cs : list (nat * str)) : list (nat * str) :=
  filter (fun p => negb (existsb (Nat.eqb (fst p)) ids)) cs.

Definition set_cap (i : nat) (s : str) (cs : list (nat * str)) : list (nat * str) :=
  (i, s) :: clear_caps [i] cs.

(** Move the position [n] characters to the right. *)
Fixpoint advance (n : nat) (st : mstate) : mstate :=
  match n, after st with
  | S n', c :: rest => advance n' (MState (c :: before st) rest (caps st))
  | _, _ => st
  end.

(** ** The matcher *)

Section Matcher.

Variable fl : flags.

Definition to_upper (c : char) : char :=
  if (97 <=? c)%N && (c <=? 122)%N then (c - 32)%N else c.

Definition to_lower (c : char) : char :=
  if (65 <=? c)%N && (c <=? 90)%N then (c + 32)%N else c.

(** Canonicalize of ECMA-262 without the unicode flag. A code unit outside
    ASCII never canonicalizes into ASCII, and every pattern character of the
    converter is ASCII, so comparing after ASCII upper-casing decides the
    same matches. *)
Definition canon (c : char) : char := if icase fl then to_upper c else c.

Definition char_eq (a b : char) : bool := (canon a =? canon b)%N.

Definition item_mem (it : citem) (c : char) : bool :=
  match it with
  | IChar a => (a =? c)%N
  | IRange lo hi => (lo <=? c)%N && (c <=? hi)%N
  | ISpace => is_space c
  | INotSpace => negb (is_space c)
  | IDigit => is_digit c
  end.

Definition items_mem (items : list citem) (c : char) : bool :=
  existsb (fun it => item_mem it c) items.

(** CharacterSetMatcher: some member of the set has the canonical form of
    the input character. *)
Definition class_mem (items : list citem) (c : char) : bool :=
  if icase fl
  then items_mem items c || items_mem items (to_upper c) || items_mem items (to_lower c)
  else items_mem items c.

Fixpoint prefix_eq (p s : str) : bool :=
  match p, s with
  | [], _ => true
  | a :: p', b :: s' => char_eq a b && prefix_eq p' s'
  | _ :: _, [] => false
  end.

Definition at_bol (st : mstate) : bool :=
  match before st with
  | [] => true
  | c :: _ => multiline fl && is_line_terminator c
  end.

Definition at_eol (st : mstate) : bool :=
  match after st with
  | [] => true
  | c :: _ => multiline fl && is_line_terminator c
  end.

(** One-character atoms. *)
Definition match_char (p : char -> bool) (k : cont) (st : mstate) : option mstate :=
  match after st with
  | c :: rest => if p c then k (MState (c :: before st) rest (caps st)) else None
  | [] => None
  end.

(** RepeatMatcher of ECMA-262 (22.2.2.3.1). [mr] matches one iteration of
    the quantified atom, [ids] are its capture groups. An iteration that
    consumes nothing once [min] is exhausted fails, so [min] plus the length
    of the remaining input bounds the number of iterations; [fuel] starts
    above that bound. *)
Fixpoint repeat_matcher (mr : cont -> mstate -> option mstate) (ids : list nat)
    (greedy : bool) (k : cont) (fuel min : nat) (max : option nat) (x : mstate)
    {struct fuel} : option mstate :=
  match max with
  | Some 0 => k x
  | _ =>
      match fuel with
      | 0 => None
      | S fuel' =>
          let d (y : mstate) :=
            if (min =? 0) && (List.length (after y) =? List.length (after x))
            then None
            else repeat_matcher mr ids greedy k fuel' (pred min) (option_map pred max) y in
          let xr := MState (before x) (after x) (clear_caps ids (caps x)) in
          if negb (min =? 0) then mr d xr
          else if greedy then
            match mr d xr with
            | Some z => Some z
            | None => k x
            end
          else
            match k x with
            | Some z => Some z
            | None => mr d xr
            end
      end
  end.

(** The matcher of a pattern: [m r k st] matches [r] at the position of
    [st] and hands every way of doing so, in priority order, to the
    continuation [k] until one succeeds. *)
Fixpoint m (r : regex) (k : cont) (st : mstate) {struct r} : option mstate :=
  match r with
  | Empty => k st
  | Chr c => match_char (char_eq c) k st
  | Dot => match_char (fun c => negb (is_line_terminator c)) k st
  | Class neg items => match_char (fun c => xorb neg (class_mem items c)) k st
  | Seq r1 r2 => m r1 (fun st' => m r2 k st') st
  | Alt r1 r2 =>
      match m r1 k st with
      | Some z => Some z
      | None => m r2 k st
      end
  | Rep r1 mn mx greedy =>
      repeat_matcher (m r1) (groups r1) greedy k
        (mn + S (List.length (after st))) mn mx st
  | Group i r1 =>
      m r1 (fun y =>
              k (MState (before y) (after y)
                   (set_cap i (firstn (List.length (after st) - List.length (after y))
                                 (after st)) (caps y)))) st
  | Backref i =>
      match get_cap i (caps st) with
      | None => k st
      | Some s =>
          if prefix_eq s (after st) then k (advance (List.length s) st) else None
      end
  | Bol => if at_bol st then k st else None
  | Eol => if at_eol st then k st else None
  | NegLookahead r1 =>
      match m r1 (fun y => Some y) st with
      | Some _ => None
      | None => k st
      end
  | NegLookbehindChr c =>
      match before st with
      | b :: _ => if char_eq c b then None else k st
      | [] => k st
      end
  end.

End Matcher.

(** ** RegExp and String methods *)

(** A successful match: the matched text and the captures. *)
Record match_result : Type := MatchResult {
  index : nat;
  matched : str;
  captures : list (nat * str)
}.

Definition group (i : nat) (r : match_result) : option str := get_cap i (captures r).

(** The text of a group that always participates; a group that did not
    participate reads as the empty string in concatenation contexts that the
    converter never reaches. *)
Definition group_str (i : nat) (r : match_result) : str :=
  match group i r with Some s => s | None => [] end.

(** The match of [re] starting exactly at the position of the zipper
    ([bef], [aft]). *)
Definition match_at (re : regexp) (bef aft : str) : option match_result :=
  match m (reflags re) (source re) (fun y => Some y) (MState bef aft []) with
  | Some e =>
      Some (MatchResult (List.length bef)
              (firstn (List.length aft - List.length (after e)) aft) (caps e))
  | None => None
  end.

(** [re.exec(s)] for a regex without the [g] and [y] flags: the leftmost
    match, searched from index 0 whatever [lastIndex] holds. *)
Fixpoint search (re : regexp) (bef aft : str) : option match_result :=
  match match_at re bef aft with
  | Some r => Some r
  | None =>
      match aft with
      | [] => None
      | c :: aft' => search re (c :: bef) aft'
      end
  end.

Definition exec (re : regexp) (s : str) : option match_result := search re [] s.

Definition test (re : regexp) (s : str) : bool :=
  match exec re s with Some _ => true | None => false end.

(** [s.replace(re, f)] for a regex with the [g] flag: every match, left to
    right, each search resuming where the previous match ended (one
    character further after an empty match). *)
Fixpoint replace_loop (re : regexp) (f : match_result -> str) (fuel : nat)
    (bef aft : str) {struct fuel} : str :=
  match fuel with
  | 0 => aft
  | S fuel' =>
      match match_at re bef aft with
      | Some r =>
          let n := List.length (matched r) in
          f r ++
          match n, aft with
          | 0, [] => []
          | 0, c :: aft' => c :: replace_loop re f fuel' (c :: bef) aft'
          | _, _ => replace_loop re f fuel' (rev (firstn n aft) ++ bef) (skipn n aft)
          end
      | None =>
          match aft with
          | [] => []
          | c :: aft' => c :: replace_loop re f fuel' (c :: bef) aft'
          end
      end
  end.

Definition replace_all (re : regexp) (f : match_result -> str) (s : str) : str :=
  replace_loop re f (S (List.length s)) [] s.

(** [s.replace(re, f)] for a regex without the [g] flag: the first match
    only. *)
Definition replace_first (re : regexp) (f : match_result -> str) (s : str) : str :=
  match exec re s with
  | Some r =>
      firstn (index r) s ++ f r ++ skipn (index r + List.length (matched r)) s
  | None => s
  end.

(** [s.split(re)] for a pattern without capture groups (22.2.6.14): [acc]
    holds, reversed, the text between the last separator and the current
    position. A match that ends where the last separator ended is skipped. *)
Fixpoint split_loop (re : regexp) (fuel : nat) (bef acc aft : str)
    {struct fuel} : list str :=
  match fuel with
  | 0 => [rev acc ++ aft]
  | S fuel' =>
      match aft with
      | [] => [rev acc]
      | c :: aft' =>
          match match_at re bef aft with
          | Some r =>
              let n := List.length (matched r) in
              match n, acc with
              | 0, [] => split_loop re fuel' (c :: bef) (c :: acc) aft'
              | _, _ =>
                  rev acc :: split_loop re fuel' (rev (firstn n aft) ++ bef) [] (skipn n aft)
              end
          | None => split_loop re fuel' (c :: bef) (c :: acc) aft'
          end
      end
  end.

Definition split (re : regexp) (s : str) : list str :=
  match s with
  | [] => match match_at re [] [] with Some _ => [] | None => [[]] end
  | _ => split_loop re (2 * List.length s + 1) [] [] s
  end.

(** ** The converter *)

Definition no_flags : flags := {| icase := false; multiline := false |}.
Definition flag_i : flags := {| icase := true; multiline := false |}.
Definition flag_m : flags := {| icase := false; multiline := true |}.

Definition re (r : regex) : regexp := {| source := r; reflags := no_flags |}.
Definition re_i (r : regex) : regexp := {| source := r; reflags := flag_i |}.
Definition re_m (r : regex) : regexp := {| source := r; reflags := flag_m |}.

(** *** protectSegments *)

(** One entry of [pairs]: a name, a start pattern and an optional end
    pattern. *)
Record rule : Type := Rule {
  name : str;
  start : regexp;
  end_ : option regexp
}.

(** [store]: an object used as a map from token to protected chunk. The
    newest binding of a key is the one found. *)
Definition store := list (str * str).

Definition store_get (t : str) (st : store) : option str :=
  match find (fun p => str_eqb (fst p) t) st with
  | Some p => Some (snd p)
  | None => None
  end.

Definition token (nm : str) (counter : nat) : str :=
  js "__PROTECTED_" ++ nm ++ js "_" ++ number_to_str counter ++ js "__".

(** The [while] loop of [protectSegments] for one rule. [re] and [endRe]
    are rebuilt without the [g] flag, so both [exec] calls search from index
    0: the assignments to [lastIndex] have no effect on them. The loop is not
    bounded by the source; [fuel] counts the rounds this model may take, and
    [None] says that they did not suffice. *)
Fixpoint protect_rule (fuel : nat) (rl : rule) (text : str) (st : store)
    (counter : nat) {struct fuel} : option (str * store * nat) :=
  match exec (start rl) text with
  | None => Some (text, st, counter)
  | Some m0 =>
      let startIdx := index m0 in
      let afterStart := startIdx + List.length (matched m0) in
      let found :=
        match end_ rl with
        | None => Some afterStart
        | Some endRe =>
            match exec endRe text with
            | None => None
            | Some endMatch => Some (index endMatch + List.length (matched endMatch))
            end
        end in
      match found with
      | None => Some (text, st, counter)
      | Some endIdx =>
          match fuel with
          | 0 => None
          | S fuel' =>
              let chunk := slice text startIdx endIdx in
              let tok := token (name rl) counter in
              protect_rule fuel' rl
                (slice text 0 startIdx ++ tok ++ slice_from text endIdx)
                ((tok, chunk) :: st) (S counter)
          end
      end
  end.

Fixpoint protect_rules (fuel : nat) (pairs : list rule) (text : str) (st : store)
    (counter : nat) : option (str * store) :=
  match pairs with
  | [] => Some (text, st)
  | rl :: pairs' =>
      match protect_rule fuel rl text st counter with
      | None => None
      | Some (text', st', counter') => protect_rules fuel pairs' text' st' counter'
      end
  end.

Definition upper_AZ : citem := IRange (ch "A") (ch "Z").
Definition lower_az : citem := IRange (ch "a") (ch "z").
Definition digits_09 : citem := IRange (ch "0") (ch "9").

(** The pattern of [restore]: __PROTECTED_ ([A-Z0-9_]+?) _ (\d+) __ *)
Definition re_token : regexp :=
  re (seqs [lit "__PROTECTED_";
            Group 1 (lazy_plus (Class false [upper_AZ; digits_09; IChar (ch "_")]));
            Chr (ch "_");
            Group 2 (plus digit);
            lit "__"]).

(** The callback of [restore]: [store[t] || t]. An empty chunk is falsy. *)
Definition restore_token (st : store) (t : str) : str :=
  match store_get t st with
  | Some (c :: chunk) => c :: chunk
  | _ => t
  end.

Definition restore (st : store) (s : str) : str :=
  replace_all re_token (fun r => restore_token st (matched r)) s.

(** [protectSegments(input, pairs)]: the working text and the store that
    the returned [restore] closes over. *)
Definition protectSegments (fuel : nat) (input : str) (pairs : list rule)
  : option (str * store) :=
  protect_rules fuel pairs input [] 0.

(** *** Sizes and headings *)

Definition sizeToHashes : list (Z * str) :=
  [ (24%Z, js "#"); (18%Z, js "##"); (16%Z, js "###");
    (14%Z, js "####"); (12%Z, js "#####"); (10%Z, js "######") ].

Fixpoint digits_prefix (s : str) : str :=
  match s with
  | c :: s' => if is_digit c then c :: digits_prefix s' else []
  | [] => []
  end.

Definition digits_value (ds : str) : Z :=
  fold_left (fun acc c => (10 * acc + (Z.of_N c - 48))%Z) ds 0%Z.

(** [parseInt(s, 10)]: leading white space, an optional sign, then the
    longest run of decimal digits; [None] stands for NaN. *)
Definition parseInt (s : str) : option Z :=
  let s1 := trimStart s in
  let '(sign, s2) :=
    match s1 with
    | 45%N :: r => ((-1)%Z, r)
    | 43%N :: r => (1%Z, r)
    | _ => (1%Z, s1)
    end in
  match digits_prefix s2 with
  | [] => None
  | ds => Some (sign * digits_value ds)%Z
  end.

(** [isFinite(n)] for the Number that [parseInt] returns: an integer that
    rounds beyond the largest double is Infinity. *)
Definition isFinite (n : Z) : bool :=
  (Z.abs n <? 2 ^ 1024 - 2 ^ 970)%Z.

Fixpoint first_threshold (n : Z) (table : list (Z * str)) : option str :=
  match table with
  | [] => None
  | (threshold, hashes) :: table' =>
      if (threshold <=? n)%Z then Some hashes else first_threshold n table'
  end.

Definition sizeToHeading (sizeStr : str) : option str :=
  match parseInt sizeStr with
  | None => None
  | Some n => if isFinite n then first_threshold n sizeToHashes else None
  end.

Definition headingToSize (hashes : str) : nat :=
  match List.length hashes with
  | 1 => 24
  | 2 => 18
  | 3 => 16
  | 4 => 14
  | 5 => 12
  | _ => 10
  end.

(** *** Quotes *)

Definition nl : char := 10%N.
Definition cr : char := 13%N.

(** ^\n+|\n+$ *)
Definition re_blank_edges : regexp :=
  re (Alt (Seq Bol (plus (Chr nl))) (Seq (plus (Chr nl)) Eol)).

(** \r?\n *)
Definition re_newline : regexp := re (Seq (opt (Chr cr)) (Chr nl)).

Definition strip_blank_edges (body : str) : str :=
  replace_all re_blank_edges (fun _ => []) body.

Definition quoteBodyToMarkdown (body : str) : str :=
  let lines := split re_newline (strip_blank_edges body) in
  join (js "\n") (map (fun l => js "> " ++ l) lines) ++ js "\n\n".

(** ^>\s? *)
Definition re_quote_marker : regexp :=
  re (seqs [Bol; Chr (ch ">"); opt space]).

(** The state of the loop of [blockquoteMarkdownToBgg]: [out] and [buf]. *)
Definition flush (st : list str * list str) : list str * list str :=
  let '(out, buf) := st in
  match buf with
  | [] => (out, buf)
  | _ =>
      let inner := join (js "\n") (map (replace_first re_quote_marker (fun _ => [])) buf) in
      (out ++ [js "[quote]\n" ++ inner ++ js "\n[/quote]"], [])
  end.

Definition quote_step (st : list str * list str) (l : str) : list str * list str :=
  if test re_quote_marker l then (fst st, snd st ++ [l])
  else let '(out, buf) := flush st in (out ++ [l], buf).

Definition blockquoteMarkdownToBgg (md : str) : str :=
  let lines := split re_newline md in
  join (js "\n") (fst (flush (fold_left quote_step lines ([], [])))).

(** *** BGG to Markdown *)

(** A tag pair: open ([\s\S]*?) close, flags gi. *)
Definition re_pair (open close : string) : regexp :=
  re_i (seqs [lit open; Group 1 (lazy_star any); lit close]).

Definition rule_code_bgg : rule :=
  Rule (js "CODE_BGG") (re_i (lit "[code]")) (Some (re_i (lit "[/code]"))).

Definition not_rbracket : regex := Class true [IChar (ch "]")].

(** \[url=([^\]]+)\]([\s\S]*?)\[\/url\] *)
Definition re_url : regexp :=
  re_i (seqs [lit "[url="; Group 1 (plus not_rbracket); lit "]";
              Group 2 (lazy_star any); lit "[/url]"]).

(** \[thing=(\d+)\]([\s\S]*?)\[\/thing\] *)
Definition re_thing : regexp :=
  re_i (seqs [lit "[thing="; Group 1 (plus digit); lit "]";
              Group 2 (lazy_star any); lit "[/thing]"]).

(** \[user=\d+\]([\s\S]*?)\[\/user\] *)
Definition re_user : regexp :=
  re_i (seqs [lit "[user="; plus digit; lit "]";
              Group 1 (lazy_star any); lit "[/user]"]).

(** \n?\[\*\]\s*  with flag i: the separator of list items *)
Definition re_item_marker : regexp :=
  re_i (seqs [opt (Chr nl); lit "[*]"; star space]).

(** \[\/*\]  an opening bracket, any number of slashes, a closing bracket *)
Definition re_remnant : regexp :=
  re (seqs [lit "["; star (Chr (ch "/")); lit "]"]).

(** \[size=(\d{1,3})\]([\s\S]*?)\[\/size\] *)
Definition re_size : regexp :=
  re_i (seqs [lit "[size="; Group 1 (Rep digit 1 (Some 3) true); lit "]";
              Group 2 (lazy_star any); lit "[/size]"]).

(** ^(?:.|\n){0,120}$ *)
Definition re_short : regexp :=
  re (seqs [Bol; Rep (Alt Dot (Chr nl)) 0 (Some 120) true; Eol]).

(** \n *)
Definition re_nl : regexp := re (Chr nl).

(** \[br\s*\/?\] *)
Definition re_br : regexp :=
  re_i (seqs [lit "[br"; star space; opt (Chr (ch "/")); lit "]"]).

(** [arr.map((it, i) => f(it, i))] *)
Fixpoint mapi_from {A B : Type} (i : nat) (f : A -> nat -> B) (l : list A) : list B :=
  match l with
  | [] => []
  | x :: l' => f x i :: mapi_from (S i) f l'
  end.

(** The items of a list body:
    body.replace(/\r?\n/g, newline).split(marker).map(s => s.trim()).filter(Boolean) *)
Definition list_items (body : str) : list str :=
  filter (fun s => negb (str_eqb s []))
    (map trim
       (split re_item_marker (replace_all re_newline (fun _ => js "\n") body))).

Definition clean_item (it : str) : str :=
  trim (replace_all re_remnant (fun _ => []) it).

Definition list_callback (body : str) : str :=
  match list_items body with
  | [] => []
  | items =>
      js "\n" ++ join (js "\n") (map (fun it => js "- " ++ clean_item it) items) ++ js "\n"
  end.

Definition olist_callback (body : str) : str :=
  match list_items body with
  | [] => []
  | items =>
      js "\n" ++
      join (js "\n")
        (mapi_from 0 (fun it i => number_to_str (i + 1) ++ js ". " ++ clean_item it) items)
      ++ js "\n"
  end.

Definition size_callback (sz text : str) : str :=
  let hashes := sizeToHeading sz in
  let inner := trim text in
  match hashes with
  | Some (h :: hs) =>
      if test re_short inner && negb (test re_nl inner)
      then js "\n" ++ (h :: hs) ++ js " " ++ inner ++ js "\n\n"
      else inner
  | _ => inner
  end.

(** The passes of [bggToMarkdown] between protection and restoration, in
    the order of the source. *)
Definition bgg_passes (out : str) : str :=
  let out := replace_all (re_pair "[code]" "[/code]")
               (fun r => js "\n```\n" ++ strip_blank_edges (group_str 1 r) ++ js "\n```\n") out in
  let out := replace_all (re_pair "[tt]" "[/tt]")
               (fun r => js "`" ++ group_str 1 r ++ js "`") out in
  let out := replace_all (re_pair "[b]" "[/b]")
               (fun r => js "**" ++ group_str 1 r ++ js "**") out in
  let out := replace_all (re_pair "[i]" "[/i]")
               (fun r => js "*" ++ group_str 1 r ++ js "*") out in
  let out := replace_all (re_pair "[u]" "[/u]")
               (fun r => js "<u>" ++ group_str 1 r ++ js "</u>") out in
  let out := replace_all (re_pair "[s]" "[/s]")
               (fun r => js "~~" ++ group_str 1 r ++ js "~~") out in
  let out := replace_all (re_pair "[-]" "[/-]")
               (fun r => js "~~" ++ group_str 1 r ++ js "~~") out in
  let out := replace_all re_url
               (fun r => js "[" ++ group_str 2 r ++ js "](" ++ group_str 1 r ++ js ")") out in
  let out := replace_all (re_pair "[img]" "[/img]")
               (fun r => js "![](" ++ group_str 1 r ++ js ")") out in
  let out := replace_all re_thing
               (fun r => js "[" ++ group_str 2 r ++ js "](https://boardgamegeek.com/thing/"
                         ++ group_str 1 r ++ js ")") out in
  let out := replace_all re_user
               (fun r => js "[@" ++ group_str 1 r ++ js "](https://boardgamegeek.com/user/"
                         ++ group_str 1 r ++ js ")") out in
  let out := replace_all (re_pair "[quote]" "[/quote]")
               (fun r => quoteBodyToMarkdown (group_str 1 r)) out in
  let out := replace_all (re_pair "[list]" "[/list]")
               (fun r => list_callback (group_str 1 r)) out in
  let out := replace_all (re_pair "[olist]" "[/olist]")
               (fun r => olist_callback (group_str 1 r)) out in
  let out := replace_all re_size
               (fun r => size_callback (group_str 1 r) (group_str 2 r)) out in
  let out := replace_all re_br (fun _ => js "  \n") out in
  out.

Definition bggToMarkdown (fuel : nat) (input : str) : option str :=
  match input with
  | [] => Some input
  | _ =>
      match protectSegments fuel input [rule_code_bgg] with
      | None => None
      | Some (text, st) => Some (restore st (bgg_passes text))
      end
  end.

(** *** Markdown to BGG *)

(** Three backticks, [\s\S]*?, a newline; and a newline followed by three
    backticks. *)
Definition rule_code_fence : rule :=
  Rule (js "CODE_FENCE")
    (re (seqs [lit "```"; lazy_star any; Chr nl]))
    (Some (re (lit "\n```"))).

(** Three backticks, ([a-z0-9_-]+)?, newline, ([\s\S]*?), newline, three
    backticks; flags gi. *)
Definition re_fence : regexp :=
  re_i (seqs [lit "```";
              opt (Group 1 (plus (Class false [lower_az; digits_09; IChar (ch "_"); IChar (ch "-")])));
              Chr nl; Group 2 (lazy_star any); lit "\n```"]).

(** A backtick, ([^`\n]+), a backtick. *)
Definition re_inline_code : regexp :=
  re (seqs [lit "`"; Group 1 (plus (Class true [IChar (ch "`"); IChar nl])); lit "`"]).

(** ^(#{1,6})\s+(.+)$ with flags gm. *)
Definition re_heading : regexp :=
  re_m (seqs [Bol; Group 1 (Rep (Chr (ch "#")) 1 (Some 6) true); plus space;
              Group 2 (plus Dot); Eol]).

(** Two asterisks, ([\s\S]*?), two asterisks. *)
Definition re_bold : regexp :=
  re (seqs [lit "**"; Group 1 (lazy_star any); lit "**"]).

(** An emphasis delimiter [d] that is neither preceded nor followed by
    [d], around a body that starts with neither white space nor [d]:
    (?<!d) d ([^\s d][\s\S]*?) d (?!d). *)
Definition re_italic (d : char) : regexp :=
  re (seqs [NegLookbehindChr d; Chr d;
            Group 1 (Seq (Class true [ISpace; IChar d]) (lazy_star any));
            Chr d; NegLookahead (Chr d)]).

(** ~~([\s\S]*?)~~ *)
Definition re_strike : regexp :=
  re (seqs [lit "~~"; Group 1 (lazy_star any); lit "~~"]).

(** (https?:\/\/[^)]+) as group [i]. *)
Definition http_url (i : nat) : regex :=
  Group i (seqs [lit "http"; opt (Chr (ch "s")); lit "://";
                 plus (Class true [IChar (ch ")")])]).

(** \[([^\]]+)\]\((https?:\/\/[^)]+)\) *)
Definition re_link : regexp :=
  re (seqs [lit "["; Group 1 (plus not_rbracket); lit "]("; http_url 2; lit ")"]).

(** boardgamegeek\.com\/(?:thing|boardgame)\/(\d+) with flag i. *)
Definition re_thing_url : regexp :=
  re_i (seqs [lit "boardgamegeek.com/"; Alt (lit "thing") (lit "boardgame");
              lit "/"; Group 1 (plus digit)]).

(** boardgamegeek\.com\/user\/([A-Za-z0-9_-]+) with flag i. *)
Definition re_user_url : regexp :=
  re_i (seqs [lit "boardgamegeek.com/user/";
              Group 1 (plus (Class false [upper_AZ; lower_az; digits_09;
                                          IChar (ch "_"); IChar (ch "-")]))]).

(** An exclamation mark, then the link pattern with a group 1 that may be
    empty: [^\]] zero or more times. *)
Definition re_image : regexp :=
  re (seqs [lit "!["; Group 1 (star not_rbracket); lit "]("; http_url 2; lit ")"]).

Definition blank : regex := Class false [IChar (ch " "); IChar (ch "\t")].   (* [ \t] *)
Definition bullet : regex :=
  Class false [IChar (ch "-"); IChar (ch "*"); IChar (ch "+")].              (* [-*+] *)

(** Start of input or a newline; group 1: blanks; group 2: a bullet; \s+;
    group 3: .+; then any number of further lines: a newline, \1, \2, \s+
    and .+ *)
Definition re_ulist : regexp :=
  re (seqs [Alt Bol (Chr nl); Group 1 (star blank); Group 2 bullet; plus space;
            Group 3 (plus Dot);
            star (seqs [Chr nl; Backref 1; Backref 2; plus space; plus Dot])]).

(** ^[ \t]*[-*+]\s+ *)
Definition re_ulist_marker : regexp :=
  re (seqs [Bol; star blank; bullet; plus space]).

(** Start of input or a newline; group 1: blanks; \d+, a period, \s+;
    group 2: .+; then any number of further lines: a newline, \1, \d+, a
    period, \s+ and .+ *)
Definition re_olist : regexp :=
  re (seqs [Alt Bol (Chr nl); Group 1 (star blank); plus digit; lit "."; plus space;
            Group 2 (plus Dot);
            star (seqs [Chr nl; Backref 1; plus digit; lit "."; plus space; plus Dot])]).

(** ^[ \t]*\d+\.\s+ *)
Definition re_olist_marker : regexp :=
  re (seqs [Bol; star blank; plus digit; lit "."; plus space]).

(** Two spaces and a newline. *)
Definition re_hard_break : regexp := re (lit "  \n").

(** <u>([\s\S]*?)<\/u> with flags gi. *)
Definition re_underline : regexp := re_pair "<u>" "</u>".

Definition link_callback (r : match_result) : str :=
  let text := group_str 1 r in
  let href := group_str 2 r in
  match exec re_thing_url href with
  | Some thing => js "[thing=" ++ group_str 1 thing ++ js "]" ++ text ++ js "[/thing]"
  | None =>
      match exec re_user_url href with
      | Some user => js "[user=0]" ++ group_str 1 user ++ js "[/user]"
      | None => js "[url=" ++ href ++ js "]" ++ text ++ js "[/url]"
      end
  end.

(** The callback of both list passes, up to the marker pattern and the tag
    name: the lines of the trimmed block, each without its marker. *)
Definition md_list_callback (marker : regexp) (tag : string) (block : str) : str :=
  let lines := split re_newline (trim block) in
  let items := map (fun l => trim (replace_first marker (fun _ => []) l)) lines in
  js "\n[" ++ js tag ++ js "]\n" ++
  join (js "\n") (map (fun it => js "[*] " ++ it) items) ++
  js "\n[/" ++ js tag ++ js "]".

(** The passes of [markdownToBgg] between protection and restoration, in
    the order of the source. *)
Definition md_passes (out : str) : str :=
  let out := replace_all re_fence
               (fun r => js "[code]\n" ++ strip_blank_edges (group_str 2 r) ++ js "\n[/code]") out in
  let out := replace_all re_inline_code
               (fun r => js "[tt]" ++ group_str 1 r ++ js "[/tt]") out in
  let out := blockquoteMarkdownToBgg out in
  let out := replace_all re_heading
               (fun r => js "[size=" ++ number_to_str (headingToSize (group_str 1 r)) ++ js "]"
                         ++ trim (group_str 2 r) ++ js "[/size]") out in
  let out := replace_all re_bold
               (fun r => js "[b]" ++ group_str 1 r ++ js "[/b]") out in
  let out := replace_all (re_italic (ch "*"))
               (fun r => js "[i]" ++ group_str 1 r ++ js "[/i]") out in
  let out := replace_all (re_italic (ch "_"))
               (fun r => js "[i]" ++ group_str 1 r ++ js "[/i]") out in
  let out := replace_all re_strike
               (fun r => js "[s]" ++ group_str 1 r ++ js "[/s]") out in
  let out := replace_all re_link link_callback out in
  let out := replace_all re_image
               (fun r => js "[img]" ++ group_str 2 r ++ js "[/img]") out in
  let out := replace_all re_ulist
               (fun r => md_list_callback re_ulist_marker "list" (matched r)) out in
  let out := replace_all re_olist
               (fun r => md_list_callback re_olist_marker "olist" (matched r)) out in
  let out := replace_all re_hard_break (fun _ => js "[br]\n") out in
  let out := replace_all re_underline
               (fun r => js "[u]" ++ group_str 1 r ++ js "[/u]") out in
  out.

Definition markdownToBgg (fuel : nat) (input : str) : option str :=
  match input with
  | [] => Some input
  | _ =>
      match protectSegments fuel input [rule_code_fence] with
      | None => None
      | Some (text, st) => Some (restore st (md_passes text))
      end
  end.

(** *** convert *)

(** The values a caller may pass as [direction]. *)
Inductive value : Type :=
| VUndefined
| VNull
| VBool (b : bool)
| VNumber (z : Z)
| VString (s : str).

(** [direction === 'bgg2md'] *)
Definition is_bgg2md (direction : value) : bool :=
  match direction with
  | VString s => str_eqb s (js "bgg2md")
  | _ => false
  end.

Definition convert (fuel : nat) (input : str) (direction : value) : option str :=
  if is_bgg2md direction then bggToMarkdown fuel input else markdownToBgg fuel input.

(** ** The CommonJS copy and the command line *)

(** The file holds the converter twice. The first copy (CommonJS) differs
    from the second in the callback of [restore], which is [store[t] ?? t]:
    a recorded chunk is put back even when it is the empty string. Its
    [store] is an ordinary object, but [restore] only looks up matches of
    the placeholder pattern, which start with __PROTECTED_, and no inherited
    property has such a name: a lookup finds what the loop recorded or
    nothing. The first copy reads [hashes.length] where the second reads
    [(hashes||'').length]; on strings both are the length. *)
Definition restore_token_cjs (st : store) (t : str) : str :=
  match store_get t st with
  | Some chunk => chunk
  | None => t
  end.

Definition restore_cjs (st : store) (s : str) : str :=
  replace_all re_token (fun r => restore_token_cjs st (matched r)) s.

Definition bggToMarkdown_cjs (fuel : nat) (input : str) : option str :=
  match input with
  | [] => Some input
  | _ =>
      match protectSegments fuel input [rule_code_bgg] with
      | None => None
      | Some (text, st) => Some (restore_cjs st (bgg_passes text))
      end
  end.

Definition markdownToBgg_cjs (fuel : nat) (input : str) : option str :=
  match input with
  | [] => Some input
  | _ =>
      match protectSegments fuel input [rule_code_fence] with
      | None => None
      | Some (text, st) => Some (restore_cjs st (md_passes text))
      end
  end.

Definition convert_cjs (fuel : nat) (input : str) (direction : value) : option str :=
  if is_bgg2md direction then bggToMarkdown_cjs fuel input
  else markdownToBgg_cjs fuel input.

(** [esc]: every character of the class [.*+?^${}()|[\]\\] gets a
    backslash in front (the replacement is a backslash and $&). *)
Definition re_special : regexp :=
  re (Class false [IChar (ch "."); IChar (ch "*"); IChar (ch "+"); IChar (ch "?");
                   IChar (ch "^"); IChar (ch "$"); IChar (ch "{"); IChar (ch "}");
                   IChar (ch "("); IChar (ch ")"); IChar (ch "|"); IChar (ch "[");
                   IChar (ch "]"); IChar (ch "\\")]).

Definition esc (s : str) : str :=
  replace_all re_special (fun r => ch "\\" :: matched r) s.

(** [arr.indexOf(x)] on an array of strings; [None] stands for -1. *)
Fixpoint index_of (x : str) (l : list str) : option nat :=
  match l with
  | [] => None
  | y :: l' =>
      if str_eqb y x then Some 0
      else match index_of x l' with
           | Some i => Some (S i)
           | None => None
           end
  end.

(** The command line: [argv] is [process.argv], [stdin] the text read from
    standard input, the result the text written to standard output.
    [from] is the argument after the first --from, [undefined] when --from
    is the last argument, and the string bgg when there is no --from. *)
Definition cli_from (argv : list str) : value :=
  match index_of (js "--from") argv with
  | Some i =>
      match nth_error argv (i + 1) with
      | Some a => VString a
      | None => VUndefined
      end
  | None => VString (js "bgg")
  end.

(** [from === "bgg" ? "bgg2md" : "md2bgg"] *)
Definition cli_direction (argv : list str) : value :=
  match cli_from argv with
  | VString a => if str_eqb a (js "bgg") then VString (js "bgg2md") else VString (js "md2bgg")
  | _ => VString (js "md2bgg")
  end.

Definition cli (fuel : nat) (argv : list str) (stdin : str) : option str :=
  convert_cjs fuel stdin (cli_direction argv).

(** * Vocabulary of the statements and proofs *)

(** An atom that consumes exactly one character satisfying [p]. *)
Definition char_atom (mr : cont -> mstate -> option mstate) (p : char -> bool) : Prop :=
  forall k st, mr k st = match_char p k st.

(** [rejects re aft]: no match of [re] starts at a position followed by
    [aft]. [never re s]: none starts anywhere in [s]. *)
Definition rejects (re : regexp) (aft : str) : Prop :=
  forall bef, match_at re bef aft = None.

Fixpoint never (re : regexp) (s : str) : Prop :=
  rejects re s /\
  match s with
  | [] => True
  | _ :: s' => never re s'
  end.

(** The replacement of all matches from a position on. *)
Definition replace_from (re : regexp) (f : match_result -> str) (bef aft : str) : str :=
  replace_loop re f (S (List.length aft)) bef aft.

(** [ext st st']: [st'] is a position of the same input at or to the right
    of [st]. *)
Definition ext (st st' : mstate) : Prop :=
  exists xs, after st = xs ++ after st' /\ before st' = rev xs ++ before st.

(** A matcher that looks at its continuation only at positions to the
    right. *)
Definition rightward (mr : cont -> mstate -> option mstate) : Prop :=
  forall (d d' : cont) st,
  (forall st', ext st st' -> d st' = d' st') -> mr d st = mr d' st.

Definition lb : char := 91%N.   (* the opening square bracket *)
Definition rb : char := 93%N.   (* the closing square bracket *)

Definition no_lb (s : str) : bool := forallb (fun c => negb (c =? lb)%N) s.
Definition no_brackets (s : str) : bool :=
  forallb (fun c => negb (c =? lb)%N && negb (c =? rb)%N) s.
Definition all_digits (s : str) : bool := forallb is_digit s.

(** A literal that starts with an opening bracket. *)
Definition starts_lb (o : str) : bool :=
  match o with
  | c :: _ => (c =? lb)%N
  | [] => false
  end.

(** [o] does not start at any position of [xs] when [rest] follows. *)
Definition absent (fl : flags) (o xs rest : str) : Prop :=
  forall pre c suf, xs = pre ++ c :: suf -> prefix_eq fl o (c :: suf ++ rest) = false.

Definition lit_re (fl : flags) (o : str) (R : regex) : regexp :=
  {| source := Seq (lit_chars o) R; reflags := fl |}.

(** A pattern that cannot match where no opening bracket follows. *)
Definition requires_lb (fl : flags) (R : regex) : Prop :=
  forall (k : cont) st, no_lb (after st) = true -> m fl R k st = None.

(** [re] can only match where the literal [o] starts. *)
Definition opens_with (fl : flags) (o : str) (re : regexp) : Prop :=
  forall aft, prefix_eq fl o aft = false -> rejects re aft.

Definition within (mx : option nat) (n : nat) : Prop :=
  match mx with
  | None => True
  | Some b => n <= b
  end.

(** The body of a tag whose name, put in brackets, reads as a line break:
    b, r, white space and at most one slash. *)
Definition is_br_name (s : str) : bool :=
  match s with
  | b :: r :: rest =>
      char_eq flag_i (ch "b") b && char_eq flag_i (ch "r") r &&
      match trimStart rest with
      | [] => true
      | [c] => (c =? ch "/")%N
      | _ => false
      end
  | _ => false
  end.

Definition has_newline (s : str) : bool := existsb (fun c => (c =? nl)%N) s.

(** A character that [.|\n] accepts. *)
Definition dot_or_nl (c : char) : bool := negb (is_line_terminator c) || (c =? nl)%N.

Definition single_line (s : str) : bool :=
  forallb (fun c => negb (is_line_terminator c)) s.

(** What the size pass puts in place of a size tag. *)
Definition size_render (sz text : str) : str :=
  let inner := trim text in
  match sizeToHeading sz with
  | Some hashes =>
      if (List.length inner <=? 120) && single_line inner
      then js "\n" ++ hashes ++ js " " ++ inner ++ js "\n\n"
      else inner
  | None => inner
  end.

(** The rounds that [split_loop] still needs. *)
Definition split_measure (acc aft : str) : nat :=
  2 * List.length aft + match acc with [] => 0 | _ => 1 end.

Definition split_from (re : regexp) (bef acc aft : str) : list str :=
  split_loop re (S (split_measure acc aft)) bef acc aft.

Definition no_cr (s : str) : bool := forallb (fun c => negb (c =? cr)%N) s.

Definition plain_char (c : char) : bool :=
  negb (c =? lb)%N && negb (c =? nl)%N && negb (c =? cr)%N.

(** An item as the list pass hands it on unchanged: not empty, without
    white space at either end, free of opening brackets and line breaks. *)
Definition item_ok (it : str) : Prop :=
  it <> [] /\ trim it = it /\ forallb plain_char it = true.

Definition item_line (it : str) : str := js "\n[*] " ++ it.

Definition list_body (items : list str) : str :=
  List.concat (map item_line items) ++ js "\n".

Definition marker_rest : regex := Seq (lit_chars (js "[*]")) (Seq (star space) Empty).

(** The fragments that the split yields, when [acc] is the fragment in
    progress. *)
Fixpoint pieces (acc : str) (items : list str) : list str :=
  match items with
  | [] => [acc ++ js "\n"]
  | it :: items' => acc :: pieces it items'
  end.

Definition nonempty (s : str) : bool := negb (str_eqb s []).

Definition list_render (items : list str) : str :=
  match items with
  | [] => []
  | _ => js "\n" ++ join (js "\n") (map (fun it => js "- " ++ it) items) ++ js "\n"
  end.

(** Items numbered 1, 2, ... in their order. *)
Definition numbered (items : list str) : list str :=
  map (fun p => number_to_str (fst p) ++ js ". " ++ snd p)
    (combine (seq 1 (List.length items)) items).

Definition olist_render (items : list str) : str :=
  match items with
  | [] => []
  | _ => js "\n" ++ join (js "\n") (numbered items) ++ js "\n"
  end.

Definition open_tag (tag : str) : str := lb :: tag ++ [rb].
Definition close_tag (tag : str) : str := lb :: 47%N :: tag ++ [rb].

Definition list_text (tag : str) (items : list str) : str :=
  open_tag tag ++ list_body items ++ close_tag tag.

(** [needle] occurs in [hay] as a substring, character for character. *)
Fixpoint contains (needle hay : str) : bool :=
  prefix_eq no_flags needle hay ||
  match hay with
  | [] => false
  | _ :: hay' => contains needle hay'
  end.

Definition hashes_of_depth (d : nat) : str := repeat (ch "#") d.

(** A text cut into the matches of a pattern and the characters between
    them, in the order [s.replace(re, f)] with the [g] flag visits them. *)
Inductive segment : Type :=
| Gap (c : char)
| Hit (t : str).

Definition seg_text (sg : segment) : str :=
  match sg with
  | Gap c => [c]
  | Hit t => t
  end.

Fixpoint scan_loop (re : regexp) (fuel : nat) (bef aft : str) {struct fuel}
  : list segment :=
  match fuel with
  | 0 => map Gap aft
  | S fuel' =>
      match match_at re bef aft with
      | Some r =>
          let n := List.length (matched r) in
          Hit (matched r) ::
          match n, aft with
          | 0, [] => []
          | 0, c :: aft' => Gap c :: scan_loop re fuel' (c :: bef) aft'
          | _, _ => scan_loop re fuel' (rev (firstn n aft) ++ bef) (skipn n aft)
          end
      | None =>
          match aft with
          | [] => []
          | c :: aft' => Gap c :: scan_loop re fuel' (c :: bef) aft'
          end
      end
  end.

Definition scan (re : regexp) (s : str) : list segment :=
  scan_loop re (S (List.length s)) [] s.

(** The placeholder tokens of a text, as [restore] finds them. *)
Definition placeholders (s : str) : list segment := scan re_token s.

Definition render (g : str -> str) (sg : segment) : str :=
  match sg with
  | Gap c => [c]
  | Hit t => g t
  end.

Definition name_char (c : char) : bool :=
  ((65 <=? c)%N && (c <=? 90)%N) || ((48 <=? c)%N && (c <=? 57)%N) || (c =? 95)%N.

(** __PROTECTED_, a name of capitals, digits and underscores, an
    underscore, a decimal number, and two underscores. *)
Definition placeholder_shaped (t : str) : Prop :=
  exists nm ds,
    t = js "__PROTECTED_" ++ nm ++ js "_" ++ ds ++ js "__" /\
    nm <> [] /\ forallb name_char nm = true /\
    ds <> [] /\ all_digits ds = true.

Definition lit_regexp (fl : flags) (o : str) : regexp :=
  {| source := lit_chars o; reflags := fl |}.

(** [k] is the first position of [s] at which the literal [o] starts. *)
Definition first_at (fl : flags) (o s : str) (k : nat) : Prop :=
  k <= List.length s /\ prefix_eq fl o (skipn k s) = true /\
  forall k', k' < k -> prefix_eq fl o (skipn k' s) = false.

(** The first end marker closes before the first start marker opens. *)
Definition crossed (fl : flags) (S_ E_ text : str) : Prop :=
  exists a e, first_at fl S_ text a /\ first_at fl E_ text e /\
              e + List.length E_ <= a.

Definition chunks_nonempty (st : store) : Prop := Forall (fun p => snd p <> []) st.

Definition fence_open : regexp := re (seqs [lit "```"; lazy_star any; Chr nl]).

Definition fence_rule : rule :=
  Rule (js "CODE_FENCE") fence_open (Some (lit_regexp no_flags (js "\n```"))).

Definition code_rule : rule :=
  Rule (js "CODE_BGG") (lit_regexp flag_i (js "[code]"))
    (Some (lit_regexp flag_i (js "[/code]"))).

Definition restored (st : store) (sg : segment) : str :=
  match sg with
  | Gap c => [c]
  | Hit t => match store_get t st with Some chunk => chunk | None => t end
  end.

(** No character of [s] satisfies [p]. *)
Definition free_of (p : char -> bool) (s : str) : bool :=
  forallb (fun c => negb (p c)) s.

(** [R] cannot match where no character satisfying [p] follows. *)
Definition needs (p : char -> bool) (fl : flags) (R : regex) : Prop :=
  forall (k : cont) st, free_of p (after st) = true -> m fl R k st = None.

(** The pieces of a text between its newlines; [acc] holds, reversed, the
    piece in progress. *)
Fixpoint lines_acc (acc s : str) : list str :=
  match s with
  | [] => [rev acc]
  | c :: s' => if (c =? nl)%N then rev acc :: lines_acc [] s' else lines_acc (c :: acc) s'
  end.

Definition lines (s : str) : list str := lines_acc [] s.

Definition md_special (c : char) : bool :=
  existsb (N.eqb c) (js "`>#*_~[<-+\r") || is_digit c.

Definition is_letter (c : char) : bool :=
  ((65 <=? c)%N && (c <=? 90)%N) || ((97 <=? c)%N && (c <=? 122)%N).

Definition is_special (c : char) : bool :=
  existsb (N.eqb c) (js ".*+?^${}()|[]\\").

Definition esc_char (c : char) : str :=
  if is_special c then [ch "\\"; c] else [c].

Definition lit_pair (o c : str) : regexp :=
  {| source := Seq (lit_chars o) (Seq (Group 1 (lazy_star any)) (Seq (lit_chars c) Empty));
     reflags := flag_i |}.

Definition br_tag (sp : str) (slash : bool) : str :=
  js "[br" ++ sp ++ (if slash then js "/" else []) ++ js "]".

Fixpoint occ (fl : flags) (o s : str) : nat :=
  match s with
  | [] => 0
  | _ :: s' => (if prefix_eq fl o s then 1 else 0) + occ fl o s'
  end.

Definition backtick : char := 96%N.

Definition code_token (ds : str) : str :=
  js "__PROTECTED_CODE_BGG_" ++ ds ++ js "__".

Definition is_underscore (c : char) : bool := (c =? 95)%N.

Definition starts_nl (s : str) : bool :=
  match s with
  | c :: _ => (c =? nl)%N
  | [] => false
  end.

Fixpoint ends_nl (s : str) : bool :=
  match s with
  | [] => false
  | [c] => (c =? nl)%N
  | _ :: s' => ends_nl s'
  end.

(** A line: no newline and no carriage return. *)
Definition is_break (c : char) : bool := (c =? nl)%N || (c =? cr)%N.

Definition starts_quote (l : str) : bool :=
  match l with
  | c :: _ => (c =? ch ">")%N
  | [] => false
  end.

(** What ^>\s? takes from the start of a quoted line. *)
Definition marker_of (l : str) : str :=
  ch ">" :: match l with
            | c :: _ => if is_space c then [c] else []
            | [] => []
            end.

Definition unquoted (l : str) : str :=
  match l with
  | c :: l' => if is_space c then l' else l
  | [] => []
  end.

Definition quote_block (ls : list str) : str :=
  js "[quote]\n" ++ join (js "\n") ls ++ js "\n[/quote]".

(** The characters that plain text between Markdown constructs avoids:
    the ones of [md_special] and the opening parenthesis. *)
Definition md_plain (c : char) : bool := md_special c || (c =? ch "(")%N.

Definition is_backtick (c : char) : bool := (c =? ch "`")%N.
Definition is_gt (c : char) : bool := (c =? ch ">")%N.
Definition is_hash (c : char) : bool := (c =? ch "#")%N.
Definition is_star (c : char) : bool := (c =? ch "*")%N.
Definition is_tilde (c : char) : bool := (c =? ch "~")%N.
Definition is_lparen (c : char) : bool := (c =? ch "(")%N.
Definition is_lt (c : char) : bool := (c =? ch "<")%N.
Definition is_cr (c : char) : bool := (c =? cr)%N.
Definition is_bullet (c : char) : bool :=
  (c =? ch "-")%N || (c =? ch "*")%N || (c =? ch "+")%N.

Definition pair_re (fl : flags) (o c : str) : regexp :=
  {| source := Seq (lit_chars o) (Seq (Group 1 (lazy_star any)) (Seq (lit_chars c) Empty));
     reflags := fl |}.

Definition not_blank_mark (t : str) : bool :=
  forallb (fun u => negb (u =? 32)%N && negb (u =? nl)%N) t.

Definition starts_chr (d : char) (s : str) : bool :=
  match s with
  | c :: _ => (c =? d)%N
  | [] => false
  end.

Definition starts_space (s : str) : bool :=
  match s with
  | c :: _ => is_space c
  | [] => false
  end.

(** A literal around a mark: the literal starts neither inside the mark
    nor across its first character. *)
Definition mark_ok (o t : str) : bool :=
  match o, t with
  | c :: _, u :: _ =>
      forallb (fun v => negb (char_eq no_flags c v)) t &&
      forallb (fun a => negb (char_eq no_flags a u)) o
  | _, _ => false
  end.

(** One converter after the other. *)
Definition bgg_md_bgg (fuel : nat) (s : str) : option str :=
  match bggToMarkdown fuel s with
  | Some md => markdownToBgg fuel md
  | None => None
  end.

Definition md_bgg_md (fuel : nat) (s : str) : option str :=
  match markdownToBgg fuel s with
  | Some b => bggToMarkdown fuel b
  | None => None
  end.

(** An address as the link pattern takes it: http or https, a colon, two
    slashes and the rest. *)
Definition http_href (secure : bool) (rest : str) : str :=
  js "http" ++ (if secure then js "s" else []) ++ js "://" ++ rest.

Definition is_rparen (c : char) : bool := (c =? ch ")")%N.

Definition nonblank (u : char) : bool := negb (u =? 32)%N && negb (u =? nl)%N.

Definition is_dot (c : char) : bool := (c =? ch ".")%N.

(** The text before a line: empty, or ending with a newline. *)
Definition at_line_start (pre : str) : bool :=
  match rev pre with
  | c :: _ => (c =? nl)%N
  | [] => true
  end.

(** * Facts about the model *)

(** ** Reasoning about the matcher *)

Lemma clear_caps_nil (cs : list (nat * str)) : clear_caps [] cs = cs.
Proof.
  unfold clear_caps. induction cs as [|p cs IH]; simpl; [reflexivity|].
  f_equal. exact IH.
Qed.

Lemma advance_app (xs rest bef : str) (cs : list (nat * str)) :
  advance (List.length xs) (MState bef (xs ++ rest) cs) = MState (rev xs ++ bef) rest cs.
Proof.
  revert bef. induction xs as [|x xs IH]; intros bef; simpl.
  - destruct rest; reflexivity.
  - rewrite IH. now rewrite <- app_assoc.
Qed.

Lemma firstn_app_exact (xs rest : str) :
  firstn (List.length (xs ++ rest) - List.length rest) (xs ++ rest) = xs.
Proof.
  rewrite length_app, Nat.add_sub.
  rewrite firstn_app, Nat.sub_diag, firstn_all. simpl. apply app_nil_r.
Qed.

Section MatcherFacts.

Variable fl : flags.

Lemma m_lit_chars (p : str) (k : cont) (st : mstate) :
  m fl (lit_chars p) k st =
  if prefix_eq fl p (after st) then k (advance (List.length p) st) else None.
Proof.
  revert st. induction p as [|c p IH]; intros [bef aft cs]; simpl.
  - destruct aft; reflexivity.
  - unfold match_char; simpl. destruct aft as [|x aft]; simpl; [reflexivity|].
    destruct (char_eq fl c x); simpl; [|reflexivity].
    now rewrite IH.
Qed.

Lemma char_atom_Chr (c : char) : char_atom (m fl (Chr c)) (char_eq fl c).
Proof. intros k st. reflexivity. Qed.

Lemma char_atom_Class (neg : bool) (items : list citem) :
  char_atom (m fl (Class neg items)) (fun c => xorb neg (class_mem fl items c)).
Proof. intros k st. reflexivity. Qed.

Lemma char_atom_Dot : char_atom (m fl Dot) (fun c => negb (is_line_terminator c)).
Proof. intros k st. reflexivity. Qed.

Lemma class_any (c : char) : class_mem fl [ISpace; INotSpace] c = true.
Proof.
  unfold class_mem, items_mem, existsb, item_mem.
  destruct (icase fl); destruct (is_space c); reflexivity.
Qed.

Lemma char_atom_any : char_atom (m fl any) (fun _ => true).
Proof.
  intros k st. unfold any. simpl. unfold match_char.
  destruct (after st); [reflexivity|]. now rewrite class_any.
Qed.

(** A lazy quantifier stops as soon as the continuation accepts. *)
Lemma lazy_stop mr ids (k : cont) fuel x z :
  k x = Some z ->
  repeat_matcher mr ids false k (S fuel) 0 None x = Some z.
Proof. intros Hk. cbn [repeat_matcher Nat.eqb negb]. now rewrite Hk. Qed.

(** A lazy quantifier over a one-character atom steps over a character at
    which the continuation fails. *)
Lemma lazy_step mr p (k : cont) fuel bef c aft cs :
  char_atom mr p -> p c = true ->
  k (MState bef (c :: aft) cs) = None ->
  repeat_matcher mr [] false k (S fuel) 0 None (MState bef (c :: aft) cs) =
  repeat_matcher mr [] false k fuel 0 None (MState (c :: bef) aft cs).
Proof.
  intros Hmr Hp Hk. cbn [repeat_matcher Nat.eqb negb]. rewrite Hk, Hmr.
  unfold match_char. cbn [after before caps andb pred option_map List.length].
  rewrite Hp, clear_caps_nil.
  replace (List.length aft =? S (List.length aft)) with false
    by (symmetry; apply Nat.eqb_neq; lia).
  reflexivity.
Qed.

(** The same over a run of characters where the continuation fails at each
    position. *)
Lemma lazy_skip mr p (k : cont) xs :
  char_atom mr p ->
  forall fuel bef rest cs,
  forallb p xs = true ->
  (forall pre c suf, xs = pre ++ c :: suf ->
      k (MState (rev pre ++ bef) (c :: suf ++ rest) cs) = None) ->
  repeat_matcher mr [] false k (List.length xs + fuel) 0 None (MState bef (xs ++ rest) cs) =
  repeat_matcher mr [] false k fuel 0 None (MState (rev xs ++ bef) rest cs).
Proof.
  intros Hmr. induction xs as [|x xs IH]; intros fuel bef rest cs Hp Hk.
  - reflexivity.
  - simpl in Hp. apply andb_prop in Hp as [Hx Hxs].
    change (List.length (x :: xs) + fuel) with (S (List.length xs + fuel)).
    change ((x :: xs) ++ rest) with (x :: (xs ++ rest)).
    rewrite (lazy_step mr p); auto.
    + rewrite IH; auto.
      * simpl. now rewrite <- app_assoc.
      * intros pre c suf E. specialize (Hk (x :: pre) c suf).
        simpl in Hk. rewrite <- app_assoc in Hk. apply Hk. now rewrite E.
    + apply (Hk [] x xs). reflexivity.
Qed.

(** A greedy quantifier over a one-character atom takes a whole run of
    matching characters when the continuation accepts after it. *)
Lemma greedy_run mr p (k : cont) xs :
  char_atom mr p ->
  forall fuel mn mx bef rest cs z,
  forallb p xs = true ->
  match rest with [] => true | c :: _ => negb (p c) end = true ->
  mn <= List.length xs ->
  match mx with None => True | Some n => List.length xs <= n end ->
  List.length xs < fuel ->
  k (MState (rev xs ++ bef) rest cs) = Some z ->
  repeat_matcher mr [] true k fuel mn mx (MState bef (xs ++ rest) cs) = Some z.
Proof.
  intros Hmr. induction xs as [|x xs IH]; intros fuel mn mx bef rest cs z Hp Hrest Hmn Hmx Hfuel Hk.
  - simpl in *. assert (mn = 0) by lia. subst mn.
    destruct fuel as [|fuel]; [lia|].
    destruct mx as [[|n]|]; simpl; auto.
    + rewrite Hmr. unfold match_char. simpl.
      destruct rest as [|c rest]; auto.
      apply negb_true_iff in Hrest. now rewrite Hrest.
    + rewrite Hmr. unfold match_char. simpl.
      destruct rest as [|c rest]; auto.
      apply negb_true_iff in Hrest. now rewrite Hrest.
  - simpl in Hp. apply andb_prop in Hp as [Hx Hxs].
    destruct fuel as [|fuel]; [simpl in Hfuel; lia|].
    assert (Hmx' : match option_map pred mx with
                   | None => True | Some n => List.length xs <= n end).
    { destruct mx as [n|]; simpl in *; auto. lia. }
    assert (Hnz : match mx with Some 0 => False | _ => True end).
    { destruct mx as [[|n]|]; simpl in *; auto. lia. }
    assert (Hrec : repeat_matcher mr [] true k fuel (pred mn) (option_map pred mx)
                     (MState (x :: bef) (xs ++ rest) cs) = Some z).
    { apply IH; auto.
      - simpl in Hmn. lia.
      - simpl in Hfuel. lia.
      - simpl in Hk. now rewrite <- app_assoc in Hk. }
    change ((x :: xs) ++ rest) with (x :: (xs ++ rest)).
    destruct mx as [[|n]|]; [contradiction| |].
    + cbn [repeat_matcher]. rewrite !Hmr. unfold match_char. cbn [after before caps].
      rewrite Hx, clear_caps_nil.
      replace (List.length (xs ++ rest) =? List.length (x :: xs ++ rest)) with false
        by (symmetry; apply Nat.eqb_neq; simpl; lia).
      rewrite andb_false_r. rewrite Hrec.
      destruct (negb (mn =? 0)); reflexivity.
    + cbn [repeat_matcher]. rewrite !Hmr. unfold match_char. cbn [after before caps].
      rewrite Hx, clear_caps_nil.
      replace (List.length (xs ++ rest) =? List.length (x :: xs ++ rest)) with false
        by (symmetry; apply Nat.eqb_neq; simpl; lia).
      rewrite andb_false_r. rewrite Hrec.
      destruct (negb (mn =? 0)); reflexivity.
Qed.

End MatcherFacts.

(** ** Reasoning about search, replace and split *)

Lemma match_at_matched re bef aft r :
  match_at re bef aft = Some r ->
  exists n, matched r = firstn n aft /\ index r = List.length bef.
Proof.
  unfold match_at. destruct (m _ _ _ _) as [e|]; [|discriminate].
  intros E. injection E as <-. simpl. eauto.
Qed.

Lemma match_at_nil_matched re bef r :
  match_at re bef [] = Some r -> matched r = [].
Proof.
  intros H. apply match_at_matched in H as (n & E & _).
  rewrite E. now destruct n.
Qed.

Lemma never_app re xs s :
  (forall pre c suf, xs = pre ++ c :: suf -> rejects re (c :: suf ++ s)) ->
  never re s -> never re (xs ++ s).
Proof.
  induction xs as [|x xs IH]; intros Hxs Hs; simpl; [exact Hs|].
  split.
  - exact (Hxs [] x xs eq_refl).
  - apply IH; [|exact Hs].
    intros pre c suf E. apply (Hxs (x :: pre) c suf). now rewrite E.
Qed.

Lemma never_rejects re s : never re s -> rejects re s.
Proof. destruct s; simpl; tauto. Qed.

Lemma search_never re s : forall bef, never re s -> search re bef s = None.
Proof.
  induction s as [|c s IH]; intros bef H; simpl in *.
  - destruct H as [H _]. now rewrite H.
  - destruct H as [H Hs]. rewrite H. now apply IH.
Qed.

Lemma exec_never re s : never re s -> exec re s = None.
Proof. apply search_never. Qed.

Lemma test_never re s : never re s -> test re s = false.
Proof. intros H. unfold test. now rewrite exec_never. Qed.

Section Replace.

Variables (re : regexp) (f : match_result -> str).

Lemma replace_loop_fuel fuel1 :
  forall fuel2 bef aft,
  List.length aft < fuel1 -> List.length aft < fuel2 ->
  replace_loop re f fuel1 bef aft = replace_loop re f fuel2 bef aft.
Proof.
  induction fuel1 as [|fuel1 IH]; intros fuel2 bef aft H1 H2; [lia|].
  destruct fuel2 as [|fuel2]; [lia|].
  simpl. destruct (match_at re bef aft) as [r|] eqn:E.
  - apply match_at_matched in E as (n & E & _).
    f_equal. rewrite E.
    destruct aft as [|c aft].
    + rewrite firstn_nil. reflexivity.
    + destruct (List.length (firstn n (c :: aft))) as [|n'] eqn:En.
      * f_equal. apply IH; simpl in *; lia.
      * apply IH; rewrite length_skipn; simpl in *; lia.
  - destruct aft as [|c aft]; [reflexivity|].
    f_equal. apply IH; simpl in *; lia.
Qed.

Lemma replace_all_from s : replace_all re f s = replace_from re f [] s.
Proof. reflexivity. Qed.

Lemma replace_from_nil bef :
  replace_from re f bef [] =
  match match_at re bef [] with Some r => f r | None => [] end.
Proof.
  unfold replace_from. simpl. destruct (match_at re bef []) as [r|] eqn:E; [|reflexivity].
  apply match_at_nil_matched in E. rewrite E. simpl. apply app_nil_r.
Qed.

Lemma replace_from_skip bef c aft :
  match_at re bef (c :: aft) = None ->
  replace_from re f bef (c :: aft) = c :: replace_from re f (c :: bef) aft.
Proof.
  intros E. unfold replace_from at 1. cbn [replace_loop]. rewrite E. reflexivity.
Qed.

Lemma replace_from_match bef xs rest r :
  match_at re bef (xs ++ rest) = Some r ->
  matched r = xs -> xs <> [] ->
  replace_from re f bef (xs ++ rest) = f r ++ replace_from re f (rev xs ++ bef) rest.
Proof.
  intros E Hm Hne. unfold replace_from at 1. cbn [replace_loop]. rewrite E, Hm.
  f_equal.
  destruct xs as [|x xs]; [congruence|].
  cbn [List.length]. 
  assert (Hf : firstn (S (List.length xs)) ((x :: xs) ++ rest) = x :: xs).
  { change (S (List.length xs)) with (List.length (x :: xs)).
    rewrite firstn_app, Nat.sub_diag, firstn_all. simpl. now rewrite app_nil_r. }
  assert (Hs : skipn (S (List.length xs)) ((x :: xs) ++ rest) = rest).
  { change (S (List.length xs)) with (List.length (x :: xs)).
    rewrite skipn_app, Nat.sub_diag, skipn_all. reflexivity. }
  change ((x :: xs) ++ rest) with (x :: xs ++ rest) in *.
  rewrite Hf, Hs. unfold replace_from.
  apply replace_loop_fuel; cbn [List.length app]; rewrite ?length_app; lia.
Qed.

Lemma replace_from_never s : forall bef, never re s -> replace_from re f bef s = s.
Proof.
  induction s as [|c s IH]; intros bef H.
  - rewrite replace_from_nil. destruct H as [H _]. now rewrite H.
  - destruct H as [H Hs]. rewrite replace_from_skip by apply H.
    f_equal. now apply IH.
Qed.

Lemma replace_all_never s : never re s -> replace_all re f s = s.
Proof. apply replace_from_never. Qed.

(** Stepping over a run of characters at which no match starts. *)
Lemma replace_from_run xs : forall bef rest,
  (forall pre c suf, xs = pre ++ c :: suf -> rejects re (c :: suf ++ rest)) ->
  replace_from re f bef (xs ++ rest) = xs ++ replace_from re f (rev xs ++ bef) rest.
Proof.
  induction xs as [|x xs IH]; intros bef rest H; [reflexivity|].
  change ((x :: xs) ++ rest) with (x :: xs ++ rest).
  rewrite replace_from_skip by apply (H [] x xs eq_refl).
  rewrite IH.
  - simpl. now rewrite <- app_assoc.
  - intros pre c suf E. apply (H (x :: pre) c suf). now rewrite E.
Qed.

End Replace.

Lemma firstn_length_firstn (A : Type) (n : nat) (l : list A) :
  firstn (List.length (firstn n l)) l = firstn n l.
Proof.
  revert l. induction n as [|n IH]; intros [|x l]; simpl; auto.
  now rewrite IH.
Qed.

(** Replacing every match by itself changes nothing. *)
Lemma replace_loop_self re (f : match_result -> str) :
  (forall r, f r = matched r) ->
  forall fuel bef aft, replace_loop re f fuel bef aft = aft.
Proof.
  intros Hf. induction fuel as [|fuel IH]; intros bef aft; [reflexivity|].
  simpl. destruct (match_at re bef aft) as [r|] eqn:E.
  - rewrite Hf. apply match_at_matched in E as (n & E & _). rewrite E.
    destruct aft as [|c aft].
    + now rewrite firstn_nil.
    + destruct (List.length (firstn n (c :: aft))) as [|n'] eqn:En.
      * apply length_zero_iff_nil in En. rewrite En. simpl. now rewrite IH.
      * rewrite IH. rewrite <- En.
        etransitivity;
          [|apply (firstn_skipn (List.length (firstn n (c :: aft))))].
        f_equal. symmetry. apply firstn_length_firstn.
  - destruct aft as [|c aft]; [reflexivity|]. now rewrite IH.
Qed.

Lemma replace_all_self re (f : match_result -> str) s :
  (forall r, f r = matched r) -> replace_all re f s = s.
Proof. intros Hf. now apply replace_loop_self. Qed.

(** ** The matcher only moves to the right *)

Lemma ext_refl st : ext st st.
Proof. exists []. split; reflexivity. Qed.

Lemma ext_trans a b c : ext a b -> ext b c -> ext a c.
Proof.
  intros (xs & H1 & H2) (ys & H3 & H4). exists (xs ++ ys). split.
  - rewrite H1, H3. now rewrite app_assoc.
  - rewrite H4, H2, rev_app_distr. now rewrite app_assoc.
Qed.

Lemma ext_caps bef aft cs cs' st' :
  ext (MState bef aft cs) st' -> ext (MState bef aft cs') st'.
Proof. intros (xs & H1 & H2). exists xs. split; assumption. Qed.

Lemma ext_step bef c aft cs cs' :
  ext (MState bef (c :: aft) cs) (MState (c :: bef) aft cs').
Proof. exists [c]. split; reflexivity. Qed.

Lemma ext_advance n st : ext st (advance n st).
Proof.
  revert st. induction n as [|n IH]; intros [bef aft cs]; simpl.
  - destruct aft; apply ext_refl.
  - destruct aft as [|c aft]; [apply ext_refl|].
    eapply ext_trans; [apply ext_step | apply (IH (MState (c :: bef) aft cs))].
Qed.

Lemma ext_length st st' : ext st st' -> List.length (after st') <= List.length (after st).
Proof. intros (xs & H & _). rewrite H, length_app. lia. Qed.

Section Monotone.

Variable fl : flags.

Lemma match_char_fail p (k : cont) st :
  (forall st', ext st st' -> k st' = None) -> match_char p k st = None.
Proof.
  intros H. unfold match_char. destruct st as [bef [|c aft] cs]; simpl; [reflexivity|].
  destruct (p c); [|reflexivity]. apply H. apply ext_step.
Qed.

Lemma repeat_matcher_fail mr ids greedy (k : cont) :
  (forall d st, (forall st', ext st st' -> d st' = None) -> mr d st = None) ->
  forall fuel mn mx x,
  (forall st', ext x st' -> k st' = None) ->
  repeat_matcher mr ids greedy k fuel mn mx x = None.
Proof.
  intros Hmr. induction fuel as [|fuel IH]; intros mn mx x Hk.
  - simpl. destruct mx as [[|n]|]; auto. apply Hk, ext_refl.
  - assert (Hd : mr (fun y =>
        if (mn =? 0) && (List.length (after y) =? List.length (after x)) then None
        else repeat_matcher mr ids greedy k fuel (pred mn) (option_map pred mx) y)
        (MState (before x) (after x) (clear_caps ids (caps x))) = None).
    { apply Hmr. intros y Hy.
      destruct ((mn =? 0) && _); [reflexivity|].
      apply IH. intros st' Hst'. apply Hk.
      eapply ext_trans; [|exact Hst'].
      destruct x as [bef aft cs]. eapply ext_caps, Hy. }
    cbn [repeat_matcher].
    destruct mx as [[|n]|].
    + apply Hk, ext_refl.
    + rewrite Hd, (Hk x (ext_refl x)). destruct (negb (mn =? 0)), greedy; reflexivity.
    + rewrite Hd, (Hk x (ext_refl x)). destruct (negb (mn =? 0)), greedy; reflexivity.
Qed.

(** If the continuation fails at every position to the right, so does the
    match. *)
Lemma m_fail r : forall (k : cont) st,
  (forall st', ext st st' -> k st' = None) -> m fl r k st = None.
Proof.
  induction r; intros k st Hk; cbn [m].
  - apply Hk, ext_refl.
  - now apply match_char_fail.
  - now apply match_char_fail.
  - now apply match_char_fail.
  - apply IHr1. intros s1 H1. apply IHr2. intros s2 H2.
    apply Hk. eapply ext_trans; eassumption.
  - rewrite IHr1 by assumption. now apply IHr2.
  - apply repeat_matcher_fail; [|assumption]. intros d x Hd. now apply IHr.
  - apply IHr. intros y Hy. apply Hk.
    destruct Hy as (xs & H1 & H2). exists xs. split; assumption.
  - destruct (get_cap i (caps st)); [|apply Hk, ext_refl].
    destruct (prefix_eq fl s (after st)); [|reflexivity].
    apply Hk, ext_advance.
  - destruct (at_bol fl st); [apply Hk, ext_refl | reflexivity].
  - destruct (at_eol fl st); [apply Hk, ext_refl | reflexivity].
  - destruct (m fl r (fun y => Some y) st); [reflexivity | apply Hk, ext_refl].
  - destruct (before st) as [|b bef]; [apply Hk, ext_refl|].
    destruct (char_eq fl c b); [reflexivity | apply Hk, ext_refl].
Qed.

End Monotone.

Section Adequacy.

Variable fl : flags.

Lemma match_char_rightward p : rightward (match_char p).
Proof.
  intros d d' [bef [|c aft] cs] H; unfold match_char; simpl; [reflexivity|].
  destruct (p c); [|reflexivity]. apply H, ext_step.
Qed.

Lemma repeat_matcher_ext mr ids greedy :
  rightward mr ->
  forall fuel (k k' : cont) mn mx x,
  (forall st', ext x st' -> k st' = k' st') ->
  repeat_matcher mr ids greedy k fuel mn mx x =
  repeat_matcher mr ids greedy k' fuel mn mx x.
Proof.
  intros Hmr. induction fuel as [|fuel IH]; intros k k' mn mx x Hk.
  - simpl. destruct mx as [[|n]|]; auto. apply Hk, ext_refl.
  - assert (Hd : mr (fun y =>
        if (mn =? 0) && (List.length (after y) =? List.length (after x)) then None
        else repeat_matcher mr ids greedy k fuel (pred mn) (option_map pred mx) y)
        (MState (before x) (after x) (clear_caps ids (caps x))) =
      mr (fun y =>
        if (mn =? 0) && (List.length (after y) =? List.length (after x)) then None
        else repeat_matcher mr ids greedy k' fuel (pred mn) (option_map pred mx) y)
        (MState (before x) (after x) (clear_caps ids (caps x)))).
    { apply Hmr. intros y Hy.
      destruct ((mn =? 0) && _); [reflexivity|].
      apply IH. intros st' Hst'. apply Hk.
      eapply ext_trans; [|exact Hst'].
      destruct x as [bef aft cs]. eapply ext_caps, Hy. }
    cbn [repeat_matcher].
    destruct mx as [[|n]|].
    + apply Hk, ext_refl.
    + rewrite Hd, (Hk x (ext_refl x)). reflexivity.
    + rewrite Hd, (Hk x (ext_refl x)). reflexivity.
Qed.

Lemma m_rightward r : rightward (m fl r).
Proof.
  induction r; intros k k' st Hk; cbn [m].
  - apply Hk, ext_refl.
  - now apply match_char_rightward.
  - now apply match_char_rightward.
  - now apply match_char_rightward.
  - apply IHr1. intros s1 H1. apply IHr2. intros s2 H2.
    apply Hk. eapply ext_trans; eassumption.
  - rewrite (IHr1 k k' st Hk). now rewrite (IHr2 k k' st Hk).
  - now apply repeat_matcher_ext.
  - apply IHr. intros y Hy. apply Hk.
    destruct Hy as (xs & H1 & H2). exists xs. split; assumption.
  - destruct (get_cap i (caps st)); [|apply Hk, ext_refl].
    destruct (prefix_eq fl s (after st)); [|reflexivity].
    apply Hk, ext_advance.
  - destruct (at_bol fl st); [apply Hk, ext_refl | reflexivity].
  - destruct (at_eol fl st); [apply Hk, ext_refl | reflexivity].
  - destruct (m fl r (fun y => Some y) st); [reflexivity | apply Hk, ext_refl].
  - destruct (before st) as [|b bef]; [apply Hk, ext_refl|].
    destruct (char_eq fl c b); [reflexivity | apply Hk, ext_refl].
Qed.

(** The fuel that [m] gives to a quantifier is enough: any larger amount
    yields the same result, so the matcher never fails for lack of it. *)
Lemma repeat_matcher_fuel mr ids greedy (k : cont) :
  rightward mr ->
  forall fuel1 fuel2 mn mx x,
  mn + List.length (after x) < fuel1 ->
  mn + List.length (after x) < fuel2 ->
  repeat_matcher mr ids greedy k fuel1 mn mx x =
  repeat_matcher mr ids greedy k fuel2 mn mx x.
Proof.
  intros Hmr. induction fuel1 as [|fuel1 IH]; intros fuel2 mn mx x H1 H2; [lia|].
  destruct fuel2 as [|fuel2]; [lia|].
  assert (Hd : mr (fun y =>
        if (mn =? 0) && (List.length (after y) =? List.length (after x)) then None
        else repeat_matcher mr ids greedy k fuel1 (pred mn) (option_map pred mx) y)
        (MState (before x) (after x) (clear_caps ids (caps x))) =
      mr (fun y =>
        if (mn =? 0) && (List.length (after y) =? List.length (after x)) then None
        else repeat_matcher mr ids greedy k fuel2 (pred mn) (option_map pred mx) y)
        (MState (before x) (after x) (clear_caps ids (caps x)))).
  { apply Hmr. intros y Hy. apply ext_length in Hy. simpl in Hy.
    destruct (mn =? 0) eqn:Emn; simpl.
    - apply Nat.eqb_eq in Emn. subst mn.
      destruct (List.length (after y) =? List.length (after x)) eqn:El; [reflexivity|].
      apply Nat.eqb_neq in El. apply IH; simpl in *; lia.
    - apply Nat.eqb_neq in Emn. apply IH; lia. }
  cbn [repeat_matcher]. rewrite Hd. reflexivity.
Qed.

End Adequacy.

(** ** Characters *)

Ltac char_cases :=
  repeat match goal with
  | |- context [N.eqb ?a ?b] => destruct (N.eqb_spec a b)
  | |- context [N.leb ?a ?b] => destruct (N.leb_spec a b)
  | H : context [N.eqb ?a ?b] |- _ => destruct (N.eqb_spec a b)
  | H : context [N.leb ?a ?b] |- _ => destruct (N.leb_spec a b)
  end; simpl in *; try reflexivity; try discriminate; try lia.

Lemma char_eq_lb fl c : char_eq fl lb c = (c =? lb)%N.
Proof.
  unfold char_eq, canon, to_upper, lb. destruct (icase fl); char_cases.
Qed.

Lemma class_digit fl c : class_mem fl [IDigit] c = is_digit c.
Proof.
  unfold class_mem, items_mem, item_mem, existsb, is_digit, to_upper, to_lower.
  destruct (icase fl); char_cases.
Qed.

Lemma is_space_false_range x : (33 <= x <= 159)%N -> is_space x = false.
Proof.
  intros H. unfold is_space.
  repeat (apply orb_false_intro);
    first [ apply N.eqb_neq; lia | apply andb_false_intro1; apply N.leb_gt; lia ].
Qed.

Lemma class_space fl c : class_mem fl [ISpace] c = is_space c.
Proof.
  unfold class_mem, items_mem, item_mem, existsb.
  destruct (icase fl); [|now rewrite orb_false_r].
  rewrite !orb_false_r.
  destruct (is_space c) eqn:E; [reflexivity|]. simpl.
  assert (Hu : is_space (to_upper c) = false).
  { unfold to_upper. destruct ((97 <=? c)%N && (c <=? 122)%N) eqn:E1; [|exact E].
    apply andb_prop in E1 as [A B]. apply N.leb_le in A, B.
    apply is_space_false_range. lia. }
  assert (Hl : is_space (to_lower c) = false).
  { unfold to_lower. destruct ((65 <=? c)%N && (c <=? 90)%N) eqn:E1; [|exact E].
    apply andb_prop in E1 as [A B]. apply N.leb_le in A, B.
    apply is_space_false_range. lia. }
  now rewrite Hu, Hl.
Qed.

Lemma digit_not_lb c : is_digit c = true -> (c =? lb)%N = false.
Proof. unfold is_digit, lb. char_cases. Qed.

Lemma all_digits_no_lb s : all_digits s = true -> no_lb s = true.
Proof.
  unfold all_digits, no_lb. induction s as [|c s IH]; simpl; [reflexivity|].
  intros H. apply andb_prop in H as [H1 H2].
  now rewrite (digit_not_lb _ H1), IH.
Qed.

Lemma no_brackets_no_lb s : no_brackets s = true -> no_lb s = true.
Proof.
  unfold no_brackets, no_lb. induction s as [|c s IH]; simpl; [reflexivity|].
  intros H. apply andb_prop in H as [H1 H2]. apply andb_prop in H1 as [H1 _].
  now rewrite H1, IH.
Qed.

Lemma no_lb_app a b : no_lb (a ++ b) = no_lb a && no_lb b.
Proof. apply forallb_app. Qed.

Lemma starts_lb_inv o : starts_lb o = true -> exists o', o = lb :: o'.
Proof.
  destruct o as [|c o]; [discriminate|]. simpl. intros H.
  apply N.eqb_eq in H. subst c. now exists o.
Qed.

Lemma prefix_eq_lb fl o c aft :
  starts_lb o = true -> (c =? lb)%N = false -> prefix_eq fl o (c :: aft) = false.
Proof.
  intros Ho H. apply starts_lb_inv in Ho as [o' ->]. simpl. now rewrite char_eq_lb, H.
Qed.

Lemma prefix_eq_lb_nil fl o : starts_lb o = true -> prefix_eq fl o [] = false.
Proof. intros Ho. apply starts_lb_inv in Ho as [o' ->]. reflexivity. Qed.

Lemma absent_nil fl o rest : absent fl o [] rest.
Proof. intros [|y pre] c suf E; discriminate. Qed.

Lemma absent_cons fl o x xs rest :
  prefix_eq fl o (x :: xs ++ rest) = false -> absent fl o xs rest ->
  absent fl o (x :: xs) rest.
Proof.
  intros H1 H2 [|y pre] c suf E; simpl in E; injection E as -> ->.
  - exact H1.
  - now apply (H2 pre c suf).
Qed.

Lemma absent_app fl o xs ys rest :
  absent fl o xs (ys ++ rest) -> absent fl o ys rest -> absent fl o (xs ++ ys) rest.
Proof.
  induction xs as [|x xs IH]; intros H1 H2; simpl; [exact H2|].
  apply absent_cons.
  - rewrite <- app_assoc. exact (H1 [] x xs eq_refl).
  - apply IH; [|exact H2].
    intros pre c suf E. apply (H1 (x :: pre) c suf). now rewrite E.
Qed.

Lemma absent_no_lb fl o xs rest :
  starts_lb o = true -> no_lb xs = true -> absent fl o xs rest.
Proof.
  intros Ho. unfold no_lb. induction xs as [|x xs IH]; intros H; [apply absent_nil|].
  simpl in H. apply andb_prop in H as [H1 H2].
  apply absent_cons; [|now apply IH].
  apply prefix_eq_lb; [exact Ho|]. now apply negb_true_iff.
Qed.

(** ** Patterns that open with a literal *)

Section Literal.

Variables (fl : flags) (o : str) (R : regex).

Lemma rejects_prefix aft : prefix_eq fl o aft = false -> rejects (lit_re fl o R) aft.
Proof.
  intros H bef. unfold match_at. simpl. rewrite m_lit_chars. simpl. now rewrite H.
Qed.

Lemma never_absent xs rest :
  absent fl o xs rest -> never (lit_re fl o R) rest -> never (lit_re fl o R) (xs ++ rest).
Proof.
  intros H. apply never_app. intros pre c suf E. apply rejects_prefix. eauto.
Qed.

Lemma never_cons_prefix c aft :
  prefix_eq fl o (c :: aft) = false -> never (lit_re fl o R) aft ->
  never (lit_re fl o R) (c :: aft).
Proof. intros H1 H2. split; [now apply rejects_prefix | exact H2]. Qed.

Lemma never_nil_prefix : prefix_eq fl o [] = false -> never (lit_re fl o R) [].
Proof. intros H. split; [now apply rejects_prefix | exact I]. Qed.

Lemma m_lit_ok (k : cont) st z :
  prefix_eq fl o (after st) = true ->
  m fl R k (advance (List.length o) st) = Some z ->
  m fl (Seq (lit_chars o) R) k st = Some z.
Proof. intros H1 H2. cbn [m]. now rewrite m_lit_chars, H1. Qed.

End Literal.

Lemma ext_no_lb st st' : ext st st' -> no_lb (after st) = true -> no_lb (after st') = true.
Proof.
  intros (xs & H & _) Hn. rewrite H, no_lb_app in Hn.
  now apply andb_prop in Hn as [_ Hn].
Qed.

Lemma requires_lb_lit fl o R :
  starts_lb o = true -> requires_lb fl (Seq (lit_chars o) R).
Proof.
  intros Ho k st H. cbn [m]. rewrite m_lit_chars.
  destruct (after st) as [|c aft]; [now rewrite prefix_eq_lb_nil|].
  simpl in H. apply andb_prop in H as [H _]. apply negb_true_iff in H.
  now rewrite prefix_eq_lb.
Qed.

Lemma requires_lb_seq fl R1 R2 : requires_lb fl R2 -> requires_lb fl (Seq R1 R2).
Proof.
  intros H k st Hn. cbn [m]. apply m_fail. intros st' Hext.
  apply H. eapply ext_no_lb; eassumption.
Qed.

Lemma opens_lit_re fl o R : opens_with fl o (lit_re fl o R).
Proof. intros aft. apply rejects_prefix. Qed.

Lemma opens_lit fl o : opens_with fl o {| source := lit_chars o; reflags := fl |}.
Proof.
  intros aft H bef. unfold match_at. simpl. rewrite m_lit_chars. simpl. now rewrite H.
Qed.

Lemma never_opens_absent fl o re xs rest :
  opens_with fl o re -> absent fl o xs rest -> never re rest -> never re (xs ++ rest).
Proof.
  intros Ho H. apply never_app. intros pre c suf E. apply Ho. eauto.
Qed.

Lemma never_no_lb fl o re s :
  opens_with fl o re -> starts_lb o = true -> no_lb s = true -> never re s.
Proof.
  intros Ho Hs H. rewrite <- (app_nil_r s). eapply never_opens_absent; eauto.
  - now apply absent_no_lb.
  - split; [|exact I]. apply Ho. now apply prefix_eq_lb_nil.
Qed.

(** A text with two opening brackets, neither of which starts [o]. *)
Lemma never_tagged fl o re a b :
  opens_with fl o re -> starts_lb o = true ->
  no_lb a = true -> no_lb b = true ->
  prefix_eq fl o (lb :: a ++ lb :: b) = false ->
  prefix_eq fl o (lb :: b) = false ->
  never re (lb :: a ++ lb :: b).
Proof.
  intros Ho Hs Ha Hb H1 H2. split; [now apply Ho|].
  eapply never_opens_absent; eauto.
  - now apply absent_no_lb.
  - split; [now apply Ho|]. eapply never_no_lb; eauto.
Qed.

(** With a single opening bracket in the text, a pattern that needs a
    second one matches nowhere. *)
Lemma never_one_lb fl o R c aft :
  starts_lb o = true -> no_lb aft = true -> requires_lb fl R ->
  never (lit_re fl o R) (c :: aft).
Proof.
  intros Hs Hn HR. split; [|eapply never_no_lb; eauto using opens_lit_re].
  intros bef. unfold match_at. cbn [source reflags lit_re m].
  replace (m fl (lit_chars o) (fun st' => m fl R (fun y => Some y) st')
             (MState bef (c :: aft) [])) with (@None mstate); [reflexivity|].
  symmetry. apply starts_lb_inv in Hs as [o' ->].
  cbn [lit_chars m]. unfold match_char. cbn [after before caps].
  destruct (char_eq fl lb c); [|reflexivity].
  apply m_fail. intros st' Hext. apply HR.
  apply (ext_no_lb _ _ Hext). exact Hn.
Qed.

Section Shapes.

Variable fl : flags.

(** A captured greedy run of a character class. *)
Lemma m_group_greedy i neg items mn mx R (k : cont) bef xs rest cs z :
  forallb (fun c => xorb neg (class_mem fl items c)) xs = true ->
  match rest with [] => true | c :: _ => negb (xorb neg (class_mem fl items c)) end = true ->
  mn <= List.length xs ->
  match mx with None => True | Some n => List.length xs <= n end ->
  m fl R k (MState (rev xs ++ bef) rest (set_cap i xs cs)) = Some z ->
  m fl (Seq (Group i (Rep (Class neg items) mn mx true)) R) k (MState bef (xs ++ rest) cs)
  = Some z.
Proof.
  intros Hxs Hrest Hmn Hmx Hk. cbn [m groups after].
  eapply greedy_run with (p := fun c => xorb neg (class_mem fl items c)); auto.
  - apply char_atom_Class.
  - rewrite length_app. lia.
  - cbn [after before caps]. rewrite firstn_app_exact. exact Hk.
Qed.

Lemma m_greedy neg items mn mx R (k : cont) bef xs rest cs z :
  forallb (fun c => xorb neg (class_mem fl items c)) xs = true ->
  match rest with [] => true | c :: _ => negb (xorb neg (class_mem fl items c)) end = true ->
  mn <= List.length xs ->
  match mx with None => True | Some n => List.length xs <= n end ->
  m fl R k (MState (rev xs ++ bef) rest cs) = Some z ->
  m fl (Seq (Rep (Class neg items) mn mx true) R) k (MState bef (xs ++ rest) cs)
  = Some z.
Proof.
  intros Hxs Hrest Hmn Hmx Hk. cbn [m groups after].
  eapply greedy_run with (p := fun c => xorb neg (class_mem fl items c)); auto.
  - apply char_atom_Class.
  - rewrite length_app. lia.
Qed.

(** A captured lazy run of any characters up to the first place where the
    literal [o] starts. *)
Lemma m_group_lazy i o R (k : cont) bef body rest cs z :
  absent fl o body rest ->
  m fl (Seq (lit_chars o) R) k (MState (rev body ++ bef) rest (set_cap i body cs)) = Some z ->
  m fl (Seq (Group i (lazy_star any)) (Seq (lit_chars o) R)) k (MState bef (body ++ rest) cs)
  = Some z.
Proof.
  intros Habs Hk. cbn [m]. unfold lazy_star. cbn [m groups after Nat.add].
  replace (S (List.length (body ++ rest))) with (List.length body + S (List.length rest))
    by (rewrite length_app; lia).
  rewrite lazy_skip with (p := fun _ => true).
  - apply lazy_stop. cbn [after before caps]. rewrite firstn_app_exact. exact Hk.
  - apply char_atom_any.
  - apply forallb_forall. reflexivity.
  - intros pre c suf E. cbn [after before caps].
    rewrite m_lit_chars. cbn [after]. now rewrite (Habs pre c suf E).
Qed.

End Shapes.

(** ** Whole-input matches *)

Lemma replace_all_whole re f s r :
  match_at re [] s = Some r -> matched r = s -> s <> [] -> rejects re [] ->
  replace_all re f s = f r.
Proof.
  intros E Hm Hne Hrej. rewrite replace_all_from.
  rewrite <- (app_nil_r s) at 1.
  rewrite (@replace_from_match re f [] s [] r); auto.
  - rewrite replace_from_nil, Hrej. apply app_nil_r.
  - now rewrite app_nil_r.
Qed.

Lemma match_at_whole re s cs :
  m (reflags re) (source re) (fun y => Some y) (MState [] s []) = Some (MState (rev s) [] cs) ->
  match_at re [] s = Some (MatchResult 0 s cs).
Proof.
  intros H. unfold match_at. rewrite H. cbn [after caps List.length].
  now rewrite Nat.sub_0_r, firstn_all.
Qed.

Lemma protect_rule_none fuel rl text st counter :
  exec (start rl) text = None ->
  protect_rule fuel rl text st counter = Some (text, st, counter).
Proof. intros H. destruct fuel; simpl; rewrite H; reflexivity. Qed.

Lemma restore_empty s : restore [] s = s.
Proof. apply replace_all_self. reflexivity. Qed.

Ltac eval_js :=
  repeat match goal with
  | |- context [js ?s] =>
      let v := eval vm_compute in (js s) in change (js s) with v
  end.

Ltac list_norm :=
  repeat first [ progress cbn [rev app] | rewrite rev_app_distr | rewrite <- app_assoc ].

(** A quantifier over a one-character atom fails when the continuation
    fails after every prefix of the run that the quantifier may take. *)
Lemma greedy_fail mr p greedy (k : cont) xs :
  char_atom mr p ->
  forall fuel mn mx bef rest cs,
  forallb p xs = true ->
  match rest with [] => true | c :: _ => negb (p c) end = true ->
  (forall pre suf, xs = pre ++ suf -> within mx (List.length pre) ->
     k (MState (rev pre ++ bef) (suf ++ rest) cs) = None) ->
  repeat_matcher mr [] greedy k fuel mn mx (MState bef (xs ++ rest) cs) = None.
Proof.
  intros Hmr. induction xs as [|x xs IH]; intros fuel mn mx bef rest cs Hp Hrest Hk.
  - assert (Hk0 : k (MState bef rest cs) = None).
    { apply (Hk [] [] eq_refl). destruct mx; simpl; [lia | exact I]. }
    simpl.
    assert (Hfail : forall d, mr d (MState bef rest (clear_caps [] cs)) = None).
    { intros d. rewrite Hmr. unfold match_char. simpl.
      destruct rest as [|c rest]; auto. apply negb_true_iff in Hrest. now rewrite Hrest. }
    destruct mx as [[|n]|]; auto; destruct fuel as [|fuel]; cbn [repeat_matcher]; auto;
      cbn [before after caps]; rewrite Hfail, Hk0;
      destruct (negb (mn =? 0)), greedy; reflexivity.
  - simpl in Hp. apply andb_prop in Hp as [Hx Hxs].
    assert (Hk0 : k (MState bef ((x :: xs) ++ rest) cs) = None).
    { apply (Hk [] (x :: xs) eq_refl). destruct mx; simpl; [lia | exact I]. }
    change ((x :: xs) ++ rest) with (x :: xs ++ rest) in *.
    assert (Hrec : forall fuel' mn',
               match mx with Some 0 => True | _ =>
               repeat_matcher mr [] greedy k fuel' mn' (option_map pred mx)
                 (MState (x :: bef) (xs ++ rest) cs) = None end).
    { intros. destruct mx as [[|n]|]; [exact I| |].
      - apply IH; auto.
        intros pre suf E Hw. specialize (Hk (x :: pre) suf). simpl in Hk.
        rewrite <- app_assoc in Hk. apply Hk; [now rewrite E | simpl in *; lia].
      - apply IH; auto.
        intros pre suf E Hw. specialize (Hk (x :: pre) suf). simpl in Hk.
        rewrite <- app_assoc in Hk. apply Hk; [now rewrite E | exact I]. }
    destruct mx as [[|n]|]; auto; destruct fuel as [|fuel]; cbn [repeat_matcher]; auto;
      cbn [before after caps]; rewrite !Hmr; unfold match_char; cbn [before after caps];
      rewrite Hx, clear_caps_nil;
      specialize (Hrec fuel (pred mn)); cbv beta iota in Hrec; rewrite Hrec, Hk0;
      destruct ((mn =? 0) && _), (negb (mn =? 0)), greedy; reflexivity.
Qed.

(** The longest prefix of characters that satisfy [p]. *)
Lemma span_split (p : char -> bool) s :
  exists xs rest, s = xs ++ rest /\ forallb p xs = true /\
             match rest with [] => true | c :: _ => negb (p c) end = true.
Proof.
  induction s as [|c s (xs & rest & E & H1 & H2)].
  - exists [], []. auto.
  - destruct (p c) eqn:Ec.
    + exists (c :: xs), rest. simpl. rewrite Ec, H1. repeat split; auto. now f_equal.
    + exists [], (c :: s). simpl. rewrite Ec. auto.
Qed.

Lemma trimStart_split s :
  exists sp, s = sp ++ trimStart s /\ forallb is_space sp = true /\
             match trimStart s with [] => true | c :: _ => negb (is_space c) end = true.
Proof.
  induction s as [|c s (sp & E & H1 & H2)]; simpl.
  - exists []. auto.
  - destruct (is_space c) eqn:Ec.
    + exists (c :: sp). simpl. rewrite Ec, H1. repeat split; auto. now f_equal.
    + exists []. simpl. rewrite Ec. auto.
Qed.

(** An optional pattern character. *)
Lemma m_opt_chr fl c R (k : cont) bef x more cs :
  m fl (Seq (opt (Chr c)) R) k (MState bef (x :: more) cs) =
  match (if char_eq fl c x then m fl R k (MState (x :: bef) more cs) else None) with
  | Some z => Some z
  | None => m fl R k (MState bef (x :: more) cs)
  end.
Proof.
  unfold opt. cbn [m groups after Nat.add].
  cbn [repeat_matcher Nat.eqb negb andb option_map pred before after caps].
  unfold match_char. cbn [before after caps]. rewrite clear_caps_nil.
  destruct (char_eq fl c x); [|reflexivity].
  replace (List.length more =? List.length (x :: more)) with false
    by (symmetry; apply Nat.eqb_neq; simpl; lia).
  reflexivity.
Qed.

Lemma m_opt_chr_nil fl c R (k : cont) bef cs :
  m fl (Seq (opt (Chr c)) R) k (MState bef [] cs) = m fl R k (MState bef [] cs).
Proof.
  unfold opt. cbn [m groups after Nat.add List.length].
  cbn [repeat_matcher Nat.eqb negb andb option_map pred before after caps].
  unfold match_char. cbn [before after caps]. reflexivity.
Qed.

Lemma rejects_br body rest :
  no_brackets body = true -> is_br_name body = false ->
  rejects re_br (lb :: body ++ rb :: rest).
Proof.
  intros Hb Hbr bef. unfold match_at, re_br, re_i, seqs, lit. cbn [source reflags].
  eval_js. cbn [m]. rewrite m_lit_chars. cbn [after].
  match goal with |- context [if ?c then _ else _] => destruct c eqn:Ep end; [|reflexivity].
  destruct body as [|c1 [|c2 body]]; try discriminate Ep.
  { cbn [prefix_eq app] in Ep.
    change (char_eq flag_i 114%N rb) with false in Ep.
    rewrite andb_false_l, !andb_false_r in Ep. discriminate. }
  cbn [advance List.length after before caps app].
  assert (E12 : char_eq flag_i (ch "b") c1 && char_eq flag_i (ch "r") c2 = true).
  { cbn [prefix_eq app] in Ep.
    change (char_eq flag_i 91%N lb) with true in Ep. cbn [andb] in Ep.
    change (ch "b") with 98%N. change (ch "r") with 114%N.
    destruct (char_eq flag_i 98%N c1), (char_eq flag_i 114%N c2); auto. }
  unfold is_br_name in Hbr. rewrite E12 in Hbr. cbn [andb] in Hbr.
  cbn in Hb. apply andb_prop in Hb as [_ Hb]. apply andb_prop in Hb as [_ Hb].
  fold (no_brackets body) in Hb.
  destruct (trimStart_split body) as (sp & E & Hsp & Htl).
  assert (Hbtl : no_brackets (trimStart body) = true).
  { rewrite E in Hb. unfold no_brackets in *. rewrite forallb_app in Hb.
    now apply andb_prop in Hb as [_ Hb]. }
  rewrite E. rewrite <- app_assoc.
  match goal with |- match ?X with _ => _ end = None => replace X with (@None mstate); [reflexivity|] end.
  symmetry.
  unfold star, space.
  apply greedy_fail with (p := is_space).
  - intros k st. cbn [m]. unfold match_char. destruct (after st); [reflexivity|].
    cbn [xorb]. now rewrite class_space.
  - exact Hsp.
  - destruct (trimStart body) as [|c tl]; [reflexivity|]. exact Htl.
  - intros pre suf Esp _.
    assert (Hsuf : forallb is_space suf = true).
    { rewrite Esp, forallb_app in Hsp. now apply andb_prop in Hsp as [_ H]. }
    set (tail := suf ++ trimStart body ++ rb :: rest).
    assert (Htail : match tail with
                    | [] => False
                    | x :: more =>
                        (x =? rb)%N = false /\
                        ((x =? ch "/")%N = true ->
                         match more with [] => True | y :: _ => (y =? rb)%N = false end)
                    end).
    { unfold tail. destruct suf as [|x suf].
      - cbn [app]. destruct (trimStart body) as [|x [|y tl]]; [discriminate Hbr| |].
        + cbn [app]. cbn in Hbtl. rewrite andb_true_r in Hbtl.
          apply andb_prop in Hbtl as [_ H]. apply negb_true_iff in H.
          split; [exact H|]. intros Hx. congruence.
        + cbn [app]. cbn in Hbtl. apply andb_prop in Hbtl as [H1 H2].
          apply andb_prop in H1 as [_ H1]. apply andb_prop in H2 as [H2 _].
          apply andb_prop in H2 as [_ H2]. apply negb_true_iff in H1, H2.
          split; [exact H1|]. intros _. exact H2.
      - cbn [app]. cbn in Hsuf. apply andb_prop in Hsuf as [Hx _].
        split.
        + unfold rb. destruct (N.eqb_spec x 93); [subst; discriminate|reflexivity].
        + intros Hx'. apply N.eqb_eq in Hx'. subst x. discriminate. }
    destruct tail as [|x more]; [contradiction|]. destruct Htail as [Hx1 Hx2].
    assert (Hrb : forall y b more' cs', (y =? rb)%N = false ->
              m flag_i (Seq (lit_chars [93%N]) Empty) (fun y => Some y)
                (MState b (y :: more') cs') = None).
    { intros y b more' cs' Hy. cbn [m]. rewrite m_lit_chars. cbn [after prefix_eq].
      replace (char_eq flag_i 93%N y) with false; [reflexivity|].
      symmetry. unfold char_eq, canon, to_upper. cbn [icase flag_i].
      unfold rb in Hy. char_cases. }
    change (m flag_i (Seq (opt (Chr (ch "/"))) (Seq (lit_chars [93%N]) Empty))
              (fun y => Some y) (MState (rev pre ++ c2 :: c1 :: lb :: bef) (x :: more) []) = None).
    rewrite m_opt_chr. rewrite (Hrb x _ _ _ Hx1).
    change (ch "/") with 47%N in *.
    destruct (char_eq flag_i 47%N x) eqn:E47; [|reflexivity].
    assert (Hx47 : (x =? 47)%N = true).
    { unfold char_eq, canon, to_upper in E47. cbn [icase flag_i] in E47.
      char_cases. }
    specialize (Hx2 Hx47).
    destruct more as [|y more].
    + cbn [m]. rewrite m_lit_chars. reflexivity.
    + now rewrite (Hrb y _ _ _ Hx2).
Qed.

Lemma forallb_eq (A : Type) (p q : A -> bool) (l : list A) :
  (forall x, p x = q x) -> forallb p l = forallb q l.
Proof. intros H. induction l as [|x l IH]; simpl; [reflexivity|]. now rewrite H, IH. Qed.

(** Unfolding equations of the matcher. *)
Lemma m_Seq fl r1 r2 k st :
  m fl (Seq r1 r2) k st = m fl r1 (fun st' => m fl r2 k st') st.
Proof. reflexivity. Qed.

Lemma m_Rep fl r mn mx g k st :
  m fl (Rep r mn mx g) k st =
  repeat_matcher (m fl r) (groups r) g k (mn + S (List.length (after st))) mn mx st.
Proof. reflexivity. Qed.

Lemma m_Bol fl k st : m fl Bol k st = if at_bol fl st then k st else None.
Proof. reflexivity. Qed.

Lemma m_Eol fl k st : m fl Eol k st = if at_eol fl st then k st else None.
Proof. reflexivity. Qed.

Lemma m_Empty fl k st : m fl Empty k st = k st.
Proof. reflexivity. Qed.

(** ** The tests of the size callback *)

Lemma search_test re s bef :
  (match search re bef s with Some _ => true | None => false end) =
  existsb (fun b => b)
    ((fix go (bef aft : str) : list bool :=
        (match match_at re bef aft with Some _ => true | None => false end) ::
        match aft with [] => [] | c :: aft' => go (c :: bef) aft' end) bef s).
Proof.
  revert bef. induction s as [|c s IH]; intros bef; simpl.
  - destruct (match_at re bef []); reflexivity.
  - destruct (match_at re bef (c :: s)); [reflexivity|]. simpl. apply IH.
Qed.

Lemma test_re_nl s : test re_nl s = has_newline s.
Proof.
  unfold test, exec. generalize (@nil char) as bef.
  induction s as [|c s IH]; intros bef; simpl; [reflexivity|].
  unfold match_at, re_nl. cbn [source reflags re m]. unfold match_char.
  cbn [after before caps]. unfold char_eq, canon. cbn [icase no_flags].
  rewrite (N.eqb_sym nl c).
  destruct (c =? nl)%N; simpl; [reflexivity|]. apply IH.
Qed.

Lemma char_atom_dot_or_nl fl : char_atom (m fl (Alt Dot (Chr nl))) dot_or_nl.
Proof.
  intros k st. cbn [m]. unfold match_char, dot_or_nl.
  destruct (after st) as [|c aft]; [reflexivity|].
  assert (E : char_eq fl nl c = (c =? nl)%N).
  { unfold char_eq, canon, to_upper, nl. destruct (icase fl); char_cases. }
  rewrite E.
  destruct (is_line_terminator c) eqn:El; simpl; [reflexivity|].
  destruct (c =? nl)%N eqn:En.
  - apply N.eqb_eq in En. subst c. discriminate El.
  - destruct (k _); reflexivity.
Qed.

Lemma test_re_short s :
  test re_short s = (List.length s <=? 120) && forallb dot_or_nl s.
Proof.
  unfold test, exec.
  assert (Hlater : forall aft bef, bef <> [] -> search re_short bef aft = None).
  { induction aft as [|c aft IH]; intros bef Hbef; simpl.
    - unfold match_at, re_short. cbn [source reflags re seqs].
      rewrite m_Seq, m_Bol.
      unfold at_bol. cbn [before multiline no_flags]. destruct bef; [congruence|reflexivity].
    - unfold match_at at 1, re_short. cbn [source reflags re seqs].
      rewrite m_Seq, m_Bol.
      unfold at_bol. cbn [before multiline no_flags].
      destruct bef as [|b bef]; [congruence|]. cbn [andb]. apply IH. discriminate. }
  assert (Hk : forall bef aft cs,
             m no_flags (Seq Eol Empty) (fun y => Some y) (MState bef aft cs) =
             match aft with [] => Some (MState bef aft cs) | _ => None end).
  { intros. rewrite m_Seq, m_Eol, m_Empty. unfold at_eol. cbn [after multiline no_flags].
    destruct aft; reflexivity. }
  assert (Hfirst : match_at re_short [] s =
            if (List.length s <=? 120) && forallb dot_or_nl s
            then Some (MatchResult 0 s []) else None).
  { unfold match_at, re_short. cbn [source reflags re seqs].
    rewrite m_Seq, m_Bol. unfold at_bol. cbn [before]. rewrite m_Seq, m_Rep.
    cbn [groups after app].
    destruct (span_split dot_or_nl s) as (xs & rest & E & Hxs & Hrest).
    destruct ((List.length s <=? 120) && forallb dot_or_nl s) eqn:Ec.
    - apply andb_prop in Ec as [Hl Hall]. apply Nat.leb_le in Hl.
      assert (rest = []).
      { destruct rest as [|c rest]; [reflexivity|].
        rewrite E, forallb_app in Hall. apply andb_prop in Hall as [_ Hall].
        simpl in Hall. apply andb_prop in Hall as [Hc _].
        apply negb_true_iff in Hrest. congruence. }
      subst rest. rewrite app_nil_r in E. subst xs.
      pose proof (greedy_run (m no_flags (Alt Dot (Chr nl))) dot_or_nl
                    (fun st' => m no_flags (Seq Eol Empty) (fun y => Some y) st')
                    s (char_atom_dot_or_nl no_flags)
                    (0 + S (List.length s)) 0 (Some 120) [] [] []
                    (MState (rev s) [] [])) as Hrun.
      rewrite !app_nil_r in Hrun.
      rewrite Hrun; auto; try lia; try (rewrite Hk; reflexivity).
      cbn [after caps List.length]. rewrite Nat.sub_0_r, firstn_all. reflexivity.
    - rewrite E at 2.
      rewrite greedy_fail with (p := dot_or_nl); auto using char_atom_dot_or_nl.
      intros pre suf Exs Hw. simpl in Hw.
      rewrite Hk.
      destruct (suf ++ rest) as [|c tl] eqn:Et; [|reflexivity].
      apply app_eq_nil in Et as [-> ->]. rewrite app_nil_r in *. subst pre. subst xs.
      rewrite Hxs, andb_true_r in Ec. apply Nat.leb_gt in Ec. lia. }
  destruct s as [|c s].
  - cbn [search]. rewrite Hfirst. reflexivity.
  - cbn [search]. rewrite Hfirst.
    destruct ((List.length (c :: s) <=? 120) && forallb dot_or_nl (c :: s)); [reflexivity|].
    rewrite Hlater; [reflexivity | discriminate].
Qed.

Lemma short_single_line s :
  test re_short s && negb (test re_nl s) = (List.length s <=? 120) && single_line s.
Proof.
  rewrite test_re_short, test_re_nl. rewrite <- andb_assoc. f_equal.
  unfold has_newline, single_line, dot_or_nl.
  induction s as [|c s IH]; simpl; [reflexivity|].
  rewrite negb_orb.
  destruct (is_line_terminator c) eqn:El; simpl.
  - destruct (c =? nl)%N; simpl; [apply andb_false_r | reflexivity].
  - destruct (c =? nl)%N eqn:En.
    + apply N.eqb_eq in En. subst c. discriminate El.
    + simpl. exact IH.
Qed.

Ltac skip_pass t tac :=
  match goal with
  | |- context [replace_all ?re ?f t] =>
      replace (replace_all re f t) with t by (symmetry; apply replace_all_never; tac)
  end.

Ltac solve_requires_lb :=
  repeat first [ apply requires_lb_lit; reflexivity | apply requires_lb_seq ].

Ltac skip_tagged t Ha Hb :=
  repeat skip_pass t ltac:(eapply never_tagged;
     [apply opens_lit_re | reflexivity | exact Ha | exact Hb | reflexivity | reflexivity]).

Ltac skip_one_lb t Haft :=
  repeat skip_pass t ltac:(apply never_one_lb;
     [reflexivity | exact Haft | solve_requires_lb]).

Ltac skip_plain t Ht :=
  repeat skip_pass t ltac:(eapply never_no_lb;
     [apply opens_lit_re | reflexivity | exact Ht]).

(** ** Trimming *)

Lemma forallb_rev_eq (A : Type) (p : A -> bool) (l : list A) :
  forallb p (rev l) = forallb p l.
Proof.
  induction l as [|x l IH]; [reflexivity|].
  cbn [rev forallb]. rewrite forallb_app, IH. cbn [forallb].
  rewrite andb_true_r. apply andb_comm.
Qed.

Lemma no_lb_rev s : no_lb (rev s) = no_lb s.
Proof. apply forallb_rev_eq. Qed.

Lemma no_lb_trimStart s : no_lb s = true -> no_lb (trimStart s) = true.
Proof.
  induction s as [|c s IH]; simpl; [reflexivity|]. intros H.
  destruct (is_space c); [|exact H].
  apply andb_prop in H as [_ H]. now apply IH.
Qed.

Lemma no_lb_trim s : no_lb s = true -> no_lb (trim s) = true.
Proof.
  intros H. unfold trim, trimEnd. rewrite no_lb_rev. apply no_lb_trimStart.
  rewrite no_lb_rev. now apply no_lb_trimStart.
Qed.

(** ** Sizes *)

Lemma sizeToHeading_hashes sz h :
  sizeToHeading sz = Some h -> no_lb h = true /\ h <> [].
Proof.
  unfold sizeToHeading. destruct (parseInt sz) as [n|]; [|discriminate].
  destruct (isFinite n); [|discriminate].
  unfold sizeToHashes, first_threshold.
  repeat match goal with
  | |- context [(?a <=? n)%Z] => destruct (a <=? n)%Z
  end; intros E; try discriminate; injection E as <-; split; try reflexivity; discriminate.
Qed.

Lemma size_callback_render sz text : size_callback sz text = size_render sz text.
Proof.
  unfold size_callback, size_render. cbv zeta. rewrite short_single_line.
  destruct (sizeToHeading sz) as [h|] eqn:E; [|reflexivity].
  apply sizeToHeading_hashes in E as [_ E]. destruct h; [congruence | reflexivity].
Qed.

Lemma size_render_no_lb sz text : no_lb text = true -> no_lb (size_render sz text) = true.
Proof.
  intros H. unfold size_render. cbv zeta.
  pose proof (no_lb_trim text H) as Ht.
  destruct (sizeToHeading sz) as [h|] eqn:E; [|exact Ht].
  apply sizeToHeading_hashes in E as [E _].
  destruct (_ && _); [|exact Ht].
  rewrite !no_lb_app, E, Ht. reflexivity.
Qed.

Lemma bgg_size_match sz text :
  sz <> [] -> all_digits sz = true -> List.length sz <= 3 -> no_lb text = true ->
  match_at re_size [] (js "[size=" ++ sz ++ js "]" ++ text ++ js "[/size]") =
  Some (MatchResult 0 (js "[size=" ++ sz ++ js "]" ++ text ++ js "[/size]")
          [(2, text); (1, sz)]).
Proof.
  intros Hne Hsz Hlen Htext.
  apply match_at_whole.
  unfold re_size, re_i, seqs, lit. cbn [source reflags].
  eval_js. cbn [app].
  apply m_lit_ok; [reflexivity|]. cbn [advance List.length after before caps].
  unfold digit.
  apply m_group_greedy.
  - unfold all_digits in Hsz. rewrite <- Hsz. apply forallb_eq.
    intros c. cbn [xorb]. apply class_digit.
  - reflexivity.
  - destruct sz; [congruence | simpl; lia].
  - exact Hlen.
  - apply m_lit_ok; [reflexivity|]. cbn [advance List.length after before caps].
    apply m_group_lazy.
    + apply absent_no_lb; [reflexivity | exact Htext].
    + apply m_lit_ok; [reflexivity|]. cbn [advance List.length after before caps m].
      list_norm. reflexivity.
Qed.

Lemma protect_none fuel t :
  never (re_i (lit "[code]")) t ->
  protectSegments fuel t [rule_code_bgg] = Some (t, []).
Proof.
  intros H. unfold protectSegments, protect_rules.
  rewrite protect_rule_none; [reflexivity|]. apply exec_never. exact H.
Qed.

Lemma size_heading fuel sz text :
  sz <> [] -> all_digits sz = true -> List.length sz <= 3 -> no_lb text = true ->
  bggToMarkdown fuel (js "[size=" ++ sz ++ js "]" ++ text ++ js "[/size]") =
  Some (size_render sz text).
Proof.
  intros Hne Hsz Hlen Htext.
  pose proof (all_digits_no_lb _ Hsz) as Hsz'.
  pose proof (bgg_size_match sz text Hne Hsz Hlen Htext) as Hm.
  set (a := js "size=" ++ sz ++ js "]" ++ text).
  set (b := js "/size]").
  assert (Ha : no_lb a = true).
  { unfold a. rewrite !no_lb_app, Hsz', Htext. reflexivity. }
  assert (Hb : no_lb b = true) by reflexivity.
  assert (E : js "[size=" ++ sz ++ js "]" ++ text ++ js "[/size]" = lb :: a ++ lb :: b).
  { unfold a, b. eval_js. list_norm. reflexivity. }
  rewrite E in *. clear E.
  set (t := lb :: a ++ lb :: b) in *.
  unfold bggToMarkdown. unfold t at 1. cbv beta iota.
  rewrite protect_none.
  2:{ eapply never_tagged; [apply opens_lit | reflexivity | exact Ha | exact Hb | |];
        reflexivity. }
  rewrite restore_empty. f_equal.
  unfold bgg_passes.
  skip_tagged t Ha Hb.
  rewrite (replace_all_whole re_size _ t _ Hm eq_refl);
    [| discriminate | apply opens_lit_re; reflexivity].
  cbv beta.
  change (group_str 2 (MatchResult 0 t [(2, text); (1, sz)])) with text.
  change (group_str 1 (MatchResult 0 t [(2, text); (1, sz)])) with sz.
  rewrite size_callback_render.
  apply replace_all_never.
  eapply never_no_lb; [apply opens_lit_re | reflexivity | now apply size_render_no_lb].
Qed.

Lemma bgg_thing_match id body :
  id <> [] -> all_digits id = true -> no_lb body = true ->
  match_at re_thing [] (js "[thing=" ++ id ++ js "]" ++ body ++ js "[/thing]") =
  Some (MatchResult 0 (js "[thing=" ++ id ++ js "]" ++ body ++ js "[/thing]")
          [(2, body); (1, id)]).
Proof.
  intros Hne Hid Hbody.
  apply match_at_whole.
  unfold re_thing, re_i, seqs, lit. cbn [source reflags].
  eval_js. cbn [app].
  apply m_lit_ok; [reflexivity|]. cbn [advance List.length after before caps].
  unfold plus, digit.
  apply m_group_greedy.
  - unfold all_digits in Hid. rewrite <- Hid. apply forallb_eq.
    intros c. cbn [xorb]. apply class_digit.
  - reflexivity.
  - destruct id; [congruence | simpl; lia].
  - exact I.
  - apply m_lit_ok; [reflexivity|]. cbn [advance List.length after before caps].
    apply m_group_lazy.
    + apply absent_no_lb; [reflexivity | exact Hbody].
    + apply m_lit_ok; [reflexivity|]. cbn [advance List.length after before caps m].
      list_norm. reflexivity.
Qed.

Lemma thing_link fuel id body :
  id <> [] -> all_digits id = true -> no_brackets body = true ->
  is_br_name body = false ->
  bggToMarkdown fuel (js "[thing=" ++ id ++ js "]" ++ body ++ js "[/thing]") =
  Some (js "[" ++ body ++ js "](https://boardgamegeek.com/thing/" ++ id ++ js ")").
Proof.
  intros Hne Hid Hbody Hbr.
  pose proof (all_digits_no_lb _ Hid) as Hid'.
  pose proof (no_brackets_no_lb _ Hbody) as Hbody'.
  pose proof (bgg_thing_match id body Hne Hid Hbody') as Hm.
  set (a := js "thing=" ++ id ++ js "]" ++ body).
  set (b := js "/thing]").
  assert (Ha : no_lb a = true).
  { unfold a. rewrite !no_lb_app, Hid', Hbody'. reflexivity. }
  assert (Hb : no_lb b = true) by reflexivity.
  assert (E : js "[thing=" ++ id ++ js "]" ++ body ++ js "[/thing]" = lb :: a ++ lb :: b).
  { unfold a, b. eval_js. list_norm. reflexivity. }
  rewrite E in *. clear E.
  set (t := lb :: a ++ lb :: b) in *.
  unfold bggToMarkdown. unfold t at 1. cbv beta iota.
  unfold protectSegments, protect_rules.
  rewrite protect_rule_none.
  2:{ apply exec_never.
      eapply never_tagged; [apply opens_lit | reflexivity | exact Ha | exact Hb | |];
        reflexivity. }
  rewrite restore_empty. f_equal.
  unfold bgg_passes.
  skip_pass t ltac:(eapply never_tagged;
     [apply opens_lit_re | reflexivity | exact Ha | exact Hb | reflexivity | reflexivity]).
  repeat skip_pass t ltac:(eapply never_tagged;
     [apply opens_lit_re | reflexivity | exact Ha | exact Hb | reflexivity | reflexivity]).
  rewrite (replace_all_whole re_thing _ t _ Hm eq_refl);
    [| discriminate | apply opens_lit_re; reflexivity].
  cbv beta.
  change (group_str 2 (MatchResult 0 t [(2, body); (1, id)])) with body.
  change (group_str 1 (MatchResult 0 t [(2, body); (1, id)])) with id.
  set (aft := body ++ js "](https://boardgamegeek.com/thing/" ++ id ++ js ")").
  assert (Haft : no_lb aft = true).
  { unfold aft. rewrite !no_lb_app, Hid', Hbody'. reflexivity. }
  change (js "[" ++ aft) with (lb :: aft).
  repeat skip_pass (lb :: aft) ltac:(apply never_one_lb;
     [reflexivity | exact Haft | solve_requires_lb]).
  apply replace_all_never. split.
  - unfold aft. eval_js. cbn [app]. apply rejects_br; assumption.
  - eapply never_no_lb; [apply opens_lit_re | reflexivity | exact Haft].
Qed.

Lemma bgg_user_match n body :
  n <> [] -> all_digits n = true -> no_lb body = true ->
  match_at re_user [] (js "[user=" ++ n ++ js "]" ++ body ++ js "[/user]") =
  Some (MatchResult 0 (js "[user=" ++ n ++ js "]" ++ body ++ js "[/user]")
          [(1, body)]).
Proof.
  intros Hne Hn Hbody.
  apply match_at_whole.
  unfold re_user, re_i, seqs, lit. cbn [source reflags].
  eval_js. cbn [app].
  apply m_lit_ok; [reflexivity|]. cbn [advance List.length after before caps].
  unfold plus, digit.
  apply m_greedy.
  - unfold all_digits in Hn. rewrite <- Hn. apply forallb_eq.
    intros c. cbn [xorb]. apply class_digit.
  - reflexivity.
  - destruct n; [congruence | simpl; lia].
  - exact I.
  - apply m_lit_ok; [reflexivity|]. cbn [advance List.length after before caps].
    apply m_group_lazy.
    + apply absent_no_lb; [reflexivity | exact Hbody].
    + apply m_lit_ok; [reflexivity|]. cbn [advance List.length after before caps m].
      list_norm. reflexivity.
Qed.

Lemma user_link fuel n body :
  n <> [] -> all_digits n = true -> no_lb body = true ->
  bggToMarkdown fuel (js "[user=" ++ n ++ js "]" ++ body ++ js "[/user]") =
  Some (js "[@" ++ body ++ js "](https://boardgamegeek.com/user/" ++ body ++ js ")").
Proof.
  intros Hne Hn Hbody.
  pose proof (all_digits_no_lb _ Hn) as Hn'.
  pose proof (bgg_user_match n body Hne Hn Hbody) as Hm.
  set (a := js "user=" ++ n ++ js "]" ++ body).
  set (b := js "/user]").
  assert (Ha : no_lb a = true).
  { unfold a. rewrite !no_lb_app, Hn', Hbody. reflexivity. }
  assert (Hb : no_lb b = true) by reflexivity.
  assert (E : js "[user=" ++ n ++ js "]" ++ body ++ js "[/user]" = lb :: a ++ lb :: b).
  { unfold a, b. eval_js. list_norm. reflexivity. }
  rewrite E in *. clear E.
  set (t := lb :: a ++ lb :: b) in *.
  unfold bggToMarkdown. unfold t at 1. cbv beta iota.
  rewrite protect_none.
  2:{ eapply never_tagged; [apply opens_lit | reflexivity | exact Ha | exact Hb | |];
        reflexivity. }
  rewrite restore_empty. f_equal.
  unfold bgg_passes.
  skip_tagged t Ha Hb.
  rewrite (replace_all_whole re_user _ t _ Hm eq_refl);
    [| discriminate | apply opens_lit_re; reflexivity].
  cbv beta.
  change (group_str 1 (MatchResult 0 t [(1, body)])) with body.
  set (aft := js "@" ++ body ++ js "](https://boardgamegeek.com/user/" ++ body ++ js ")").
  assert (Haft : no_lb aft = true).
  { unfold aft. rewrite !no_lb_app, Hbody. reflexivity. }
  change (js "[@" ++ body ++ js "](https://boardgamegeek.com/user/" ++ body ++ js ")")
    with (lb :: aft).
  skip_one_lb (lb :: aft) Haft.
  apply replace_all_never. split.
  - apply opens_lit_re. reflexivity.
  - eapply never_no_lb; [apply opens_lit_re | reflexivity | exact Haft].
Qed.

(** ** Reasoning about split *)

Section Split.

Variable re : regexp.

Lemma split_loop_fuel fuel1 :
  forall fuel2 bef acc aft,
  split_measure acc aft < fuel1 -> split_measure acc aft < fuel2 ->
  split_loop re fuel1 bef acc aft = split_loop re fuel2 bef acc aft.
Proof.
  induction fuel1 as [|fuel1 IH]; intros fuel2 bef acc aft H1 H2; [lia|].
  destruct fuel2 as [|fuel2]; [lia|].
  cbn [split_loop]. destruct aft as [|c aft]; [reflexivity|].
  unfold split_measure in *. cbn [List.length] in *.
  destruct (match_at re bef (c :: aft)) as [r|] eqn:E.
  - apply match_at_matched in E as (n & E & _). rewrite E.
    destruct (List.length (firstn n (c :: aft))) as [|n'] eqn:En.
    + destruct acc as [|a acc].
      * apply IH; cbn [List.length]; lia.
      * f_equal. apply IH; cbn [List.length skipn]; lia.
    + f_equal. apply IH; rewrite length_skipn; cbn [List.length]; lia.
  - apply IH; cbn [List.length]; lia.
Qed.

Lemma split_split_from s : s <> [] -> split re s = split_from re [] [] s.
Proof.
  intros H. unfold split, split_from. destruct s as [|c s]; [congruence|].
  apply split_loop_fuel; unfold split_measure; cbn [List.length]; lia.
Qed.

Lemma split_from_nil bef acc : split_from re bef acc [] = [rev acc].
Proof. reflexivity. Qed.

Lemma split_from_skip bef acc c aft :
  match_at re bef (c :: aft) = None ->
  split_from re bef acc (c :: aft) = split_from re (c :: bef) (c :: acc) aft.
Proof.
  intros E. unfold split_from at 1. cbn [split_loop]. rewrite E.
  apply split_loop_fuel; unfold split_measure; cbn [List.length]; lia.
Qed.

Lemma split_from_match bef acc xs rest r :
  match_at re bef (xs ++ rest) = Some r ->
  matched r = xs -> xs <> [] ->
  split_from re bef acc (xs ++ rest) = rev acc :: split_from re (rev xs ++ bef) [] rest.
Proof.
  intros E Hm Hne. unfold split_from at 1.
  destruct xs as [|x xs]; [congruence|].
  change ((x :: xs) ++ rest) with (x :: xs ++ rest) in *.
  cbn [split_loop]. rewrite E, Hm. cbn [List.length].
  assert (Hf : firstn (S (List.length xs)) (x :: xs ++ rest) = x :: xs).
  { change (x :: xs ++ rest) with ((x :: xs) ++ rest).
    change (S (List.length xs)) with (List.length (x :: xs)).
    rewrite firstn_app, Nat.sub_diag, firstn_all. simpl. now rewrite app_nil_r. }
  assert (Hs : skipn (S (List.length xs)) (x :: xs ++ rest) = rest).
  { change (x :: xs ++ rest) with ((x :: xs) ++ rest).
    change (S (List.length xs)) with (List.length (x :: xs)).
    rewrite skipn_app, Nat.sub_diag, skipn_all. reflexivity. }
  rewrite Hf, Hs. f_equal.
  apply split_loop_fuel; unfold split_measure; cbn [List.length];
    rewrite ?length_app; lia.
Qed.

Lemma split_from_run xs : forall bef acc rest,
  (forall pre c suf, xs = pre ++ c :: suf -> rejects re (c :: suf ++ rest)) ->
  split_from re bef acc (xs ++ rest) = split_from re (rev xs ++ bef) (rev xs ++ acc) rest.
Proof.
  induction xs as [|x xs IH]; intros bef acc rest H; [reflexivity|].
  change ((x :: xs) ++ rest) with (x :: xs ++ rest).
  rewrite split_from_skip by apply (H [] x xs eq_refl).
  rewrite IH.
  - simpl. now rewrite <- !app_assoc.
  - intros pre c suf E. apply (H (x :: pre) c suf). now rewrite E.
Qed.

End Split.

(** ** Line breaks *)

Lemma char_eq_exact c x : char_eq no_flags c x = (c =? x)%N.
Proof. reflexivity. Qed.

Lemma newline_match bef aft :
  match_at re_newline bef (nl :: aft) = Some (MatchResult (List.length bef) [nl] []).
Proof.
  unfold match_at, re_newline, re. cbn [source reflags].
  rewrite m_opt_chr. change (char_eq no_flags cr nl) with false. cbv iota.
  cbn [m]. unfold match_char. cbn [after before caps].
  change (char_eq no_flags nl nl) with true. cbv iota.
  cbn [after caps List.length]. 
  replace (S (List.length aft) - List.length aft) with 1 by lia.
  reflexivity.
Qed.

Lemma newline_reject c aft :
  (c =? nl)%N = false -> (c =? cr)%N = false -> rejects re_newline (c :: aft).
Proof.
  intros Hn Hc bef. unfold match_at, re_newline, re. cbn [source reflags].
  rewrite m_opt_chr. rewrite !char_eq_exact.
  rewrite (N.eqb_sym cr c), Hc. cbn [m]. unfold match_char. cbn [after].
  rewrite char_eq_exact, (N.eqb_sym nl c), Hn. reflexivity.
Qed.

Lemma newline_reject_nil : rejects re_newline [].
Proof.
  intros bef. unfold match_at, re_newline, re. cbn [source reflags].
  rewrite m_opt_chr_nil. reflexivity.
Qed.

(** Normalising line breaks changes nothing where no carriage return
    occurs. *)
Lemma replace_newline_id s :
  no_cr s = true -> replace_all re_newline (fun _ => js "\n") s = s.
Proof.
  rewrite replace_all_from. generalize (@nil char) as bef.
  induction s as [|c s IH]; intros bef H.
  - rewrite replace_from_nil, newline_reject_nil. reflexivity.
  - simpl in H. apply andb_prop in H as [Hc Hs]. apply negb_true_iff in Hc.
    destruct (c =? nl)%N eqn:En.
    + apply N.eqb_eq in En. subst c.
      rewrite (replace_from_match re_newline _ bef [nl] s _ (newline_match bef s) eq_refl)
        by discriminate.
      cbn. f_equal. now apply IH.
    + rewrite replace_from_skip by now apply newline_reject.
      f_equal. now apply IH.
Qed.

(** ** Trimmed strings *)

Lemma trimStart_length s : List.length (trimStart s) <= List.length s.
Proof.
  induction s as [|c s IH]; simpl; [lia|]. destruct (is_space c); simpl; lia.
Qed.

Lemma trimStart_same_length s :
  List.length (trimStart s) = List.length s -> trimStart s = s.
Proof.
  destruct s as [|c s]; simpl; [reflexivity|].
  destruct (is_space c); [|reflexivity].
  intros H. pose proof (trimStart_length s). lia.
Qed.

Lemma trim_fixed s : trim s = s -> trimStart s = s /\ trimStart (rev s) = rev s.
Proof.
  intros H. unfold trim, trimEnd in H.
  assert (Hl : List.length (trimStart s) = List.length s).
  { apply (f_equal (@List.length char)) in H. rewrite length_rev in H.
    pose proof (trimStart_length (rev (trimStart s))) as H1.
    rewrite length_rev in H1. pose proof (trimStart_length s). lia. }
  apply trimStart_same_length in Hl. rewrite Hl in H. split; [exact Hl|].
  apply (f_equal (@rev char)) in H. now rewrite rev_involutive in H.
Qed.

Lemma trimStart_head s :
  trimStart s = s -> s <> [] -> exists c tl, s = c :: tl /\ is_space c = false.
Proof.
  destruct s as [|c s]; [congruence|]. simpl. intros H _.
  destruct (is_space c) eqn:E; [|eauto].
  pose proof (trimStart_length s) as Hl. rewrite H in Hl. simpl in Hl. lia.
Qed.

(** ** List items *)

Lemma plain_no_lb s : forallb plain_char s = true -> no_lb s = true.
Proof.
  unfold no_lb. induction s as [|c s IH]; simpl; [reflexivity|].
  intros H. apply andb_prop in H as [H1 H2]. rewrite (IH H2).
  unfold plain_char in H1. apply andb_prop in H1 as [H1 _].
  apply andb_prop in H1 as [H1 _]. now rewrite H1.
Qed.

Lemma plain_no_cr s : forallb plain_char s = true -> no_cr s = true.
Proof.
  unfold no_cr. induction s as [|c s IH]; simpl; [reflexivity|].
  intros H. apply andb_prop in H as [H1 H2]. rewrite (IH H2).
  unfold plain_char in H1. apply andb_prop in H1 as [_ H1]. now rewrite H1.
Qed.

Lemma item_head it : item_ok it -> exists c tl, it = c :: tl /\ is_space c = false.
Proof.
  intros (Hne & Ht & _). apply trim_fixed in Ht as [Ht _].
  now apply trimStart_head.
Qed.

Lemma trim_item_nl it : item_ok it -> trim (it ++ js "\n") = it.
Proof.
  intros H. destruct (item_head it H) as (c & tl & E & Hc).
  destruct H as (_ & Ht & _). apply trim_fixed in Ht as [_ Ht].
  unfold trim, trimEnd.
  assert (E1 : trimStart (it ++ js "\n") = it ++ js "\n").
  { rewrite E. simpl. now rewrite Hc. }
  rewrite E1, rev_app_distr. change (rev (js "\n")) with [nl].
  change ([nl] ++ rev it) with (nl :: rev it). cbn [trimStart].
  change (is_space nl) with true. cbv iota. rewrite Ht. apply rev_involutive.
Qed.

Lemma trim_item it : item_ok it -> trim it = it.
Proof. now intros (_ & H & _). Qed.

(** ** The item marker *)

Lemma char_eq_nl fl c : char_eq fl nl c = (c =? nl)%N.
Proof. unfold char_eq, canon, to_upper, nl. destruct (icase fl); char_cases. Qed.

Lemma re_item_marker_eq :
  re_item_marker = {| source := Seq (opt (Chr nl)) marker_rest; reflags := flag_i |}.
Proof. reflexivity. Qed.

Lemma marker_match bef c tl :
  is_space c = false ->
  match_at re_item_marker bef (js "\n[*] " ++ c :: tl) =
  Some (MatchResult (List.length bef) (js "\n[*] ") []).
Proof.
  intros Hc. rewrite re_item_marker_eq. unfold match_at. cbn [source reflags].
  eval_js. cbn [app]. rewrite m_opt_chr.
  change (char_eq flag_i nl 10%N) with true. cbv iota.
  match goal with
  | |- context [match m flag_i marker_rest ?k ?st with Some z => Some z | None => _ end] =>
      assert (Hin : m flag_i marker_rest k st =
                Some (MState (32%N :: 93%N :: 42%N :: 91%N :: 10%N :: bef) (c :: tl) []))
  end.
  { unfold marker_rest. eval_js.
    apply m_lit_ok; [reflexivity|]. cbn [advance List.length after before caps].
    unfold star, space.
    apply (m_greedy flag_i false [ISpace] 0 None Empty (fun y => Some y)
             (93%N :: 42%N :: 91%N :: 10%N :: bef) [32%N] (c :: tl) []).
    - reflexivity.
    - cbn [xorb]. rewrite class_space, Hc. reflexivity.
    - simpl. lia.
    - exact I.
    - reflexivity. }
  rewrite Hin. cbn [after caps List.length].
  replace (S (S (S (S (S (S (List.length tl)))))) - S (List.length tl)) with 5 by lia.
  reflexivity.
Qed.

Lemma marker_reject c aft :
  (c =? nl)%N = false -> (c =? lb)%N = false -> rejects re_item_marker (c :: aft).
Proof.
  intros Hn Hl bef. rewrite re_item_marker_eq. unfold match_at. cbn [source reflags].
  rewrite m_opt_chr, char_eq_nl, Hn. unfold marker_rest.
  rewrite m_Seq, m_lit_chars. cbn [after].
  rewrite prefix_eq_lb; [reflexivity | reflexivity | exact Hl].
Qed.

Lemma marker_reject_last : rejects re_item_marker [nl].
Proof.
  intros bef. rewrite re_item_marker_eq. unfold match_at. cbn [source reflags].
  rewrite m_opt_chr. unfold marker_rest. rewrite !m_Seq, !m_lit_chars. reflexivity.
Qed.

Lemma plain_char_inv c :
  plain_char c = true -> (c =? lb)%N = false /\ (c =? nl)%N = false /\ (c =? cr)%N = false.
Proof.
  unfold plain_char. intros H. apply andb_prop in H as [H H3].
  apply andb_prop in H as [H1 H2]. apply negb_true_iff in H1, H2, H3. auto.
Qed.

Lemma split_list_body items : forall bef acc,
  Forall item_ok items ->
  split_from re_item_marker bef (rev acc) (list_body items) = pieces acc items.
Proof.
  induction items as [|it items IH]; intros bef acc H.
  - unfold list_body. cbn [map List.concat app pieces]. change (js "\n") with [nl].
    rewrite split_from_skip by apply marker_reject_last.
    rewrite split_from_nil. cbn [rev]. now rewrite rev_involutive.
  - inversion H as [|? ? Hit Hitems]; subst.
    destruct (item_head it Hit) as (c & tl & E & Hc).
    unfold list_body. cbn [map List.concat pieces]. unfold item_line at 1.
    rewrite <- !app_assoc. fold (list_body items).
    rewrite (split_from_match re_item_marker bef (rev acc) (js "\n[*] ")
               (it ++ list_body items) (MatchResult (List.length bef) (js "\n[*] ") []));
      [ | rewrite E; apply marker_match; exact Hc | reflexivity | discriminate ].
    rewrite rev_involutive. f_equal.
    rewrite split_from_run.
    + rewrite app_nil_r. apply IH. exact Hitems.
    + intros pre x suf Ex. destruct Hit as (_ & _ & Hp).
      rewrite Ex, forallb_app in Hp. apply andb_prop in Hp as [_ Hp].
      simpl in Hp. apply andb_prop in Hp as [Hx _].
      apply plain_char_inv in Hx as (H1 & H2 & _). now apply marker_reject.
Qed.

Lemma nonempty_cons c s : nonempty (c :: s) = true.
Proof. unfold nonempty, str_eqb. destruct (list_eq_dec _ _ _); [discriminate|reflexivity]. Qed.

Lemma trimmed_pieces items : forall acc,
  acc = [] \/ item_ok acc ->
  Forall item_ok items ->
  filter nonempty (map trim (pieces acc items)) =
  match acc with [] => [] | _ => [acc] end ++ items.
Proof.
  induction items as [|it items IH]; intros acc Hacc H.
  - cbn [pieces map filter]. destruct Hacc as [-> | Hacc].
    + reflexivity.
    + rewrite (trim_item_nl acc Hacc). destruct acc as [|a acc]; [now destruct Hacc|].
      now rewrite nonempty_cons.
  - inversion H as [|? ? Hit Hitems]; subst.
    cbn [pieces map filter]. rewrite (IH it (or_intror Hit) Hitems).
    assert (Hne : it <> []) by now destruct Hit.
    destruct it as [|i0 it0]; [congruence|]. cbn [app].
    destruct Hacc as [-> | Hacc].
    + reflexivity.
    + rewrite (trim_item acc Hacc). destruct acc as [|a acc]; [now destruct Hacc|].
      now rewrite nonempty_cons.
Qed.

Lemma no_cr_app a b : no_cr (a ++ b) = no_cr a && no_cr b.
Proof. apply forallb_app. Qed.

Lemma list_body_no_cr items : Forall item_ok items -> no_cr (list_body items) = true.
Proof.
  unfold list_body. induction 1 as [|it items Hit _ IH]; [reflexivity|].
  cbn [map List.concat]. unfold item_line at 1. rewrite <- !app_assoc.
  rewrite !no_cr_app. rewrite !no_cr_app in IH. 
  destruct Hit as (_ & _ & Hp). apply plain_no_cr in Hp.
  rewrite Hp. apply andb_prop in IH as [IH1 IH2]. rewrite IH1, IH2. reflexivity.
Qed.

Lemma list_body_not_nil items : list_body items <> [].
Proof.
  unfold list_body. destruct items; cbn; discriminate.
Qed.

Lemma list_items_body items :
  Forall item_ok items -> list_items (list_body items) = items.
Proof.
  intros H. unfold list_items.
  rewrite replace_newline_id by now apply list_body_no_cr.
  rewrite split_split_from by apply list_body_not_nil.
  replace (split_from re_item_marker [] [] (list_body items)) with (pieces [] items)
    by (symmetry; exact (split_list_body items [] [] H)).
  change (fun s => negb (str_eqb s [])) with nonempty.
  now rewrite trimmed_pieces by auto.
Qed.

Lemma clean_item_ok it : item_ok it -> clean_item it = it.
Proof.
  intros (Hne & Ht & Hp). unfold clean_item.
  rewrite replace_all_never; [exact Ht|].
  eapply never_no_lb; [apply (opens_lit_re no_flags (js "[")) | reflexivity |].
  now apply plain_no_lb.
Qed.

(** ** Rendered lists *)

Lemma map_clean items :
  Forall item_ok items ->
  map (fun it => js "- " ++ clean_item it) items = map (fun it => js "- " ++ it) items.
Proof.
  induction 1 as [|it items Hit _ IH]; [reflexivity|].
  cbn [map]. now rewrite IH, (clean_item_ok it Hit).
Qed.

Lemma mapi_numbered items : forall i,
  Forall item_ok items ->
  mapi_from i (fun it j => number_to_str (j + 1) ++ js ". " ++ clean_item it) items =
  map (fun p => number_to_str (fst p) ++ js ". " ++ snd p)
    (combine (seq (i + 1) (List.length items)) items).
Proof.
  induction items as [|it items IH]; intros i H; [reflexivity|].
  inversion H as [|? ? Hit Hitems]; subst.
  cbn [mapi_from List.length seq combine map fst snd].
  rewrite (clean_item_ok it Hit). f_equal.
  rewrite (IH (S i) Hitems). reflexivity.
Qed.

Lemma list_callback_body items :
  Forall item_ok items -> list_callback (list_body items) = list_render items.
Proof.
  intros H. unfold list_callback, list_render. rewrite (list_items_body items H).
  destruct items as [|it items]; [reflexivity|]. now rewrite map_clean.
Qed.

Lemma olist_callback_body items :
  Forall item_ok items -> olist_callback (list_body items) = olist_render items.
Proof.
  intros H. unfold olist_callback, olist_render, numbered.
  rewrite (list_items_body items H).
  destruct items as [|it items]; [reflexivity|]. now rewrite (mapi_numbered _ 0 H).
Qed.

Lemma no_lb_join sep l :
  no_lb sep = true -> Forall (fun s => no_lb s = true) l -> no_lb (join sep l) = true.
Proof.
  intros Hsep. induction 1 as [|x l Hx Hl IH]; [reflexivity|].
  cbn [join]. destruct l as [|y l]; [exact Hx|].
  rewrite !no_lb_app, Hx, Hsep. exact IH.
Qed.

Lemma no_lb_uint d : no_lb (uint_chars d) = true.
Proof. induction d; simpl; auto. Qed.

Lemma list_render_no_lb items :
  Forall item_ok items -> no_lb (list_render items) = true.
Proof.
  intros H. unfold list_render. destruct items as [|it items]; [reflexivity|].
  rewrite !no_lb_app. rewrite no_lb_join; [reflexivity | reflexivity |].
  apply Forall_map. revert H. apply Forall_impl. intros s (_ & _ & Hp).
  rewrite no_lb_app. now rewrite (plain_no_lb s Hp).
Qed.

Lemma olist_render_no_lb items :
  Forall item_ok items -> no_lb (olist_render items) = true.
Proof.
  intros H. unfold olist_render. destruct items as [|it items]; [reflexivity|].
  rewrite !no_lb_app. rewrite no_lb_join; [reflexivity | reflexivity |].
  unfold numbered. apply Forall_map.
  generalize 1. revert H. generalize (it :: items) as l. clear.
  induction l as [|x l IH]; intros H n; [constructor|].
  inversion H as [|? ? (_ & _ & Hp) Hl]; subst.
  cbn [List.length seq combine]. constructor.
  - cbn [fst snd]. rewrite !no_lb_app. unfold number_to_str.
    now rewrite no_lb_uint, (plain_no_lb x Hp).
  - apply IH. exact Hl.
Qed.

(** ** The text of a list block *)

Lemma absent_list_body fl o items rest :
  starts_lb o = true ->
  (forall tl, prefix_eq fl o (lb :: 42%N :: tl) = false) ->
  Forall item_ok items ->
  absent fl o (list_body items) rest.
Proof.
  intros Hs Hstar H. unfold list_body.
  induction H as [|it items Hit _ IH].
  - cbn [map List.concat app]. apply absent_cons; [|apply absent_nil].
    now apply prefix_eq_lb.
  - cbn [map List.concat]. unfold item_line at 1. rewrite <- !app_assoc.
    apply absent_app; [|apply absent_app; [|exact IH]].
    + change (js "\n[*] ") with [10%N; lb; 42%N; 93%N; 32%N].
      apply absent_cons; [now apply prefix_eq_lb|].
      apply absent_cons; [apply Hstar|].
      repeat (apply absent_cons; [now apply prefix_eq_lb|]).
      apply absent_nil.
    + apply absent_no_lb; [exact Hs|]. destruct Hit as (_ & _ & Hp).
      now apply plain_no_lb.
Qed.

Lemma absent_list_text fl o tag items :
  starts_lb o = true -> no_lb tag = true ->
  (forall tl, prefix_eq fl o (lb :: 42%N :: tl) = false) ->
  (forall tl, prefix_eq fl o (open_tag tag ++ tl) = false) ->
  prefix_eq fl o (close_tag tag) = false ->
  Forall item_ok items ->
  absent fl o (list_text tag items) [].
Proof.
  intros Hs Htag Hstar Hopen Hclose H. unfold list_text.
  apply absent_app; [|apply absent_app].
  - unfold open_tag. apply absent_cons; [apply Hopen|].
    apply absent_no_lb; [exact Hs|]. rewrite no_lb_app, Htag. reflexivity.
  - now apply absent_list_body.
  - unfold close_tag. apply absent_cons; [rewrite app_nil_r; exact Hclose|].
    apply absent_no_lb; [exact Hs|]. cbn. rewrite no_lb_app, Htag. reflexivity.
Qed.

Lemma never_of_absent fl o re s :
  opens_with fl o re -> starts_lb o = true -> absent fl o s [] -> never re s.
Proof.
  intros Ho Hs Ha. rewrite <- (app_nil_r s). eapply never_opens_absent; eauto.
  split; [|exact I]. apply Ho. now apply prefix_eq_lb_nil.
Qed.

Lemma list_pair_match tag items :
  no_lb tag = true -> Forall item_ok items ->
  match_at {| source := Seq (lit_chars (open_tag tag))
                          (Seq (Group 1 (lazy_star any))
                               (Seq (lit_chars (close_tag tag)) Empty));
              reflags := flag_i |} [] (list_text tag items) =
  Some (MatchResult 0 (list_text tag items) [(1, list_body items)]).
Proof.
  intros Htag H. apply match_at_whole. cbn [source reflags].
  assert (Hpre : forall s tl, prefix_eq flag_i s (s ++ tl) = true).
  { induction s as [|c s IH]; intros tl; [reflexivity|]. cbn [app prefix_eq].
    rewrite IH, andb_true_r. unfold char_eq. apply N.eqb_refl. }
  unfold list_text.
  apply m_lit_ok; [apply Hpre|]. cbn [after]. rewrite advance_app.
  apply m_group_lazy.
  - apply absent_list_body; [reflexivity | | exact H]. intros tl. reflexivity.
  - apply m_lit_ok.
    + cbn [after]. rewrite <- (app_nil_r (close_tag tag)) at 2. apply Hpre.
    + cbn [after]. rewrite <- (app_nil_r (close_tag tag)) at 2. rewrite advance_app.
      cbn [m]. f_equal. f_equal. list_norm. now rewrite ?app_nil_r.
Qed.

Lemma bggToMarkdown_nonempty fuel input :
  input <> [] ->
  bggToMarkdown fuel input =
  match protectSegments fuel input [rule_code_bgg] with
  | None => None
  | Some (text, st) => Some (restore st (bgg_passes text))
  end.
Proof. destruct input; [congruence | reflexivity]. Qed.

Ltac skip_list_text t H :=
  repeat skip_pass t ltac:(eapply never_of_absent;
    [ apply opens_lit_re | reflexivity
    | apply absent_list_text;
      [ reflexivity | reflexivity | intros tl; reflexivity | intros tl; reflexivity
      | reflexivity | exact H ] ]).

Lemma list_lines fuel items :
  Forall item_ok items ->
  bggToMarkdown fuel (js "[list]" ++ list_body items ++ js "[/list]") =
  Some (list_render items).
Proof.
  intros H.
  pose proof (list_pair_match (js "list") items eq_refl H) as Hm.
  change (js "[list]" ++ list_body items ++ js "[/list]")
    with (list_text (js "list") items).
  set (t := list_text (js "list") items) in *.
  rewrite bggToMarkdown_nonempty by discriminate.
  rewrite protect_none.
  2:{ eapply never_of_absent; [apply opens_lit | reflexivity |].
      apply absent_list_text;
        [ reflexivity | reflexivity | intros tl; reflexivity | intros tl; reflexivity
        | reflexivity | exact H ]. }
  rewrite restore_empty. f_equal.
  unfold bgg_passes.
  skip_list_text t H.
  rewrite (replace_all_whole (re_pair "[list]" "[/list]") _ t _ Hm eq_refl);
    [| discriminate | apply opens_lit_re; reflexivity].
  cbv beta.
  change (group_str 1 (MatchResult 0 t [(1, list_body items)])) with (list_body items).
  rewrite (list_callback_body items H).
  pose proof (list_render_no_lb items H) as Hout.
  skip_plain (list_render items) Hout.
  reflexivity.
Qed.

Lemma olist_lines fuel items :
  Forall item_ok items ->
  bggToMarkdown fuel (js "[olist]" ++ list_body items ++ js "[/olist]") =
  Some (olist_render items).
Proof.
  intros H.
  pose proof (list_pair_match (js "olist") items eq_refl H) as Hm.
  change (js "[olist]" ++ list_body items ++ js "[/olist]")
    with (list_text (js "olist") items).
  set (t := list_text (js "olist") items) in *.
  rewrite bggToMarkdown_nonempty by discriminate.
  rewrite protect_none.
  2:{ eapply never_of_absent; [apply opens_lit | reflexivity |].
      apply absent_list_text;
        [ reflexivity | reflexivity | intros tl; reflexivity | intros tl; reflexivity
        | reflexivity | exact H ]. }
  rewrite restore_empty. f_equal.
  unfold bgg_passes.
  skip_list_text t H.
  rewrite (replace_all_whole (re_pair "[olist]" "[/olist]") _ t _ Hm eq_refl);
    [| discriminate | apply opens_lit_re; reflexivity].
  cbv beta.
  change (group_str 1 (MatchResult 0 t [(1, list_body items)])) with (list_body items).
  rewrite (olist_callback_body items H).
  pose proof (olist_render_no_lb items H) as Hout.
  skip_plain (olist_render items) Hout.
  reflexivity.
Qed.

(** ** More rounds give the same result *)

Lemma protect_rule_mono fuel : forall fuel' rl text st counter r,
  fuel <= fuel' ->
  protect_rule fuel rl text st counter = Some r ->
  protect_rule fuel' rl text st counter = Some r.
Proof.
  induction fuel as [|fuel IH]; intros fuel' rl text st counter r Hle H.
  - destruct fuel' as [|fuel']; [exact H|].
    cbn [protect_rule] in *.
    destruct (exec (start rl) text) as [m0|]; [|exact H].
    destruct (match end_ rl with
              | None => Some (index m0 + List.length (matched m0))
              | Some endRe =>
                  match exec endRe text with
                  | None => None
                  | Some endMatch => Some (index endMatch + List.length (matched endMatch))
                  end
              end); [discriminate H | exact H].
  - destruct fuel' as [|fuel']; [lia|].
    cbn [protect_rule] in *.
    destruct (exec (start rl) text) as [m0|]; [|exact H].
    destruct (match end_ rl with
              | None => Some (index m0 + List.length (matched m0))
              | Some endRe =>
                  match exec endRe text with
                  | None => None
                  | Some endMatch => Some (index endMatch + List.length (matched endMatch))
                  end
              end); [|exact H].
    apply IH; [lia | exact H].
Qed.

Lemma protect_rules_mono fuel fuel' pairs : forall text st counter r,
  fuel <= fuel' ->
  protect_rules fuel pairs text st counter = Some r ->
  protect_rules fuel' pairs text st counter = Some r.
Proof.
  induction pairs as [|rl pairs IH]; intros text st counter r Hle H; [exact H|].
  cbn [protect_rules] in *.
  destruct (protect_rule fuel rl text st counter) as [[[text1 st1] c1]|] eqn:E;
    [|discriminate H].
  rewrite (protect_rule_mono fuel fuel' rl text st counter _ Hle E).
  now apply IH.
Qed.

Lemma bggToMarkdown_mono fuel fuel' input out :
  fuel <= fuel' ->
  bggToMarkdown fuel input = Some out -> bggToMarkdown fuel' input = Some out.
Proof.
  intros Hle. unfold bggToMarkdown, protectSegments. destruct input as [|c input]; [auto|].
  destruct (protect_rules fuel _ _ _ _) as [[text st]|] eqn:E; [|discriminate].
  now rewrite (protect_rules_mono fuel fuel' _ _ _ _ _ Hle E).
Qed.

Lemma markdownToBgg_mono fuel fuel' input out :
  fuel <= fuel' ->
  markdownToBgg fuel input = Some out -> markdownToBgg fuel' input = Some out.
Proof.
  intros Hle. unfold markdownToBgg, protectSegments. destruct input as [|c input]; [auto|].
  destruct (protect_rules fuel _ _ _ _) as [[text st]|] eqn:E; [|discriminate].
  now rewrite (protect_rules_mono fuel fuel' _ _ _ _ _ Hle E).
Qed.

Lemma m_Group fl i r k st :
  m fl (Group i r) k st =
  m fl r (fun y => k (MState (before y) (after y)
                        (set_cap i (firstn (List.length (after st) - List.length (after y))
                                      (after st)) (caps y)))) st.
Proof. reflexivity. Qed.

Lemma never_tail fl o re a b :
  opens_with fl o re -> starts_lb o = true ->
  no_lb a = true -> no_lb b = true ->
  prefix_eq fl o (lb :: b) = false ->
  never re (a ++ lb :: b).
Proof.
  intros Ho Hs Ha Hb H2.
  eapply never_opens_absent; eauto.
  - now apply absent_no_lb.
  - split; [now apply Ho|]. eapply never_no_lb; eauto.
Qed.

Lemma digit_not_rb fl c : is_digit c = true -> char_eq fl rb c = false.
Proof.
  unfold is_digit, char_eq, canon, to_upper, rb. intros H.
  destruct (icase fl); char_cases.
Qed.

(** A size of more than three digits: the size pattern does not match. *)
Lemma size_rejects_long sz rest :
  all_digits sz = true -> 4 <= List.length sz ->
  rejects re_size (js "[size=" ++ sz ++ rb :: rest).
Proof.
  intros Hsz Hlen bef. unfold match_at, re_size, re_i, seqs, lit. cbn [source reflags].
  eval_js. cbn [app]. rewrite m_Seq, m_lit_chars. cbn [after].
  replace (prefix_eq flag_i [91; 115; 105; 122; 101; 61]%N
             (91 :: 115 :: 105 :: 122 :: 101 :: 61 :: sz ++ rb :: rest)%N)
    with true by reflexivity.
  cbn [advance List.length after before caps].
  unfold digit. rewrite m_Seq, m_Group, m_Rep. cbn [groups after].
  rewrite greedy_fail with (p := is_digit); [reflexivity | | exact Hsz | reflexivity |].
  - intros k st. cbn [m]. unfold match_char. destruct (after st); [reflexivity|].
    cbn [xorb]. now rewrite class_digit.
  - intros pre suf E Hw. simpl in Hw. cbn [after before caps].
    rewrite m_Seq, m_lit_chars. cbn [after].
    destruct suf as [|c suf].
    + rewrite app_nil_r in E. subst pre. lia.
    + assert (Hc : is_digit c = true).
      { unfold all_digits in Hsz. rewrite E, forallb_app in Hsz.
        apply andb_prop in Hsz as [_ Hsz]. simpl in Hsz.
        now apply andb_prop in Hsz as [Hc _]. }
      cbn [app prefix_eq]. change 93%N with rb.
      now rewrite (digit_not_rb flag_i c Hc).
Qed.

Lemma size_long_untouched fuel sz text :
  all_digits sz = true -> 4 <= List.length sz -> no_lb text = true ->
  bggToMarkdown fuel (js "[size=" ++ sz ++ js "]" ++ text ++ js "[/size]") =
  Some (js "[size=" ++ sz ++ js "]" ++ text ++ js "[/size]").
Proof.
  intros Hsz Hlen Htext.
  pose proof (all_digits_no_lb _ Hsz) as Hsz'.
  set (a := js "size=" ++ sz ++ js "]" ++ text).
  set (b := js "/size]").
  assert (Ha : no_lb a = true).
  { unfold a. rewrite !no_lb_app, Hsz', Htext. reflexivity. }
  assert (Hb : no_lb b = true) by reflexivity.
  assert (Hrej : rejects re_size (lb :: a ++ lb :: b)).
  { pose proof (size_rejects_long sz (text ++ js "[/size]") Hsz Hlen) as H.
    replace (lb :: a ++ lb :: b) with (js "[size=" ++ sz ++ rb :: text ++ js "[/size]");
      [exact H|].
    unfold a, b. eval_js. list_norm. reflexivity. }
  assert (E : js "[size=" ++ sz ++ js "]" ++ text ++ js "[/size]" = lb :: a ++ lb :: b).
  { unfold a, b. eval_js. list_norm. reflexivity. }
  rewrite E in *. clear E.
  set (t := lb :: a ++ lb :: b) in *.
  unfold bggToMarkdown. unfold t at 1. cbv beta iota.
  rewrite protect_none.
  2:{ eapply never_tagged; [apply opens_lit | reflexivity | exact Ha | exact Hb | |];
        reflexivity. }
  rewrite restore_empty. f_equal.
  unfold bgg_passes.
  skip_tagged t Ha Hb.
  skip_pass t ltac:(split; [exact Hrej |
    eapply never_tail; [apply opens_lit_re | reflexivity | exact Ha | exact Hb | reflexivity]]).
  skip_tagged t Ha Hb.
  reflexivity.
Qed.

(** ** What a global replace visits *)

Lemma replace_loop_scan re (g : str -> str) fuel : forall bef aft,
  replace_loop re (fun r => g (matched r)) fuel bef aft =
  List.concat (map (render g) (scan_loop re fuel bef aft)).
Proof.
  induction fuel as [|fuel IH]; intros bef aft.
  - cbn [replace_loop scan_loop]. induction aft as [|c aft IHa]; [reflexivity|].
    cbn [map List.concat render app]. now rewrite <- IHa.
  - cbn [replace_loop scan_loop]. destruct (match_at re bef aft) as [r|].
    + cbn [map List.concat render]. f_equal.
      destruct (List.length (matched r)) as [|n].
      * destruct aft as [|c aft]; [reflexivity|].
        cbn [map List.concat render app]. now rewrite IH.
      * apply IH.
    + destruct aft as [|c aft]; [reflexivity|].
      cbn [map List.concat render app]. now rewrite IH.
Qed.

Lemma replace_all_scan re (g : str -> str) s :
  replace_all re (fun r => g (matched r)) s = List.concat (map (render g) (scan re s)).
Proof. apply replace_loop_scan. Qed.

Lemma scan_text re s : List.concat (map seg_text (scan re s)) = s.
Proof.
  change seg_text with (render (fun t => t)).
  rewrite <- replace_all_scan. apply replace_all_self. reflexivity.
Qed.

Lemma scan_loop_hits re (P : str -> Prop) :
  (forall bef aft r, match_at re bef aft = Some r -> P (matched r)) ->
  forall fuel bef aft,
  Forall (fun sg => match sg with Hit t => P t | Gap _ => True end)
    (scan_loop re fuel bef aft).
Proof.
  intros HP. induction fuel as [|fuel IH]; intros bef aft.
  - cbn [scan_loop]. induction aft; constructor; auto.
  - cbn [scan_loop]. destruct (match_at re bef aft) as [r|] eqn:E.
    + constructor; [eapply HP; eauto|].
      destruct (List.length (matched r)) as [|n].
      * destruct aft as [|c aft]; constructor; auto.
      * apply IH.
    + destruct aft as [|c aft]; constructor; auto.
Qed.

(** ** The shape of a placeholder *)

Lemma prefix_eq_exact o : forall aft,
  prefix_eq no_flags o aft = true -> exists rest, aft = o ++ rest.
Proof.
  induction o as [|c o IH]; intros aft H; [now exists aft|].
  destruct aft as [|x aft]; [discriminate|]. cbn [prefix_eq] in H.
  apply andb_prop in H as [H1 H2]. apply N.eqb_eq in H1. cbn in H1. subst x.
  destruct (IH aft H2) as [rest ->]. now exists rest.
Qed.

(** What a successful quantifier over a one-character atom consumed. *)
Lemma rep_char_sound mr p greedy (k : cont) :
  char_atom mr p ->
  forall fuel mn bef aft cs z,
  repeat_matcher mr [] greedy k fuel mn None (MState bef aft cs) = Some z ->
  exists xs rest,
    aft = xs ++ rest /\ forallb p xs = true /\ mn <= List.length xs /\
    k (MState (rev xs ++ bef) rest cs) = Some z.
Proof.
  intros Hmr. induction fuel as [|fuel IH]; intros mn bef aft cs z H; [discriminate|].
  cbn [repeat_matcher] in H. cbn [before after caps] in H.
  rewrite clear_caps_nil in H.
  assert (Hiter : forall z',
     mr (fun y => if (mn =? 0) && (List.length (after y) =? List.length aft) then None
                  else repeat_matcher mr [] greedy k fuel (pred mn) (option_map pred None) y)
        (MState bef aft cs) = Some z' ->
     exists xs rest,
       aft = xs ++ rest /\ forallb p xs = true /\ mn <= List.length xs /\
       k (MState (rev xs ++ bef) rest cs) = Some z').
  { intros z' Hz. rewrite Hmr in Hz. unfold match_char in Hz. cbn [after before caps] in Hz.
    destruct aft as [|c aft]; [discriminate|].
    destruct (p c) eqn:Ec; [|discriminate].
    destruct ((mn =? 0) && _); [discriminate|].
    apply IH in Hz as (xs & rest & E & Hxs & Hmn & Hk).
    exists (c :: xs), rest. cbn [forallb List.length app rev]. rewrite Ec, Hxs.
    repeat split; [now rewrite E | lia |]. now rewrite <- app_assoc. }
  assert (Hstop : mn = 0 -> k (MState bef aft cs) = Some z ->
     exists xs rest,
       aft = xs ++ rest /\ forallb p xs = true /\ mn <= List.length xs /\
       k (MState (rev xs ++ bef) rest cs) = Some z).
  { intros -> Hz. exists [], aft. repeat split; auto. }
  destruct (mn =? 0) eqn:Emn; cbn [negb] in H.
  - apply Nat.eqb_eq in Emn. destruct greedy.
    + destruct (mr _ _) as [z'|] eqn:Ez.
      * injection H as <-. now apply Hiter.
      * now apply Hstop.
    + destruct (k (MState bef aft cs)) as [z'|] eqn:Ez.
      * injection H as <-. now apply Hstop.
      * now apply Hiter.
  - now apply Hiter.
Qed.

Lemma class_name_char c :
  class_mem no_flags [upper_AZ; digits_09; IChar (ch "_")] c = name_char c.
Proof.
  unfold class_mem, items_mem, name_char. cbn [icase no_flags existsb item_mem upper_AZ digits_09].
  change (ch "A") with 65%N. change (ch "Z") with 90%N.
  change (ch "0") with 48%N. change (ch "9") with 57%N. change (ch "_") with 95%N.
  rewrite orb_false_r, (N.eqb_sym 95 c). now rewrite orb_assoc.
Qed.

Lemma token_match_shape bef aft r :
  match_at re_token bef aft = Some r -> placeholder_shaped (matched r).
Proof.
  unfold match_at, re_token, re, seqs, lit. cbn [source reflags].
  destruct (m no_flags _ _ _) as [z|] eqn:Hz; [|discriminate].
  intros E. injection E as <-. cbn [matched].
  rewrite m_Seq, m_lit_chars in Hz. cbn [after] in Hz.
  destruct (prefix_eq no_flags (js "__PROTECTED_") aft) eqn:Ep; [|discriminate].
  apply prefix_eq_exact in Ep as [aft1 ->].
  rewrite advance_app in Hz.
  unfold lazy_plus in Hz. rewrite m_Seq, m_Group, m_Rep in Hz. cbn [groups after] in Hz.
  apply (rep_char_sound _ (fun c => xorb false (class_mem no_flags
           [upper_AZ; digits_09; IChar (ch "_")] c))) in Hz;
    [|apply char_atom_Class].
  destruct Hz as (nm & aft2 & -> & Hnm & Hlen & Hz).
  cbn [after before caps] in Hz.
  rewrite m_Seq in Hz. cbn [m] in Hz. unfold match_char in Hz. cbn [after before caps] in Hz.
  destruct aft2 as [|u aft3]; [discriminate|].
  destruct (char_eq no_flags (ch "_") u) eqn:Eu; [|discriminate].
  apply N.eqb_eq in Eu. cbn in Eu. subst u.
  change (m no_flags (seqs [Group 2 (plus digit); lit_chars (js "__")]) (fun y => Some y)
            (MState (95%N :: rev nm ++ rev (js "__PROTECTED_") ++ bef) aft3
               (set_cap 1 (firstn (List.length (nm ++ 95%N :: aft3) - List.length (95%N :: aft3))
                             (nm ++ 95%N :: aft3)) [])) = Some z) in Hz.
  cbn [seqs] in Hz. unfold plus, digit in Hz.
  rewrite m_Seq, m_Group, m_Rep in Hz. cbn [groups after] in Hz.
  apply (rep_char_sound _ (fun c => xorb false (class_mem no_flags [IDigit] c))) in Hz;
    [|apply char_atom_Class].
  destruct Hz as (ds & aft4 & -> & Hds & Hlen2 & Hz).
  cbn [after before caps] in Hz.
  rewrite m_Seq, m_lit_chars in Hz. cbn [after] in Hz.
  destruct (prefix_eq no_flags (js "__") aft4) eqn:Ep2; [|discriminate].
  apply prefix_eq_exact in Ep2 as [aft5 ->].
  rewrite advance_app in Hz. cbn [m] in Hz. injection Hz as <-. cbn [after].
  exists nm, ds. repeat split.
  - match goal with
    | |- firstn (List.length ?a - _) _ = ?b =>
        replace a with (b ++ aft5) by (rewrite <- !app_assoc; reflexivity)
    end.
    apply firstn_app_exact.
  - destruct nm; [simpl in Hlen; lia | discriminate].
  - rewrite <- Hnm. apply forallb_eq. intros c. cbn [xorb]. symmetry. apply class_name_char.
  - destruct ds; [simpl in Hlen2; lia | discriminate].
  - unfold all_digits. rewrite <- Hds. apply forallb_eq. intros c. cbn [xorb].
    symmetry. apply class_digit.
Qed.

Lemma placeholders_shaped s :
  Forall (fun sg => match sg with Hit t => placeholder_shaped t | Gap _ => True end)
    (placeholders s).
Proof. apply scan_loop_hits. apply token_match_shape. Qed.

(** ** Where [exec] finds its match *)

Lemma search_first re s : forall bef r,
  search re bef s = Some r ->
  exists k, k <= List.length s /\
    match_at re (rev (firstn k s) ++ bef) (skipn k s) = Some r /\
    forall k', k' < k -> match_at re (rev (firstn k' s) ++ bef) (skipn k' s) = None.
Proof.
  induction s as [|c s IH]; intros bef r H; cbn [search] in H.
  - destruct (match_at re bef []) eqn:E; [|discriminate]. injection H as <-.
    exists 0. repeat split; [auto | exact E | intros; lia].
  - destruct (match_at re bef (c :: s)) eqn:E.
    + injection H as <-. exists 0. repeat split; [simpl; lia | exact E | intros; lia].
    + apply IH in H as (k & Hk & Hm & Hmin). exists (S k).
      cbn [firstn skipn rev List.length]. rewrite <- app_assoc. cbn [app].
      repeat split; [lia | exact Hm |].
      intros [|k'] Hlt; [exact E|].
      cbn [firstn skipn rev]. rewrite <- app_assoc. apply Hmin. lia.
Qed.

Lemma search_some re s : forall bef k,
  k <= List.length s ->
  match_at re (rev (firstn k s) ++ bef) (skipn k s) <> None ->
  search re bef s <> None.
Proof.
  induction s as [|c s IH]; intros bef k Hk H; cbn [search].
  - destruct k; [|simpl in Hk; lia]. cbn in H. destruct (match_at re bef []); congruence.
  - destruct (match_at re bef (c :: s)) eqn:E; [discriminate|].
    destruct k as [|k]; [cbn in H; congruence|].
    apply (IH (c :: bef) k); [simpl in Hk; lia|].
    cbn [firstn skipn rev] in H. now rewrite <- app_assoc in H.
Qed.

Lemma exec_first re s r :
  exec re s = Some r ->
  exists k, k <= List.length s /\
    match_at re (rev (firstn k s)) (skipn k s) = Some r /\
    forall k', k' < k -> match_at re (rev (firstn k' s)) (skipn k' s) = None.
Proof.
  intros H. apply search_first in H as (k & H1 & H2 & H3). exists k.
  rewrite app_nil_r in H2. repeat split; auto.
  intros k' Hk. specialize (H3 k' Hk). now rewrite app_nil_r in H3.
Qed.

Lemma exec_some re s k :
  k <= List.length s -> match_at re (rev (firstn k s)) (skipn k s) <> None ->
  exec re s <> None.
Proof. intros Hk H. apply (search_some re s [] k Hk). now rewrite app_nil_r. Qed.

(** ** Literal patterns *)

Lemma prefix_eq_length fl o : forall aft,
  prefix_eq fl o aft = true -> List.length o <= List.length aft.
Proof.
  induction o as [|c o IH]; intros aft H; [simpl; lia|].
  destruct aft as [|x aft]; [discriminate|]. cbn [prefix_eq] in H.
  apply andb_prop in H as [_ H]. apply IH in H. simpl. lia.
Qed.

Lemma after_advance n : forall st, after (advance n st) = skipn n (after st).
Proof.
  induction n as [|n IH]; intros [bef aft cs]; [reflexivity|].
  destruct aft as [|c aft]; [reflexivity|]. cbn [advance skipn after before caps]. now rewrite IH.
Qed.

Lemma caps_advance n : forall st, caps (advance n st) = caps st.
Proof.
  induction n as [|n IH]; intros [bef aft cs]; [reflexivity|].
  destruct aft as [|c aft]; [reflexivity|]. cbn [advance caps after before]. now rewrite IH.
Qed.

Lemma match_at_lit fl o bef aft :
  match_at (lit_regexp fl o) bef aft =
  if prefix_eq fl o aft
  then Some (MatchResult (List.length bef) (firstn (List.length o) aft) [])
  else None.
Proof.
  unfold match_at, lit_regexp. cbn [source reflags]. rewrite m_lit_chars. cbn [after].
  destruct (prefix_eq fl o aft) eqn:E; [|reflexivity].
  cbv beta iota. rewrite after_advance, caps_advance. cbn [after caps].
  apply prefix_eq_length in E. rewrite length_skipn.
  replace (List.length aft - (List.length aft - List.length o)) with (List.length o) by lia.
  reflexivity.
Qed.

Lemma first_at_unique fl o s k1 k2 : first_at fl o s k1 -> first_at fl o s k2 -> k1 = k2.
Proof.
  intros (_ & H1 & M1) (_ & H2 & M2).
  destruct (Nat.lt_trichotomy k1 k2) as [L|[L|L]]; [|exact L|].
  - rewrite (M2 _ L) in H1. discriminate.
  - rewrite (M1 _ L) in H2. discriminate.
Qed.

Lemma exec_lit fl o s r :
  exec (lit_regexp fl o) s = Some r ->
  first_at fl o s (index r) /\ List.length (matched r) = List.length o.
Proof.
  intros H. apply exec_first in H as (k & Hk & Hm & Hmin).
  rewrite match_at_lit in Hm.
  destruct (prefix_eq fl o (skipn k s)) eqn:E; [|discriminate].
  injection Hm as <-. cbn [index matched].
  rewrite length_rev, length_firstn, Nat.min_l by exact Hk.
  split.
  - repeat split; auto. intros k' Hlt. specialize (Hmin k' Hlt).
    rewrite match_at_lit in Hmin. destruct (prefix_eq fl o (skipn k' s)); congruence.
  - rewrite length_firstn. apply prefix_eq_length in E. lia.
Qed.

Lemma exec_lit_at fl o s k :
  k <= List.length s -> prefix_eq fl o (skipn k s) = true ->
  exists r, exec (lit_regexp fl o) s = Some r /\ index r <= k.
Proof.
  intros Hk H.
  destruct (exec (lit_regexp fl o) s) as [r|] eqn:E.
  - exists r. split; [reflexivity|]. apply exec_lit in E as [(_ & _ & Hmin) _].
    destruct (Nat.le_gt_cases (index r) k) as [L|L]; [exact L|].
    rewrite (Hmin _ L) in H. discriminate.
  - exfalso. revert E. apply (exec_some _ s k Hk). rewrite match_at_lit, H. discriminate.
Qed.

Lemma exec_lit_first fl o s k :
  first_at fl o s k ->
  exists r, exec (lit_regexp fl o) s = Some r /\ index r = k /\
            List.length (matched r) = List.length o.
Proof.
  intros Hf. pose proof Hf as (Hk & Hp & _).
  destruct (exec_lit_at fl o s k Hk Hp) as (r & E & _).
  exists r. split; [exact E|]. apply exec_lit in E as [Hf' Hl].
  split; [eapply first_at_unique; eassumption | exact Hl].
Qed.

Lemma prefix_eq_app_long fl o : forall x y,
  List.length o <= List.length x -> prefix_eq fl o (x ++ y) = prefix_eq fl o x.
Proof.
  induction o as [|c o IH]; intros x y H; [reflexivity|].
  destruct x as [|u x]; [simpl in H; lia|]. cbn [app prefix_eq].
  rewrite IH; [reflexivity | simpl in H; lia].
Qed.

(** A literal that does not start before a character none of its own
    characters equals. *)
Lemma prefix_eq_blocked fl u o : forall x q rest,
  forallb (fun c => negb (char_eq fl c u)) o = true ->
  prefix_eq fl o (x ++ q) = false ->
  prefix_eq fl o (x ++ u :: rest) = false.
Proof.
  induction o as [|c o IH]; intros x q rest Ho H; [discriminate|].
  cbn [forallb] in Ho. apply andb_prop in Ho as [Hc Ho]. apply negb_true_iff in Hc.
  destruct x as [|y x].
  - cbn [app prefix_eq]. now rewrite Hc.
  - cbn [app prefix_eq] in *. destruct (char_eq fl c y); [|reflexivity].
    cbn [andb] in *. eapply IH; eassumption.
Qed.

(** ** A token put in front of the start it replaces *)

Section Loop.

Variables (fl : flags) (S_ E_ : str) (nm : str).

Let rl : rule := Rule nm (lit_regexp fl S_) (Some (lit_regexp fl E_)).

Hypothesis S_blocked : forallb (fun c => negb (char_eq fl c (ch "_"))) S_ = true.

Lemma token_head counter : exists rest, token nm counter = ch "_" :: rest.
Proof. unfold token. cbn. eauto. Qed.

Lemma crossed_step text a e counter :
  first_at fl S_ text a -> first_at fl E_ text e -> e + List.length E_ <= a ->
  crossed fl S_ E_ (firstn a text ++ token nm counter ++ skipn (e + List.length E_) text).
Proof.
  intros (Ha & HS & MS) (He & HE & ME) Hlt.
  destruct (token_head counter) as [tk Etk]. rewrite Etk.
  set (n := List.length E_) in *.
  set (p := firstn a text). set (w := skipn (e + n) text).
  assert (Lp : List.length p = a) by (unfold p; rewrite length_firstn; lia).
  assert (Etext : text = p ++ skipn a text) by (unfold p; now rewrite firstn_skipn).
  assert (Hskip : forall k y, k <= a -> skipn k (p ++ y) = skipn k p ++ y).
  { intros k y Hk. rewrite skipn_app. replace (k - List.length p) with 0 by lia.
    reflexivity. }
  assert (Hcut : forall k, k <= a -> skipn k text = skipn k p ++ skipn a text).
  { intros k Hk. rewrite <- Hskip by lia. now rewrite <- Etext. }
  (* the end marker is found where it was *)
  assert (HE' : first_at fl E_ (p ++ (ch "_" :: tk) ++ w) e).
  { assert (Hsame : forall k, k <= e ->
        prefix_eq fl E_ (skipn k (p ++ (ch "_" :: tk) ++ w)) = prefix_eq fl E_ (skipn k text)).
    { intros k Hk. rewrite (Hcut k) by lia. rewrite Hskip by lia.
      rewrite !prefix_eq_app_long; [reflexivity| |]; rewrite length_skipn; fold n; lia. }
    repeat split.
    - rewrite length_app. lia.
    - rewrite Hsame by lia. exact HE.
    - intros k' Hk'. rewrite Hsame by lia. now apply ME. }
  (* no start marker before the token *)
  assert (NS : forall k, k < a ->
      prefix_eq fl S_ (skipn k (p ++ (ch "_" :: tk) ++ w)) = false).
  { intros k Hk. rewrite Hskip by lia. cbn [app].
    apply prefix_eq_blocked with (q := skipn a text); [exact S_blocked|].
    rewrite <- Hcut by lia. now apply MS. }
  (* the old start marker is still there, further right *)
  set (k0 := a + List.length (ch "_" :: tk) + (a - (e + n))).
  assert (Hk0 : skipn k0 (p ++ (ch "_" :: tk) ++ w) = skipn a text).
  { unfold k0. rewrite app_assoc, skipn_app.
    rewrite skipn_all2 by (rewrite length_app; lia).
    rewrite length_app, Lp. cbn [app].
    replace (a + List.length (ch "_" :: tk) + (a - (e + n)) - (a + List.length (ch "_" :: tk)))
      with (a - (e + n)) by lia.
    unfold w. rewrite skipn_skipn. f_equal. lia. }
  assert (Lk0 : k0 <= List.length (p ++ (ch "_" :: tk) ++ w)).
  { unfold k0, w. rewrite !length_app, length_skipn, Lp. lia. }
  destruct (exec_lit_at fl S_ _ k0 Lk0) as (r & Er & Hr); [now rewrite Hk0|].
  apply exec_lit in Er as [Hfirst _].
  exists (index r), e. repeat split; try apply Hfirst; try apply HE'.
  destruct (Nat.le_gt_cases a (index r)) as [L|L]; [fold n; lia|].
  destruct Hfirst as (_ & Hp & _). rewrite (NS _ L) in Hp. discriminate.
Qed.

(** Once crossed, the loop never ends. *)
Lemma crossed_loops fuel : forall text st counter,
  crossed fl S_ E_ text -> protect_rule fuel rl text st counter = None.
Proof.
  induction fuel as [|fuel IH]; intros text st counter (a & e & Ha & He & Hlt).
  - destruct (exec_lit_first _ _ _ _ Ha) as (r & Er & _).
    destruct (exec_lit_first _ _ _ _ He) as (r' & Er' & _).
    cbn [protect_rule rl start end_]. now rewrite Er, Er'.
  - destruct (exec_lit_first _ _ _ _ Ha) as (r & Er & Ir & _).
    destruct (exec_lit_first _ _ _ _ He) as (r' & Er' & Ir' & Lr').
    cbn [protect_rule rl start end_ name]. rewrite Er, Er'.
    rewrite Ir, Ir', Lr'. unfold slice, slice_from. cbn [skipn]. rewrite Nat.sub_0_r.
    apply IH. now apply crossed_step.
Qed.

Hypothesis S_nonempty : S_ <> [].

Lemma literal_chunks fuel : forall text st counter text' st' counter',
  chunks_nonempty st ->
  protect_rule fuel rl text st counter = Some (text', st', counter') ->
  chunks_nonempty st'.
Proof.
  induction fuel as [|fuel IH]; intros text st counter text' st' counter' Hst H.
  - cbn [protect_rule rl start end_] in H.
    destruct (exec (lit_regexp fl S_) text); [|now injection H as <- <- <-].
    destruct (exec (lit_regexp fl E_) text); [discriminate|now injection H as <- <- <-].
  - pose proof H as H0. cbn [protect_rule rl start end_ name] in H.
    destruct (exec (lit_regexp fl S_) text) as [r|] eqn:Er; [|now injection H as <- <- <-].
    destruct (exec (lit_regexp fl E_) text) as [r'|] eqn:Er'; [|now injection H as <- <- <-].
    apply IH in H; [exact H|]. constructor; [|exact Hst]. cbn [snd].
    intros Hempty.
    apply exec_lit in Er as [Ha _]. apply exec_lit in Er' as [He Lr'].
    rewrite (crossed_loops (S fuel)) in H0; [discriminate|].
    exists (index r), (index r'). repeat split; try apply Ha; try apply He.
    rewrite <- Lr'.
    destruct (Nat.le_gt_cases (index r' + List.length (matched r')) (index r)) as [L|L];
      [exact L|exfalso].
    unfold slice in Hempty. destruct Ha as (_ & Hp & _).
    apply prefix_eq_length in Hp.
    destruct (skipn (index r) text) as [|c q] eqn:Eq.
    + destruct S_; [congruence | simpl in Hp; lia].
    + destruct (index r' + List.length (matched r') - index r) eqn:En; [lia|].
      discriminate.
Qed.

End Loop.

(** ** The fence opener *)

Lemma has_newline_split s :
  has_newline s = true ->
  exists x y, s = x ++ nl :: y /\ has_newline x = false.
Proof.
  induction s as [|c s IH]; [discriminate|]. cbn [has_newline existsb].
  destruct (c =? nl)%N eqn:Ec.
  - intros _. apply N.eqb_eq in Ec. subst c. now exists [], s.
  - cbn [orb]. intros H. destruct (IH H) as (x & y & -> & Hx).
    exists (c :: x), y. split; [reflexivity|]. cbn [has_newline existsb].
    now rewrite Ec.
Qed.

Lemma has_newline_app x y : has_newline (x ++ y) = has_newline x || has_newline y.
Proof. apply existsb_app. Qed.

Lemma has_newline_skipn n s : has_newline (skipn n s) = true -> has_newline s = true.
Proof.
  intros H. rewrite <- (firstn_skipn n s), has_newline_app, H. apply orb_true_r.
Qed.

(** Where no newline is left, nothing that ends with one can match. *)
Lemma needs_newline r (k : cont) st :
  has_newline (after st) = false ->
  m no_flags (Seq r (Seq (Chr nl) Empty)) k st = None.
Proof.
  intros H. rewrite m_Seq. apply m_fail. intros st' (xs & E & _).
  rewrite E, has_newline_app in H. apply orb_false_elim in H as [_ H].
  rewrite m_Seq. cbn [m]. unfold match_char.
  destruct (after st') as [|c aft]; [reflexivity|].
  cbn [has_newline existsb] in H. apply orb_false_elim in H as [H _].
  rewrite char_eq_exact, N.eqb_sym. now rewrite H.
Qed.

Lemma fence_open_sound bef aft r :
  match_at fence_open bef aft = Some r ->
  prefix_eq no_flags (js "```") aft = true /\ has_newline (skipn 3 aft) = true.
Proof.
  unfold match_at, fence_open, re, lit. cbn [source reflags seqs].
  rewrite m_Seq, m_lit_chars. cbn [after].
  destruct (prefix_eq no_flags (js "```") aft) eqn:Ep; [|discriminate].
  intros H. split; [reflexivity|].
  destruct (has_newline (skipn 3 aft)) eqn:En; [reflexivity|exfalso].
  rewrite needs_newline in H; [discriminate|].
  rewrite after_advance. exact En.
Qed.

Lemma fence_open_complete bef aft :
  prefix_eq no_flags (js "```") aft = true -> has_newline (skipn 3 aft) = true ->
  match_at fence_open bef aft <> None.
Proof.
  intros Hp Hn. apply prefix_eq_exact in Hp as [rest ->].
  change (skipn 3 (js "```" ++ rest)) with rest in Hn.
  apply has_newline_split in Hn as (x & y & -> & Hx).
  unfold match_at, fence_open, re, lit. cbn [source reflags seqs].
  rewrite m_Seq, m_lit_chars. cbn [after].
  replace (prefix_eq no_flags (js "```") (js "```" ++ x ++ nl :: y)) with true by reflexivity.
  rewrite advance_app. unfold lazy_star. rewrite m_Seq, m_Rep. cbn [after Nat.add].
  replace (S (List.length (x ++ nl :: y))) with (List.length x + S (S (List.length y)))
    by (rewrite length_app; simpl; lia).
  cbn [groups any].
  rewrite (lazy_skip (m no_flags any) (fun _ => true));
    [| apply char_atom_any | now apply forallb_forall |].
  - erewrite lazy_stop; [discriminate|].
    rewrite m_Seq. cbn [m]. unfold match_char. cbn [after before caps].
    replace (char_eq no_flags nl nl) with true by reflexivity. reflexivity.
  - intros pre c suf E. rewrite m_Seq. cbn [m]. unfold match_char. cbn [after].
    replace (char_eq no_flags nl c) with false; [reflexivity|].
    rewrite E in Hx. rewrite has_newline_app in Hx. apply orb_false_elim in Hx as [_ Hx].
    cbn [has_newline existsb] in Hx. apply orb_false_elim in Hx as [Hx _].
    now rewrite char_eq_exact, N.eqb_sym.
Qed.

Lemma prefix_eq_tail fl c o s :
  prefix_eq fl (c :: o) s = true -> prefix_eq fl o (skipn 1 s) = true.
Proof.
  destruct s as [|x s]; [discriminate|]. cbn [prefix_eq skipn].
  intros H. now apply andb_prop in H as [_ H].
Qed.

(** The fence rule never records an empty chunk: the first closing fence
    cannot end before the first opener starts. *)
Lemma fence_chunk text r r' :
  exec fence_open text = Some r ->
  exec (lit_regexp no_flags (js "\n```")) text = Some r' ->
  slice text (index r) (index r' + List.length (matched r')) <> [].
Proof.
  intros Er Er'.
  apply exec_first in Er as (a & Ha & Hm & Hmin).
  pose proof (match_at_matched _ _ _ _ Hm) as (_ & _ & Ia).
  rewrite length_rev, length_firstn, Nat.min_l in Ia by exact Ha.
  apply fence_open_sound in Hm as [Hp Hn].
  apply exec_lit in Er' as [(He & HE & _) Lr'].
  rewrite Ia, Lr'. set (e := index r') in *. change (List.length (js "\n```")) with 4.
  assert (Hlt : a < e + 4).
  { destruct (Nat.le_gt_cases (e + 4) a) as [L|L]; [exfalso|exact L].
    assert (He1 : e + 1 < a) by lia.
    apply (fence_open_complete (rev (firstn (e + 1) text)) (skipn (e + 1) text));
      [| |now apply Hmin].
    - replace (e + 1) with (1 + e) by lia. rewrite <- skipn_skipn.
      change (js "\n```") with (nl :: js "```") in HE.
      now apply prefix_eq_tail in HE.
    - rewrite skipn_skipn. apply (has_newline_skipn (a + 3 - (3 + (e + 1)))).
      rewrite skipn_skipn. rewrite skipn_skipn in Hn.
      replace (a + 3 - (3 + (e + 1)) + (3 + (e + 1))) with (3 + a) by lia. exact Hn. }
  unfold slice. apply prefix_eq_length in Hp.
  destruct (skipn a text) as [|c q]; [simpl in Hp; lia|].
  destruct (e + 4 - a) eqn:En; [lia|]. discriminate.
Qed.

Lemma rule_code_fence_eq : rule_code_fence = fence_rule.
Proof. reflexivity. Qed.

Lemma rule_code_bgg_eq : rule_code_bgg = code_rule.
Proof. reflexivity. Qed.

Lemma protect_rule_pair fuel nm re1 re2 text st counter :
  protect_rule fuel (Rule nm re1 (Some re2)) text st counter =
  match exec re1 text with
  | None => Some (text, st, counter)
  | Some m0 =>
      match exec re2 text with
      | None => Some (text, st, counter)
      | Some endMatch =>
          match fuel with
          | 0 => None
          | S fuel' =>
              protect_rule fuel' (Rule nm re1 (Some re2))
                (slice text 0 (index m0) ++ token nm counter ++
                 slice_from text (index endMatch + List.length (matched endMatch)))
                ((token nm counter,
                  slice text (index m0) (index endMatch + List.length (matched endMatch)))
                 :: st) (S counter)
          end
      end
  end.
Proof.
  destruct fuel; cbn [protect_rule start end_ name];
    destruct (exec re1 text); try reflexivity; destruct (exec re2 text); reflexivity.
Qed.

Lemma fence_chunks fuel : forall text st counter text' st' counter',
  chunks_nonempty st ->
  protect_rule fuel fence_rule text st counter = Some (text', st', counter') ->
  chunks_nonempty st'.
Proof.
  unfold fence_rule.
  induction fuel as [|fuel IH]; intros text st counter text' st' counter' Hst H;
    rewrite protect_rule_pair in H.
  - destruct (exec fence_open text); [|now injection H as <- <- <-].
    destruct (exec (lit_regexp no_flags (js "\n```")) text);
      [discriminate|now injection H as <- <- <-].
  - destruct (exec fence_open text) as [r|] eqn:Er; [|now injection H as <- <- <-].
    destruct (exec (lit_regexp no_flags (js "\n```")) text) as [r'|] eqn:Er';
      [|now injection H as <- <- <-].
    apply IH in H; [exact H|]. constructor; [|exact Hst]. cbn [snd].
    now apply fence_chunk.
Qed.

Lemma code_bgg_chunks fuel text st counter text' st' counter' :
  chunks_nonempty st ->
  protect_rule fuel code_rule text st counter = Some (text', st', counter') ->
  chunks_nonempty st'.
Proof.
  unfold code_rule.
  apply (literal_chunks flag_i (js "[code]") (js "[/code]") (js "CODE_BGG"));
    [vm_compute; reflexivity | discriminate].
Qed.

(** ** Restoring *)

Lemma store_get_in t st chunk : store_get t st = Some chunk -> exists t', In (t', chunk) st.
Proof.
  unfold store_get. destruct (find _ st) as [[t' c]|] eqn:E; [|discriminate].
  intros H. injection H as <-. apply find_some in E as [E _]. eauto.
Qed.

Lemma restore_token_get st t :
  chunks_nonempty st ->
  restore_token st t = match store_get t st with Some chunk => chunk | None => t end.
Proof.
  intros Hst. unfold restore_token. destruct (store_get t st) as [[|c chunk]|] eqn:E;
    try reflexivity.
  apply store_get_in in E as [t' E]. unfold chunks_nonempty in Hst.
  rewrite Forall_forall in Hst. now apply Hst in E.
Qed.

Lemma protected_chunks fuel input rl text st :
  rl = rule_code_bgg \/ rl = rule_code_fence ->
  protectSegments fuel input [rl] = Some (text, st) -> chunks_nonempty st.
Proof.
  unfold protectSegments. cbn [protect_rules]. intros Hrl H.
  destruct (protect_rule fuel rl input [] 0) as [[[text' st'] c']|] eqn:E; [|discriminate].
  injection H as <- <-.
  destruct Hrl as [-> | ->].
  - rewrite rule_code_bgg_eq in E. eapply code_bgg_chunks; [|exact E]. constructor.
  - rewrite rule_code_fence_eq in E. eapply fence_chunks; [|exact E]. constructor.
Qed.

Lemma restore_segments st s :
  chunks_nonempty st ->
  restore st s = List.concat (map (restored st) (placeholders s)).
Proof.
  intros Hst. unfold restore, placeholders. rewrite replace_all_scan.
  f_equal. apply map_ext. intros [c|t]; [reflexivity|]. cbn [render restored].
  now apply restore_token_get.
Qed.

(** Text without an opening bracket goes through [bggToMarkdown]
    unchanged. *)
Lemma bgg_passes_plain s : no_lb s = true -> bgg_passes s = s.
Proof.
  intros Hs. unfold bgg_passes.
  skip_plain s Hs.
  reflexivity.
Qed.

Lemma bggToMarkdown_plain fuel s :
  no_lb s = true -> bggToMarkdown fuel s = Some s.
Proof.
  intros Hs. destruct s as [|c s]; [reflexivity|].
  rewrite bggToMarkdown_nonempty by discriminate.
  rewrite protect_none.
  - now rewrite restore_empty, bgg_passes_plain.
  - eapply never_no_lb; [apply opens_lit | reflexivity | exact Hs].
Qed.

(** ** Patterns that need a character of a kind *)

Lemma free_of_app p a b : free_of p (a ++ b) = free_of p a && free_of p b.
Proof. apply forallb_app. Qed.

Lemma ext_free_of p st st' :
  ext st st' -> free_of p (after st) = true -> free_of p (after st') = true.
Proof.
  intros (xs & H & _) Hn. rewrite H, free_of_app in Hn.
  now apply andb_prop in Hn as [_ Hn].
Qed.

Section Needs.

Variables (p : char -> bool) (fl : flags).

Lemma needs_atom mr q :
  char_atom mr q -> (forall x, q x = true -> p x = true) ->
  forall (k : cont) st, free_of p (after st) = true -> mr k st = None.
Proof.
  intros Hmr Hq k st H. rewrite Hmr. unfold match_char.
  destruct (after st) as [|c aft]; [reflexivity|].
  cbn [free_of forallb] in H. apply andb_prop in H as [H _].
  destruct (q c) eqn:E; [|reflexivity].
  apply Hq in E. now rewrite E in H.
Qed.

Lemma needs_chr c :
  (forall x, char_eq fl c x = true -> p x = true) -> needs p fl (Chr c).
Proof.
  intros H k st Hn.
  apply (needs_atom _ (char_eq fl c)); [apply char_atom_Chr | exact H | exact Hn].
Qed.

Lemma needs_class items :
  (forall x, class_mem fl items x = true -> p x = true) -> needs p fl (Class false items).
Proof.
  intros H k st Hn.
  apply (needs_atom _ (fun c => xorb false (class_mem fl items c)));
    [apply char_atom_Class | exact H | exact Hn].
Qed.

Lemma needs_seq_l R1 R2 : needs p fl R1 -> needs p fl (Seq R1 R2).
Proof. intros H k st Hn. rewrite m_Seq. now apply H. Qed.

Lemma needs_seq_r R1 R2 : needs p fl R2 -> needs p fl (Seq R1 R2).
Proof.
  intros H k st Hn. rewrite m_Seq. apply m_fail. intros st' Hext.
  apply H. eapply ext_free_of; eassumption.
Qed.

Lemma needs_alt R1 R2 : needs p fl R1 -> needs p fl R2 -> needs p fl (Alt R1 R2).
Proof. intros H1 H2 k st Hn. cbn [m]. rewrite H1 by exact Hn. now apply H2. Qed.

Lemma needs_group i R : needs p fl R -> needs p fl (Group i R).
Proof. intros H k st Hn. rewrite m_Group. now apply H. Qed.

Lemma needs_rep R mn mx g :
  needs p fl R -> 1 <= mn -> mx <> Some 0 -> needs p fl (Rep R mn mx g).
Proof.
  intros H Hmn Hmx k st Hn. rewrite m_Rep.
  destruct mn as [|mn]; [lia|]. cbn [Nat.add repeat_matcher].
  destruct mx as [[|n]|]; [congruence| |]; cbn [Nat.eqb negb]; apply H; exact Hn.
Qed.

Lemma needs_lit c o :
  (forall x, char_eq fl c x = true -> p x = true) -> needs p fl (lit_chars (c :: o)).
Proof. intros H. cbn [lit_chars]. apply needs_seq_l. now apply needs_chr. Qed.

End Needs.

Lemma never_needs p re s :
  needs p (reflags re) (source re) -> free_of p s = true -> never re s.
Proof.
  intros H. induction s as [|c s IH]; intros Hs.
  - split; [|exact I]. intros bef. unfold match_at. now rewrite H.
  - split.
    + intros bef. unfold match_at. now rewrite H.
    + apply IH. cbn [free_of forallb] in Hs. now apply andb_prop in Hs as [_ Hs].
Qed.

Lemma test_needs p re s :
  needs p (reflags re) (source re) -> free_of p s = true -> test re s = false.
Proof. intros H Hs. apply test_never. now apply (never_needs p). Qed.

(** ** Lines *)

Lemma split_from_lines s : forall bef acc,
  no_cr s = true -> split_from re_newline bef acc s = lines_acc acc s.
Proof.
  induction s as [|c s IH]; intros bef acc H; [apply split_from_nil|].
  cbn [no_cr forallb] in H. apply andb_prop in H as [Hc Hs]. apply negb_true_iff in Hc.
  cbn [lines_acc]. destruct (c =? nl)%N eqn:E.
  - apply N.eqb_eq in E. subst c.
    change (nl :: s) with ([nl] ++ s).
    rewrite (split_from_match re_newline bef acc [nl] s _ (newline_match bef s));
      [| reflexivity | discriminate].
    f_equal. now apply IH.
  - rewrite split_from_skip by (now apply newline_reject). now apply IH.
Qed.

Lemma split_lines s : no_cr s = true -> split re_newline s = lines s.
Proof.
  intros H. destruct s as [|c s].
  - unfold split. now rewrite newline_reject_nil.
  - rewrite split_split_from by discriminate. now apply split_from_lines.
Qed.

Lemma lines_acc_not_nil s : forall acc, lines_acc acc s <> [].
Proof.
  induction s as [|c s IH]; intros acc; cbn [lines_acc]; [discriminate|].
  destruct (c =? nl)%N; [discriminate | apply IH].
Qed.

Lemma join_cons sep x l : l <> [] -> join sep (x :: l) = x ++ sep ++ join sep l.
Proof. destruct l; [congruence | reflexivity]. Qed.

Lemma join_lines_acc s : forall acc, join (js "\n") (lines_acc acc s) = rev acc ++ s.
Proof.
  induction s as [|c s IH]; intros acc; cbn [lines_acc].
  - cbn [join]. now rewrite app_nil_r.
  - destruct (c =? nl)%N eqn:E.
    + apply N.eqb_eq in E. subst c.
      rewrite join_cons by apply lines_acc_not_nil. rewrite IH. reflexivity.
    + rewrite IH. cbn [rev]. now rewrite <- app_assoc.
Qed.

Lemma join_lines s : join (js "\n") (lines s) = s.
Proof. apply join_lines_acc. Qed.

Lemma lines_acc_chars (q : char -> bool) s : forall acc,
  forallb q acc = true -> forallb q s = true ->
  Forall (fun l => forallb q l = true) (lines_acc acc s).
Proof.
  induction s as [|c s IH]; intros acc Ha Hs; cbn [lines_acc].
  - constructor; [|constructor]. now rewrite forallb_rev_eq.
  - cbn [forallb] in Hs. apply andb_prop in Hs as [Hc Hs].
    destruct (c =? nl)%N.
    + constructor; [now rewrite forallb_rev_eq | now apply IH].
    + apply IH; [|exact Hs]. cbn [forallb]. now rewrite Hc, Ha.
Qed.

(** ** Characters that Markdown gives a meaning *)

Lemma char_eq_nonletter fl c x : is_letter c = false -> char_eq fl c x = true -> x = c.
Proof.
  unfold is_letter, char_eq, canon, to_upper. intros Hc H.
  destruct (icase fl).
  - destruct ((97 <=? c)%N && (c <=? 122)%N) eqn:E1;
      destruct ((97 <=? x)%N && (x <=? 122)%N) eqn:E2;
      apply N.eqb_eq in H;
      rewrite ?orb_false_iff, ?andb_true_iff, ?andb_false_iff, ?N.leb_le, ?N.leb_gt in *;
      lia.
  - apply N.eqb_eq in H. now subst.
Qed.

Ltac special_char :=
  let x := fresh "x" in
  let H := fresh "H" in
  intros x H; apply char_eq_nonletter in H; [subst x; reflexivity | reflexivity].

Ltac special_class :=
  let x := fresh "x" in
  let H := fresh "H" in
  intros x H; unfold class_mem, items_mem in H; cbn [icase no_flags flag_m existsb item_mem] in H;
  first [ unfold md_special; rewrite orb_false_r in H; rewrite H; apply orb_true_r
        | repeat (apply orb_prop in H as [H|H]); try discriminate;
          apply N.eqb_eq in H; subst x; reflexivity ].

Ltac needs_tac :=
  solve [ apply needs_chr; special_char
        | apply needs_class; special_class
        | apply needs_group; needs_tac
        | apply needs_rep; [needs_tac | lia | discriminate]
        | apply needs_seq_l; needs_tac
        | apply needs_seq_r; needs_tac ].

Lemma free_of_weaken (p q : char -> bool) s :
  (forall c, q c = true -> p c = true) -> free_of p s = true -> free_of q s = true.
Proof.
  intros Hpq. unfold free_of. induction s as [|c s IH]; [reflexivity|].
  cbn [forallb]. intros H. apply andb_prop in H as [Hc Hs].
  rewrite IH by exact Hs. apply negb_true_iff in Hc.
  destruct (q c) eqn:E; [|reflexivity]. apply Hpq in E. congruence.
Qed.

Lemma free_of_special_cr s : free_of md_special s = true -> no_cr s = true.
Proof.
  apply (free_of_weaken md_special (fun c => (c =? cr)%N)).
  intros c H. apply N.eqb_eq in H. now subst c.
Qed.

(** ** Block quotes *)

Lemma quote_marker_needs : needs (fun c => (c =? ch ">")%N) no_flags (source re_quote_marker).
Proof.
  unfold re_quote_marker, re. cbn [source seqs].
  apply needs_seq_r, needs_seq_l, needs_chr.
  intros x H. apply N.eqb_eq in H. cbn in H. subst x. reflexivity.
Qed.

(** Lines that do not start a quote are handed on one by one. *)
Lemma quote_steps_plain ls : forall out,
  Forall (fun l => test re_quote_marker l = false) ls ->
  fold_left quote_step ls (out, []) = (out ++ ls, []).
Proof.
  induction ls as [|l ls IH]; intros out H; cbn [fold_left].
  - now rewrite app_nil_r.
  - inversion H as [|? ? Hl Hls]; subst.
    unfold quote_step at 2. rewrite Hl. cbn [flush fst snd].
    rewrite IH by exact Hls. now rewrite <- app_assoc.
Qed.

Lemma blockquote_plain s :
  no_cr s = true -> free_of (fun c => (c =? ch ">")%N) s = true ->
  blockquoteMarkdownToBgg s = s.
Proof.
  intros Hcr Hq. unfold blockquoteMarkdownToBgg. cbv zeta.
  rewrite split_lines by exact Hcr.
  rewrite quote_steps_plain.
  - cbn [flush fst app]. apply join_lines.
  - assert (H : Forall (fun l => forallb (fun c => negb (c =? ch ">")%N) l = true) (lines s))
      by (apply lines_acc_chars; [reflexivity | exact Hq]).
    revert H. apply Forall_impl. intros l Hl.
    apply (test_needs (fun c => (c =? ch ">")%N)); [apply quote_marker_needs | exact Hl].
Qed.

(** ** Text that Markdown gives no meaning *)

Lemma contains_never o s :
  o <> [] -> contains o s = false -> never (re (lit_chars o)) s.
Proof.
  intros Ho. induction s as [|c s IH]; cbn [contains]; intros H;
    apply orb_false_elim in H as [H1 H2].
  - split; [|exact I]. intros bef. unfold match_at, re. cbn [source reflags].
    rewrite m_lit_chars. cbn [after]. now rewrite H1.
  - split; [|now apply IH]. intros bef. unfold match_at, re. cbn [source reflags].
    rewrite m_lit_chars. cbn [after]. now rewrite H1.
Qed.

Ltac skip_special t Ht :=
  skip_pass t ltac:(apply (never_needs md_special); [cbn [source reflags seqs]; needs_tac | exact Ht]).

Lemma md_passes_plain s :
  free_of md_special s = true -> contains (js "  \n") s = false -> md_passes s = s.
Proof.
  intros Hs Hbr. unfold md_passes.
  unfold re_fence, re_inline_code, re_heading, re_bold, re_italic, re_strike, re_link,
    re_image, re_ulist, re_olist, re_underline, re_pair, re, re_i, re_m, lit, http_url.
  eval_js. cbn [lit_chars].
  skip_special s Hs.
  skip_special s Hs.
  rewrite blockquote_plain.
  2:{ now apply free_of_special_cr. }
  2:{ revert Hs. apply free_of_weaken. intros c H. apply N.eqb_eq in H. now subst c. }
  skip_special s Hs.
  skip_special s Hs.
  skip_special s Hs.
  skip_special s Hs.
  skip_special s Hs.
  skip_special s Hs.
  skip_special s Hs.
  skip_special s Hs.
  skip_special s Hs.
  skip_pass s ltac:(apply (contains_never (js "  \n")); [discriminate | exact Hbr]).
  skip_special s Hs.
  reflexivity.
Qed.

(** ** Plain Markdown *)

Lemma fence_needs : needs md_special no_flags (source (start rule_code_fence)).
Proof.
  cbn [rule_code_fence start re source seqs]. unfold lit. eval_js. cbn [lit_chars].
  needs_tac.
Qed.

Lemma markdownToBgg_plain fuel s :
  free_of md_special s = true -> contains (js "  \n") s = false ->
  markdownToBgg fuel s = Some s.
Proof.
  intros Hs Hbr. destruct s as [|c s]; [reflexivity|].
  unfold markdownToBgg, protectSegments. cbn [protect_rules].
  rewrite protect_rule_none.
  - now rewrite restore_empty, md_passes_plain.
  - apply exec_never. apply (never_needs md_special); [apply fence_needs | exact Hs].
Qed.

(** ** The two copies *)

Lemma restore_cjs_segments st s :
  restore_cjs st s = List.concat (map (restored st) (placeholders s)).
Proof.
  unfold restore_cjs, placeholders. rewrite replace_all_scan. reflexivity.
Qed.

Lemma restore_cjs_eq st s : chunks_nonempty st -> restore_cjs st s = restore st s.
Proof.
  intros H. now rewrite restore_cjs_segments, restore_segments.
Qed.

(** ** The command line *)

Lemma index_of_none x l : ~ In x l -> index_of x l = None.
Proof.
  induction l as [|y l IH]; intros H; [reflexivity|].
  cbn [index_of]. unfold str_eqb. destruct (list_eq_dec N.eq_dec y x) as [E|E].
  - exfalso. apply H. now left.
  - rewrite IH; [reflexivity|]. intros Hin. apply H. now right.
Qed.

Lemma index_of_first x pre post :
  ~ In x pre -> index_of x (pre ++ x :: post) = Some (List.length pre).
Proof.
  induction pre as [|y pre IH]; intros H; cbn [app index_of List.length].
  - unfold str_eqb. destruct (list_eq_dec N.eq_dec x x); [reflexivity | congruence].
  - unfold str_eqb. destruct (list_eq_dec N.eq_dec y x) as [E|E].
    + exfalso. apply H. now left.
    + rewrite IH; [reflexivity|]. intros Hin. apply H. now right.
Qed.

Lemma nth_error_after (pre : list str) x rest :
  nth_error (pre ++ x :: rest) (List.length pre + 1) = nth_error rest 0.
Proof.
  induction pre as [|y pre IH]; [reflexivity|]. exact IH.
Qed.

(** ** esc *)

Lemma special_class_mem c :
  class_mem no_flags
    [IChar (ch "."); IChar (ch "*"); IChar (ch "+"); IChar (ch "?");
     IChar (ch "^"); IChar (ch "$"); IChar (ch "{"); IChar (ch "}");
     IChar (ch "("); IChar (ch ")"); IChar (ch "|"); IChar (ch "[");
     IChar (ch "]"); IChar (ch "\\")] c = is_special c.
Proof.
  unfold class_mem, items_mem, is_special. cbn [icase no_flags].
  eval_js. cbn [existsb item_mem].
  rewrite !(N.eqb_sym c). reflexivity.
Qed.

Lemma special_match bef c aft :
  match_at re_special bef (c :: aft) =
  if is_special c then Some (MatchResult (List.length bef) [c] []) else None.
Proof.
  unfold match_at, re_special, re. cbn [source reflags m]. unfold match_char.
  cbn [after before caps xorb]. rewrite special_class_mem.
  destruct (is_special c); [|reflexivity].
  cbn [after caps List.length]. rewrite Nat.sub_succ_l, Nat.sub_diag by lia. reflexivity.
Qed.

Lemma special_nil bef : match_at re_special bef [] = None.
Proof. reflexivity. Qed.

Lemma esc_from s : forall bef,
  replace_from re_special (fun r => ch "\\" :: matched r) bef s = flat_map esc_char s.
Proof.
  induction s as [|c s IH]; intros bef.
  - now rewrite replace_from_nil, special_nil.
  - cbn [flat_map]. unfold esc_char at 1.
    pose proof (special_match bef c s) as Hm.
    destruct (is_special c).
    + change (c :: s) with ([c] ++ s).
      rewrite (replace_from_match _ _ bef [c] s _ Hm); [| reflexivity | discriminate].
      cbn [matched app]. now rewrite IH.
    + rewrite replace_from_skip by exact Hm. cbn [app]. now rewrite IH.
Qed.

Lemma esc_flat_map s : esc s = flat_map esc_char s.
Proof. unfold esc. rewrite replace_all_from. apply esc_from. Qed.

(** ** A tag in plain surroundings *)

Lemma never_ctx fl o re pre a b :
  opens_with fl o re -> starts_lb o = true ->
  no_lb pre = true -> no_lb a = true -> no_lb b = true ->
  prefix_eq fl o (lb :: a ++ lb :: b) = false ->
  prefix_eq fl o (lb :: b) = false ->
  never re (pre ++ lb :: a ++ lb :: b).
Proof.
  intros Ho Hs Hpre Ha Hb H1 H2.
  eapply never_opens_absent; [exact Ho | now apply absent_no_lb |].
  now apply (never_tagged fl o).
Qed.

Lemma never_ctx_one fl o re pre aft :
  opens_with fl o re -> starts_lb o = true ->
  no_lb pre = true -> no_lb aft = true ->
  prefix_eq fl o (lb :: aft) = false ->
  never re (pre ++ lb :: aft).
Proof.
  intros Ho Hs Hpre Haft H1. now apply (never_tail fl o).
Qed.

Lemma replace_in_context re f fl o pre x post r :
  opens_with fl o re -> starts_lb o = true -> no_lb pre = true ->
  match_at re (rev pre) (x ++ post) = Some r -> matched r = x -> x <> [] ->
  never re post ->
  replace_all re f (pre ++ x ++ post) = pre ++ f r ++ post.
Proof.
  intros Ho Hs Hpre Hm Hx Hne Hpost.
  rewrite replace_all_from, replace_from_run.
  - f_equal. rewrite app_nil_r.
    rewrite (replace_from_match re f (rev pre) x post r Hm Hx Hne).
    f_equal. now apply replace_from_never.
  - intros p c suf E. apply Ho.
    apply (absent_no_lb fl o pre (x ++ post) Hs Hpre p c suf E).
Qed.

Lemma match_at_prefix re bef x post cs :
  m (reflags re) (source re) (fun y => Some y) (MState bef (x ++ post) []) =
    Some (MState (rev x ++ bef) post cs) ->
  match_at re bef (x ++ post) = Some (MatchResult (List.length bef) x cs).
Proof.
  intros H. unfold match_at. rewrite H. cbn [after caps].
  now rewrite firstn_app_exact.
Qed.

Lemma prefix_eq_app_refl fl o rest : prefix_eq fl o (o ++ rest) = true.
Proof.
  induction o as [|c o IH]; [reflexivity|]. cbn [app prefix_eq].
  unfold char_eq at 1. now rewrite N.eqb_refl, IH.
Qed.

Lemma pair_match_at o c bef body post :
  starts_lb c = true -> no_lb body = true ->
  match_at (lit_pair o c) bef (o ++ body ++ c ++ post) =
  Some (MatchResult (List.length bef) (o ++ body ++ c) [(1, body)]).
Proof.
  intros Hc Hbody.
  replace (o ++ body ++ c ++ post) with ((o ++ body ++ c) ++ post)
    by (now rewrite <- !app_assoc).
  apply match_at_prefix. unfold lit_pair. cbn [source reflags].
  rewrite <- !app_assoc.
  apply m_lit_ok; [apply prefix_eq_app_refl|]. rewrite advance_app.
  apply m_group_lazy.
  - now apply absent_no_lb.
  - apply m_lit_ok; [apply prefix_eq_app_refl|]. rewrite advance_app.
    cbn [m]. rewrite !rev_app_distr, <- !app_assoc. reflexivity.
Qed.

Lemma pair_in_context o c f pre body post :
  starts_lb o = true -> starts_lb c = true ->
  no_lb pre = true -> no_lb body = true -> no_lb post = true ->
  replace_all (lit_pair o c) f (pre ++ o ++ body ++ c ++ post) =
  pre ++ f (MatchResult (List.length pre) (o ++ body ++ c) [(1, body)]) ++ post.
Proof.
  intros Ho Hc Hpre Hbody Hpost.
  replace (pre ++ o ++ body ++ c ++ post) with (pre ++ (o ++ body ++ c) ++ post)
    by (now rewrite <- !app_assoc).
  rewrite (replace_in_context (lit_pair o c) f flag_i o pre (o ++ body ++ c) post
             (MatchResult (List.length pre) (o ++ body ++ c) [(1, body)])).
  - reflexivity.
  - apply opens_lit_re.
  - exact Ho.
  - exact Hpre.
  - rewrite <- !app_assoc, <- (length_rev pre). now apply pair_match_at.
  - reflexivity.
  - apply starts_lb_inv in Ho as [o' ->]. discriminate.
  - eapply never_no_lb; [apply opens_lit_re | exact Ho | exact Hpost].
Qed.

Ltac skip_ctx t Hpre Ha Hb :=
  skip_pass t ltac:(eapply never_ctx;
     [apply opens_lit_re | reflexivity | exact Hpre | exact Ha | exact Hb
     | reflexivity | reflexivity]).

Lemma protect_none_ctx fuel pre a b :
  no_lb pre = true -> no_lb a = true -> no_lb b = true ->
  prefix_eq flag_i (js "[code]") (lb :: a ++ lb :: b) = false ->
  prefix_eq flag_i (js "[code]") (lb :: b) = false ->
  protectSegments fuel (pre ++ lb :: a ++ lb :: b) [rule_code_bgg] =
  Some (pre ++ lb :: a ++ lb :: b, []).
Proof.
  intros Hpre Ha Hb H1 H2. apply protect_none.
  eapply never_ctx; [apply opens_lit | reflexivity | eassumption ..].
Qed.

Lemma bggToMarkdown_ctx fuel pre a b :
  no_lb pre = true -> no_lb a = true -> no_lb b = true ->
  prefix_eq flag_i (js "[code]") (lb :: a ++ lb :: b) = false ->
  prefix_eq flag_i (js "[code]") (lb :: b) = false ->
  bggToMarkdown fuel (pre ++ lb :: a ++ lb :: b) = Some (bgg_passes (pre ++ lb :: a ++ lb :: b)).
Proof.
  intros Hpre Ha Hb H1 H2. rewrite bggToMarkdown_nonempty by (destruct pre; discriminate).
  rewrite protect_none_ctx by assumption. now rewrite restore_empty.
Qed.

Ltac pair_in_plain pre body post Hpre Hbody Hpost o c a0 b0 :=
  let a := fresh "a" in
  let b := fresh "b" in
  let t := fresh "t" in
  let Ha := fresh "Ha" in
  let Hb := fresh "Hb" in
  let Ere := fresh "Ere" in
  let Et := fresh "Et" in
  eval_js; cbn [app];
  let oa := eval vm_compute in (js a0) in
  let ob := eval vm_compute in (js b0) in
  pose (a := oa ++ body); pose (b := ob ++ post);
  match goal with
  | |- bggToMarkdown _ ?T = _ => change T with (pre ++ lb :: a ++ lb :: b)
  end;
  assert (Ha : no_lb a = true) by (unfold a; cbn [no_lb forallb]; exact Hbody);
  assert (Hb : no_lb b = true) by (unfold b; cbn [no_lb forallb]; exact Hpost);
  rewrite bggToMarkdown_ctx by (assumption || reflexivity); f_equal;
  unfold bgg_passes;
  set (t := pre ++ lb :: a ++ lb :: b);
  repeat skip_ctx t Hpre Ha Hb;
  assert (Ere : re_pair o c = lit_pair (js o) (js c)) by reflexivity;
  rewrite Ere; clear Ere;
  assert (Et : t = pre ++ js o ++ body ++ js c ++ post)
    by (unfold t, a, b; eval_js; cbn [app]; reflexivity);
  rewrite Et; clear Et; clear t Ha Hb; clear a b;
  rewrite pair_in_context by (assumption || reflexivity);
  cbv beta;
  change (group_str 1 (MatchResult (List.length pre) (js o ++ body ++ js c) [(1, body)]))
    with body;
  eval_js; rewrite <- ?app_assoc; cbn [app].

Ltac finish_plain pre body post Hpre Hbody Hpost :=
  match goal with
  | |- context [replace_all _ _ ?t'] =>
      let Ht' := fresh "Ht" in
      assert (Ht' : no_lb t' = true)
        by (unfold no_lb in *; repeat (rewrite forallb_app || cbn [forallb]);
            repeat (apply andb_true_intro; split); solve [assumption | reflexivity]);
      skip_plain t' Ht'
  end;
  reflexivity.

Lemma tt_in_context fuel pre body post :
  no_lb pre = true -> no_lb body = true -> no_lb post = true ->
  bggToMarkdown fuel (pre ++ js "[tt]" ++ body ++ js "[/tt]" ++ post) =
  Some (pre ++ js "`" ++ body ++ js "`" ++ post).
Proof.
  intros Hpre Hbody Hpost.
  pair_in_plain pre body post Hpre Hbody Hpost ("[tt]"%string) ("[/tt]"%string) ("tt]"%string) ("/tt]"%string).
  finish_plain pre body post Hpre Hbody Hpost.
Qed.

Lemma bold_in_context fuel pre body post :
  no_lb pre = true -> no_lb body = true -> no_lb post = true ->
  bggToMarkdown fuel (pre ++ js "[b]" ++ body ++ js "[/b]" ++ post) =
  Some (pre ++ js "**" ++ body ++ js "**" ++ post).
Proof.
  intros Hpre Hbody Hpost.
  pair_in_plain pre body post Hpre Hbody Hpost ("[b]"%string) ("[/b]"%string) ("b]"%string) ("/b]"%string).
  finish_plain pre body post Hpre Hbody Hpost.
Qed.

Lemma italic_in_context fuel pre body post :
  no_lb pre = true -> no_lb body = true -> no_lb post = true ->
  bggToMarkdown fuel (pre ++ js "[i]" ++ body ++ js "[/i]" ++ post) =
  Some (pre ++ js "*" ++ body ++ js "*" ++ post).
Proof.
  intros Hpre Hbody Hpost.
  pair_in_plain pre body post Hpre Hbody Hpost ("[i]"%string) ("[/i]"%string) ("i]"%string) ("/i]"%string).
  finish_plain pre body post Hpre Hbody Hpost.
Qed.

Lemma underline_in_context fuel pre body post :
  no_lb pre = true -> no_lb body = true -> no_lb post = true ->
  bggToMarkdown fuel (pre ++ js "[u]" ++ body ++ js "[/u]" ++ post) =
  Some (pre ++ js "<u>" ++ body ++ js "</u>" ++ post).
Proof.
  intros Hpre Hbody Hpost.
  pair_in_plain pre body post Hpre Hbody Hpost ("[u]"%string) ("[/u]"%string) ("u]"%string) ("/u]"%string).
  finish_plain pre body post Hpre Hbody Hpost.
Qed.

Lemma strike_in_context fuel pre body post :
  no_lb pre = true -> no_lb body = true -> no_lb post = true ->
  bggToMarkdown fuel (pre ++ js "[s]" ++ body ++ js "[/s]" ++ post) =
  Some (pre ++ js "~~" ++ body ++ js "~~" ++ post).
Proof.
  intros Hpre Hbody Hpost.
  pair_in_plain pre body post Hpre Hbody Hpost ("[s]"%string) ("[/s]"%string) ("s]"%string) ("/s]"%string).
  finish_plain pre body post Hpre Hbody Hpost.
Qed.

Lemma dash_in_context fuel pre body post :
  no_lb pre = true -> no_lb body = true -> no_lb post = true ->
  bggToMarkdown fuel (pre ++ js "[-]" ++ body ++ js "[/-]" ++ post) =
  Some (pre ++ js "~~" ++ body ++ js "~~" ++ post).
Proof.
  intros Hpre Hbody Hpost.
  pair_in_plain pre body post Hpre Hbody Hpost ("[-]"%string) ("[/-]"%string) ("-]"%string) ("/-]"%string).
  finish_plain pre body post Hpre Hbody Hpost.
Qed.

Ltac skip_ctx_one t Hpre Haft :=
  skip_pass t ltac:(eapply never_ctx_one;
     [apply opens_lit_re | reflexivity | exact Hpre | exact Haft | reflexivity]).

Lemma bggToMarkdown_ctx_one fuel pre aft :
  no_lb pre = true -> no_lb aft = true ->
  prefix_eq flag_i (js "[code]") (lb :: aft) = false ->
  bggToMarkdown fuel (pre ++ lb :: aft) = Some (bgg_passes (pre ++ lb :: aft)).
Proof.
  intros Hpre Haft H1. rewrite bggToMarkdown_nonempty by (destruct pre; discriminate).
  rewrite protect_none; [now rewrite restore_empty|].
  eapply never_ctx_one; [apply opens_lit | reflexivity | eassumption ..].
Qed.

(** ** Line breaks *)

Lemma br_match_at bef sp slash post :
  forallb is_space sp = true ->
  match_at re_br bef (br_tag sp slash ++ post) =
  Some (MatchResult (List.length bef) (br_tag sp slash) []).
Proof.
  intros Hsp. apply match_at_prefix.
  unfold re_br, re_i, seqs, lit, br_tag. cbn [source reflags].
  rewrite <- !app_assoc.
  apply m_lit_ok; [apply prefix_eq_app_refl|]. rewrite advance_app.
  unfold star, space. apply m_greedy.
  - rewrite <- Hsp. apply forallb_eq. intros c. cbn [xorb]. apply class_space.
  - destruct slash; reflexivity.
  - lia.
  - exact I.
  - destruct slash.
    + eval_js. cbn [app]. rewrite m_opt_chr.
      change (char_eq flag_i (ch "/") 47%N) with true. cbv iota.
      cbn [lit_chars m]. unfold match_char. cbn [after before caps].
      change (char_eq flag_i 93%N 93%N) with true. cbv iota.
      list_norm. reflexivity.
    + eval_js. cbn [app]. rewrite m_opt_chr.
      change (char_eq flag_i (ch "/") 93%N) with false. cbv iota.
      cbn [lit_chars m]. unfold match_char. cbn [after before caps].
      change (char_eq flag_i 93%N 93%N) with true. cbv iota.
      list_norm. reflexivity.
Qed.

Lemma no_lb_space sp : forallb is_space sp = true -> no_lb sp = true.
Proof.
  unfold no_lb. induction sp as [|c sp IH]; [reflexivity|]. cbn [forallb].
  intros H. apply andb_prop in H as [Hc Hsp]. rewrite IH by exact Hsp.
  destruct (c =? lb)%N eqn:E; [|reflexivity].
  apply N.eqb_eq in E. subst c. discriminate Hc.
Qed.

Lemma br_in_context fuel pre sp slash post :
  no_lb pre = true -> forallb is_space sp = true -> no_lb post = true ->
  bggToMarkdown fuel (pre ++ br_tag sp slash ++ post) = Some (pre ++ js "  \n" ++ post).
Proof.
  intros Hpre Hsp Hpost.
  pose proof (no_lb_space sp Hsp) as Hsp'.
  assert (Hrest : no_lb ((if slash then js "/" else []) ++ js "]" ++ post) = true).
  { rewrite no_lb_app. destruct slash; exact Hpost. }
  set (rest := (if slash then js "/" else []) ++ js "]" ++ post) in *.
  set (aft := 98%N :: 114%N :: sp ++ rest).
  assert (Haft : no_lb aft = true).
  { unfold aft. cbn [no_lb forallb]. fold (no_lb (sp ++ rest)).
    now rewrite no_lb_app, Hsp', Hrest. }
  assert (E : pre ++ br_tag sp slash ++ post = pre ++ lb :: aft).
  { unfold br_tag, aft, rest. eval_js. rewrite <- !app_assoc. reflexivity. }
  rewrite E.
  rewrite bggToMarkdown_ctx_one by (assumption || reflexivity). f_equal.
  unfold bgg_passes.
  set (t := pre ++ lb :: aft).
  repeat skip_ctx_one t Hpre Haft.
  unfold t. rewrite <- E.
  rewrite (replace_in_context re_br _ flag_i (js "[br") pre (br_tag sp slash) post
             (MatchResult (List.length pre) (br_tag sp slash) [])).
  - reflexivity.
  - apply opens_lit_re.
  - reflexivity.
  - exact Hpre.
  - rewrite <- (length_rev pre). now apply br_match_at.
  - reflexivity.
  - unfold br_tag. eval_js. discriminate.
  - eapply never_no_lb; [apply opens_lit_re | reflexivity | exact Hpost].
Qed.

(** ** Images *)

Lemma img_in_context fuel pre src post :
  no_lb pre = true -> no_lb src = true -> no_lb post = true ->
  bggToMarkdown fuel (pre ++ js "[img]" ++ src ++ js "[/img]" ++ post) =
  Some (pre ++ js "![](" ++ src ++ js ")" ++ post).
Proof.
  intros Hpre Hbody Hpost.
  pair_in_plain pre src post Hpre Hbody Hpost
    ("[img]"%string) ("[/img]"%string) ("img]"%string) ("/img]"%string).
  set (aft := 93%N :: 40%N :: src ++ 41%N :: post).
  assert (Haft : no_lb aft = true).
  { unfold aft, no_lb in *. repeat (rewrite forallb_app || cbn [forallb]).
    repeat (apply andb_true_intro; split); solve [assumption | reflexivity]. }
  assert (Hpre' : no_lb (pre ++ [33%N]) = true) by (now rewrite no_lb_app, Hpre).
  match goal with
  | |- context [replace_all re_thing _ ?T] =>
      replace T with ((pre ++ [33%N]) ++ lb :: aft)
        by (unfold aft; rewrite <- ?app_assoc; reflexivity)
  end.
  set (t2 := (pre ++ [33%N]) ++ lb :: aft).
  repeat skip_ctx_one t2 Hpre' Haft.
  unfold t2, aft. rewrite <- ?app_assoc. reflexivity.
Qed.

(** ** Links *)

Lemma class_rb fl c : class_mem fl [IChar (ch "]")] c = (c =? rb)%N.
Proof.
  unfold class_mem, items_mem, item_mem, existsb, to_upper, to_lower, rb.
  change (ch "]") with 93%N.
  destruct (icase fl); char_cases.
Qed.

Lemma no_brackets_not_rb s :
  no_brackets s = true ->
  forallb (fun c => xorb true (class_mem flag_i [IChar (ch "]")] c)) s = true.
Proof.
  unfold no_brackets. induction s as [|c s IH]; [reflexivity|]. cbn [forallb xorb].
  intros H. apply andb_prop in H as [Hc Hs]. apply andb_prop in Hc as [_ Hc].
  rewrite class_rb. apply negb_true_iff in Hc. rewrite Hc. cbn [xorb andb]. now apply IH.
Qed.

Lemma url_match_at bef href text post :
  href <> [] -> no_brackets href = true -> no_lb text = true ->
  match_at re_url bef (js "[url=" ++ href ++ js "]" ++ text ++ js "[/url]" ++ post) =
  Some (MatchResult (List.length bef) (js "[url=" ++ href ++ js "]" ++ text ++ js "[/url]")
          [(2, text); (1, href)]).
Proof.
  intros Hne Hhref Htext.
  replace (js "[url=" ++ href ++ js "]" ++ text ++ js "[/url]" ++ post)
    with ((js "[url=" ++ href ++ js "]" ++ text ++ js "[/url]") ++ post)
    by (now rewrite <- !app_assoc).
  apply match_at_prefix.
  unfold re_url, re_i, seqs, lit. cbn [source reflags].
  rewrite <- !app_assoc.
  apply m_lit_ok; [apply prefix_eq_app_refl|]. rewrite advance_app.
  unfold plus, not_rbracket.
  apply m_group_greedy.
  - now apply no_brackets_not_rb.
  - reflexivity.
  - destruct href; [congruence | simpl; lia].
  - exact I.
  - apply m_lit_ok; [apply prefix_eq_app_refl|]. rewrite advance_app.
    apply m_group_lazy.
    + apply absent_no_lb; [reflexivity | exact Htext].
    + apply m_lit_ok; [apply prefix_eq_app_refl|]. rewrite advance_app.
      cbn [m]. list_norm. reflexivity.
Qed.

Lemma never_one_lb_ctx fl o R pre aft :
  starts_lb o = true -> no_lb pre = true -> no_lb aft = true -> requires_lb fl R ->
  never (lit_re fl o R) (pre ++ lb :: aft).
Proof.
  intros Ho Hpre Haft HR.
  eapply never_opens_absent; [apply opens_lit_re | now apply absent_no_lb |].
  now apply never_one_lb.
Qed.

Lemma never_br_ctx pre text rest :
  no_lb pre = true -> no_brackets text = true -> is_br_name text = false ->
  no_lb rest = true ->
  never re_br (pre ++ lb :: text ++ rb :: rest).
Proof.
  intros Hpre Htext Hbr Hrest.
  eapply never_opens_absent; [apply opens_lit_re | apply absent_no_lb; [reflexivity | exact Hpre] |].
  split; [now apply rejects_br|].
  eapply never_no_lb; [apply opens_lit_re | reflexivity |].
  rewrite no_lb_app, (no_brackets_no_lb _ Htext). exact Hrest.
Qed.

Ltac skip_one_lb_ctx t Hpre Haft :=
  skip_pass t ltac:(apply never_one_lb_ctx;
     [reflexivity | exact Hpre | exact Haft | solve_requires_lb]).

Lemma url_in_context fuel pre href text post :
  no_lb pre = true -> href <> [] -> no_brackets href = true ->
  no_brackets text = true -> is_br_name text = false -> no_lb post = true ->
  bggToMarkdown fuel (pre ++ js "[url=" ++ href ++ js "]" ++ text ++ js "[/url]" ++ post) =
  Some (pre ++ js "[" ++ text ++ js "](" ++ href ++ js ")" ++ post).
Proof.
  intros Hpre Hne Hhref Htext Hbr Hpost.
  pose proof (no_brackets_no_lb _ Hhref) as Hhref'.
  pose proof (no_brackets_no_lb _ Htext) as Htext'.
  pose (a := [117%N; 114%N; 108%N; 61%N] ++ href ++ [93%N] ++ text : str).
  pose (b := [47%N; 117%N; 114%N; 108%N; 93%N] ++ post : str).
  assert (Ha : no_lb a = true).
  { unfold a. rewrite !no_lb_app, Hhref', Htext'. reflexivity. }
  assert (Hb : no_lb b = true) by (unfold b; now rewrite no_lb_app, Hpost).
  assert (E : pre ++ js "[url=" ++ href ++ js "]" ++ text ++ js "[/url]" ++ post =
              pre ++ lb :: a ++ lb :: b).
  { unfold a, b. eval_js. rewrite <- !app_assoc. reflexivity. }
  rewrite E.
  rewrite bggToMarkdown_ctx by (assumption || reflexivity).
  f_equal.
  match goal with |- bgg_passes ?T = _ => set (t := T) end.
  unfold bgg_passes.
  repeat skip_ctx t Hpre Ha Hb.
  unfold t. rewrite <- E.
  replace (pre ++ js "[url=" ++ href ++ js "]" ++ text ++ js "[/url]" ++ post)
    with (pre ++ (js "[url=" ++ href ++ js "]" ++ text ++ js "[/url]") ++ post)
    by (now rewrite <- !app_assoc).
  rewrite (replace_in_context re_url _ flag_i (js "[url=") pre
             (js "[url=" ++ href ++ js "]" ++ text ++ js "[/url]") post
             (MatchResult (List.length pre)
                (js "[url=" ++ href ++ js "]" ++ text ++ js "[/url]")
                [(2, text); (1, href)])).
  2:{ apply opens_lit_re. }
  2:{ reflexivity. }
  2:{ exact Hpre. }
  2:{ rewrite <- !app_assoc, <- (length_rev pre). now apply url_match_at. }
  2:{ reflexivity. }
  2:{ eval_js. discriminate. }
  2:{ eapply never_no_lb; [apply opens_lit_re | reflexivity | exact Hpost]. }
  cbv beta.
  change (group_str 2 (MatchResult (List.length pre)
            (js "[url=" ++ href ++ js "]" ++ text ++ js "[/url]") [(2, text); (1, href)]))
    with text.
  change (group_str 1 (MatchResult (List.length pre)
            (js "[url=" ++ href ++ js "]" ++ text ++ js "[/url]") [(2, text); (1, href)]))
    with href.
  eval_js. rewrite <- ?app_assoc. cbn [app].
  set (rest := 40%N :: href ++ 41%N :: post).
  assert (Hrest : no_lb rest = true).
  { unfold rest, no_lb in *. repeat (rewrite forallb_app || cbn [forallb]).
    repeat (apply andb_true_intro; split); solve [assumption | reflexivity]. }
  set (aft := text ++ rb :: rest).
  assert (Haft : no_lb aft = true).
  { unfold aft. rewrite no_lb_app, Htext'. exact Hrest. }
  match goal with
  | |- context [replace_all (re_pair "[img]" "[/img]") _ ?T] =>
      change T with (pre ++ lb :: aft); set (t' := pre ++ lb :: aft)
  end.
  repeat skip_one_lb_ctx t' Hpre Haft.
  skip_pass t' ltac:(now apply never_br_ctx).
  reflexivity.
Qed.

(** ** A closing tag before the opening one *)

Lemma absent_skipn fl o xs rest k :
  absent fl o xs rest -> k < List.length xs ->
  prefix_eq fl o (skipn k (xs ++ rest)) = false.
Proof.
  intros H Hk.
  rewrite skipn_app. replace (k - List.length xs) with 0 by lia. cbn [skipn].
  destruct (skipn k xs) as [|c suf] eqn:E.
  - apply (f_equal (@List.length _)) in E. rewrite length_skipn in E. simpl in E. lia.
  - apply (H (firstn k xs) c suf). now rewrite <- E, firstn_skipn.
Qed.

Lemma first_at_after fl o xs rest :
  absent fl o xs rest -> prefix_eq fl o rest = true ->
  first_at fl o (xs ++ rest) (List.length xs).
Proof.
  intros H Hp. repeat split.
  - rewrite length_app. lia.
  - rewrite skipn_app, skipn_all, Nat.sub_diag. exact Hp.
  - intros k Hk. now apply absent_skipn.
Qed.

Lemma crossed_code pre mid post :
  no_lb pre = true -> no_lb mid = true ->
  crossed flag_i (js "[code]") (js "[/code]")
    (pre ++ js "[/code]" ++ mid ++ js "[code]" ++ post).
Proof.
  intros Hpre Hmid.
  exists (List.length (pre ++ js "[/code]" ++ mid)), (List.length pre).
  split; [|split].
  - replace (pre ++ js "[/code]" ++ mid ++ js "[code]" ++ post)
      with ((pre ++ js "[/code]" ++ mid) ++ js "[code]" ++ post)
      by (now rewrite <- !app_assoc).
    apply first_at_after; [|apply prefix_eq_app_refl].
    apply absent_app; [now apply absent_no_lb|].
    eval_js. cbn [app]. apply absent_cons; [reflexivity|].
    apply absent_no_lb; [reflexivity|].
    change (no_lb ([47%N; 99%N; 111%N; 100%N; 101%N; 93%N] ++ mid) = true).
    now rewrite no_lb_app, Hmid.
  - apply first_at_after; [now apply absent_no_lb | apply prefix_eq_app_refl].
  - rewrite !length_app. lia.
Qed.

Lemma bggToMarkdown_crossed fuel text :
  crossed flag_i (js "[code]") (js "[/code]") text -> bggToMarkdown fuel text = None.
Proof.
  intros H. destruct text as [|c text].
  - exfalso. destruct H as (a & e & (_ & Hp & _) & _).
    destruct a; discriminate Hp.
  - unfold bggToMarkdown, protectSegments. cbn [protect_rules].
    rewrite rule_code_bgg_eq. unfold code_rule.
    rewrite (crossed_loops flag_i (js "[code]") (js "[/code]") (js "CODE_BGG"));
      [reflexivity | reflexivity | exact H].
Qed.

(** ** esc *)

Lemma is_special_backslash : is_special 92%N = true.
Proof. vm_compute. reflexivity. Qed.

Lemma esc_char_eq c : esc_char c = if is_special c then [92%N; c] else [c].
Proof. reflexivity. Qed.

Lemma flat_map_cons (A B : Type) (f : A -> list B) x l :
  flat_map f (x :: l) = f x ++ flat_map f l.
Proof. reflexivity. Qed.

Lemma esc_chars_injective s : forall t,
  flat_map esc_char s = flat_map esc_char t -> s = t.
Proof.
  induction s as [|c s IH]; intros [|d t] H;
    rewrite ?flat_map_cons, ?esc_char_eq in H.
  - reflexivity.
  - destruct (is_special d); discriminate H.
  - destruct (is_special c); discriminate H.
  - destruct (is_special c) eqn:Ec, (is_special d) eqn:Ed.
    + injection H as E1 E2. subst d. f_equal. now apply IH.
    + pose proof (f_equal (hd 0%N) H) as E1. cbn [hd app] in E1.
      rewrite <- E1, is_special_backslash in Ed. discriminate Ed.
    + pose proof (f_equal (hd 0%N) H) as E1. cbn [hd app] in E1.
      rewrite E1, is_special_backslash in Ec. discriminate Ec.
    + injection H as E1 E2. subst d. f_equal. now apply IH.
Qed.

(** ** Sizes written in digits *)

Lemma digit_not_space c : is_digit c = true -> is_space c = false.
Proof.
  unfold is_digit. intros H. apply andb_prop in H as [H1 H2].
  apply N.leb_le in H1, H2. apply is_space_false_range. lia.
Qed.

Lemma digits_prefix_all s : all_digits s = true -> digits_prefix s = s.
Proof.
  unfold all_digits. induction s as [|c s IH]; [reflexivity|]. cbn [forallb digits_prefix].
  intros H. apply andb_prop in H as [Hc Hs]. rewrite Hc. now rewrite IH.
Qed.

Lemma digit_cases c :
  is_digit c = true ->
  In c [48; 49; 50; 51; 52; 53; 54; 55; 56; 57]%N.
Proof.
  unfold is_digit. intros H. apply andb_prop in H as [H1 H2]. apply N.leb_le in H1, H2.
  cbn [In].
  destruct (N.eq_dec c 48); [auto|]. destruct (N.eq_dec c 49); [auto|].
  destruct (N.eq_dec c 50); [auto|]. destruct (N.eq_dec c 51); [auto 6|].
  destruct (N.eq_dec c 52); [auto 7|]. destruct (N.eq_dec c 53); [auto 8|].
  destruct (N.eq_dec c 54); [auto 9|]. destruct (N.eq_dec c 55); [auto 10|].
  destruct (N.eq_dec c 56); [auto 11|]. destruct (N.eq_dec c 57); [auto 12|].
  lia.
Qed.

Lemma parseInt_digits sz :
  sz <> [] -> all_digits sz = true -> parseInt sz = Some (digits_value sz).
Proof.
  intros Hne H. destruct sz as [|c sz]; [congruence|].
  pose proof (digits_prefix_all _ H) as Hp.
  unfold all_digits in H. cbn [forallb] in H. apply andb_prop in H as [Hc _].
  assert (E : parseInt (c :: sz) =
              match digits_prefix (c :: sz) with
              | [] => None
              | ds => Some (1 * digits_value ds)%Z
              end).
  { apply digit_cases in Hc. cbn [In] in Hc.
    repeat (destruct Hc as [<-|Hc]; [reflexivity|]). contradiction. }
  rewrite E, Hp. now rewrite Z.mul_1_l.
Qed.

Lemma digits_value_acc ds : forall acc,
  all_digits ds = true -> (0 <= acc)%Z ->
  (0 <= fold_left (fun a c => 10 * a + (Z.of_N c - 48)) ds acc
     < (acc + 1) * 10 ^ Z.of_nat (List.length ds))%Z.
Proof.
  unfold all_digits. induction ds as [|c ds IH]; intros acc H Hacc.
  - cbn [fold_left List.length]. change (10 ^ Z.of_nat 0)%Z with 1%Z. lia.
  - cbn [forallb] in H. apply andb_prop in H as [Hc Hs].
    unfold is_digit in Hc. apply andb_prop in Hc as [H1 H2]. apply N.leb_le in H1, H2.
    cbn [fold_left]. specialize (IH (10 * acc + (Z.of_N c - 48))%Z Hs).
    assert (Hn : (0 <= 10 * acc + (Z.of_N c - 48))%Z) by lia.
    specialize (IH Hn). destruct IH as [L U]. split; [exact L|].
    eapply Z.lt_le_trans; [exact U|].
    change (List.length (c :: ds)) with (S (List.length ds)).
    rewrite Nat2Z.inj_succ, Z.pow_succ_r by lia.
    assert (P : (0 < 10 ^ Z.of_nat (List.length ds))%Z) by (apply Z.pow_pos_nonneg; lia).
    nia.
Qed.

Lemma digits_value_bound sz :
  all_digits sz = true -> List.length sz <= 3 -> (0 <= digits_value sz < 1000)%Z.
Proof.
  intros H Hl. pose proof (digits_value_acc sz 0%Z H (Z.le_refl 0)) as [L U].
  split; [exact L|]. eapply Z.lt_le_trans; [exact U|].
  change ((0 + 1) * 10 ^ Z.of_nat (List.length sz))%Z
    with (1 * 10 ^ Z.of_nat (List.length sz))%Z.
  rewrite Z.mul_1_l. change 1000%Z with (10 ^ 3)%Z.
  apply Z.pow_le_mono_r; lia.
Qed.

Lemma isFinite_small n : (0 <= n < 1000)%Z -> isFinite n = true.
Proof.
  intros H. unfold isFinite. apply Z.ltb_lt. rewrite Z.abs_eq by lia.
  eapply Z.lt_trans; [apply H|]. vm_compute. reflexivity.
Qed.

Lemma sizeToHeading_digits sz :
  sz <> [] -> all_digits sz = true -> List.length sz <= 3 ->
  sizeToHeading sz = first_threshold (digits_value sz) sizeToHashes.
Proof.
  intros Hne H Hl. unfold sizeToHeading.
  rewrite parseInt_digits by assumption.
  now rewrite isFinite_small by (now apply digits_value_bound).
Qed.

(** ** Counting the places where a literal starts *)

Lemma prefix_eq_app_mono fl o : forall x y,
  prefix_eq fl o x = true -> prefix_eq fl o (x ++ y) = true.
Proof.
  induction o as [|c o IH]; intros x y H; [reflexivity|].
  destruct x as [|u x]; [discriminate|]. cbn [app prefix_eq] in *.
  apply andb_prop in H as [H1 H2]. now rewrite H1, IH.
Qed.

Lemma prefix_eq_firstn fl o : forall x k,
  prefix_eq fl o x = true -> List.length o <= k -> prefix_eq fl o (firstn k x) = true.
Proof.
  induction o as [|c o IH]; intros x k H Hk; [reflexivity|].
  destruct x as [|u x]; [discriminate|]. destruct k as [|k]; [simpl in Hk; lia|].
  cbn [firstn prefix_eq] in *. apply andb_prop in H as [H1 H2].
  rewrite H1, IH; [reflexivity | exact H2 | simpl in Hk; lia].
Qed.

Lemma occ_app_ge fl o x : forall y, occ fl o x + occ fl o y <= occ fl o (x ++ y).
Proof.
  induction x as [|c x IH]; intros y; [simpl; lia|].
  cbn [app occ]. specialize (IH y).
  destruct (prefix_eq fl o (c :: x)) eqn:E.
  - change (c :: x ++ y) with ((c :: x) ++ y). rewrite prefix_eq_app_mono by exact E. lia.
  - destruct (prefix_eq fl o (c :: x ++ y)); lia.
Qed.

Lemma occ_cons fl o c s :
  occ fl o (c :: s) = (if prefix_eq fl o (c :: s) then 1 else 0) + occ fl o s.
Proof. reflexivity. Qed.

Lemma occ_app_blocked fl o u x : forall rest,
  forallb (fun c => negb (char_eq fl c u)) o = true ->
  occ fl o (x ++ u :: rest) = occ fl o x + occ fl o (u :: rest).
Proof.
  induction x as [|c x IH]; intros rest Ho; [reflexivity|].
  cbn [app]. rewrite (occ_cons fl o c (x ++ u :: rest)), (occ_cons fl o c x).
  rewrite IH by exact Ho.
  destruct (prefix_eq fl o (c :: x)) eqn:E.
  - change (c :: x ++ u :: rest) with ((c :: x) ++ u :: rest).
    rewrite prefix_eq_app_mono by exact E. cbv iota. lia.
  - change (c :: x ++ u :: rest) with ((c :: x) ++ u :: rest).
    rewrite (prefix_eq_blocked fl u o (c :: x) [] rest Ho); [cbv iota; lia|].
    now rewrite app_nil_r.
Qed.

(** A text without the first character of the literal holds no start of
    it, whatever follows. *)
Lemma occ_free_app fl c o x y :
  forallb (fun u => negb (char_eq fl c u)) x = true ->
  occ fl (c :: o) (x ++ y) = occ fl (c :: o) y.
Proof.
  induction x as [|u x IH]; [reflexivity|]. cbn [forallb app]. intros H.
  apply andb_prop in H as [Hu Hx]. apply negb_true_iff in Hu.
  cbn [occ prefix_eq]. rewrite Hu. cbn [andb]. now apply IH.
Qed.

Lemma occ_length fl o s : occ fl o s <= List.length s.
Proof.
  induction s as [|c s IH]; [simpl; lia|]. cbn [occ List.length].
  destruct (prefix_eq fl o (c :: s)); lia.
Qed.

(** ** The loop of the fence rule ends *)

Lemma uint_chars_digits d : forallb is_digit (uint_chars d) = true.
Proof. induction d; simpl; auto. Qed.

Lemma token_no_backtick counter :
  forallb (fun u => negb (char_eq no_flags backtick u)) (token (js "CODE_FENCE") counter) = true.
Proof.
  unfold token, number_to_str. rewrite !forallb_app.
  assert (H : forallb (fun u => negb (char_eq no_flags backtick u))
                (uint_chars (Nat.to_uint counter)) = true).
  { pose proof (uint_chars_digits (Nat.to_uint counter)) as Hd.
    revert Hd. generalize (uint_chars (Nat.to_uint counter)). intros l.
    induction l as [|c l IH]; [reflexivity|]. cbn [forallb]. intros H.
    apply andb_prop in H as [Hc Hl]. rewrite IH by exact Hl.
    unfold is_digit in Hc. apply andb_prop in Hc as [H1 H2]. apply N.leb_le in H1, H2.
    rewrite char_eq_exact. unfold backtick.
    destruct (N.eqb_spec 96 c); [lia | reflexivity]. }
  rewrite H. vm_compute. reflexivity.
Qed.

Lemma fence_order text r r' :
  exec fence_open text = Some r ->
  exec (lit_regexp no_flags (js "\n```")) text = Some r' ->
  index r <= index r' + 1 /\ index r' + 4 <= List.length text /\
  prefix_eq no_flags (js "```") (skipn (index r) text) = true /\
  List.length (matched r') = 4.
Proof.
  intros Er Er'.
  apply exec_first in Er as (a & Ha & Hm & Hmin).
  pose proof (match_at_matched _ _ _ _ Hm) as (_ & _ & Ia).
  rewrite length_rev, length_firstn, Nat.min_l in Ia by exact Ha.
  apply fence_open_sound in Hm as [Hp Hn].
  apply exec_lit in Er' as [(He & HE & _) Lr'].
  rewrite Ia. set (e := index r') in *.
  assert (Hlen : e + 4 <= List.length text).
  { apply prefix_eq_length in HE. rewrite length_skipn in HE.
    change (List.length (js "\n```")) with 4 in HE. lia. }
  repeat split; [|exact Hlen|exact Hp|exact Lr'].
  destruct (Nat.le_gt_cases a (e + 1)) as [L|L]; [exact L|exfalso].
  apply (fence_open_complete (rev (firstn (e + 1) text)) (skipn (e + 1) text));
    [| |now apply Hmin].
  - replace (e + 1) with (1 + e) by lia. rewrite <- skipn_skipn.
    change (js "\n```") with (nl :: js "```") in HE.
    now apply prefix_eq_tail in HE.
  - rewrite skipn_skipn. apply (has_newline_skipn (a + 3 - (3 + (e + 1)))).
    rewrite skipn_skipn. rewrite skipn_skipn in Hn.
    replace (a + 3 - (3 + (e + 1)) + (3 + (e + 1))) with (3 + a) by lia. exact Hn.
Qed.

Lemma fence_round_decreases text a e counter :
  a <= e + 1 -> e + 4 <= List.length text ->
  prefix_eq no_flags (js "```") (skipn a text) = true ->
  occ no_flags (js "```")
    (firstn a text ++ token (js "CODE_FENCE") counter ++ skipn (e + 4) text)
  < occ no_flags (js "```") text.
Proof.
  intros Hae Hlen Hp.
  set (o := js "```") in *.
  set (A := firstn a text). set (B := skipn (e + 4) text).
  set (M := firstn (e + 4 - a) (skipn a text)).
  assert (Et : text = A ++ M ++ B).
  { unfold A, M, B. rewrite <- (firstn_skipn a text) at 1. f_equal.
    rewrite <- (firstn_skipn (e + 4 - a) (skipn a text)) at 1. f_equal.
    rewrite skipn_skipn. f_equal. lia. }
  assert (HM : prefix_eq no_flags o M = true).
  { unfold M. apply prefix_eq_firstn; [exact Hp|]. change (List.length o) with 3. lia. }
  destruct (token_head (js "CODE_FENCE") counter) as [tk Etk].
  assert (Hnew : occ no_flags o (A ++ token (js "CODE_FENCE") counter ++ B) =
                 occ no_flags o A + occ no_flags o B).
  { rewrite Etk. cbn [app]. rewrite occ_app_blocked by reflexivity.
    f_equal. change (ch "_" :: tk ++ B) with ((ch "_" :: tk) ++ B). rewrite <- Etk.
    apply (occ_free_app no_flags backtick [backtick; backtick]). apply token_no_backtick. }
  rewrite Hnew. rewrite Et at 1.
  pose proof (occ_app_ge no_flags o A (M ++ B)) as H1.
  assert (H2 : 1 + occ no_flags o B <= occ no_flags o (M ++ B)).
  { destruct M as [|c M']; [discriminate HM|].
    cbn [app occ]. change (c :: M' ++ B) with ((c :: M') ++ B).
    rewrite prefix_eq_app_mono by exact HM.
    pose proof (occ_app_ge no_flags o M' B). lia. }
  lia.
Qed.

Lemma occ_positive fl o s k :
  prefix_eq fl o (skipn k s) = true -> o <> [] -> 1 <= occ fl o s.
Proof.
  revert k. induction s as [|c s IH]; intros k H Ho.
  - rewrite skipn_nil in H. destruct o; [congruence | discriminate H].
  - destruct k as [|k].
    + cbn [skipn] in H. cbn [occ]. rewrite H. lia.
    + cbn [skipn] in H. cbn [occ]. specialize (IH k H Ho). lia.
Qed.

Lemma fence_loop_ends n : forall text st counter,
  occ no_flags (js "```") text <= n ->
  exists r, protect_rule n fence_rule text st counter = Some r.
Proof.
  induction n as [|n IH]; intros text st counter Hn; unfold fence_rule;
    rewrite protect_rule_pair.
  - destruct (exec fence_open text) as [r|] eqn:Er; [|eauto].
    destruct (exec (lit_regexp no_flags (js "\n```")) text) as [r'|] eqn:Er'; [|eauto].
    exfalso. destruct (fence_order text r r' Er Er') as (_ & _ & Hp & _).
    apply (occ_positive no_flags (js "```") text (index r)) in Hp; [lia | discriminate].
  - destruct (exec fence_open text) as [r|] eqn:Er; [|eauto].
    destruct (exec (lit_regexp no_flags (js "\n```")) text) as [r'|] eqn:Er'; [|eauto].
    destruct (fence_order text r r' Er Er') as (Hae & Hlen & Hp & Lr').
    apply IH. rewrite Lr'. unfold slice, slice_from. cbn [skipn]. rewrite Nat.sub_0_r.
    pose proof (fence_round_decreases text (index r) (index r') counter Hae Hlen Hp). lia.
Qed.

Lemma markdownToBgg_ends fuel input :
  occ no_flags (js "```") input <= fuel ->
  exists out, markdownToBgg fuel input = Some out.
Proof.
  intros H. destruct input as [|c input]; [now exists []|].
  unfold markdownToBgg, protectSegments. cbn [protect_rules].
  rewrite rule_code_fence_eq.
  destruct (fence_loop_ends fuel (c :: input) [] 0 H) as ([[text st] counter] & E).
  rewrite E. eauto.
Qed.

(** ** Finding a placeholder *)

Lemma lazy_plus_first mr p (k : cont) fuel bef c aft cs :
  char_atom mr p -> p c = true ->
  repeat_matcher mr [] false k (S fuel) 1 None (MState bef (c :: aft) cs) =
  repeat_matcher mr [] false k fuel 0 None (MState (c :: bef) aft cs).
Proof.
  intros Hmr Hp. cbn [repeat_matcher Nat.eqb negb]. rewrite Hmr.
  unfold match_char. cbn [after before caps andb pred option_map].
  now rewrite Hp, clear_caps_nil.
Qed.

Lemma firstn_cut (a b : str) : firstn (List.length (a ++ b) - List.length b) (a ++ b) = a.
Proof. apply firstn_app_exact. Qed.

Lemma m_group_lazy_plus fl i items R (k : cont) bef c0 xs rest cs z :
  class_mem fl items c0 = true ->
  forallb (fun c => xorb false (class_mem fl items c)) xs = true ->
  (forall pre c suf, xs = pre ++ c :: suf ->
     m fl R k (MState (rev pre ++ c0 :: bef) (c :: suf ++ rest) (set_cap i (c0 :: pre) cs))
     = None) ->
  m fl R k (MState (rev xs ++ c0 :: bef) rest (set_cap i (c0 :: xs) cs)) = Some z ->
  m fl (Seq (Group i (lazy_plus (Class false items))) R) k (MState bef (c0 :: xs ++ rest) cs)
  = Some z.
Proof.
  intros H0 Hxs Hfail Hk.
  rewrite m_Seq, m_Group. unfold lazy_plus. rewrite m_Rep. cbn [groups after Nat.add].
  rewrite (lazy_plus_first _ (fun c => xorb false (class_mem fl items c)));
    [| apply char_atom_Class | now rewrite H0].
  replace (S (List.length (c0 :: xs ++ rest)))
    with (List.length xs + S (S (List.length rest)))
    by (cbn [List.length]; rewrite length_app; lia).
  rewrite (lazy_skip _ (fun c => xorb false (class_mem fl items c)));
    [| apply char_atom_Class | exact Hxs |].
  - apply lazy_stop. cbn [after before caps].
    change (c0 :: xs ++ rest) with ((c0 :: xs) ++ rest). rewrite firstn_cut. exact Hk.
  - intros pre c suf E. cbn [after before caps].
    replace (c0 :: xs ++ rest) with ((c0 :: pre) ++ (c :: suf ++ rest))
      by (rewrite E; cbn [app]; now rewrite <- app_assoc).
    rewrite firstn_cut. now apply Hfail.
Qed.

Lemma token_code counter : token (js "CODE_BGG") counter = code_token (number_to_str counter).
Proof. unfold token, code_token. eval_js. reflexivity. Qed.

Lemma code_token_match bef ds post :
  ds <> [] -> all_digits ds = true ->
  match_at re_token bef (code_token ds ++ post) =
  Some (MatchResult (List.length bef) (code_token ds) [(2, ds); (1, js "CODE_BGG")]).
Proof.
  intros Hne Hds. apply match_at_prefix.
  unfold re_token, re, seqs, lit, code_token. cbn [source reflags].
  eval_js. rewrite <- !app_assoc. cbn [app].
  change [95%N; 95%N; 80%N; 82%N; 79%N; 84%N; 69%N; 67%N; 84%N; 69%N; 68%N; 95%N]
    with (js "__PROTECTED_").
  change (95%N :: 95%N :: 80%N :: 82%N :: 79%N :: 84%N :: 69%N :: 67%N :: 84%N :: 69%N
          :: 68%N :: 95%N :: 67%N :: 79%N :: 68%N :: 69%N :: 95%N :: 66%N :: 71%N :: 71%N
          :: 95%N :: ds ++ 95%N :: 95%N :: post)
    with (js "__PROTECTED_" ++
          67%N :: [79%N; 68%N; 69%N; 95%N; 66%N; 71%N; 71%N] ++ 95%N :: ds ++ 95%N :: 95%N :: post).
  apply m_lit_ok; [apply prefix_eq_app_refl|]. rewrite advance_app.
  apply m_group_lazy_plus.
  - reflexivity.
  - reflexivity.
  - intros pre c suf E.
    repeat (destruct pre as [|? pre];
            [injection E as <- <-; reflexivity | injection E as <- E]).
    destruct pre; discriminate E.
  - rewrite m_Seq. cbn [m]. unfold match_char. cbn [after before caps].
    change (char_eq no_flags 95%N 95%N) with true. cbv iota.
    unfold plus, digit. apply m_group_greedy.
    + unfold all_digits in Hds. rewrite <- Hds. apply forallb_eq.
      intros c. cbn [xorb]. apply class_digit.
    + reflexivity.
    + destruct ds; [congruence | simpl; lia].
    + exact I.
    + cbn [lit_chars]. rewrite !m_Seq. cbn [m]. unfold match_char. cbn [after before caps].
      change (char_eq no_flags 95%N 95%N) with true. cbv iota.
      f_equal. f_equal. list_norm. reflexivity.
Qed.

(** ** A protected span comes back *)

Lemma replace_in_absent re f fl o pre x post r :
  opens_with fl o re -> absent fl o pre (x ++ post) ->
  match_at re (rev pre) (x ++ post) = Some r -> matched r = x -> x <> [] ->
  never re post ->
  replace_all re f (pre ++ x ++ post) = pre ++ f r ++ post.
Proof.
  intros Ho Hpre Hm Hx Hne Hpost.
  rewrite replace_all_from, replace_from_run.
  - f_equal. rewrite app_nil_r.
    rewrite (replace_from_match re f (rev pre) x post r Hm Hx Hne).
    f_equal. now apply replace_from_never.
  - intros p c suf E. apply Ho. exact (Hpre p c suf E).
Qed.

Lemma absent_free fl c o xs rest :
  forallb (fun u => negb (char_eq fl c u)) xs = true -> absent fl (c :: o) xs rest.
Proof.
  intros H pre u suf E. subst xs. rewrite forallb_app in H.
  apply andb_prop in H as [_ H]. cbn [forallb] in H. apply andb_prop in H as [H _].
  apply negb_true_iff in H. cbn [prefix_eq]. now rewrite H.
Qed.

Lemma absent_occ fl c0 o u body rest :
  occ fl (c0 :: o) body = 0 ->
  forallb (fun c => negb (char_eq fl c u)) o = true ->
  absent fl (c0 :: o) body (u :: rest).
Proof.
  intros H Ho. induction body as [|x body IH]; [apply absent_nil|].
  rewrite occ_cons in H.
  destruct (prefix_eq fl (c0 :: o) (x :: body)) eqn:E; [discriminate H|].
  apply absent_cons; [|apply IH; exact H].
  cbn [prefix_eq] in *. destruct (char_eq fl c0 x); [|reflexivity]. cbn [andb] in *.
  apply (prefix_eq_blocked fl u o body [] rest Ho). now rewrite app_nil_r.
Qed.

Lemma underscore_free s :
  free_of is_underscore s = true ->
  forallb (fun u => negb (char_eq no_flags (ch "_") u)) s = true.
Proof.
  unfold free_of. intros H.
  replace (forallb (fun u => negb (char_eq no_flags (ch "_") u)) s)
    with (forallb (fun c => negb (is_underscore c)) s); [exact H|].
  apply forallb_eq. intros c.
  rewrite char_eq_exact. unfold is_underscore. change (ch "_") with 95%N.
  now rewrite N.eqb_sym.
Qed.

Lemma token_needs : needs is_underscore no_flags (source re_token).
Proof.
  unfold re_token, re, seqs, lit. cbn [source]. eval_js. cbn [lit_chars].
  apply needs_seq_l, needs_seq_l, needs_chr.
  intros x H. rewrite char_eq_exact in H. unfold is_underscore. now rewrite N.eqb_sym.
Qed.

Lemma code_token_not_nil ds : code_token ds <> [].
Proof. unfold code_token. eval_js. discriminate. Qed.

Lemma store_get_head t chunk st : store_get t ((t, chunk) :: st) = Some chunk.
Proof.
  unfold store_get. cbn [find fst]. unfold str_eqb.
  destruct (list_eq_dec N.eq_dec t t); [reflexivity | congruence].
Qed.

Lemma restore_one pre ds chunk post :
  ds <> [] -> all_digits ds = true -> chunk <> [] ->
  free_of is_underscore pre = true -> free_of is_underscore post = true ->
  restore [(code_token ds, chunk)] (pre ++ code_token ds ++ post) = pre ++ chunk ++ post.
Proof.
  intros Hne Hds Hchunk Hpre Hpost. unfold restore.
  rewrite (replace_in_absent re_token _ no_flags (js "__PROTECTED_") pre (code_token ds) post
             (MatchResult (List.length pre) (code_token ds) [(2, ds); (1, js "CODE_BGG")])).
  - cbn [matched]. unfold restore_token. rewrite store_get_head.
    destruct chunk; [congruence | reflexivity].
  - apply opens_lit_re.
  - eval_js. apply absent_free. now apply underscore_free.
  - rewrite <- (length_rev pre). now apply code_token_match.
  - reflexivity.
  - apply code_token_not_nil.
  - apply (never_needs is_underscore); [apply token_needs | exact Hpost].
Qed.

Lemma no_lb_code_token ds : all_digits ds = true -> no_lb (code_token ds) = true.
Proof.
  intros H. unfold code_token. rewrite !no_lb_app, (all_digits_no_lb _ H). reflexivity.
Qed.

Lemma length_app3 (a b c : str) :
  List.length (a ++ b ++ c) = List.length a + List.length b + List.length c.
Proof. rewrite !length_app. lia. Qed.

Lemma slices (a x b : str) :
  slice (a ++ x ++ b) 0 (List.length a) = a /\
  slice (a ++ x ++ b) (List.length a) (List.length a + List.length x) = x /\
  slice_from (a ++ x ++ b) (List.length a + List.length x) = b.
Proof.
  unfold slice, slice_from. repeat split.
  - cbn [skipn]. rewrite Nat.sub_0_r, firstn_app, firstn_all, Nat.sub_diag.
    cbn [firstn]. apply app_nil_r.
  - rewrite skipn_app, skipn_all, Nat.sub_diag. cbn [skipn app].
    replace (List.length a + List.length x - List.length a) with (List.length x) by lia.
    rewrite firstn_app, firstn_all, Nat.sub_diag. cbn [firstn]. apply app_nil_r.
  - rewrite app_assoc. rewrite <- length_app.
    rewrite skipn_app, skipn_all, Nat.sub_diag. reflexivity.
Qed.

Lemma code_first_open pre rest :
  no_lb pre = true ->
  first_at flag_i (js "[code]") (pre ++ js "[code]" ++ rest) (List.length pre).
Proof.
  intros Hpre. apply first_at_after; [now apply absent_no_lb | apply prefix_eq_app_refl].
Qed.

Lemma absent_close_in_open rest :
  absent flag_i (js "[/code]") (js "[code]") rest.
Proof.
  eval_js. apply absent_cons; [reflexivity|]. apply absent_no_lb; reflexivity.
Qed.

Lemma absent_close_in_body body post :
  occ flag_i (js "[/code]") body = 0 ->
  absent flag_i (js "[/code]") body (js "[/code]" ++ post).
Proof.
  eval_js. intros H. cbn [app]. apply absent_occ; [exact H | reflexivity].
Qed.

Lemma code_first_close pre body post :
  no_lb pre = true -> occ flag_i (js "[/code]") body = 0 ->
  first_at flag_i (js "[/code]") ((pre ++ js "[code]" ++ body) ++ js "[/code]" ++ post)
    (List.length (pre ++ js "[code]" ++ body)).
Proof.
  intros Hpre Hbody. apply first_at_after; [|apply prefix_eq_app_refl].
  apply absent_app; [now apply absent_no_lb|].
  apply absent_app; [apply absent_close_in_open | now apply absent_close_in_body].
Qed.

Lemma protect_one_round fuel nm (S_ E_ pre body post : str) counter :
  first_at flag_i S_ (pre ++ (S_ ++ body ++ E_) ++ post) (List.length pre) ->
  first_at flag_i E_ (pre ++ (S_ ++ body ++ E_) ++ post) (List.length (pre ++ S_ ++ body)) ->
  protect_rule (S fuel) (Rule nm (lit_regexp flag_i S_) (Some (lit_regexp flag_i E_)))
    (pre ++ (S_ ++ body ++ E_) ++ post) [] counter =
  protect_rule fuel (Rule nm (lit_regexp flag_i S_) (Some (lit_regexp flag_i E_)))
    (pre ++ token nm counter ++ post) [(token nm counter, S_ ++ body ++ E_)] (S counter).
Proof.
  intros Fa Fe.
  destruct (exec_lit_first _ _ _ _ Fa) as (r & Er & Ir & Lr).
  destruct (exec_lit_first _ _ _ _ Fe) as (r' & Er' & Ir' & Lr').
  rewrite protect_rule_pair, Er, Er'. rewrite Ir, Ir', Lr'.
  destruct (slices pre (S_ ++ body ++ E_) post) as (E1 & E2 & E3).
  replace (List.length (pre ++ S_ ++ body) + List.length E_)
    with (List.length pre + List.length (S_ ++ body ++ E_))
    by (rewrite !length_app; lia).
  now rewrite E1, E2, E3.
Qed.

Lemma protect_one fuel pre body post :
  no_lb pre = true -> no_lb post = true ->
  occ flag_i (js "[/code]") body = 0 ->
  protectSegments (S fuel) (pre ++ js "[code]" ++ body ++ js "[/code]" ++ post)
    [rule_code_bgg] =
  Some (pre ++ code_token (js "0") ++ post,
        [(code_token (js "0"), js "[code]" ++ body ++ js "[/code]")]).
Proof.
  intros Hpre Hpost Hbody.
  unfold protectSegments. cbn [protect_rules]. rewrite rule_code_bgg_eq. unfold code_rule.
  replace (pre ++ js "[code]" ++ body ++ js "[/code]" ++ post)
    with (pre ++ (js "[code]" ++ body ++ js "[/code]") ++ post)
    by (now rewrite <- !app_assoc).
  rewrite protect_one_round.
  - rewrite token_code. change (number_to_str 0) with (js "0").
    rewrite protect_rule_none; [reflexivity|].
    cbn [start]. apply exec_never.
    eapply never_no_lb; [apply opens_lit | reflexivity |].
    rewrite !no_lb_app, Hpre, Hpost, no_lb_code_token; reflexivity.
  - rewrite <- !app_assoc. now apply code_first_open.
  - replace (pre ++ (js "[code]" ++ body ++ js "[/code]") ++ post)
      with ((pre ++ js "[code]" ++ body) ++ js "[/code]" ++ post)
      by (now rewrite <- !app_assoc).
    now apply code_first_close.
Qed.

(** ** Quotes *)

Lemma ends_nl_cons c s : s <> [] -> ends_nl (c :: s) = ends_nl s.
Proof. destruct s; [congruence | reflexivity]. Qed.

(** \n+$ finds nothing in a text that does not end with a newline. *)
Lemma plus_nl_eol (K : cont) fuel : forall mn x,
  ends_nl (after x) = false -> (after x = [] -> mn <> 0) ->
  repeat_matcher (m no_flags (Chr nl)) [] true (fun st' => m no_flags Eol K st')
    fuel mn None x = None.
Proof.
  induction fuel as [|fuel IH]; intros mn x He Hmn; [reflexivity|].
  cbn [repeat_matcher].
  assert (Hstep : m no_flags (Chr nl)
            (fun y => if (mn =? 0) && (List.length (after y) =? List.length (after x))
                      then None
                      else repeat_matcher (m no_flags (Chr nl)) [] true
                             (fun st' => m no_flags Eol K st') fuel (pred mn)
                             (option_map pred None) y)
            (MState (before x) (after x) (clear_caps [] (caps x))) = None).
  { cbn [m]. unfold match_char. cbn [after before caps].
    destruct (after x) as [|c rest] eqn:Ea; [reflexivity|].
    rewrite char_eq_nl. destruct (c =? nl)%N eqn:Ec; [|reflexivity].
    destruct rest as [|c' rest].
    - cbn [ends_nl] in He. congruence.
    - destruct ((mn =? 0) && _); [reflexivity|].
      apply IH; cbn [after]; [exact He | discriminate]. }
  rewrite Hstep.
  destruct (negb (mn =? 0)) eqn:E0; [reflexivity|].
  cbn [m]. unfold at_eol. destruct (after x) as [|c rest] eqn:Ea.
  - apply negb_false_iff, Nat.eqb_eq in E0. now destruct (Hmn eq_refl).
  - reflexivity.
Qed.

Lemma plus_nl_first (k : cont) bef c rest cs :
  (c =? nl)%N = false ->
  m no_flags (plus (Chr nl)) k (MState bef (c :: rest) cs) = None.
Proof.
  intros Hc. unfold plus. cbn [m groups after Nat.add repeat_matcher Nat.eqb negb].
  unfold match_char. cbn [after]. now rewrite char_eq_nl, Hc.
Qed.

Lemma plus_nl_nil (k : cont) bef cs :
  m no_flags (plus (Chr nl)) k (MState bef [] cs) = None.
Proof. reflexivity. Qed.

Lemma blank_edges_reject bef aft :
  (bef = [] -> starts_nl aft = false) -> ends_nl aft = false ->
  match_at re_blank_edges bef aft = None.
Proof.
  intros Hs He. unfold match_at, re_blank_edges, re. cbn [source reflags].
  assert (H1 : m no_flags (Seq Bol (plus (Chr nl))) (fun y => Some y) (MState bef aft []) = None).
  { cbn [m]. unfold at_bol. cbn [before multiline no_flags andb].
    destruct bef as [|b bef]; [|reflexivity].
    destruct aft as [|c rest]; [reflexivity|].
    apply plus_nl_first. now apply Hs. }
  assert (H2 : m no_flags (Seq (plus (Chr nl)) Eol) (fun y => Some y) (MState bef aft []) = None).
  { cbn [m]. apply plus_nl_eol; cbn [after]; [exact He | discriminate]. }
  change (m no_flags (Alt (Seq Bol (plus (Chr nl))) (Seq (plus (Chr nl)) Eol))
            (fun y => Some y) (MState bef aft []))
    with (match m no_flags (Seq Bol (plus (Chr nl))) (fun y => Some y) (MState bef aft []) with
          | Some z => Some z
          | None => m no_flags (Seq (plus (Chr nl)) Eol) (fun y => Some y) (MState bef aft [])
          end).
  now rewrite H1, H2.
Qed.

Lemma strip_from_clean f s : forall bef,
  (bef = [] -> starts_nl s = false) -> ends_nl s = false ->
  replace_from re_blank_edges f bef s = s.
Proof.
  induction s as [|c s IH]; intros bef Hs He.
  - rewrite replace_from_nil. now rewrite blank_edges_reject.
  - rewrite replace_from_skip by (now apply blank_edges_reject).
    f_equal. apply IH; [discriminate|].
    destruct s as [|c' s]; [reflexivity | exact He].
Qed.

Lemma strip_clean s :
  starts_nl s = false -> ends_nl s = false -> strip_blank_edges s = s.
Proof.
  intros Hs He. unfold strip_blank_edges. rewrite replace_all_from.
  now apply strip_from_clean.
Qed.

(** ** The lines of a text and their join *)

Lemma lines_acc_app l : forall acc rest,
  free_of (fun c => (c =? nl)%N) l = true ->
  lines_acc acc (l ++ rest) = lines_acc (rev l ++ acc) rest.
Proof.
  unfold free_of. induction l as [|c l IH]; intros acc rest H; [reflexivity|].
  cbn [forallb] in H. apply andb_prop in H as [Hc Hl]. apply negb_true_iff in Hc.
  cbn [app lines_acc]. rewrite Hc, IH by exact Hl. cbn [rev]. now rewrite <- app_assoc.
Qed.

Lemma lines_acc_join ls : forall l acc,
  Forall (fun l => free_of (fun c => (c =? nl)%N) l = true) (l :: ls) ->
  lines_acc acc (join (js "\n") (l :: ls)) = (rev acc ++ l) :: ls.
Proof.
  induction ls as [|l' ls IH]; intros l acc H.
  - cbn [join]. rewrite <- (app_nil_r l) at 1.
    rewrite lines_acc_app by (now inversion H).
    cbn [lines_acc]. now rewrite rev_app_distr, rev_involutive.
  - rewrite join_cons by discriminate.
    rewrite lines_acc_app by (now inversion H).
    change (js "\n") with [nl]. cbn [app lines_acc]. rewrite N.eqb_refl.
    rewrite IH by (now inversion H).
    now rewrite rev_app_distr, rev_involutive.
Qed.

Lemma lines_join ls :
  ls <> [] -> Forall (fun l => free_of (fun c => (c =? nl)%N) l = true) ls ->
  lines (join (js "\n") ls) = ls.
Proof.
  intros Hne H. destruct ls as [|l ls]; [congruence|].
  unfold lines. now rewrite lines_acc_join.
Qed.

Lemma forallb_join (p : char -> bool) sep ls :
  forallb p sep = true -> Forall (fun l => forallb p l = true) ls ->
  forallb p (join sep ls) = true.
Proof.
  intros Hsep H. induction H as [|l ls Hl _ IH]; [reflexivity|].
  destruct ls as [|l' ls]; [exact Hl|].
  rewrite join_cons by discriminate. now rewrite !forallb_app, Hl, Hsep, IH.
Qed.

Lemma is_break_nl l :
  free_of is_break l = true -> free_of (fun c => (c =? nl)%N) l = true.
Proof.
  apply free_of_weaken. intros c H. unfold is_break. now rewrite H.
Qed.

Lemma is_break_cr l : free_of is_break l = true -> no_cr l = true.
Proof.
  apply (free_of_weaken is_break (fun c => (c =? cr)%N)).
  intros c H. unfold is_break. rewrite H. apply orb_true_r.
Qed.

Lemma no_cr_join ls :
  Forall (fun l => free_of is_break l = true) ls -> no_cr (join (js "\n") ls) = true.
Proof.
  intros H. apply forallb_join; [reflexivity|].
  revert H. apply Forall_impl. intros l Hl. now apply is_break_cr.
Qed.

Lemma split_join ls :
  ls <> [] -> Forall (fun l => free_of is_break l = true) ls ->
  split re_newline (join (js "\n") ls) = ls.
Proof.
  intros Hne H. rewrite split_lines by (now apply no_cr_join).
  apply lines_join; [exact Hne|].
  revert H. apply Forall_impl. intros l Hl. now apply is_break_nl.
Qed.

Lemma lines_breaks s :
  no_cr s = true -> Forall (fun l => free_of is_break l = true) (lines s).
Proof.
  intros H. unfold lines.
  assert (G : forall s acc, no_cr s = true -> free_of is_break acc = true ->
              Forall (fun l => free_of is_break l = true) (lines_acc acc s)).
  { clear. induction s as [|c s IH]; intros acc Hs Ha; cbn [lines_acc].
    - constructor; [|constructor]. unfold free_of. now rewrite forallb_rev_eq.
    - cbn [no_cr forallb] in Hs. apply andb_prop in Hs as [Hc Hs].
      destruct (c =? nl)%N eqn:E.
      + constructor; [unfold free_of; now rewrite forallb_rev_eq | now apply IH].
      + apply IH; [exact Hs|]. unfold free_of, is_break in *. cbn [forallb].
        rewrite E. cbn [orb]. now rewrite Hc, Ha. }
  now apply G.
Qed.

(** ** The quote marker *)

Lemma m_opt_class fl neg items R (k : cont) bef x more cs :
  m fl (Seq (opt (Class neg items)) R) k (MState bef (x :: more) cs) =
  match (if xorb neg (class_mem fl items x) then m fl R k (MState (x :: bef) more cs)
         else None) with
  | Some z => Some z
  | None => m fl R k (MState bef (x :: more) cs)
  end.
Proof.
  unfold opt. cbn [m groups after Nat.add].
  cbn [repeat_matcher Nat.eqb negb andb option_map pred before after caps].
  unfold match_char. cbn [before after caps]. rewrite clear_caps_nil.
  destruct (xorb neg (class_mem fl items x)); [|reflexivity].
  replace (List.length more =? List.length (x :: more)) with false
    by (symmetry; apply Nat.eqb_neq; simpl; lia).
  reflexivity.
Qed.

Lemma m_opt_class_nil fl neg items R (k : cont) bef cs :
  m fl (Seq (opt (Class neg items)) R) k (MState bef [] cs) = m fl R k (MState bef [] cs).
Proof.
  unfold opt. cbn [m groups after Nat.add List.length].
  cbn [repeat_matcher Nat.eqb negb andb option_map pred before after caps].
  unfold match_char. cbn [before after caps]. reflexivity.
Qed.

Lemma m_Chr fl c k st : m fl (Chr c) k st = match_char (char_eq fl c) k st.
Proof. reflexivity. Qed.

Lemma quote_marker_at_start l :
  match_at re_quote_marker [] (ch ">" :: l) = Some (MatchResult 0 (marker_of l) []).
Proof.
  unfold match_at, re_quote_marker, re, seqs, space. cbn [source reflags].
  rewrite m_Seq, m_Bol. unfold at_bol. cbn [before]. rewrite m_Seq, m_Chr.
  unfold match_char at 1. cbn [after before caps].
  change (char_eq no_flags (ch ">") (ch ">")) with true. cbv iota.
  destruct l as [|c l].
  - rewrite m_opt_class_nil. reflexivity.
  - rewrite m_opt_class. cbn [xorb]. rewrite class_space. unfold marker_of.
    destruct (is_space c).
    + cbn [m after caps List.length].
      replace (S (S (List.length l)) - List.length l) with 2 by lia. reflexivity.
    + cbn [m after caps List.length].
      replace (S (S (List.length l)) - S (List.length l)) with 1 by lia. reflexivity.
Qed.

Lemma quote_marker_inside b bef aft : match_at re_quote_marker (b :: bef) aft = None.
Proof. reflexivity. Qed.

Lemma quote_marker_other aft :
  starts_quote aft = false -> match_at re_quote_marker [] aft = None.
Proof.
  intros H. unfold match_at, re_quote_marker, re, seqs. cbn [source reflags].
  rewrite m_Seq, m_Bol. unfold at_bol. cbn [before]. rewrite m_Seq, m_Chr.
  unfold match_char. cbn [after].
  destruct aft as [|c aft]; [reflexivity|]. cbn [starts_quote] in H.
  rewrite char_eq_exact. now rewrite N.eqb_sym, H.
Qed.

Lemma quote_marker_search aft : forall b bef, search re_quote_marker (b :: bef) aft = None.
Proof.
  induction aft as [|c aft IH]; intros b bef; cbn [search];
    rewrite quote_marker_inside; [reflexivity | apply IH].
Qed.

Lemma exec_quote_marker l :
  exec re_quote_marker l =
  match l with
  | c :: l' => if (c =? ch ">")%N then Some (MatchResult 0 (marker_of l') []) else None
  | [] => None
  end.
Proof.
  unfold exec. destruct l as [|c l]; [reflexivity|].
  cbn [search]. destruct (c =? ch ">")%N eqn:E.
  - apply N.eqb_eq in E. subst c. now rewrite quote_marker_at_start.
  - rewrite quote_marker_other by exact E. apply quote_marker_search.
Qed.

Lemma test_quote_marker l : test re_quote_marker l = starts_quote l.
Proof.
  unfold test. rewrite exec_quote_marker. destruct l as [|c l]; [reflexivity|].
  cbn [starts_quote]. now destruct (c =? ch ">")%N.
Qed.

Lemma strip_quote_marker l :
  replace_first re_quote_marker (fun _ => []) (ch ">" :: l) = unquoted l.
Proof.
  unfold replace_first. rewrite exec_quote_marker. rewrite N.eqb_refl.
  cbn [index matched firstn app Nat.add]. unfold marker_of, unquoted.
  destruct l as [|c l]; [reflexivity|].
  destruct (is_space c); reflexivity.
Qed.

Lemma strip_quoted l :
  replace_first re_quote_marker (fun _ => []) (js "> " ++ l) = l.
Proof.
  change (js "> " ++ l) with (ch ">" :: 32%N :: l).
  rewrite strip_quote_marker. reflexivity.
Qed.

(** ** The loop of blockquoteMarkdownToBgg *)

Lemma quote_steps_quoted ls : forall out buf,
  Forall (fun l => starts_quote l = true) ls ->
  fold_left quote_step ls (out, buf) = (out, buf ++ ls).
Proof.
  induction ls as [|l ls IH]; intros out buf H; cbn [fold_left].
  - now rewrite app_nil_r.
  - inversion H as [|? ? Hl Hls]; subst.
    unfold quote_step at 2. rewrite test_quote_marker, Hl. cbn [fst snd].
    rewrite IH by exact Hls. now rewrite <- app_assoc.
Qed.

Lemma map_strip_quoted ls :
  map (replace_first re_quote_marker (fun _ => [])) (map (fun l => js "> " ++ l) ls) = ls.
Proof.
  induction ls as [|l ls IH]; [reflexivity|]. cbn [map]. now rewrite strip_quoted, IH.
Qed.

Lemma flush_quoted out ls :
  ls <> [] ->
  flush (out, map (fun l => js "> " ++ l) ls) = (out ++ [quote_block ls], []).
Proof.
  intros Hne. unfold flush.
  destruct (map (fun l => js "> " ++ l) ls) as [|q qs] eqn:E.
  - destruct ls; [congruence | discriminate E].
  - rewrite <- E, map_strip_quoted. unfold quote_block. reflexivity.
Qed.

Lemma quote_steps_below below : forall out ls,
  ls <> [] ->
  Forall (fun l => starts_quote l = false) below ->
  flush (fold_left quote_step below (out, map (fun l => js "> " ++ l) ls)) =
  (out ++ [quote_block ls] ++ below, []).
Proof.
  intros out ls Hne H. destruct below as [|l below].
  - cbn [fold_left]. rewrite flush_quoted by exact Hne. now rewrite app_nil_r.
  - inversion H as [|? ? Hl Hls]; subst. cbn [fold_left].
    unfold quote_step at 2. rewrite test_quote_marker, Hl.
    rewrite flush_quoted by exact Hne.
    rewrite quote_steps_plain.
    + cbn [flush]. now rewrite <- !app_assoc.
    + revert Hls. apply Forall_impl. intros l' Hl'. now rewrite test_quote_marker.
Qed.

Lemma quoted_lines ls :
  Forall (fun l => starts_quote l = true) (map (fun l => js "> " ++ l) ls).
Proof. induction ls as [|l ls IH]; constructor; [reflexivity | exact IH]. Qed.

Lemma quoted_breaks ls :
  Forall (fun l => free_of is_break l = true) ls ->
  Forall (fun l => free_of is_break l = true) (map (fun l => js "> " ++ l) ls).
Proof.
  intros H. induction H as [|l ls Hl _ IH]; constructor; [|exact IH].
  now rewrite free_of_app, Hl.
Qed.

Lemma blockquote_block above ls below :
  Forall (fun l => free_of is_break l = true) above ->
  Forall (fun l => free_of is_break l = true) ls ->
  Forall (fun l => free_of is_break l = true) below ->
  Forall (fun l => starts_quote l = false) above ->
  Forall (fun l => starts_quote l = false) below ->
  ls <> [] ->
  blockquoteMarkdownToBgg (join (js "\n") (above ++ map (fun l => js "> " ++ l) ls ++ below)) =
  join (js "\n") (above ++ [quote_block ls] ++ below).
Proof.
  intros Ba Bl Bb Qa Qb Hne. unfold blockquoteMarkdownToBgg. cbv zeta.
  rewrite split_join.
  - rewrite !fold_left_app.
    rewrite quote_steps_plain
      by (revert Qa; apply Forall_impl; intros l Hl; now rewrite test_quote_marker).
    rewrite quote_steps_quoted by apply quoted_lines.
    cbn [app]. rewrite quote_steps_below by assumption. reflexivity.
  - destruct above; [|discriminate]. destruct ls; [congruence | discriminate].
  - apply Forall_app. split; [exact Ba|]. apply Forall_app. split; [|exact Bb].
    now apply quoted_breaks.
Qed.

(** ** quoteBodyToMarkdown on a body with clean edges *)

Lemma quote_body_lines body :
  no_cr body = true -> starts_nl body = false -> ends_nl body = false ->
  quoteBodyToMarkdown body =
  join (js "\n") (map (fun l => js "> " ++ l) (lines body)) ++ js "\n\n".
Proof.
  intros Hcr Hs He. unfold quoteBodyToMarkdown. cbv zeta.
  rewrite strip_clean by assumption. now rewrite split_lines.
Qed.

Lemma join_two_blank xs :
  xs <> [] -> join (js "\n") (xs ++ [[]; []]) = join (js "\n") xs ++ js "\n\n".
Proof.
  induction xs as [|x xs IH]; intros H; [congruence|].
  destruct xs as [|x' xs].
  - cbn [app join]. reflexivity.
  - change ((x :: x' :: xs) ++ [[]; []]) with (x :: ((x' :: xs) ++ [[]; []])).
    rewrite join_cons by (cbn [app]; discriminate).
    rewrite IH by discriminate. rewrite (join_cons _ x) by discriminate.
    now rewrite <- !app_assoc.
Qed.

Lemma lines_not_nil s : lines s <> [].
Proof. apply lines_acc_not_nil. Qed.

Lemma quote_round_trip body :
  no_cr body = true -> starts_nl body = false -> ends_nl body = false ->
  blockquoteMarkdownToBgg (quoteBodyToMarkdown body) =
  js "[quote]\n" ++ body ++ js "\n[/quote]\n\n".
Proof.
  intros Hcr Hs He. rewrite quote_body_lines by assumption.
  rewrite <- join_two_blank.
  2:{ pose proof (lines_not_nil body) as Hn. intros E.
      destruct (lines body); [congruence | discriminate E]. }
  pose proof (blockquote_block [] (lines body) [[]; []]) as H. cbn [app] in H.
  rewrite H.
  - change ([quote_block (lines body); []; []]) with ([quote_block (lines body)] ++ [[]; []]).
    rewrite join_two_blank by discriminate. cbn [join]. unfold quote_block.
    rewrite join_lines. eval_js. cbn [app]. rewrite <- !app_assoc. reflexivity.
  - constructor.
  - now apply lines_breaks.
  - repeat constructor.
  - constructor.
  - repeat constructor.
  - apply lines_not_nil.
Qed.

(** ** A quote between plain texts *)

Lemma no_lb_lines s : no_lb s = true -> Forall (fun l => no_lb l = true) (lines s).
Proof. intros H. apply lines_acc_chars; [reflexivity | exact H]. Qed.

Lemma no_lb_quoted body :
  no_lb body = true ->
  no_lb (join (js "\n") (map (fun l => js "> " ++ l) (lines body))) = true.
Proof.
  intros H. apply forallb_join; [reflexivity|].
  apply Forall_map. generalize (no_lb_lines body H). apply Forall_impl.
  intros l Hl. rewrite no_lb_app, Hl. reflexivity.
Qed.

Lemma quote_in_context fuel pre body post :
  no_lb pre = true -> no_lb body = true -> no_lb post = true ->
  no_cr body = true -> starts_nl body = false -> ends_nl body = false ->
  bggToMarkdown fuel (pre ++ js "[quote]" ++ body ++ js "[/quote]" ++ post) =
  Some (pre ++ join (js "\n") (map (fun l => js "> " ++ l) (lines body)) ++ js "\n\n" ++ post).
Proof.
  intros Hpre Hbody Hpost Hcr Hs He.
  pose proof (no_lb_quoted body Hbody) as Hq.
  pair_in_plain pre body post Hpre Hbody Hpost
    ("[quote]"%string) ("[/quote]"%string) ("quote]"%string) ("/quote]"%string).
  rewrite quote_body_lines by assumption.
  set (q := join (js "\n") (map (fun l => js "> " ++ l) (lines body))) in *.
  eval_js. rewrite <- ?app_assoc. cbn [app].
  match goal with
  | |- context [replace_all _ _ ?t'] =>
      assert (Ht : no_lb t' = true)
        by (unfold no_lb in *; repeat (rewrite forallb_app || cbn [forallb]);
            repeat (apply andb_true_intro; split); solve [assumption | reflexivity]);
      skip_plain t' Ht
  end.
  reflexivity.
Qed.

(** ** What each Markdown pass needs *)

Ltac one_char :=
  let x := fresh "x" in
  let H := fresh "H" in
  intros x H; apply char_eq_nonletter in H; [subst x; reflexivity | reflexivity].

Ltac one_class :=
  let x := fresh "x" in
  let H := fresh "H" in
  intros x H; unfold class_mem, items_mem in H;
  cbn [icase no_flags flag_m flag_i existsb item_mem] in H;
  first [ rewrite orb_false_r in H; exact H
        | repeat (apply orb_prop in H as [H|H]); try discriminate;
          apply N.eqb_eq in H; subst x; reflexivity ].

Ltac needs_by :=
  solve [ apply needs_chr; one_char
        | apply needs_class; one_class
        | apply needs_group; needs_by
        | apply needs_rep; [needs_by | lia | discriminate]
        | apply needs_seq_l; needs_by
        | apply needs_seq_r; needs_by ].

Ltac needs_of r0 :=
  unfold r0, re_pair, re_italic, re, re_i, re_m, lit, http_url;
  cbn [source reflags seqs start]; eval_js; cbn [lit_chars]; needs_by.

Lemma fence_start_needs : needs is_backtick no_flags (source (start rule_code_fence)).
Proof. needs_of rule_code_fence. Qed.

Lemma fence_pass_needs : needs is_backtick flag_i (source re_fence).
Proof. needs_of re_fence. Qed.

Lemma inline_code_needs : needs is_backtick no_flags (source re_inline_code).
Proof. needs_of re_inline_code. Qed.

Lemma heading_needs : needs is_hash flag_m (source re_heading).
Proof. needs_of re_heading. Qed.

Lemma bold_needs : needs is_star no_flags (source re_bold).
Proof. needs_of re_bold. Qed.

Lemma italic_star_needs : needs is_star no_flags (source (re_italic (ch "*"))).
Proof. needs_of re_bold. Qed.

Lemma italic_underscore_needs : needs is_underscore no_flags (source (re_italic (ch "_"))).
Proof. needs_of re_bold. Qed.

Lemma strike_needs : needs is_tilde no_flags (source re_strike).
Proof. needs_of re_strike. Qed.

Lemma link_needs : needs is_lparen no_flags (source re_link).
Proof. needs_of re_link. Qed.

Lemma image_needs : needs is_lparen no_flags (source re_image).
Proof. needs_of re_image. Qed.

Lemma ulist_needs : needs is_bullet no_flags (source re_ulist).
Proof. needs_of re_ulist. Qed.

Lemma olist_needs : needs is_digit no_flags (source re_olist).
Proof. needs_of re_olist. Qed.

Lemma underline_needs : needs is_lt flag_i (source re_underline).
Proof. needs_of re_underline. Qed.

(** Every trigger is a character that plain text avoids. *)
Ltac plain_incl :=
  let c := fresh "c" in
  let E := fresh "E" in
  intros c E;
  first [ apply N.eqb_eq in E; subst c; reflexivity
        | unfold md_plain, md_special; rewrite E; rewrite ?orb_true_r; reflexivity
        | repeat (apply orb_prop in E as [E|E]); apply N.eqb_eq in E; subst c; reflexivity ].

Lemma backtick_plain c : is_backtick c = true -> md_plain c = true.
Proof. revert c. plain_incl. Qed.
Lemma gt_plain c : is_gt c = true -> md_plain c = true.
Proof. revert c. plain_incl. Qed.
Lemma hash_plain c : is_hash c = true -> md_plain c = true.
Proof. revert c. plain_incl. Qed.
Lemma star_plain c : is_star c = true -> md_plain c = true.
Proof. revert c. plain_incl. Qed.
Lemma underscore_plain c : is_underscore c = true -> md_plain c = true.
Proof. revert c. plain_incl. Qed.
Lemma tilde_plain c : is_tilde c = true -> md_plain c = true.
Proof. revert c. plain_incl. Qed.
Lemma lparen_plain c : is_lparen c = true -> md_plain c = true.
Proof. revert c. plain_incl. Qed.
Lemma lt_plain c : is_lt c = true -> md_plain c = true.
Proof. revert c. plain_incl. Qed.
Lemma cr_plain c : is_cr c = true -> md_plain c = true.
Proof. revert c. plain_incl. Qed.
Lemma bullet_plain c : is_bullet c = true -> md_plain c = true.
Proof. revert c. plain_incl. Qed.
Lemma digit_plain c : is_digit c = true -> md_plain c = true.
Proof. revert c. plain_incl. Qed.
Lemma lb_plain c : (c =? lb)%N = true -> md_plain c = true.
Proof. revert c. plain_incl. Qed.

Ltac plain_part :=
  first [ apply (free_of_weaken md_plain _ _ backtick_plain)
        | apply (free_of_weaken md_plain _ _ gt_plain)
        | apply (free_of_weaken md_plain _ _ hash_plain)
        | apply (free_of_weaken md_plain _ _ star_plain)
        | apply (free_of_weaken md_plain _ _ underscore_plain)
        | apply (free_of_weaken md_plain _ _ tilde_plain)
        | apply (free_of_weaken md_plain _ _ lparen_plain)
        | apply (free_of_weaken md_plain _ _ lt_plain)
        | apply (free_of_weaken md_plain _ _ cr_plain)
        | apply (free_of_weaken md_plain _ _ bullet_plain)
        | apply (free_of_weaken md_plain _ _ digit_plain)
        | apply (free_of_weaken md_plain _ _ lb_plain) ];
  assumption.

Lemma free_of_cons p c s : free_of p (c :: s) = negb (p c) && free_of p s.
Proof. reflexivity. Qed.

(** [free_of p t] for a text [t] put together from plain parts and
    literal characters. *)
Ltac free_tac :=
  repeat (rewrite free_of_app || rewrite free_of_cons);
  repeat (apply andb_true_intro; split);
  first [ reflexivity | plain_part ].

Ltac skip_by t lem :=
  skip_pass t ltac:(apply (never_needs _ _ _ lem); free_tac).

(** ** A pair of literal marks around a body *)

Lemma pair_re_match_at fl o c bef body post :
  absent fl c body (c ++ post) ->
  match_at (pair_re fl o c) bef (o ++ body ++ c ++ post) =
  Some (MatchResult (List.length bef) (o ++ body ++ c) [(1, body)]).
Proof.
  intros Habs.
  replace (o ++ body ++ c ++ post) with ((o ++ body ++ c) ++ post)
    by (now rewrite <- !app_assoc).
  apply match_at_prefix. unfold pair_re. cbn [source reflags].
  rewrite <- !app_assoc.
  apply m_lit_ok; [apply prefix_eq_app_refl|]. rewrite advance_app.
  apply m_group_lazy; [exact Habs|].
  apply m_lit_ok; [apply prefix_eq_app_refl|]. rewrite advance_app.
  cbn [m]. rewrite !rev_app_distr, <- !app_assoc. reflexivity.
Qed.

Lemma pair_re_replace fl o c f pre body post :
  o <> [] ->
  absent fl o pre (o ++ body ++ c ++ post) ->
  absent fl c body (c ++ post) ->
  never (pair_re fl o c) post ->
  replace_all (pair_re fl o c) f (pre ++ o ++ body ++ c ++ post) =
  pre ++ f (MatchResult (List.length pre) (o ++ body ++ c) [(1, body)]) ++ post.
Proof.
  intros Ho Hpre Hbody Hpost.
  replace (pre ++ o ++ body ++ c ++ post) with (pre ++ (o ++ body ++ c) ++ post)
    by (now rewrite <- !app_assoc).
  rewrite (replace_in_absent (pair_re fl o c) f fl o pre (o ++ body ++ c) post
             (MatchResult (List.length pre) (o ++ body ++ c) [(1, body)])).
  - reflexivity.
  - apply opens_lit_re.
  - now rewrite <- !app_assoc.
  - rewrite <- !app_assoc, <- (length_rev pre). now apply pair_re_match_at.
  - reflexivity.
  - destruct o; [congruence | discriminate].
  - exact Hpost.
Qed.

(** ** Hard breaks *)

Lemma contains_cons o c s :
  contains o (c :: s) = prefix_eq no_flags o (c :: s) || contains o s.
Proof. reflexivity. Qed.

(** A literal that is in neither of two texts is not in their
    concatenation around a character that is none of its own. *)
Lemma contains_blocked o u x : forall y,
  forallb (fun c => negb (char_eq no_flags c u)) o = true ->
  contains o x = false -> contains o (u :: y) = false ->
  contains o (x ++ u :: y) = false.
Proof.
  intros y Ho. induction x as [|c x IH]; intros Hx Hy; [exact Hy|].
  cbn [app]. rewrite contains_cons in *. apply orb_false_elim in Hx as [H1 H2].
  rewrite IH by assumption. rewrite orb_false_r.
  change (c :: x ++ u :: y) with ((c :: x) ++ u :: y).
  apply (prefix_eq_blocked no_flags u o (c :: x) []); [exact Ho|].
  now rewrite app_nil_r.
Qed.

(** The literal does not start inside a run of characters that differ
    from its first character. *)
Lemma contains_free c o t : forall y,
  forallb (fun u => negb (char_eq no_flags c u)) t = true ->
  contains (c :: o) (t ++ y) = contains (c :: o) y.
Proof.
  intros y. induction t as [|u t IH]; intros H; [reflexivity|].
  cbn [forallb] in H. apply andb_prop in H as [Hu Ht]. apply negb_true_iff in Hu.
  cbn [app]. rewrite contains_cons. cbn [prefix_eq]. rewrite Hu. cbn [andb orb].
  now apply IH.
Qed.

Lemma forallb_weaken (A : Type) (p q : A -> bool) (l : list A) :
  (forall x, p x = true -> q x = true) -> forallb p l = true -> forallb q l = true.
Proof.
  intros H. induction l as [|x l IH]; [reflexivity|]. cbn [forallb].
  intros E. apply andb_prop in E as [E1 E2]. now rewrite (H x E1), IH.
Qed.

Lemma no_break_around t x y :
  t <> [] -> not_blank_mark t = true ->
  contains (js "  \n") x = false -> contains (js "  \n") y = false ->
  contains (js "  \n") (x ++ t ++ y) = false.
Proof.
  intros Hne Ht Hx Hy. destruct t as [|u t]; [congruence|].
  unfold not_blank_mark in Ht. cbn [forallb] in Ht.
  apply andb_prop in Ht as [Hu Ht]. apply andb_prop in Hu as [U1 U2].
  apply negb_true_iff in U1, U2.
  assert (Hty : contains (js "  \n") ((u :: t) ++ y) = false).
  { change (js "  \n") with (32%N :: js " \n"). rewrite contains_free; [exact Hy|].
    cbn [forallb]. rewrite char_eq_exact, N.eqb_sym, U1. cbn [negb andb].
    revert Ht. apply forallb_weaken. intros c Hc. rewrite char_eq_exact, N.eqb_sym.
    now apply andb_prop in Hc as [Hc _]. }
  cbn [app] in *. apply contains_blocked; [|exact Hx | exact Hty].
  change (js "  \n") with [32%N; 32%N; nl]. cbn [forallb].
  rewrite !char_eq_exact, !(N.eqb_sym _ u), U1, U2. reflexivity.
Qed.

Lemma hard_break_never s : contains (js "  \n") s = false -> never re_hard_break s.
Proof.
  intros H. apply (contains_never (js "  \n")); [|exact H].
  change (js "  \n") with [32%N; 32%N; nl]. discriminate.
Qed.

(** ** markdownToBgg where no fence starts *)

Lemma markdownToBgg_no_fence fuel t :
  t <> [] -> never (start rule_code_fence) t ->
  markdownToBgg fuel t = Some (md_passes t).
Proof.
  intros Hne H. destruct t as [|c t]; [congruence|].
  unfold markdownToBgg, protectSegments. cbn [protect_rules].
  rewrite protect_rule_none by (now apply exec_never).
  now rewrite restore_empty.
Qed.

(** ** Markdown marks between plain texts *)

Lemma absent_plain fl p c o xs rest :
  is_letter c = false -> p c = true -> free_of p xs = true ->
  absent fl (c :: o) xs rest.
Proof.
  intros Hl Hp H. apply absent_free. revert H. unfold free_of. apply forallb_weaken.
  intros u Hu. destruct (char_eq fl c u) eqn:E; [|reflexivity].
  apply char_eq_nonletter in E; [|exact Hl]. subst u. now rewrite Hp in Hu.
Qed.

Lemma no_cr_free s : free_of is_cr s = true -> no_cr s = true.
Proof. intros H. exact H. Qed.

Ltac skip_quote t :=
  rewrite (blockquote_plain t)
    by (first [ apply no_cr_free; try unfold t; free_tac
              | change (free_of is_gt t = true); try unfold t; free_tac ]).

Ltac skip_md t lem :=
  skip_pass t ltac:(eapply never_needs; [exact lem | try unfold t; free_tac]).

Ltac skip_break t :=
  skip_pass t ltac:(apply hard_break_never; try unfold t; rewrite <- ?app_assoc;
                    repeat (apply no_break_around; [discriminate | reflexivity | assumption |]);
                    assumption).

(** Name the text that the innermost pass is applied to. *)
Ltac md_text t :=
  match goal with
  | |- context [replace_all _ _ (?a ++ ?b)] => set (t := a ++ b)
  | |- context [blockquoteMarkdownToBgg (?a ++ ?b)] => set (t := a ++ b)
  end.

Ltac md_start :=
  rewrite markdownToBgg_no_fence;
  [ f_equal; unfold md_passes
  | let E := fresh in intros E; apply (f_equal (@List.length _)) in E;
    rewrite ?length_app in E; cbn [List.length] in E; lia
  | eapply never_needs; [exact fence_start_needs | free_tac] ].

Lemma md_bold fuel pre body post :
  free_of md_plain pre = true -> free_of md_plain body = true ->
  free_of md_plain post = true ->
  contains (js "  \n") pre = false -> contains (js "  \n") body = false ->
  contains (js "  \n") post = false ->
  markdownToBgg fuel (pre ++ js "**" ++ body ++ js "**" ++ post) =
  Some (pre ++ js "[b]" ++ body ++ js "[/b]" ++ post).
Proof.
  intros Hpre Hbody Hpost Bpre Bbody Bpost.
  assert (Ere : re_bold = pair_re no_flags (js "**") (js "**")) by reflexivity.
  revert Ere. eval_js. intros Ere.
  md_start.
  md_text t.
  skip_md t fence_pass_needs.
  skip_md t inline_code_needs.
  skip_quote t.
  skip_md t heading_needs.
  rewrite Ere. unfold t.
  rewrite pair_re_replace.
  2:{ discriminate. }
  2:{ apply (absent_plain _ md_plain); [reflexivity | reflexivity | exact Hpre]. }
  2:{ apply (absent_plain _ md_plain); [reflexivity | reflexivity | exact Hbody]. }
  2:{ rewrite <- Ere. eapply never_needs; [exact bold_needs | free_tac]. }
  cbv beta.
  change (group_str 1 (MatchResult (List.length pre) ([42; 42]%N ++ body ++ [42; 42]%N)
                         [(1, body)])) with body.
  eval_js. clear t. md_text t.
  skip_md t italic_star_needs.
  skip_md t italic_underscore_needs.
  skip_md t strike_needs.
  skip_md t link_needs.
  skip_md t image_needs.
  skip_md t ulist_needs.
  skip_md t olist_needs.
  skip_break t.
  skip_md t underline_needs.
  unfold t. rewrite <- !app_assoc. reflexivity.
Qed.

Lemma md_strike fuel pre body post :
  free_of md_plain pre = true -> free_of md_plain body = true ->
  free_of md_plain post = true ->
  contains (js "  \n") pre = false -> contains (js "  \n") body = false ->
  contains (js "  \n") post = false ->
  markdownToBgg fuel (pre ++ js "~~" ++ body ++ js "~~" ++ post) =
  Some (pre ++ js "[s]" ++ body ++ js "[/s]" ++ post).
Proof.
  intros Hpre Hbody Hpost Bpre Bbody Bpost.
  assert (Ere : re_strike = pair_re no_flags (js "~~") (js "~~")) by reflexivity.
  revert Ere. eval_js. intros Ere.
  md_start.
  md_text t.
  skip_md t fence_pass_needs.
  skip_md t inline_code_needs.
  skip_quote t.
  skip_md t heading_needs.
  skip_md t bold_needs.
  skip_md t italic_star_needs.
  skip_md t italic_underscore_needs.
  rewrite Ere. unfold t.
  rewrite pair_re_replace.
  2:{ discriminate. }
  2:{ apply (absent_plain _ md_plain); [reflexivity | reflexivity | exact Hpre]. }
  2:{ apply (absent_plain _ md_plain); [reflexivity | reflexivity | exact Hbody]. }
  2:{ rewrite <- Ere. eapply never_needs; [exact strike_needs | free_tac]. }
  cbv beta.
  change (group_str 1 (MatchResult (List.length pre) ([126; 126]%N ++ body ++ [126; 126]%N)
                         [(1, body)])) with body.
  eval_js. clear t. md_text t.
  skip_md t link_needs.
  skip_md t image_needs.
  skip_md t ulist_needs.
  skip_md t olist_needs.
  skip_break t.
  skip_md t underline_needs.
  unfold t. rewrite <- !app_assoc. reflexivity.
Qed.

(** ** Emphasis *)

Lemma m_NegLookbehindChr fl c k st :
  m fl (NegLookbehindChr c) k st =
  match before st with
  | b :: _ => if char_eq fl c b then None else k st
  | [] => k st
  end.
Proof. reflexivity. Qed.

Lemma m_NegLookahead fl r k st :
  m fl (NegLookahead r) k st =
  match m fl r (fun y => Some y) st with
  | Some _ => None
  | None => k st
  end.
Proof. reflexivity. Qed.

(** A captured body that starts with a character of a class and runs
    lazily up to the first place where the rest of the pattern matches. *)
Lemma m_group_head_lazy fl i neg items R (k : cont) bef c0 xs rest cs z :
  xorb neg (class_mem fl items c0) = true ->
  (forall pre c suf, xs = pre ++ c :: suf ->
     m fl R k (MState (rev pre ++ c0 :: bef) (c :: suf ++ rest) (set_cap i (c0 :: pre) cs))
     = None) ->
  m fl R k (MState (rev xs ++ c0 :: bef) rest (set_cap i (c0 :: xs) cs)) = Some z ->
  m fl (Seq (Group i (Seq (Class neg items) (lazy_star any))) R) k
    (MState bef (c0 :: xs ++ rest) cs) = Some z.
Proof.
  intros H0 Hfail Hk.
  rewrite m_Seq, m_Group, m_Seq. rewrite (char_atom_Class fl neg items).
  unfold match_char. cbn [after before caps]. rewrite H0.
  unfold lazy_star. rewrite m_Rep. change (groups any) with (@nil nat).
  cbn [after Nat.add].
  replace (S (List.length (xs ++ rest))) with (List.length xs + S (List.length rest))
    by (rewrite length_app; lia).
  rewrite (lazy_skip _ (fun _ => true)); [| apply char_atom_any | now apply forallb_forall |].
  - apply lazy_stop. cbn [after before caps].
    change (c0 :: xs ++ rest) with ((c0 :: xs) ++ rest). rewrite firstn_cut. exact Hk.
  - intros pre c suf E. cbn [after before caps].
    replace (c0 :: xs ++ rest) with ((c0 :: pre) ++ (c :: suf ++ rest))
      by (rewrite E; cbn [app]; now rewrite <- app_assoc).
    rewrite firstn_cut. now apply Hfail.
Qed.

Lemma italic_match_at d bef c0 xs post :
  starts_chr d bef = false ->
  is_space c0 = false -> (c0 =? d)%N = false ->
  free_of (fun c => (c =? d)%N) xs = true ->
  starts_chr d post = false ->
  match_at (re_italic d) bef (d :: c0 :: xs ++ d :: post) =
  Some (MatchResult (List.length bef) (d :: c0 :: xs ++ [d]) [(1, c0 :: xs)]).
Proof.
  intros Hbef Hs0 Hd0 Hxs Hpost.
  replace (d :: c0 :: xs ++ d :: post) with ((d :: c0 :: xs ++ [d]) ++ post)
    by (cbn [app]; now rewrite <- app_assoc).
  apply match_at_prefix. unfold re_italic, re, seqs. cbn [source reflags].
  rewrite m_Seq, m_NegLookbehindChr. cbn [before].
  destruct bef as [|b bef'].
  all: try (cbn [starts_chr] in Hbef; rewrite char_eq_exact, (N.eqb_sym d b), Hbef).
  all: rewrite m_Seq, m_Chr; unfold match_char; cbn [after before caps app];
       rewrite char_eq_exact, N.eqb_refl;
       rewrite <- app_assoc; cbn [app];
       apply m_group_head_lazy.
  all: try (cbn [xorb]; unfold class_mem, items_mem; cbn [icase no_flags existsb item_mem];
            rewrite Hs0, (N.eqb_sym d c0), Hd0; reflexivity).
  all: try (intros pre c suf E; rewrite m_Seq, m_Chr; unfold match_char; cbn [after];
            rewrite char_eq_exact;
            subst xs; unfold free_of in Hxs; rewrite forallb_app in Hxs;
            apply andb_prop in Hxs as [_ Hxs]; cbn [forallb] in Hxs;
            apply andb_prop in Hxs as [Hxs _]; apply negb_true_iff in Hxs;
            now rewrite N.eqb_sym, Hxs).
  all: rewrite m_Seq, m_Chr; unfold match_char; cbn [after before caps];
       rewrite char_eq_exact, N.eqb_refl;
       rewrite m_Seq, m_NegLookahead, m_Chr; unfold match_char; cbn [after];
       rewrite m_Empty.
  all: destruct post as [|c rest];
       [| cbn [starts_chr] in Hpost; rewrite char_eq_exact, (N.eqb_sym d c), Hpost ].
  all: cbn [rev app]; rewrite ?rev_app_distr; cbn [rev app]; rewrite <- ?app_assoc;
       cbn [app]; reflexivity.
Qed.

Lemma italic_opens d : opens_with no_flags [d] (re_italic d).
Proof.
  intros aft H bef. unfold match_at, re_italic, re, seqs. cbn [source reflags].
  assert (E : m no_flags
                (Seq (Chr d)
                   (Seq (Group 1 (Seq (Class true [ISpace; IChar d]) (lazy_star any)))
                      (Seq (Chr d) (Seq (NegLookahead (Chr d)) Empty))))
                (fun y => Some y) (MState bef aft []) = None).
  { rewrite m_Seq, m_Chr. unfold match_char. cbn [after].
    destruct aft as [|c aft]; [reflexivity|].
    cbn [prefix_eq] in H. rewrite andb_true_r in H. now rewrite H. }
  rewrite m_Seq, m_NegLookbehindChr. cbn [before].
  destruct bef as [|b bef']; [now rewrite E|].
  destruct (char_eq no_flags d b); [reflexivity | now rewrite E].
Qed.

Lemma starts_chr_free d s : free_of (fun c => (c =? d)%N) s = true -> starts_chr d s = false.
Proof.
  destruct s as [|c s]; [reflexivity|]. cbn [free_of forallb starts_chr].
  intros H. apply andb_prop in H as [H _]. now apply negb_true_iff.
Qed.

Lemma italic_replace d f pre c0 xs post :
  free_of (fun c => (c =? d)%N) pre = true ->
  is_space c0 = false -> (c0 =? d)%N = false ->
  free_of (fun c => (c =? d)%N) xs = true ->
  free_of (fun c => (c =? d)%N) post = true ->
  needs (fun c => (c =? d)%N) no_flags (source (re_italic d)) ->
  replace_all (re_italic d) f (pre ++ d :: c0 :: xs ++ d :: post) =
  pre ++ f (MatchResult (List.length pre) (d :: c0 :: xs ++ [d]) [(1, c0 :: xs)]) ++ post.
Proof.
  intros Hpre Hs0 Hd0 Hxs Hpost Hneeds.
  replace (pre ++ d :: c0 :: xs ++ d :: post) with (pre ++ (d :: c0 :: xs ++ [d]) ++ post)
    by (cbn [app]; now rewrite <- app_assoc).
  apply (replace_in_absent (re_italic d) f no_flags [d] pre (d :: c0 :: xs ++ [d]) post
           (MatchResult (List.length pre) (d :: c0 :: xs ++ [d]) [(1, c0 :: xs)])).
  - apply italic_opens.
  - apply absent_free. revert Hpre. unfold free_of. apply forallb_weaken.
    intros u Hu. now rewrite char_eq_exact, N.eqb_sym.
  - cbn [app]. rewrite <- app_assoc. cbn [app]. rewrite <- (length_rev pre).
    apply italic_match_at; try assumption.
    + apply starts_chr_free. unfold free_of. now rewrite forallb_rev_eq.
    + now apply starts_chr_free.
  - reflexivity.
  - discriminate.
  - now apply (never_needs (fun c => (c =? d)%N)).
Qed.

(** ** Emphasis between plain texts *)

Lemma free_head p c s : free_of p (c :: s) = true -> p c = false.
Proof.
  cbn [free_of forallb]. intros H. apply andb_prop in H as [H _].
  now apply negb_true_iff.
Qed.

Lemma free_tail p c s : free_of p (c :: s) = true -> free_of p s = true.
Proof. cbn [free_of forallb]. intros H. now apply andb_prop in H as [_ H]. Qed.

(** Two asterisks start nowhere in a text whose asterisks stand alone. *)
Lemma bold_never_single pre body post :
  free_of is_star pre = true -> free_of is_star body = true ->
  free_of is_star post = true -> body <> [] ->
  never re_bold (pre ++ 42%N :: body ++ 42%N :: post).
Proof.
  intros Hpre Hbody Hpost Hne.
  assert (Ho : opens_with no_flags [42; 42]%N re_bold) by apply opens_lit_re.
  destruct body as [|c0 xs]; [congruence|].
  pose proof (free_head _ _ _ Hbody) as H0. unfold is_star in H0.
  apply (never_opens_absent no_flags [42; 42]%N); [exact Ho | |].
  { apply (absent_plain _ is_star); [reflexivity | reflexivity | exact Hpre]. }
  split.
  { apply Ho. cbn [app prefix_eq]. rewrite !char_eq_exact. cbn [N.eqb Pos.eqb andb].
    change (ch "*") with 42%N in H0. now rewrite N.eqb_sym, H0. }
  apply (never_opens_absent no_flags [42; 42]%N re_bold (c0 :: xs)); [exact Ho | |].
  { apply (absent_plain _ is_star); [reflexivity | reflexivity | exact Hbody]. }
  split.
  { apply Ho. destruct post as [|c post]; [reflexivity|].
    pose proof (free_head _ _ _ Hpost) as H1. unfold is_star in H1.
    change (ch "*") with 42%N in H1.
    cbn [prefix_eq]. rewrite !char_eq_exact. cbn [N.eqb Pos.eqb andb].
    now rewrite N.eqb_sym, H1. }
  eapply never_needs; [exact bold_needs | exact Hpost].
Qed.

Lemma italic_replace_body d f pre body post :
  free_of (fun c => (c =? d)%N) pre = true ->
  body <> [] -> starts_space body = false ->
  free_of (fun c => (c =? d)%N) body = true ->
  free_of (fun c => (c =? d)%N) post = true ->
  needs (fun c => (c =? d)%N) no_flags (source (re_italic d)) ->
  replace_all (re_italic d) f (pre ++ d :: body ++ d :: post) =
  pre ++ f (MatchResult (List.length pre) (d :: body ++ [d]) [(1, body)]) ++ post.
Proof.
  intros Hpre Hne Hsp Hbody Hpost Hneeds.
  destruct body as [|c0 xs]; [congruence|]. cbn [starts_space] in Hsp.
  apply italic_replace; try assumption.
  - exact (free_head _ _ _ Hbody).
  - exact (free_tail _ _ _ Hbody).
Qed.

Ltac weaken_plain lem H :=
  apply (free_of_weaken md_plain _ _ lem); exact H.

Lemma md_italic_star fuel pre body post :
  free_of md_plain pre = true -> free_of md_plain body = true ->
  free_of md_plain post = true ->
  contains (js "  \n") pre = false -> contains (js "  \n") body = false ->
  contains (js "  \n") post = false ->
  body <> [] -> starts_space body = false ->
  markdownToBgg fuel (pre ++ js "*" ++ body ++ js "*" ++ post) =
  Some (pre ++ js "[i]" ++ body ++ js "[/i]" ++ post).
Proof.
  intros Hpre Hbody Hpost Bpre Bbody Bpost Hne Hsp.
  assert (Spre : free_of is_star pre = true) by weaken_plain star_plain Hpre.
  assert (Sbody : free_of is_star body = true) by weaken_plain star_plain Hbody.
  assert (Spost : free_of is_star post = true) by weaken_plain star_plain Hpost.
  eval_js. md_start. md_text t.
  skip_md t fence_pass_needs.
  skip_md t inline_code_needs.
  skip_quote t.
  skip_md t heading_needs.
  skip_pass t ltac:(unfold t; cbn [app]; now apply bold_never_single).
  unfold t. cbn [app].
  rewrite (italic_replace_body 42%N); try assumption.
  2:{ exact italic_star_needs. }
  cbv beta.
  change (group_str 1 (MatchResult (List.length pre) (42%N :: body ++ [42%N])
                         [(1, body)])) with body.
  eval_js. clear t. md_text t.
  skip_md t italic_underscore_needs.
  skip_md t strike_needs.
  skip_md t link_needs.
  skip_md t image_needs.
  skip_md t ulist_needs.
  skip_md t olist_needs.
  skip_break t.
  skip_md t underline_needs.
  unfold t. rewrite <- !app_assoc. reflexivity.
Qed.

Lemma md_italic_underscore fuel pre body post :
  free_of md_plain pre = true -> free_of md_plain body = true ->
  free_of md_plain post = true ->
  contains (js "  \n") pre = false -> contains (js "  \n") body = false ->
  contains (js "  \n") post = false ->
  body <> [] -> starts_space body = false ->
  markdownToBgg fuel (pre ++ js "_" ++ body ++ js "_" ++ post) =
  Some (pre ++ js "[i]" ++ body ++ js "[/i]" ++ post).
Proof.
  intros Hpre Hbody Hpost Bpre Bbody Bpost Hne Hsp.
  assert (Spre : free_of is_underscore pre = true) by weaken_plain underscore_plain Hpre.
  assert (Sbody : free_of is_underscore body = true) by weaken_plain underscore_plain Hbody.
  assert (Spost : free_of is_underscore post = true) by weaken_plain underscore_plain Hpost.
  eval_js. md_start. md_text t.
  skip_md t fence_pass_needs.
  skip_md t inline_code_needs.
  skip_quote t.
  skip_md t heading_needs.
  skip_md t bold_needs.
  skip_md t italic_star_needs.
  unfold t. cbn [app].
  rewrite (italic_replace_body 95%N); try assumption.
  2:{ exact italic_underscore_needs. }
  cbv beta.
  change (group_str 1 (MatchResult (List.length pre) (95%N :: body ++ [95%N])
                         [(1, body)])) with body.
  eval_js. clear t. md_text t.
  skip_md t strike_needs.
  skip_md t link_needs.
  skip_md t image_needs.
  skip_md t ulist_needs.
  skip_md t olist_needs.
  skip_break t.
  skip_md t underline_needs.
  unfold t. rewrite <- !app_assoc. reflexivity.
Qed.

(** ** Marks that stand alone *)

(** A pattern that opens with a doubled mark finds nothing in a text
    whose marks stand alone around a body. *)
Lemma never_doubled fl re c o' pre body post :
  opens_with fl (c :: c :: o') re -> is_letter c = false ->
  free_of (fun u => (u =? c)%N) pre = true ->
  free_of (fun u => (u =? c)%N) body = true ->
  free_of (fun u => (u =? c)%N) post = true ->
  body <> [] -> never re post ->
  never re (pre ++ c :: body ++ c :: post).
Proof.
  intros Ho Hl Hpre Hbody Hpost Hne Hnever.
  assert (Hc : (fun u => (u =? c)%N) c = true) by apply N.eqb_refl.
  assert (Hd : forall u rest, (u =? c)%N = false ->
                 prefix_eq fl (c :: c :: o') (c :: u :: rest) = false).
  { intros u rest Hu. cbn [prefix_eq].
    destruct (char_eq fl c u) eqn:E; [|now rewrite andb_false_r].
    apply char_eq_nonletter in E; [|exact Hl]. subst u. now rewrite N.eqb_refl in Hu. }
  destruct body as [|c0 xs]; [congruence|].
  apply (never_opens_absent fl (c :: c :: o')); [exact Ho | |].
  { now apply (absent_plain _ (fun u => (u =? c)%N)). }
  split.
  { apply Ho. cbn [app]. apply Hd. exact (free_head _ _ _ Hbody). }
  apply (never_opens_absent fl (c :: c :: o') re (c0 :: xs)); [exact Ho | |].
  { now apply (absent_plain _ (fun u => (u =? c)%N)). }
  split; [|exact Hnever].
  apply Ho. destruct post as [|u post].
  - cbn [prefix_eq]. now rewrite andb_false_r.
  - apply Hd. exact (free_head _ _ _ Hpost).
Qed.

(** ** Inline code *)

Lemma inline_code_match_at bef body post :
  body <> [] -> free_of is_backtick body = true -> has_newline body = false ->
  match_at re_inline_code bef (96%N :: body ++ 96%N :: post) =
  Some (MatchResult (List.length bef) (96%N :: body ++ [96%N]) [(1, body)]).
Proof.
  intros Hne Hb Hn.
  replace (96%N :: body ++ 96%N :: post) with ((96%N :: body ++ [96%N]) ++ post)
    by (cbn [app]; now rewrite <- app_assoc).
  apply match_at_prefix. unfold re_inline_code, re, seqs, lit. cbn [source reflags].
  change (js "`") with [96%N].
  apply m_lit_ok; [reflexivity|].
  cbn [List.length advance after before caps app]. rewrite <- app_assoc. cbn [app].
  unfold plus. apply m_group_greedy.
  - unfold free_of in Hb. unfold has_newline in Hn.
    assert (G : forall s, forallb (fun c => negb (is_backtick c)) s = true ->
                  existsb (fun c => (c =? nl)%N) s = false ->
                  forallb (fun c => xorb true
                             (class_mem no_flags [IChar (ch "`"); IChar nl] c)) s = true).
    { clear. induction s as [|c s IH]; [reflexivity|]. cbn [forallb existsb].
      intros H1 H2. apply andb_prop in H1 as [A B]. apply orb_false_elim in H2 as [C D].
      rewrite IH by assumption. unfold class_mem, items_mem. cbn [icase no_flags existsb item_mem].
      unfold is_backtick in A. apply negb_true_iff in A.
      rewrite (N.eqb_sym _ c), A, (N.eqb_sym nl c), C. reflexivity. }
    now apply G.
  - reflexivity.
  - destruct body; [congruence | cbn [List.length]; lia].
  - exact I.
  - apply m_lit_ok; [reflexivity|].
    cbn [List.length advance after before caps]. rewrite m_Empty.
    list_norm. reflexivity.
Qed.

Lemma inline_code_replace f pre body post :
  free_of is_backtick pre = true ->
  body <> [] -> free_of is_backtick body = true -> has_newline body = false ->
  free_of is_backtick post = true ->
  replace_all re_inline_code f (pre ++ 96%N :: body ++ 96%N :: post) =
  pre ++ f (MatchResult (List.length pre) (96%N :: body ++ [96%N]) [(1, body)]) ++ post.
Proof.
  intros Hpre Hne Hbody Hn Hpost.
  replace (pre ++ 96%N :: body ++ 96%N :: post) with (pre ++ (96%N :: body ++ [96%N]) ++ post)
    by (cbn [app]; now rewrite <- app_assoc).
  apply (replace_in_absent re_inline_code f no_flags [96%N] pre (96%N :: body ++ [96%N]) post
           (MatchResult (List.length pre) (96%N :: body ++ [96%N]) [(1, body)])).
  - apply opens_lit_re.
  - apply (absent_plain _ is_backtick); [reflexivity | reflexivity | exact Hpre].
  - cbn [app]. rewrite <- app_assoc. cbn [app]. rewrite <- (length_rev pre).
    now apply inline_code_match_at.
  - reflexivity.
  - discriminate.
  - eapply never_needs; [exact inline_code_needs | exact Hpost].
Qed.

Lemma md_inline_code fuel pre body post :
  free_of md_plain pre = true -> free_of md_plain body = true ->
  free_of md_plain post = true ->
  contains (js "  \n") pre = false -> contains (js "  \n") body = false ->
  contains (js "  \n") post = false ->
  body <> [] -> has_newline body = false ->
  markdownToBgg fuel (pre ++ js "`" ++ body ++ js "`" ++ post) =
  Some (pre ++ js "[tt]" ++ body ++ js "[/tt]" ++ post).
Proof.
  intros Hpre Hbody Hpost Bpre Bbody Bpost Hne Hnl.
  assert (Spre : free_of is_backtick pre = true) by weaken_plain backtick_plain Hpre.
  assert (Sbody : free_of is_backtick body = true) by weaken_plain backtick_plain Hbody.
  assert (Spost : free_of is_backtick post = true) by weaken_plain backtick_plain Hpost.
  eval_js. cbn [app].
  rewrite markdownToBgg_no_fence.
  2:{ destruct pre; discriminate. }
  2:{ apply (never_doubled no_flags _ 96%N [96%N]); try assumption; try reflexivity.
      - apply opens_lit_re.
      - eapply never_needs; [exact fence_start_needs | exact Spost]. }
  f_equal. unfold md_passes. md_text t.
  skip_pass t ltac:(unfold t;
    apply (never_doubled flag_i _ 96%N [96%N]); try assumption; try reflexivity;
    [ apply opens_lit_re | eapply never_needs; [exact fence_pass_needs | exact Spost] ]).
  unfold t.
  rewrite inline_code_replace by assumption.
  cbv beta.
  change (group_str 1 (MatchResult (List.length pre) (96%N :: body ++ [96%N])
                         [(1, body)])) with body.
  eval_js. clear t. md_text t.
  skip_quote t.
  skip_md t heading_needs.
  skip_md t bold_needs.
  skip_md t italic_star_needs.
  skip_md t italic_underscore_needs.
  skip_md t strike_needs.
  skip_md t link_needs.
  skip_md t image_needs.
  skip_md t ulist_needs.
  skip_md t olist_needs.
  skip_break t.
  skip_md t underline_needs.
  unfold t. rewrite <- !app_assoc. reflexivity.
Qed.

(** ** Lines that do not open a quote *)

Lemma blockquote_no_marker s :
  no_cr s = true -> Forall (fun l => starts_quote l = false) (lines s) ->
  blockquoteMarkdownToBgg s = s.
Proof.
  intros Hcr H. unfold blockquoteMarkdownToBgg. cbv zeta.
  rewrite split_lines by exact Hcr.
  rewrite quote_steps_plain.
  - cbn [flush fst app]. apply join_lines.
  - revert H. apply Forall_impl. intros l Hl. now rewrite test_quote_marker.
Qed.

Lemma starts_quote_app a c s :
  starts_quote (a ++ c :: s) = false -> (c =? nl)%N = true -> starts_quote a = false.
Proof.
  destruct a as [|x a]; [reflexivity|]. cbn [app starts_quote]. now intros H _.
Qed.

(** No line starts with a greater-than sign when the text does not and
    none follows a newline. *)
Lemma lines_acc_not_quoted s : forall acc,
  starts_quote (rev acc ++ s) = false ->
  contains [nl; ch ">"] s = false ->
  Forall (fun l => starts_quote l = false) (lines_acc acc s).
Proof.
  induction s as [|c s IH]; intros acc H0 Hc; cbn [lines_acc].
  - rewrite app_nil_r in H0. now repeat constructor.
  - rewrite contains_cons in Hc. apply orb_false_elim in Hc as [Hp Hc].
    destruct (c =? nl)%N eqn:E.
    + constructor; [now apply (starts_quote_app _ c s)|].
      apply IH; [|exact Hc]. cbn [rev app].
      apply N.eqb_eq in E. subst c. cbn [prefix_eq] in Hp.
      rewrite char_eq_exact, N.eqb_refl in Hp. cbn [andb] in Hp.
      destruct s as [|x s]; [reflexivity|]. cbn [prefix_eq] in Hp.
      rewrite andb_true_r, char_eq_exact, N.eqb_sym in Hp. exact Hp.
    + apply IH; [|exact Hc]. cbn [rev]. now rewrite <- app_assoc.
Qed.

Lemma lines_not_quoted s :
  starts_quote s = false -> contains [nl; ch ">"] s = false ->
  Forall (fun l => starts_quote l = false) (lines s).
Proof. intros H0 Hc. now apply lines_acc_not_quoted. Qed.

Lemma contains_around o t x y :
  mark_ok o t = true ->
  contains o x = false -> contains o y = false ->
  contains o (x ++ t ++ y) = false.
Proof.
  intros Hm Hx Hy. destruct o as [|c o]; [discriminate|].
  destruct t as [|u t]; [discriminate|]. cbn [mark_ok] in Hm.
  apply andb_prop in Hm as [H1 H2].
  assert (Hty : contains (c :: o) ((u :: t) ++ y) = false)
    by (now rewrite contains_free).
  cbn [app] in *. now apply contains_blocked.
Qed.

Lemma contains_needs c o s :
  free_of (fun u => (u =? c)%N) s = true -> In c o -> o <> [] ->
  contains o s = false.
Proof.
  intros H Hin Hne.
  assert (G : forall o s, In c o -> free_of (fun u => (u =? c)%N) s = true ->
                prefix_eq no_flags o s = false).
  { clear. induction o as [|a o IH]; intros s Hin H; [destruct Hin|].
    destruct s as [|x s]; [reflexivity|]. cbn [prefix_eq].
    pose proof (free_head _ _ _ H) as Hx. cbv beta in Hx.
    destruct Hin as [->|Hin].
    - now rewrite char_eq_exact, N.eqb_sym, Hx.
    - rewrite (IH s Hin (free_tail _ _ _ H)). apply andb_false_r. }
  induction s as [|x s IH].
  - cbn [contains]. rewrite (G o [] Hin H). reflexivity.
  - rewrite contains_cons, (G o (x :: s) Hin H).
    apply IH. exact (free_tail _ _ _ H).
Qed.

(** ** Underline *)

Lemma md_underline fuel pre body post :
  free_of md_plain pre = true -> free_of md_plain body = true ->
  free_of md_plain post = true ->
  contains (js "  \n") pre = false -> contains (js "  \n") body = false ->
  contains (js "  \n") post = false ->
  markdownToBgg fuel (pre ++ js "<u>" ++ body ++ js "</u>" ++ post) =
  Some (pre ++ js "[u]" ++ body ++ js "[/u]" ++ post).
Proof.
  intros Hpre Hbody Hpost Bpre Bbody Bpost.
  assert (Ere : re_underline = pair_re flag_i (js "<u>") (js "</u>")) by reflexivity.
  revert Ere. eval_js. intros Ere.
  assert (Gpre : free_of is_gt pre = true) by weaken_plain gt_plain Hpre.
  assert (Gbody : free_of is_gt body = true) by weaken_plain gt_plain Hbody.
  assert (Gpost : free_of is_gt post = true) by weaken_plain gt_plain Hpost.
  md_start. md_text t.
  skip_md t fence_pass_needs.
  skip_md t inline_code_needs.
  rewrite (blockquote_no_marker t).
  2:{ apply no_cr_free. unfold t. free_tac. }
  2:{ apply lines_not_quoted; unfold t.
      - destruct pre as [|c pre]; [reflexivity|]. exact (free_head _ _ _ Gpre).
      - apply contains_around; [reflexivity | | apply contains_around; [reflexivity | |] ];
          apply (contains_needs (ch ">")); solve [assumption | now right; left | discriminate]. }
  skip_md t heading_needs.
  skip_md t bold_needs.
  skip_md t italic_star_needs.
  skip_md t italic_underscore_needs.
  skip_md t strike_needs.
  skip_md t link_needs.
  skip_md t image_needs.
  skip_md t ulist_needs.
  skip_md t olist_needs.
  skip_break t.
  rewrite Ere. unfold t.
  rewrite pair_re_replace.
  2:{ discriminate. }
  2:{ apply (absent_plain _ md_plain); [reflexivity | reflexivity | exact Hpre]. }
  2:{ apply (absent_plain _ md_plain); [reflexivity | reflexivity | exact Hbody]. }
  2:{ rewrite <- Ere. eapply never_needs; [exact underline_needs | free_tac]. }
  cbv beta.
  change (group_str 1 (MatchResult (List.length pre)
                         ([60; 117; 62]%N ++ body ++ [60; 47; 117; 62]%N)
                         [(1, body)])) with body.
  eval_js. rewrite <- !app_assoc. reflexivity.
Qed.

(** ** There and back *)

Lemma md_plain_no_lb s : free_of md_plain s = true -> no_lb s = true.
Proof. apply (free_of_weaken md_plain (fun c => (c =? lb)%N)). exact lb_plain. Qed.

(** ** A hard break between plain texts *)

Lemma absent_break pre post :
  contains (js "  \n") pre = false ->
  absent no_flags (js "  \n") pre (js "  \n" ++ post).
Proof.
  change (js "  \n") with [32%N; 32%N; nl].
  induction pre as [|c pre IH]; intros H; [apply absent_nil|].
  rewrite contains_cons in H. apply orb_false_elim in H as [Hp Hc].
  apply absent_cons; [|now apply IH].
  destruct pre as [|d pre].
  - cbn [app prefix_eq]. rewrite !char_eq_exact.
    change (nl =? 32)%N with false. now rewrite !andb_false_r.
  - destruct pre as [|e pre].
    + cbn [app prefix_eq]. rewrite !char_eq_exact.
      change (nl =? 32)%N with false. now rewrite !andb_false_r.
    + change (c :: (d :: e :: pre) ++ [32%N; 32%N; nl] ++ post)
        with ((c :: d :: e :: pre) ++ [32%N; 32%N; nl] ++ post).
      rewrite prefix_eq_app_long by (cbn [List.length]; lia). exact Hp.
Qed.

Lemma hard_break_match_at bef post :
  match_at re_hard_break bef (js "  \n" ++ post) =
  Some (MatchResult (List.length bef) (js "  \n") []).
Proof.
  apply match_at_prefix. unfold re_hard_break, re, lit. cbn [source reflags].
  rewrite m_lit_chars. cbn [after]. rewrite prefix_eq_app_refl.
  now rewrite advance_app.
Qed.

Lemma md_hard_break fuel pre post :
  free_of md_plain pre = true -> free_of md_plain post = true ->
  contains (js "  \n") pre = false -> contains (js "  \n") post = false ->
  markdownToBgg fuel (pre ++ js "  \n" ++ post) = Some (pre ++ js "[br]\n" ++ post).
Proof.
  intros Hpre Hpost Bpre Bpost.
  pose proof (absent_break pre post Bpre) as Habs.
  pose proof (hard_break_match_at (rev pre) post) as Hm.
  pose proof (hard_break_never post Bpost) as Hn.
  revert Habs Hm. eval_js. intros Habs Hm.
  md_start. md_text t.
  skip_md t fence_pass_needs.
  skip_md t inline_code_needs.
  skip_quote t.
  skip_md t heading_needs.
  skip_md t bold_needs.
  skip_md t italic_star_needs.
  skip_md t italic_underscore_needs.
  skip_md t strike_needs.
  skip_md t link_needs.
  skip_md t image_needs.
  skip_md t ulist_needs.
  skip_md t olist_needs.
  unfold t.
  rewrite (replace_in_absent re_hard_break _ no_flags [32%N; 32%N; nl] pre [32%N; 32%N; nl] post
             (MatchResult (List.length pre) [32%N; 32%N; nl] [])).
  2:{ apply opens_lit. }
  2:{ exact Habs. }
  2:{ rewrite <- (length_rev pre). exact Hm. }
  2:{ reflexivity. }
  2:{ discriminate. }
  2:{ exact Hn. }
  cbv beta. eval_js. md_text t2.
  skip_md t2 underline_needs.
  reflexivity.
Qed.

(** ** Links *)

Lemma not_class_free (d : char) s :
  free_of (fun c => (c =? d)%N) s = true ->
  forallb (fun c => xorb true (class_mem no_flags [IChar d] c)) s = true.
Proof.
  unfold free_of. apply forallb_weaken. intros c Hc.
  unfold class_mem, items_mem. cbn [icase no_flags existsb item_mem].
  rewrite orb_false_r, N.eqb_sym. apply negb_true_iff in Hc. now rewrite Hc.
Qed.

Lemma http_url_match i R (k : cont) bef secure rest more cs z :
  rest <> [] -> free_of is_rparen rest = true ->
  m no_flags R k (MState (rev (http_href secure rest) ++ bef) (ch ")" :: more)
                   (set_cap i (http_href secure rest) cs)) = Some z ->
  m no_flags (Seq (http_url i) R) k
    (MState bef (http_href secure rest ++ ch ")" :: more) cs) = Some z.
Proof.
  intros Hne Hrest Hk.
  rewrite m_Seq. unfold http_url. rewrite m_Group. unfold seqs, lit.
  set (K := fun y : mstate => m no_flags R k _).
  assert (HK : K (MState (rev (http_href secure rest) ++ bef) (ch ")" :: more) cs) = Some z).
  { unfold K. cbn [after before caps]. rewrite firstn_cut. exact Hk. }
  clearbody K. unfold http_href in *. rewrite <- !app_assoc.
  apply m_lit_ok; [apply prefix_eq_app_refl|]. rewrite advance_app.
  assert (Htail : m no_flags (Seq (lit_chars (js "://"))
                                (Seq (plus (Class true [IChar (ch ")")])) Empty)) K
                    (MState ((if secure then js "s" else []) ++ rev (js "http") ++ bef)
                       (js "://" ++ rest ++ ch ")" :: more) cs) = Some z).
  { apply m_lit_ok; [apply prefix_eq_app_refl|]. rewrite advance_app.
    unfold plus. apply m_greedy.
    - now apply not_class_free.
    - reflexivity.
    - destruct rest; [congruence | cbn [List.length]; lia].
    - exact I.
    - rewrite m_Empty. rewrite <- HK. f_equal. f_equal.
      destruct secure; list_norm; reflexivity. }
  destruct secure.
  - change (js "s" ++ js "://" ++ rest ++ ch ")" :: more)
      with (ch "s" :: js "://" ++ rest ++ ch ")" :: more).
    rewrite m_opt_chr. rewrite char_eq_exact, N.eqb_refl. cbv iota.
    match goal with
    | |- match ?X with _ => _ end = _ =>
        assert (E : X = Some z) by exact Htail; rewrite E; reflexivity
    end.
  - change ([] ++ js "://" ++ rest ++ ch ")" :: more)
      with (ch ":" :: js "//" ++ rest ++ ch ")" :: more).
    rewrite m_opt_chr. change (char_eq no_flags (ch "s") (ch ":")) with false. cbv iota.
    exact Htail.
Qed.

Lemma link_match_at bef text secure rest post :
  text <> [] -> free_of (fun c => (c =? rb)%N) text = true ->
  rest <> [] -> free_of is_rparen rest = true ->
  match_at re_link bef
    (lb :: text ++ js "](" ++ http_href secure rest ++ ch ")" :: post) =
  Some (MatchResult (List.length bef)
          (lb :: text ++ js "](" ++ http_href secure rest ++ [ch ")"])
          [(2, http_href secure rest); (1, text)]).
Proof.
  intros Ht Htext Hr Hrest.
  replace (lb :: text ++ js "](" ++ http_href secure rest ++ ch ")" :: post)
    with ((lb :: text ++ js "](" ++ http_href secure rest ++ [ch ")"]) ++ post)
    by (cbn [app]; rewrite <- !app_assoc; reflexivity).
  apply match_at_prefix. unfold re_link, re, seqs, lit. cbn [source reflags].
  change (js "[") with [lb]. cbn [app]. rewrite <- !app_assoc.
  apply m_lit_ok; [cbn [after prefix_eq]; rewrite char_eq_exact, N.eqb_refl; reflexivity|].
  cbn [List.length advance after before caps].
  unfold plus, not_rbracket. apply m_group_greedy.
  - now apply not_class_free.
  - reflexivity.
  - destruct text; [congruence | cbn [List.length]; lia].
  - exact I.
  - apply m_lit_ok; [apply prefix_eq_app_refl|]. rewrite advance_app.
    cbn [app]. apply http_url_match; [exact Hr | exact Hrest |].
    change (ch ")" :: post) with (js ")" ++ post).
    apply m_lit_ok; [apply prefix_eq_app_refl|]. rewrite advance_app.
    rewrite m_Empty. list_norm. reflexivity.
Qed.

(** ** Hard breaks in a text written out character by character *)

Lemma break_cons u y :
  nonblank u = true -> contains (js "  \n") (u :: y) = contains (js "  \n") y.
Proof.
  intros Hu. apply andb_prop in Hu as [U1 _]. apply negb_true_iff in U1.
  change (js "  \n") with [32%N; 32%N; nl].
  rewrite contains_cons. cbn [prefix_eq]. now rewrite char_eq_exact, N.eqb_sym, U1.
Qed.

Lemma break_app x u y :
  nonblank u = true ->
  contains (js "  \n") x = false -> contains (js "  \n") (u :: y) = false ->
  contains (js "  \n") (x ++ u :: y) = false.
Proof.
  intros Hu Hx Hy. apply andb_prop in Hu as [U1 U2]. apply negb_true_iff in U1, U2.
  apply contains_blocked; [|exact Hx | exact Hy].
  change (js "  \n") with [32%N; 32%N; nl]. cbn [forallb].
  rewrite !char_eq_exact, !(N.eqb_sym _ u), U1, U2. reflexivity.
Qed.

Ltac no_break :=
  repeat first [ assumption
               | rewrite break_cons by reflexivity
               | apply break_app; [reflexivity | assumption |] ].

Ltac skip_break_chars t :=
  skip_pass t ltac:(apply hard_break_never; try unfold t; no_break).

(** ** An address that is not one of the site *)

Lemma absent_occ_nil fl o s : occ fl o s = 0 -> absent fl o s [].
Proof.
  intros H. induction s as [|x s IH]; [apply absent_nil|].
  rewrite occ_cons in H.
  destruct (prefix_eq fl o (x :: s)) eqn:E; [discriminate H|].
  apply absent_cons; [now rewrite app_nil_r | now apply IH].
Qed.

Lemma prefix_eq_app_left fl a b : forall s,
  prefix_eq fl a s = false -> prefix_eq fl (a ++ b) s = false.
Proof.
  induction a as [|c a IH]; intros s H; [discriminate|].
  destruct s as [|x s]; [reflexivity|]. cbn [app prefix_eq] in *.
  destruct (char_eq fl c x); [|reflexivity]. cbn [andb] in *. now apply IH.
Qed.

Lemma never_without fl o re s :
  opens_with fl o re -> o <> [] -> occ fl o s = 0 -> never re s.
Proof.
  intros Ho Hne H. rewrite <- (app_nil_r s).
  apply (never_opens_absent fl o); [exact Ho | now apply absent_occ_nil |].
  split; [|exact I]. apply Ho. destruct o; [congruence | reflexivity].
Qed.

Lemma thing_url_none href :
  occ flag_i (js "boardgamegeek.com/") href = 0 -> exec re_thing_url href = None.
Proof.
  intros H. apply exec_never.
  apply (never_without flag_i (js "boardgamegeek.com/")); [| discriminate | exact H].
  apply opens_lit_re.
Qed.

Lemma user_url_none href :
  occ flag_i (js "boardgamegeek.com/") href = 0 -> exec re_user_url href = None.
Proof.
  intros H. apply exec_never.
  apply (never_without flag_i (js "boardgamegeek.com/")); [| discriminate | exact H].
  intros aft Ha.
  apply (opens_lit_re flag_i (js "boardgamegeek.com/user/")).
  revert Ha. eval_js. intros Ha.
  exact (prefix_eq_app_left flag_i _ [117; 115; 101; 114; 47]%N aft Ha).
Qed.

Lemma link_callback_url n x href text :
  occ flag_i (js "boardgamegeek.com/") href = 0 ->
  link_callback (MatchResult n x [(2, href); (1, text)]) =
  js "[url=" ++ href ++ js "]" ++ text ++ js "[/url]".
Proof.
  intros H. unfold link_callback. cbv zeta.
  change (group_str 2 (MatchResult n x [(2, href); (1, text)])) with href.
  change (group_str 1 (MatchResult n x [(2, href); (1, text)])) with text.
  now rewrite thing_url_none, user_url_none.
Qed.

Lemma link_replace pre text secure rest post :
  free_of (fun c => (c =? lb)%N) pre = true ->
  text <> [] -> free_of (fun c => (c =? rb)%N) text = true ->
  rest <> [] -> free_of is_rparen rest = true ->
  free_of is_lparen post = true ->
  occ flag_i (js "boardgamegeek.com/") (http_href secure rest) = 0 ->
  replace_all re_link link_callback
    (pre ++ lb :: text ++ js "](" ++ http_href secure rest ++ ch ")" :: post) =
  pre ++ (js "[url=" ++ http_href secure rest ++ js "]" ++ text ++ js "[/url]") ++ post.
Proof.
  intros Hpre Ht Htext Hr Hrest Hpost Hocc.
  rewrite <- (link_callback_url (List.length pre)
                (lb :: text ++ js "](" ++ http_href secure rest ++ [ch ")"])
                (http_href secure rest) text Hocc).
  replace (pre ++ lb :: text ++ js "](" ++ http_href secure rest ++ ch ")" :: post)
    with (pre ++ (lb :: text ++ js "](" ++ http_href secure rest ++ [ch ")"]) ++ post)
    by (cbn [app]; rewrite <- !app_assoc; reflexivity).
  apply (replace_in_absent re_link link_callback no_flags [lb] pre).
  - apply opens_lit_re.
  - apply absent_free. revert Hpre. unfold free_of. apply forallb_weaken.
    intros u Hu. now rewrite char_eq_exact, N.eqb_sym.
  - cbn [app]. rewrite <- !app_assoc. cbn [app]. rewrite <- (length_rev pre).
    now apply link_match_at.
  - reflexivity.
  - discriminate.
  - eapply never_needs; [exact link_needs | exact Hpost].
Qed.

(** ** A link between plain texts *)

Lemma md_link_url fuel pre text secure rest post :
  free_of md_plain pre = true -> free_of md_plain text = true ->
  free_of md_plain rest = true -> free_of md_plain post = true ->
  contains (js "  \n") pre = false -> contains (js "  \n") text = false ->
  contains (js "  \n") rest = false -> contains (js "  \n") post = false ->
  text <> [] -> free_of (fun c => (c =? rb)%N) text = true ->
  rest <> [] -> free_of is_rparen rest = true ->
  occ flag_i (js "boardgamegeek.com/") (http_href secure rest) = 0 ->
  markdownToBgg fuel
    (pre ++ js "[" ++ text ++ js "](" ++ http_href secure rest ++ js ")" ++ post) =
  Some (pre ++ js "[url=" ++ http_href secure rest ++ js "]" ++ text ++ js "[/url]" ++ post).
Proof.
  intros Hpre Htext Hrest Hpost Bpre Btext Brest Bpost Nt Rt Nr Rr Hocc.
  assert (Lpre : free_of (fun c => (c =? lb)%N) pre = true) by weaken_plain lb_plain Hpre.
  assert (Ppost : free_of is_lparen post = true) by weaken_plain lparen_plain Hpost.
  pose proof (link_replace pre text secure rest post Lpre Nt Rt Nr Rr Ppost Hocc) as Hrep.
  clear Hocc.
  destruct secure; unfold http_href in *; revert Hrep;
    change lb with 91%N; change (ch ")") with 41%N;
    eval_js; rewrite <- ?app_assoc; cbn [app]; intros Hrep.
  - md_start. md_text t.
    skip_md t fence_pass_needs.
    skip_md t inline_code_needs.
    skip_quote t.
    skip_md t heading_needs.
    skip_md t bold_needs.
    skip_md t italic_star_needs.
    skip_md t italic_underscore_needs.
    skip_md t strike_needs.
    unfold t. rewrite Hrep. clear t. md_text t.
    skip_md t image_needs.
    skip_md t ulist_needs.
    skip_md t olist_needs.
    skip_break_chars t.
    skip_md t underline_needs.
    reflexivity.
  - md_start. md_text t.
    skip_md t fence_pass_needs.
    skip_md t inline_code_needs.
    skip_quote t.
    skip_md t heading_needs.
    skip_md t bold_needs.
    skip_md t italic_star_needs.
    skip_md t italic_underscore_needs.
    skip_md t strike_needs.
    unfold t. rewrite Hrep. clear t. md_text t.
    skip_md t image_needs.
    skip_md t ulist_needs.
    skip_md t olist_needs.
    skip_break_chars t.
    skip_md t underline_needs.
    reflexivity.
Qed.

(** ** Headings *)

(** A captured greedy run of a one-character atom. *)
Lemma m_group_run fl i r p mn mx R (k : cont) bef xs rest cs z :
  char_atom (m fl r) p -> groups r = [] ->
  forallb p xs = true ->
  match rest with [] => true | c :: _ => negb (p c) end = true ->
  mn <= List.length xs ->
  match mx with None => True | Some n => List.length xs <= n end ->
  m fl R k (MState (rev xs ++ bef) rest (set_cap i xs cs)) = Some z ->
  m fl (Seq (Group i (Rep r mn mx true)) R) k (MState bef (xs ++ rest) cs) = Some z.
Proof.
  intros Hr Hg Hxs Hrest Hmn Hmx Hk.
  rewrite m_Seq, m_Group, m_Rep, Hg. cbn [after].
  eapply greedy_run with (p := p); auto.
  - rewrite length_app. lia.
  - cbn [after before caps]. rewrite firstn_app_exact. exact Hk.
Qed.

Lemma hashes_all d : forallb (char_eq flag_m (ch "#")) (hashes_of_depth d) = true.
Proof.
  unfold hashes_of_depth. induction d as [|d IH]; [reflexivity|].
  cbn [repeat forallb]. now rewrite IH.
Qed.

Lemma hashes_length d : List.length (hashes_of_depth d) = d.
Proof. apply repeat_length. Qed.

Lemma heading_match_at pre d title post :
  at_line_start pre = true -> 1 <= d <= 6 ->
  title <> [] -> trim title = title -> single_line title = true ->
  starts_nl post = true \/ post = [] ->
  match_at re_heading (rev pre) (hashes_of_depth d ++ js " " ++ title ++ post) =
  Some (MatchResult (List.length (rev pre)) (hashes_of_depth d ++ js " " ++ title)
          [(2, title); (1, hashes_of_depth d)]).
Proof.
  intros Hpre Hd Hne Htrim Hline Hpost.
  destruct (trimStart_head title (proj1 (trim_fixed _ Htrim)) Hne) as (c0 & tl & Et & Hc0).
  replace (hashes_of_depth d ++ js " " ++ title ++ post)
    with ((hashes_of_depth d ++ js " " ++ title) ++ post)
    by (now rewrite <- !app_assoc).
  apply match_at_prefix. unfold re_heading, re_m, seqs. cbn [source reflags].
  rewrite m_Seq, m_Bol.
  assert (Hb : at_bol flag_m (MState (rev pre) ((hashes_of_depth d ++ js " " ++ title) ++ post) [])
               = true).
  { unfold at_bol, at_line_start in *. cbn [before].
    destruct (rev pre) as [|b bef']; [reflexivity|].
    apply N.eqb_eq in Hpre. subst b. reflexivity. }
  rewrite Hb. rewrite <- !app_assoc.
  apply (m_group_run flag_m 1 (Chr (ch "#")) (char_eq flag_m (ch "#"))).
  - apply char_atom_Chr.
  - reflexivity.
  - apply hashes_all.
  - reflexivity.
  - rewrite hashes_length. lia.
  - rewrite hashes_length. lia.
  - unfold plus, space. apply m_greedy.
    + reflexivity.
    + rewrite Et. cbn [app xorb]. rewrite class_space, Hc0. reflexivity.
    + change (List.length (js " ")) with 1. lia.
    + exact I.
    + apply (m_group_run flag_m 2 Dot (fun c => negb (is_line_terminator c))).
      * apply char_atom_Dot.
      * reflexivity.
      * exact Hline.
      * destruct Hpost as [Hp | ->]; [|reflexivity].
        destruct post as [|c post]; [discriminate Hp|]. cbn [starts_nl] in Hp.
        apply N.eqb_eq in Hp. subst c. reflexivity.
      * destruct title; [congruence | cbn [List.length]; lia].
      * exact I.
      * rewrite m_Seq, m_Eol, m_Empty.
        assert (He : at_eol flag_m
                       (MState (rev title ++ rev (js " ") ++ rev (hashes_of_depth d) ++ rev pre)
                          post
                          (set_cap 2 title (set_cap 1 (hashes_of_depth d) []))) = true).
        { unfold at_eol. cbn [after].
          destruct Hpost as [Hp | ->]; [|reflexivity].
          destruct post as [|c post]; [discriminate Hp|]. cbn [starts_nl] in Hp.
          apply N.eqb_eq in Hp. subst c. reflexivity. }
        rewrite He. list_norm. reflexivity.
Qed.

Lemma heading_opens : opens_with flag_m [ch "#"] re_heading.
Proof.
  intros aft H bef. unfold match_at, re_heading, re_m, seqs. cbn [source reflags].
  assert (E : m flag_m
                (Seq (Group 1 (Rep (Chr (ch "#")) 1 (Some 6) true))
                   (Seq (plus space) (Seq (Group 2 (plus Dot)) (Seq Eol Empty))))
                (fun y => Some y) (MState bef aft []) = None).
  { rewrite m_Seq, m_Group, m_Rep. cbn [groups Nat.add after repeat_matcher Nat.eqb negb].
    rewrite m_Chr. unfold match_char. cbn [after].
    destruct aft as [|c aft]; [reflexivity|].
    cbn [prefix_eq] in H. rewrite andb_true_r in H. now rewrite H. }
  rewrite m_Seq, m_Bol. destruct (at_bol flag_m _); [now rewrite E | reflexivity].
Qed.

(** ** A heading line between plain lines *)

Lemma olist_dot_needs : needs is_dot no_flags (source re_olist).
Proof. needs_of re_olist. Qed.

Lemma single_line_no_break s : single_line s = true -> contains (js "  \n") s = false.
Proof.
  intros H. apply (contains_needs nl).
  - revert H. unfold single_line, free_of. apply forallb_weaken.
    intros c Hc. unfold is_line_terminator in Hc.
    destruct (c =? nl)%N eqn:E; [|reflexivity].
    apply N.eqb_eq in E. subst c. discriminate Hc.
  - right. right. left. reflexivity.
  - discriminate.
Qed.

Lemma hashes_not_nil d : 1 <= d -> hashes_of_depth d <> [].
Proof. destruct d; [lia | discriminate]. Qed.

Lemma heading_pass pre d title post :
  at_line_start pre = true -> 1 <= d <= 6 ->
  title <> [] -> trim title = title -> single_line title = true ->
  starts_nl post = true \/ post = [] ->
  free_of is_hash pre = true -> free_of is_hash post = true ->
  replace_all re_heading
    (fun r => js "[size=" ++ number_to_str (headingToSize (group_str 1 r)) ++ js "]"
              ++ trim (group_str 2 r) ++ js "[/size]")
    (pre ++ hashes_of_depth d ++ js " " ++ title ++ post) =
  pre ++ (js "[size=" ++ number_to_str (headingToSize (hashes_of_depth d)) ++ js "]"
          ++ title ++ js "[/size]") ++ post.
Proof.
  intros Hpre Hd Hne Htrim Hline Hpost Fpre Fpost.
  replace (pre ++ hashes_of_depth d ++ js " " ++ title ++ post)
    with (pre ++ (hashes_of_depth d ++ js " " ++ title) ++ post)
    by (now rewrite <- !app_assoc).
  rewrite (replace_in_absent re_heading _ flag_m [ch "#"] pre
             (hashes_of_depth d ++ js " " ++ title) post
             (MatchResult (List.length pre) (hashes_of_depth d ++ js " " ++ title)
                [(2, title); (1, hashes_of_depth d)])).
  - cbv beta.
    change (group_str 1 (MatchResult (List.length pre) (hashes_of_depth d ++ js " " ++ title)
                           [(2, title); (1, hashes_of_depth d)])) with (hashes_of_depth d).
    change (group_str 2 (MatchResult (List.length pre) (hashes_of_depth d ++ js " " ++ title)
                           [(2, title); (1, hashes_of_depth d)])) with title.
    now rewrite Htrim.
  - apply heading_opens.
  - apply (absent_plain _ is_hash); [reflexivity | reflexivity | exact Fpre].
  - rewrite <- !app_assoc, <- (length_rev pre). now apply heading_match_at.
  - reflexivity.
  - intros E. apply app_eq_nil in E as [E _]. now apply (hashes_not_nil d) in E.
  - eapply never_needs; [exact heading_needs | exact Fpost].
Qed.

Ltac free_given :=
  repeat (rewrite free_of_app || rewrite free_of_cons);
  repeat (apply andb_true_intro; split);
  first [ reflexivity | assumption ].

Lemma md_heading fuel pre d title post :
  1 <= d <= 6 ->
  at_line_start pre = true -> starts_nl post = true \/ post = [] ->
  free_of md_plain pre = true -> free_of md_plain title = true ->
  free_of md_plain post = true ->
  free_of is_dot pre = true -> free_of is_dot title = true -> free_of is_dot post = true ->
  contains (js "  \n") pre = false -> contains (js "  \n") post = false ->
  title <> [] -> trim title = title -> single_line title = true ->
  markdownToBgg fuel (pre ++ hashes_of_depth d ++ js " " ++ title ++ post) =
  Some (pre ++ js "[size=" ++ number_to_str (headingToSize (hashes_of_depth d)) ++ js "]"
        ++ title ++ js "[/size]" ++ post).
Proof.
  intros Hd Lpre Lpost Hpre Htitle Hpost Dpre Dtitle Dpost Bpre Bpost Hne Htrim Hline.
  assert (Fpre : free_of is_hash pre = true) by weaken_plain hash_plain Hpre.
  assert (Fpost : free_of is_hash post = true) by weaken_plain hash_plain Hpost.
  pose proof (single_line_no_break title Hline) as Btitle.
  pose proof (heading_pass pre d title post Lpre Hd Hne Htrim Hline Lpost Fpre Fpost) as Hrep.
  clear Lpre Lpost Htrim Hline.
  match type of Hrep with replace_all _ ?f _ = _ => set (cb := f) in Hrep end.
  destruct d as [|[|[|[|[|[|[|d]]]]]]]; try lia; clear Hd.
  all: revert Hrep; unfold hashes_of_depth; cbn [repeat];
    match goal with
    | |- context [number_to_str (headingToSize ?h)] =>
        let v := eval vm_compute in (number_to_str (headingToSize h)) in
        change (number_to_str (headingToSize h)) with v
    end;
    change (ch "#") with 35%N; eval_js; rewrite <- ?app_assoc; cbn [app]; intros Hrep.
  all: md_start; md_text t;
    skip_md t fence_pass_needs;
    skip_md t inline_code_needs;
    skip_quote t;
    unfold t; unfold cb in Hrep; rewrite Hrep; clear t; md_text t;
    skip_md t bold_needs;
    skip_md t italic_star_needs;
    skip_md t italic_underscore_needs;
    skip_md t strike_needs;
    skip_md t link_needs;
    skip_md t image_needs;
    skip_md t ulist_needs;
    skip_pass t ltac:(eapply never_needs; [exact olist_dot_needs | unfold t; free_given]);
    skip_break_chars t;
    skip_md t underline_needs;
    reflexivity.
Qed.

(** * The claims *)

(** C1: the specification says that a protected [code]...[/code] pair comes out of
    bggToMarkdown as a fenced block, and that a protected fenced block
    comes out of markdownToBgg as a [code]...[/code] pair. Neither
    happens. The code pass of bggToMarkdown runs while the pair is hidden
    behind its placeholder, and restore puts the pair back as it was. In
    markdownToBgg the underscore pass rewrites the placeholder, restore
    no longer finds it, and the rewritten placeholder is the output. *)
Theorem C1_code_blocks_left_untranslated : forall fuel,
  bggToMarkdown (S fuel) (js "[code]x[/code]") = Some (js "[code]x[/code]") /\
  markdownToBgg (S fuel) (js "```\nx\n```") =
    Some (js "__PROTECTED[i]CODE[/i]FENCE[i]0_[/i]").
Proof.
  intros fuel. split.
  - apply (bggToMarkdown_mono 1); [lia | vm_compute; reflexivity].
  - apply (markdownToBgg_mono 1); [lia | vm_compute; reflexivity].
Qed.

(** C2: the specification says that an image with alt text becomes an [img] tag
    that holds only the URL. The link pass runs before the image pass and
    takes the bracketed alt text with its URL for a link: the output is an
    exclamation mark followed by a [url] tag. Only an image with empty alt
    text reaches the image pass. *)
Theorem C2_image_with_alt_text_becomes_url_tag : forall fuel,
  markdownToBgg fuel (js "![alt](https://a.b/c.png)") =
    Some (js "![url=https://a.b/c.png]alt[/url]") /\
  markdownToBgg fuel (js "![](https://a.b/c.png)") =
    Some (js "[img]https://a.b/c.png[/img]").
Proof.
  intros fuel. split.
  - apply (markdownToBgg_mono 0); [lia | vm_compute; reflexivity].
  - apply (markdownToBgg_mono 0); [lia | vm_compute; reflexivity].
Qed.

(** C3: the specification says that the body of a protected code span appears
    character for character in the output. For a fenced block given to
    markdownToBgg it does not appear at all: the output is the rewritten
    placeholder. The body of a [code] pair given to bggToMarkdown does
    survive. *)
Theorem C3_fenced_body_lost : forall fuel,
  markdownToBgg (S fuel) (js "```\na*b\n```") =
    Some (js "__PROTECTED[i]CODE[/i]FENCE[i]0_[/i]") /\
  contains (js "a*b") (js "__PROTECTED[i]CODE[/i]FENCE[i]0_[/i]") = false /\
  bggToMarkdown (S fuel) (js "[code]a*b[/code]") = Some (js "[code]a*b[/code]").
Proof.
  intros fuel. split; [|split].
  - apply (markdownToBgg_mono 1); [lia | vm_compute; reflexivity].
  - vm_compute. reflexivity.
  - apply (bggToMarkdown_mono 1); [lia | vm_compute; reflexivity].
Qed.

(** C4, as the specification states it: the visible text of the link made from
    [user=N]body[/user] would be the body. It is an at sign followed by
    the body. *)
Lemma C4_user_text_has_at_sign :
  bggToMarkdown 0 (js "[user=5]bob[/user]") =
    Some (js "[@bob](https://boardgamegeek.com/user/bob)") /\
  bggToMarkdown 0 (js "[user=5]bob[/user]") <>
    Some (js "[bob](https://boardgamegeek.com/user/bob)").
Proof.
  split; [vm_compute; reflexivity | vm_compute; discriminate].
Qed.

(** C4, amended: for a non-empty decimal id and a body without square
    brackets that does not read as a line-break tag name,
    [thing=ID]body[/thing] becomes a link to
    https://boardgamegeek.com/thing/ID whose visible text is the body, and
    [user=N]body[/user] becomes a link to
    https://boardgamegeek.com/user/body whose visible text is an at sign
    followed by the body. *)
Theorem C4_entity_links : forall fuel id n body,
  id <> [] -> all_digits id = true ->
  n <> [] -> all_digits n = true ->
  no_brackets body = true -> is_br_name body = false ->
  bggToMarkdown fuel (js "[thing=" ++ id ++ js "]" ++ body ++ js "[/thing]") =
    Some (js "[" ++ body ++ js "](https://boardgamegeek.com/thing/" ++ id ++ js ")") /\
  bggToMarkdown fuel (js "[user=" ++ n ++ js "]" ++ body ++ js "[/user]") =
    Some (js "[@" ++ body ++ js "](https://boardgamegeek.com/user/" ++ body ++ js ")").
Proof.
  intros fuel id n body Hid Did Hn Dn Hbody Hbr. split.
  - now apply thing_link.
  - apply user_link; auto. now apply no_brackets_no_lb.
Qed.

Lemma C4_entity_links_witness :
  bggToMarkdown 0 (js "[thing=" ++ js "13" ++ js "]" ++ js "Catan" ++ js "[/thing]") =
    Some (js "[" ++ js "Catan" ++ js "](https://boardgamegeek.com/thing/" ++ js "13" ++ js ")") /\
  bggToMarkdown 0 (js "[user=" ++ js "5" ++ js "]" ++ js "Catan" ++ js "[/user]") =
    Some (js "[@" ++ js "Catan" ++ js "](https://boardgamegeek.com/user/" ++ js "Catan" ++ js ")").
Proof.
  apply (C4_entity_links 0 (js "13") (js "5") (js "Catan"));
    solve [vm_compute; discriminate | vm_compute; reflexivity].
Defined.

(** C5, as the specification states it: a size tag whose size has a mapping and
    whose text is a short single line would become a heading. The size
    1000 has the mapping to one hash, but the size pass only takes sizes
    of one to three digits: the tag stays as it is. *)
Lemma C5_four_digit_size_untouched :
  sizeToHeading (js "1000") = Some (js "#") /\
  bggToMarkdown 0 (js "[size=1000]Title[/size]") = Some (js "[size=1000]Title[/size]").
Proof.
  split; vm_compute; reflexivity.
Qed.

(** C5, amended: for a size of one to three decimal digits and a text
    without opening brackets, [size=N]text[/size] becomes, when N has a
    mapping in the table and the trimmed text is a single line of at most
    120 characters, a newline, the hashes, a space, the trimmed text and
    two newlines, and otherwise the trimmed text alone. A size of four or
    more digits leaves the tag as it is. In particular
    [size=24]Title[/size] gives a newline, # Title and two newlines. *)
Theorem C5_size_heading : forall fuel sz text,
  sz <> [] -> all_digits sz = true -> no_lb text = true ->
  (List.length sz <= 3 ->
   bggToMarkdown fuel (js "[size=" ++ sz ++ js "]" ++ text ++ js "[/size]") =
   Some (match sizeToHeading sz with
         | Some hashes =>
             if (List.length (trim text) <=? 120) && single_line (trim text)
             then js "\n" ++ hashes ++ js " " ++ trim text ++ js "\n\n"
             else trim text
         | None => trim text
         end)) /\
  (4 <= List.length sz ->
   bggToMarkdown fuel (js "[size=" ++ sz ++ js "]" ++ text ++ js "[/size]") =
   Some (js "[size=" ++ sz ++ js "]" ++ text ++ js "[/size]")) /\
  bggToMarkdown fuel (js "[size=24]Title[/size]") = Some (js "\n# Title\n\n").
Proof.
  intros fuel sz text Hne Hsz Htext. split; [|split].
  - intros Hlen. now apply size_heading.
  - intros Hlen. now apply size_long_untouched.
  - apply (bggToMarkdown_mono 0); [lia | vm_compute; reflexivity].
Qed.

Lemma C5_size_heading_witness :
  bggToMarkdown 0 (js "[size=" ++ js "18" ++ js "]" ++ js " Rules " ++ js "[/size]") =
    Some (js "\n## Rules\n\n") /\
  bggToMarkdown 0 (js "[size=" ++ js "8" ++ js "]" ++ js " Rules " ++ js "[/size]") =
    Some (js "Rules").
Proof.
  split.
  - apply (proj1 (C5_size_heading 0 (js "18") (js " Rules ")
                    ltac:(vm_compute; discriminate) eq_refl eq_refl)).
    vm_compute. lia.
  - apply (proj1 (C5_size_heading 0 (js "8") (js " Rules ")
                    ltac:(vm_compute; discriminate) eq_refl eq_refl)).
    vm_compute. lia.
Defined.

(** C6: for every depth d from 1 to 6, headingToSize of d hashes is the
    representative size of the depth (24, 18, 16, 14, 12, 10), and
    sizeToHeading of that size, written in decimal, is d hashes again. *)
Theorem C6_heading_size_round_trip : forall d,
  1 <= d <= 6 ->
  headingToSize (hashes_of_depth d) = nth (d - 1) [24; 18; 16; 14; 12; 10] 0 /\
  sizeToHeading (number_to_str (headingToSize (hashes_of_depth d))) =
    Some (hashes_of_depth d).
Proof.
  intros d [H1 H6].
  destruct d as [|[|[|[|[|[|[|d]]]]]]]; try lia; split; vm_compute; reflexivity.
Qed.

Lemma C6_heading_size_round_trip_witness :
  1 <= 3 <= 6 /\
  headingToSize (hashes_of_depth 3) = nth (3 - 1) [24; 18; 16; 14; 12; 10] 0 /\
  sizeToHeading (number_to_str (headingToSize (hashes_of_depth 3))) =
    Some (hashes_of_depth 3).
Proof.
  split; [lia | apply (C6_heading_size_round_trip 3); lia].
Defined.

(** C7: the specification says that the fragments of a list body are
    trimmed and freed of stray marker remnants, that empty fragments are
    discarded, and that a block without items disappears. The callback
    discards the empty fragments first and strips the remnants afterwards:
    an item that is nothing but a remnant passes the filter and comes out
    as a line with nothing after the dash or the number, in the middle of
    a list too. The pattern of the remnants is an opening bracket, any
    number of slashes and a closing bracket; the closing item marker [/*]
    is not of that form and stays in the item. A block whose only
    fragment is empty does disappear, and the example of the
    specification comes out as stated. *)
Theorem C7_remnant_only_item_kept : forall fuel,
  bggToMarkdown fuel (js "[list][*][/][/list]") = Some (js "\n- \n") /\
  bggToMarkdown fuel (js "[olist][*][/][/olist]") = Some (js "\n1. \n") /\
  bggToMarkdown fuel (js "[list]\n[*] One\n[*] [/]\n[*] Two\n[/list]") =
    Some (js "\n- One\n- \n- Two\n") /\
  bggToMarkdown fuel (js "[list]\n[*] One[/*]\n[*] Two[/*]\n[/list]") =
    Some (js "\n- One[/*]\n- Two[/*]\n") /\
  bggToMarkdown fuel (js "[list][*][/list]") = Some [] /\
  bggToMarkdown fuel (js "[list]\n[*] One\n[*] Two\n[/list]") = Some (js "\n- One\n- Two\n").
Proof.
  intros fuel.
  repeat split; apply (bggToMarkdown_mono 0); solve [lia | vm_compute; reflexivity].
Qed.

(** C8: markdownToBgg of **Bold** and [link](https://boardgamegeek.com/thing/13)
    is [b]Bold[/b] and [thing=13]link[/thing]. *)
Theorem C8_bold_and_thing_link : forall fuel,
  markdownToBgg fuel (js "**Bold** and [link](https://boardgamegeek.com/thing/13)") =
  Some (js "[b]Bold[/b] and [thing=13]link[/thing]").
Proof.
  intros fuel. apply (markdownToBgg_mono 0); [lia | vm_compute; reflexivity].
Qed.

(** C9: the specification says that restore replaces every placeholder
    token of its argument that has a recorded mapping by the original
    span. The pattern of restore takes the name of a token lazily from the
    letters, digits and underscores: after text that itself holds the
    marker prefix, the name runs across the start of the recorded token,
    and the match is the two together. That longer text is no key of the
    store, so it is put back as it is: the recorded token stays in the
    output and the protected span is lost. *)
Theorem C9_recorded_token_not_restored : forall fuel,
  protectSegments (S fuel) (js "__PROTECTED_X[code]a[/code]") [rule_code_bgg] =
    Some (js "__PROTECTED_X__PROTECTED_CODE_BGG_0__",
          [(js "__PROTECTED_CODE_BGG_0__", js "[code]a[/code]")]) /\
  placeholders (js "__PROTECTED_X__PROTECTED_CODE_BGG_0__") =
    [Hit (js "__PROTECTED_X__PROTECTED_CODE_BGG_0__")] /\
  restore [(js "__PROTECTED_CODE_BGG_0__", js "[code]a[/code]")]
    (js "__PROTECTED_X__PROTECTED_CODE_BGG_0__") =
    js "__PROTECTED_X__PROTECTED_CODE_BGG_0__" /\
  bggToMarkdown (S fuel) (js "__PROTECTED_X[code]a[/code]") =
    Some (js "__PROTECTED_X__PROTECTED_CODE_BGG_0__") /\
  bggToMarkdown_cjs (S fuel) (js "__PROTECTED_X[code]a[/code]") =
    Some (js "__PROTECTED_X__PROTECTED_CODE_BGG_0__").
Proof.
  intros fuel.
  assert (Hp : protectSegments (S fuel) (js "__PROTECTED_X[code]a[/code]") [rule_code_bgg] =
               Some (js "__PROTECTED_X__PROTECTED_CODE_BGG_0__",
                     [(js "__PROTECTED_CODE_BGG_0__", js "[code]a[/code]")])).
  { unfold protectSegments.
    rewrite (protect_rules_mono 1 (S fuel) [rule_code_bgg] (js "__PROTECTED_X[code]a[/code]")
               [] 0
               (js "__PROTECTED_X__PROTECTED_CODE_BGG_0__",
                [(js "__PROTECTED_CODE_BGG_0__", js "[code]a[/code]")]));
      [reflexivity | lia | vm_compute; reflexivity]. }
  split; [exact Hp|].
  split; [vm_compute; reflexivity|].
  split; [vm_compute; reflexivity|].
  assert (Hb : bggToMarkdown (S fuel) (js "__PROTECTED_X[code]a[/code]") =
               Some (js "__PROTECTED_X__PROTECTED_CODE_BGG_0__"))
    by (apply (bggToMarkdown_mono 1); [lia | vm_compute; reflexivity]).
  split; [exact Hb|].
  assert (Hc : forall text st,
             protectSegments (S fuel) (js "__PROTECTED_X[code]a[/code]") [rule_code_bgg] =
               Some (text, st) ->
             bggToMarkdown_cjs (S fuel) (js "__PROTECTED_X[code]a[/code]") =
               Some (restore_cjs st (bgg_passes text))).
  { intros text st E. unfold bggToMarkdown_cjs. rewrite E. reflexivity. }
  rewrite (Hc _ _ Hp). vm_compute. reflexivity.
Qed.

(** C10: convert calls bggToMarkdown exactly when the direction is the
    string bgg2md; every other direction value, a string or not, gives
    markdownToBgg. *)
Theorem C10_convert_dispatch : forall fuel text direction,
  (direction = VString (js "bgg2md") ->
     convert fuel text direction = bggToMarkdown fuel text) /\
  (direction <> VString (js "bgg2md") ->
     convert fuel text direction = markdownToBgg fuel text).
Proof.
  intros fuel text direction. unfold convert, is_bgg2md, str_eqb. split.
  - intros ->. destruct (list_eq_dec _ _ _); [reflexivity | congruence].
  - intros H. destruct direction as [| | b | z | s]; try reflexivity.
    destruct (list_eq_dec _ _ _) as [E|E]; [|reflexivity].
    subst s. congruence.
Qed.

Lemma C10_convert_dispatch_witness :
  convert 1 (js "[b]x[/b]") (VString (js "bgg2md")) = bggToMarkdown 1 (js "[b]x[/b]") /\
  convert 1 (js "[b]x[/b]") (VString (js "md2bgg")) = markdownToBgg 1 (js "[b]x[/b]") /\
  convert 1 (js "[b]x[/b]") VUndefined = markdownToBgg 1 (js "[b]x[/b]").
Proof.
  split; [|split].
  - apply (proj1 (C10_convert_dispatch 1 (js "[b]x[/b]") (VString (js "bgg2md")))).
    reflexivity.
  - apply (proj2 (C10_convert_dispatch 1 (js "[b]x[/b]") (VString (js "md2bgg")))).
    vm_compute. discriminate.
  - apply (proj2 (C10_convert_dispatch 1 (js "[b]x[/b]") VUndefined)).
    discriminate.
Defined.

(** * Further properties of the converter *)

(** X1: bggToMarkdown returns a text without an opening square bracket
    unchanged; the empty text included. *)
Theorem bggToMarkdown_plain_text : forall fuel s,
  no_lb s = true -> bggToMarkdown fuel s = Some s.
Proof. intros fuel s H. now apply bggToMarkdown_plain. Qed.

Lemma bggToMarkdown_plain_text_witness :
  bggToMarkdown 0 (js "Hello, world_1 ]") = Some (js "Hello, world_1 ]").
Proof. apply (bggToMarkdown_plain_text 0 (js "Hello, world_1 ]")). reflexivity. Defined.

(** X2: markdownToBgg returns a text unchanged when it holds none of the
    characters backtick, greater-than, hash, asterisk, underscore, tilde,
    opening bracket, less-than, hyphen, plus, carriage return and the
    digits, and no two spaces in front of a newline. *)
Theorem markdownToBgg_plain_text : forall fuel s,
  free_of md_special s = true -> contains (js "  \n") s = false ->
  markdownToBgg fuel s = Some s.
Proof. intros fuel s H1 H2. now apply markdownToBgg_plain. Qed.

Lemma markdownToBgg_plain_text_witness :
  markdownToBgg 0 (js "Hello, world.\n\nSecond (plain) paragraph!") =
  Some (js "Hello, world.\n\nSecond (plain) paragraph!").
Proof.
  apply (markdownToBgg_plain_text 0 (js "Hello, world.\n\nSecond (plain) paragraph!"));
    vm_compute; reflexivity.
Defined.

(** X3: between texts without an opening bracket, and around a body
    without one, bggToMarkdown turns [b] into two asterisks on either
    side, [i] into one asterisk, [u] into the HTML u element, [s] and [-]
    into two tildes, and [tt] into backticks. *)
Theorem bggToMarkdown_inline_styles : forall fuel pre body post,
  no_lb pre = true -> no_lb body = true -> no_lb post = true ->
  bggToMarkdown fuel (pre ++ js "[b]" ++ body ++ js "[/b]" ++ post) =
    Some (pre ++ js "**" ++ body ++ js "**" ++ post) /\
  bggToMarkdown fuel (pre ++ js "[i]" ++ body ++ js "[/i]" ++ post) =
    Some (pre ++ js "*" ++ body ++ js "*" ++ post) /\
  bggToMarkdown fuel (pre ++ js "[u]" ++ body ++ js "[/u]" ++ post) =
    Some (pre ++ js "<u>" ++ body ++ js "</u>" ++ post) /\
  bggToMarkdown fuel (pre ++ js "[s]" ++ body ++ js "[/s]" ++ post) =
    Some (pre ++ js "~~" ++ body ++ js "~~" ++ post) /\
  bggToMarkdown fuel (pre ++ js "[-]" ++ body ++ js "[/-]" ++ post) =
    Some (pre ++ js "~~" ++ body ++ js "~~" ++ post) /\
  bggToMarkdown fuel (pre ++ js "[tt]" ++ body ++ js "[/tt]" ++ post) =
    Some (pre ++ js "`" ++ body ++ js "`" ++ post).
Proof.
  intros fuel pre body post Hpre Hbody Hpost. repeat split.
  - now apply bold_in_context.
  - now apply italic_in_context.
  - now apply underline_in_context.
  - now apply strike_in_context.
  - now apply dash_in_context.
  - now apply tt_in_context.
Qed.

Lemma bggToMarkdown_inline_styles_witness :
  bggToMarkdown 0 (js "a " ++ js "[b]" ++ js "x y" ++ js "[/b]" ++ js " z") =
    Some (js "a **x y** z") /\
  bggToMarkdown 0 (js "a " ++ js "[tt]" ++ js "x y" ++ js "[/tt]" ++ js " z") =
    Some (js "a `x y` z").
Proof.
  pose proof (bggToMarkdown_inline_styles 0 (js "a ") (js "x y") (js " z")
                eq_refl eq_refl eq_refl) as H.
  split; [exact (proj1 H) | apply H].
Defined.

(** X4: between texts without an opening bracket, [img]src[/img] with a
    source without one becomes an image with an empty alt text. *)
Theorem bggToMarkdown_image : forall fuel pre src post,
  no_lb pre = true -> no_lb src = true -> no_lb post = true ->
  bggToMarkdown fuel (pre ++ js "[img]" ++ src ++ js "[/img]" ++ post) =
  Some (pre ++ js "![](" ++ src ++ js ")" ++ post).
Proof. intros fuel pre src post H1 H2 H3. now apply img_in_context. Qed.

Lemma bggToMarkdown_image_witness :
  bggToMarkdown 0 (js "see " ++ js "[img]" ++ js "https://a.b/c.png" ++ js "[/img]" ++ js ".") =
  Some (js "see ![](https://a.b/c.png).").
Proof.
  apply (bggToMarkdown_image 0 (js "see ") (js "https://a.b/c.png") (js ".")); reflexivity.
Defined.

(** X5: between texts without an opening bracket, [url=href]text[/url]
    becomes the Markdown link of the text to the href, for a non-empty
    href and a text that are free of square brackets, the text not being a
    line-break tag name. *)
Theorem bggToMarkdown_url : forall fuel pre href text post,
  no_lb pre = true -> href <> [] -> no_brackets href = true ->
  no_brackets text = true -> is_br_name text = false -> no_lb post = true ->
  bggToMarkdown fuel (pre ++ js "[url=" ++ href ++ js "]" ++ text ++ js "[/url]" ++ post) =
  Some (pre ++ js "[" ++ text ++ js "](" ++ href ++ js ")" ++ post).
Proof. intros fuel pre href text post H1 H2 H3 H4 H5 H6. now apply url_in_context. Qed.

Lemma bggToMarkdown_url_witness :
  bggToMarkdown 0
    (js "see " ++ js "[url=" ++ js "https://boardgamegeek.com" ++ js "]" ++ js "site" ++
     js "[/url]" ++ js ".") =
  Some (js "see [site](https://boardgamegeek.com).").
Proof.
  apply (bggToMarkdown_url 0 (js "see ") (js "https://boardgamegeek.com") (js "site") (js "."));
    solve [reflexivity | vm_compute; discriminate].
Defined.

(** X6: between texts without an opening bracket, a line-break tag, [br
    followed by any white space, an optional slash and the closing
    bracket, becomes two spaces and a newline. *)
Theorem bggToMarkdown_line_break : forall fuel pre sp (slash : bool) post,
  no_lb pre = true -> forallb is_space sp = true -> no_lb post = true ->
  bggToMarkdown fuel
    (pre ++ js "[br" ++ sp ++ (if slash then js "/" else []) ++ js "]" ++ post) =
  Some (pre ++ js "  \n" ++ post).
Proof.
  intros fuel pre sp slash post H1 H2 H3.
  rewrite <- (br_in_context fuel pre sp slash post H1 H2 H3).
  unfold br_tag. now rewrite <- !app_assoc.
Qed.

Lemma bggToMarkdown_line_break_witness :
  bggToMarkdown 0 (js "a" ++ js "[br" ++ js " " ++ js "/" ++ js "]" ++ js "b") =
    Some (js "a  \nb") /\
  bggToMarkdown 0 (js "a" ++ js "[br" ++ [] ++ [] ++ js "]" ++ js "b") =
    Some (js "a  \nb").
Proof.
  split.
  - apply (bggToMarkdown_line_break 0 (js "a") (js " ") true (js "b")); reflexivity.
  - apply (bggToMarkdown_line_break 0 (js "a") [] false (js "b")); reflexivity.
Defined.

(** X7: when the first [/code] of the input stands before its first
    [code], with no other opening bracket before them, the loop of
    protectSegments never ends: however many rounds it is given,
    bggToMarkdown has not returned. *)
Theorem bggToMarkdown_close_before_open : forall fuel pre mid post,
  no_lb pre = true -> no_lb mid = true ->
  bggToMarkdown fuel (pre ++ js "[/code]" ++ mid ++ js "[code]" ++ post) = None.
Proof.
  intros fuel pre mid post H1 H2. apply bggToMarkdown_crossed. now apply crossed_code.
Qed.

Lemma bggToMarkdown_close_before_open_witness :
  bggToMarkdown 1000 (js "x" ++ js "[/code]" ++ js " y " ++ js "[code]" ++ js "z[/code]") =
  None.
Proof.
  apply (bggToMarkdown_close_before_open 1000 (js "x") (js " y ") (js "z[/code]"));
    reflexivity.
Defined.

(** X8: the two copies of the converter in the file compute the same
    results: the CommonJS functions and the ES module functions agree on
    every input and every direction. *)
Theorem copies_agree : forall fuel input direction,
  bggToMarkdown_cjs fuel input = bggToMarkdown fuel input /\
  markdownToBgg_cjs fuel input = markdownToBgg fuel input /\
  convert_cjs fuel input direction = convert fuel input direction.
Proof.
  intros fuel input direction.
  assert (B : bggToMarkdown_cjs fuel input = bggToMarkdown fuel input).
  { unfold bggToMarkdown_cjs, bggToMarkdown. destruct input as [|c input]; [reflexivity|].
    destruct (protectSegments fuel (c :: input) [rule_code_bgg]) as [[text st]|] eqn:E;
      [|reflexivity].
    f_equal. apply restore_cjs_eq. eapply protected_chunks; [left; reflexivity | exact E]. }
  assert (M : markdownToBgg_cjs fuel input = markdownToBgg fuel input).
  { unfold markdownToBgg_cjs, markdownToBgg. destruct input as [|c input]; [reflexivity|].
    destruct (protectSegments fuel (c :: input) [rule_code_fence]) as [[text st]|] eqn:E;
      [|reflexivity].
    f_equal. apply restore_cjs_eq. eapply protected_chunks; [right; reflexivity | exact E]. }
  split; [exact B | split; [exact M |]].
  unfold convert_cjs, convert. now rewrite B, M.
Qed.

(** X9: the command line converts from BGG to Markdown when no argument
    is --from and when the argument after the first --from is bgg; with
    any other argument after the first --from, and with --from as the last
    argument, it converts from Markdown to BGG. *)
Theorem cli_dispatch : forall fuel stdin pre a post,
  ~ In (js "--from") pre ->
  cli fuel pre stdin = bggToMarkdown_cjs fuel stdin /\
  cli fuel (pre ++ js "--from" :: a :: post) stdin =
    (if str_eqb a (js "bgg") then bggToMarkdown_cjs fuel stdin
     else markdownToBgg_cjs fuel stdin) /\
  cli fuel (pre ++ [js "--from"]) stdin = markdownToBgg_cjs fuel stdin.
Proof.
  intros fuel stdin pre a post H. unfold cli, cli_direction, cli_from. repeat split.
  - rewrite index_of_none by exact H. reflexivity.
  - rewrite index_of_first by exact H. rewrite nth_error_after. cbn [nth_error].
    destruct (str_eqb a (js "bgg")); reflexivity.
  - rewrite index_of_first by exact H. rewrite nth_error_after. reflexivity.
Qed.

Lemma cli_dispatch_witness :
  cli 1 [js "node"; js "conv.js"] (js "[b]x[/b]") = bggToMarkdown_cjs 1 (js "[b]x[/b]") /\
  cli 1 ([js "node"; js "conv.js"] ++ js "--from" :: js "md" :: []) (js "[b]x[/b]") =
    (if str_eqb (js "md") (js "bgg") then bggToMarkdown_cjs 1 (js "[b]x[/b]")
     else markdownToBgg_cjs 1 (js "[b]x[/b]")) /\
  cli 1 ([js "node"; js "conv.js"] ++ [js "--from"]) (js "[b]x[/b]") =
    markdownToBgg_cjs 1 (js "[b]x[/b]").
Proof.
  apply (cli_dispatch 1 (js "[b]x[/b]") [js "node"; js "conv.js"] (js "md") []).
  vm_compute. intros [H|[H|H]]; solve [discriminate H | exact H].
Defined.

(** X10: esc puts a backslash in front of every character that has a
    meaning in a pattern and leaves every other character as it is. *)
Theorem esc_closed_form : forall s, esc s = flat_map esc_char s.
Proof. intros s. exact (esc_flat_map s). Qed.

(** X11: esc loses nothing: two texts with the same escaped form are the
    same text. *)
Theorem esc_injective : forall s t, esc s = esc t -> s = t.
Proof.
  intros s t H. rewrite !esc_flat_map in H. now apply esc_chars_injective.
Qed.

Lemma esc_injective_witness : js "a.b" = js "a.b".
Proof. apply (esc_injective (js "a.b") (js "a.b")). reflexivity. Defined.

(** X12: sizeToHeading rounds a size down to the table. For a size
    written with one to three decimal digits, of value n: below 10 there
    is no heading; from 10 on the heading is the one whose representative
    size, headingToSize, is the largest threshold of the table that does
    not exceed n, and that representative size is given the same heading
    again. *)
Theorem sizeToHeading_rounds_down : forall sz,
  sz <> [] -> all_digits sz = true -> List.length sz <= 3 ->
  ((digits_value sz < 10)%Z -> sizeToHeading sz = None) /\
  ((10 <= digits_value sz)%Z ->
   exists h, sizeToHeading sz = Some h /\
     (Z.of_nat (headingToSize h) <= digits_value sz)%Z /\
     (forall t hs, In (t, hs) sizeToHashes -> (t <= digits_value sz)%Z ->
                   (t <= Z.of_nat (headingToSize h))%Z) /\
     sizeToHeading (number_to_str (headingToSize h)) = Some h).
Proof.
  intros sz Hne Hd Hl. rewrite sizeToHeading_digits by assumption.
  generalize (digits_value sz) as n. intros n.
  unfold sizeToHashes. cbn [first_threshold]. split.
  - intros Hn.
    repeat match goal with
           | |- context [(?t <=? n)%Z] =>
               destruct (Z.leb_spec t n); [lia|]
           end.
    reflexivity.
  - intros Hn.
    assert (Hin : forall (P : Z -> Prop) t hs,
               In (t, hs) [(24%Z, js "#"); (18%Z, js "##"); (16%Z, js "###");
                           (14%Z, js "####"); (12%Z, js "#####"); (10%Z, js "######")] ->
               P 24%Z -> P 18%Z -> P 16%Z -> P 14%Z -> P 12%Z -> P 10%Z -> P t).
    { intros P t hs Hi. cbn [In] in Hi.
      repeat (destruct Hi as [Hi|Hi]; [injection Hi as <- _; tauto|]).
      contradiction. }
    repeat match goal with
           | |- context [(?t <=? n)%Z] =>
               destruct (Z.leb_spec t n)
           end;
      try lia;
      (eexists; split; [reflexivity|];
       match goal with
       | |- context [headingToSize ?h] =>
           let v := eval vm_compute in (headingToSize h) in
           change (headingToSize h) with v
       end;
       split; [lia|]; split;
       [intros t hs Hi; pattern t; apply (Hin _ t hs Hi); lia
       | vm_compute; reflexivity]).
Qed.

Lemma sizeToHeading_rounds_down_witness :
  ((digits_value (js "17") < 10)%Z -> sizeToHeading (js "17") = None) /\
  ((10 <= digits_value (js "17"))%Z ->
   exists h, sizeToHeading (js "17") = Some h /\
     (Z.of_nat (headingToSize h) <= digits_value (js "17"))%Z /\
     (forall t hs, In (t, hs) sizeToHashes -> (t <= digits_value (js "17"))%Z ->
                   (t <= Z.of_nat (headingToSize h))%Z) /\
     sizeToHeading (number_to_str (headingToSize h)) = Some h).
Proof.
  apply (sizeToHeading_rounds_down (js "17")).
  - vm_compute. discriminate.
  - reflexivity.
  - vm_compute. lia.
Defined.

(** X13: markdownToBgg always returns. Every round of the protector's
    loop takes a fence, three backticks, out of the text and puts a token
    without backticks in its place, so as many rounds as the input has
    places where three backticks start are enough; the length of the
    input is such a number. *)
Theorem markdownToBgg_returns : forall fuel input,
  occ no_flags (js "```") input <= fuel \/ List.length input <= fuel ->
  exists out, markdownToBgg fuel input = Some out.
Proof.
  intros fuel input H. apply markdownToBgg_ends.
  destruct H as [H|H]; [exact H|].
  eapply Nat.le_trans; [apply occ_length | exact H].
Qed.

Lemma markdownToBgg_returns_witness :
  exists out, markdownToBgg 2 (js "a\n```\nb\n```\nc") = Some out.
Proof.
  apply (markdownToBgg_returns 2 (js "a\n```\nb\n```\nc")).
  left. vm_compute. lia.
Defined.

(** X14: a code block comes back as it was. Between texts without an
    opening bracket and without an underscore, [code]body[/code] with a
    body that holds no [/code], in any case of the letters, is returned
    unchanged by bggToMarkdown, tags included, whatever tags and line
    breaks the body holds: one round of the protector takes the block out
    and restore puts it back. *)
Theorem bggToMarkdown_code_block_unchanged : forall fuel pre body post,
  no_lb pre = true -> free_of is_underscore pre = true ->
  no_lb post = true -> free_of is_underscore post = true ->
  occ flag_i (js "[/code]") body = 0 ->
  bggToMarkdown (S fuel) (pre ++ js "[code]" ++ body ++ js "[/code]" ++ post) =
  Some (pre ++ js "[code]" ++ body ++ js "[/code]" ++ post).
Proof.
  intros fuel pre body post Hpre Upre Hpost Upost Hbody.
  rewrite bggToMarkdown_nonempty.
  2:{ destruct pre; [eval_js; discriminate | discriminate]. }
  rewrite protect_one by assumption.
  rewrite bgg_passes_plain.
  2:{ rewrite !no_lb_app, Hpre, Hpost, no_lb_code_token; reflexivity. }
  rewrite (restore_one pre (js "0") (js "[code]" ++ body ++ js "[/code]") post);
    try assumption; try reflexivity.
  - now rewrite <- !app_assoc.
  - eval_js. discriminate.
  - eval_js. discriminate.
Qed.

Lemma bggToMarkdown_code_block_unchanged_witness :
  bggToMarkdown 1 (js "see " ++ js "[code]" ++ js "[b]x[/b]\n[i]y[/i]" ++ js "[/code]" ++ js " end") =
  Some (js "see " ++ js "[code]" ++ js "[b]x[/b]\n[i]y[/i]" ++ js "[/code]" ++ js " end").
Proof.
  apply (bggToMarkdown_code_block_unchanged 0 (js "see ") (js "[b]x[/b]\n[i]y[/i]") (js " end"));
    reflexivity.
Defined.

(** X15: a quote becomes a Markdown blockquote. Between texts without an
    opening bracket, [quote]body[/quote] with a body that holds no
    opening bracket and no carriage return and neither starts nor ends
    with a newline becomes the lines of the body, each with a greater-than
    sign and a space in front, followed by a blank line. *)
Theorem bggToMarkdown_quote : forall fuel pre body post,
  no_lb pre = true -> no_lb body = true -> no_lb post = true ->
  no_cr body = true -> starts_nl body = false -> ends_nl body = false ->
  bggToMarkdown fuel (pre ++ js "[quote]" ++ body ++ js "[/quote]" ++ post) =
  Some (pre ++ join (js "\n") (map (fun l => js "> " ++ l) (lines body)) ++ js "\n\n" ++ post).
Proof.
  intros fuel pre body post Hpre Hbody Hpost Hcr Hs He.
  now apply quote_in_context.
Qed.

Lemma bggToMarkdown_quote_witness :
  bggToMarkdown 0 (js "He said: " ++ js "[quote]" ++ js "one\n\ntwo" ++ js "[/quote]" ++ js "ok") =
  Some (js "He said: " ++
        join (js "\n") (map (fun l => js "> " ++ l) (lines (js "one\n\ntwo"))) ++
        js "\n\n" ++ js "ok").
Proof.
  apply (bggToMarkdown_quote 0 (js "He said: ") (js "one\n\ntwo") (js "ok")); reflexivity.
Defined.

(** X16: blockquoteMarkdownToBgg turns a run of quoted lines into one
    quote block. When the lines above and below do not start with a
    greater-than sign, the lines between them, each written with a
    greater-than sign and a space in front, become [quote], the lines
    without their markers and [/quote], each on lines of their own; the
    lines above and below stay as they are. No line holds a newline or a
    carriage return. *)
Theorem blockquoteMarkdownToBgg_block : forall above ls below,
  Forall (fun l => free_of is_break l = true) (above ++ ls ++ below) ->
  Forall (fun l => starts_quote l = false) (above ++ below) ->
  ls <> [] ->
  blockquoteMarkdownToBgg
    (join (js "\n") (above ++ map (fun l => js "> " ++ l) ls ++ below)) =
  join (js "\n") (above ++ [js "[quote]\n" ++ join (js "\n") ls ++ js "\n[/quote]"] ++ below).
Proof.
  intros above ls below Hb Hq Hne.
  apply Forall_app in Hb as [Ba Hb]. apply Forall_app in Hb as [Bl Bb].
  apply Forall_app in Hq as [Qa Qb].
  rewrite blockquote_block by assumption. unfold quote_block. reflexivity.
Qed.

Lemma blockquoteMarkdownToBgg_block_witness :
  blockquoteMarkdownToBgg
    (join (js "\n") ([js "intro"] ++ map (fun l => js "> " ++ l) [js "a b"; js " c"] ++ [js "end"])) =
  join (js "\n") ([js "intro"] ++
                  [js "[quote]\n" ++ join (js "\n") [js "a b"; js " c"] ++ js "\n[/quote]"] ++
                  [js "end"]).
Proof.
  apply (blockquoteMarkdownToBgg_block [js "intro"] [js "a b"; js " c"] [js "end"]).
  - repeat constructor.
  - repeat constructor.
  - discriminate.
Defined.

(** X17: the two quote functions undo each other. For a body without a
    carriage return that neither starts nor ends with a newline,
    blockquoteMarkdownToBgg of quoteBodyToMarkdown of the body is
    [quote], the body and [/quote] on lines of their own, followed by the
    blank line that quoteBodyToMarkdown appends. *)
Theorem quote_functions_round_trip : forall body,
  no_cr body = true -> starts_nl body = false -> ends_nl body = false ->
  blockquoteMarkdownToBgg (quoteBodyToMarkdown body) =
  js "[quote]\n" ++ body ++ js "\n[/quote]\n\n".
Proof.
  intros body Hcr Hs He. now apply quote_round_trip.
Qed.

Lemma quote_functions_round_trip_witness :
  blockquoteMarkdownToBgg (quoteBodyToMarkdown (js "one\n\n two")) =
  js "[quote]\n" ++ js "one\n\n two" ++ js "\n[/quote]\n\n".
Proof.
  apply (quote_functions_round_trip (js "one\n\n two")); reflexivity.
Defined.

(** X18: markdownToBgg on one inline mark between plain texts. The texts
    before, inside and after the mark hold none of the characters of
    md_plain (the characters that Markdown gives a meaning, the opening
    bracket and parenthesis and the digits among them) and no two spaces
    before a newline. Then two asterisks around the body give [b], two
    tildes [s], the u element [u]; one asterisk or one underscore around
    a body that is not empty and does not start with white space gives
    [i]; one backtick around a body that is not empty and holds no
    newline gives [tt]. The surrounding text is kept. *)
Theorem markdownToBgg_inline_marks : forall fuel pre body post,
  free_of md_plain pre = true -> free_of md_plain body = true ->
  free_of md_plain post = true ->
  contains (js "  \n") pre = false -> contains (js "  \n") body = false ->
  contains (js "  \n") post = false ->
  markdownToBgg fuel (pre ++ js "**" ++ body ++ js "**" ++ post) =
    Some (pre ++ js "[b]" ++ body ++ js "[/b]" ++ post) /\
  markdownToBgg fuel (pre ++ js "~~" ++ body ++ js "~~" ++ post) =
    Some (pre ++ js "[s]" ++ body ++ js "[/s]" ++ post) /\
  markdownToBgg fuel (pre ++ js "<u>" ++ body ++ js "</u>" ++ post) =
    Some (pre ++ js "[u]" ++ body ++ js "[/u]" ++ post) /\
  (body <> [] -> starts_space body = false ->
   markdownToBgg fuel (pre ++ js "*" ++ body ++ js "*" ++ post) =
     Some (pre ++ js "[i]" ++ body ++ js "[/i]" ++ post) /\
   markdownToBgg fuel (pre ++ js "_" ++ body ++ js "_" ++ post) =
     Some (pre ++ js "[i]" ++ body ++ js "[/i]" ++ post)) /\
  (body <> [] -> has_newline body = false ->
   markdownToBgg fuel (pre ++ js "`" ++ body ++ js "`" ++ post) =
     Some (pre ++ js "[tt]" ++ body ++ js "[/tt]" ++ post)).
Proof.
  intros fuel pre body post Hpre Hbody Hpost Bpre Bbody Bpost.
  split; [now apply md_bold|].
  split; [now apply md_strike|].
  split; [now apply md_underline|].
  split.
  - intros Hne Hsp. split; [now apply md_italic_star | now apply md_italic_underscore].
  - intros Hne Hnl. now apply md_inline_code.
Qed.

Lemma markdownToBgg_inline_marks_witness :
  markdownToBgg 0 (js "a " ++ js "**" ++ js "b c" ++ js "**" ++ js " d") =
    Some (js "a " ++ js "[b]" ++ js "b c" ++ js "[/b]" ++ js " d") /\
  markdownToBgg 0 (js "a " ++ js "*" ++ js "b c" ++ js "*" ++ js " d") =
    Some (js "a " ++ js "[i]" ++ js "b c" ++ js "[/i]" ++ js " d") /\
  markdownToBgg 0 (js "a " ++ js "`" ++ js "b c" ++ js "`" ++ js " d") =
    Some (js "a " ++ js "[tt]" ++ js "b c" ++ js "[/tt]" ++ js " d").
Proof.
  pose proof (markdownToBgg_inline_marks 0 (js "a ") (js "b c") (js " d")
                eq_refl eq_refl eq_refl eq_refl eq_refl eq_refl) as (Hb & _ & _ & Hi & Ht).
  split; [exact Hb|]. split.
  - apply Hi; [discriminate | reflexivity].
  - apply Ht; [discriminate | reflexivity].
Defined.

(** X19: inline styles survive the way to Markdown and back. With plain
    texts before, inside and after as in X18, converting [b], [u] or [s]
    around the body to Markdown and the result back to BGG gives the
    input again; so do [i], when the body is not empty and does not start
    with white space, and [tt], when the body is not empty and holds no
    newline. The older strike tag [-] comes back as [s]. *)
Theorem inline_styles_round_trip : forall fuel pre body post,
  free_of md_plain pre = true -> free_of md_plain body = true ->
  free_of md_plain post = true ->
  contains (js "  \n") pre = false -> contains (js "  \n") body = false ->
  contains (js "  \n") post = false ->
  bgg_md_bgg fuel (pre ++ js "[b]" ++ body ++ js "[/b]" ++ post) =
    Some (pre ++ js "[b]" ++ body ++ js "[/b]" ++ post) /\
  bgg_md_bgg fuel (pre ++ js "[u]" ++ body ++ js "[/u]" ++ post) =
    Some (pre ++ js "[u]" ++ body ++ js "[/u]" ++ post) /\
  bgg_md_bgg fuel (pre ++ js "[s]" ++ body ++ js "[/s]" ++ post) =
    Some (pre ++ js "[s]" ++ body ++ js "[/s]" ++ post) /\
  bgg_md_bgg fuel (pre ++ js "[-]" ++ body ++ js "[/-]" ++ post) =
    Some (pre ++ js "[s]" ++ body ++ js "[/s]" ++ post) /\
  (body <> [] -> starts_space body = false ->
   bgg_md_bgg fuel (pre ++ js "[i]" ++ body ++ js "[/i]" ++ post) =
     Some (pre ++ js "[i]" ++ body ++ js "[/i]" ++ post)) /\
  (body <> [] -> has_newline body = false ->
   bgg_md_bgg fuel (pre ++ js "[tt]" ++ body ++ js "[/tt]" ++ post) =
     Some (pre ++ js "[tt]" ++ body ++ js "[/tt]" ++ post)).
Proof.
  intros fuel pre body post Hpre Hbody Hpost Bpre Bbody Bpost.
  pose proof (md_plain_no_lb _ Hpre) as Lpre.
  pose proof (md_plain_no_lb _ Hbody) as Lbody.
  pose proof (md_plain_no_lb _ Hpost) as Lpost.
  unfold bgg_md_bgg.
  rewrite bold_in_context, underline_in_context, strike_in_context, dash_in_context
    by assumption.
  rewrite italic_in_context, tt_in_context by assumption.
  split; [now apply md_bold|].
  split; [now apply md_underline|].
  split; [now apply md_strike|].
  split; [now apply md_strike|].
  split.
  - intros Hne Hsp. now apply md_italic_star.
  - intros Hne Hnl. now apply md_inline_code.
Qed.

Lemma inline_styles_round_trip_witness :
  bgg_md_bgg 0 (js "a " ++ js "[b]" ++ js "b c" ++ js "[/b]" ++ js " d") =
    Some (js "a " ++ js "[b]" ++ js "b c" ++ js "[/b]" ++ js " d") /\
  bgg_md_bgg 0 (js "a " ++ js "[i]" ++ js "b c" ++ js "[/i]" ++ js " d") =
    Some (js "a " ++ js "[i]" ++ js "b c" ++ js "[/i]" ++ js " d").
Proof.
  pose proof (inline_styles_round_trip 0 (js "a ") (js "b c") (js " d")
                eq_refl eq_refl eq_refl eq_refl eq_refl eq_refl) as (Hb & _ & _ & _ & Hi & _).
  split; [exact Hb|].
  apply Hi; [discriminate | reflexivity].
Defined.

(** X20: inline marks survive the way to BGG and back. With plain texts
    as in X18, converting a body between two asterisks, two tildes, the
    u element, single asterisks or single backticks to BGG and the result
    back to Markdown gives the input again (for the single marks under
    the conditions of X18 on the body). Emphasis written with
    underscores comes back written with asterisks. *)
Theorem inline_marks_round_trip : forall fuel pre body post,
  free_of md_plain pre = true -> free_of md_plain body = true ->
  free_of md_plain post = true ->
  contains (js "  \n") pre = false -> contains (js "  \n") body = false ->
  contains (js "  \n") post = false ->
  md_bgg_md fuel (pre ++ js "**" ++ body ++ js "**" ++ post) =
    Some (pre ++ js "**" ++ body ++ js "**" ++ post) /\
  md_bgg_md fuel (pre ++ js "~~" ++ body ++ js "~~" ++ post) =
    Some (pre ++ js "~~" ++ body ++ js "~~" ++ post) /\
  md_bgg_md fuel (pre ++ js "<u>" ++ body ++ js "</u>" ++ post) =
    Some (pre ++ js "<u>" ++ body ++ js "</u>" ++ post) /\
  (body <> [] -> starts_space body = false ->
   md_bgg_md fuel (pre ++ js "*" ++ body ++ js "*" ++ post) =
     Some (pre ++ js "*" ++ body ++ js "*" ++ post) /\
   md_bgg_md fuel (pre ++ js "_" ++ body ++ js "_" ++ post) =
     Some (pre ++ js "*" ++ body ++ js "*" ++ post)) /\
  (body <> [] -> has_newline body = false ->
   md_bgg_md fuel (pre ++ js "`" ++ body ++ js "`" ++ post) =
     Some (pre ++ js "`" ++ body ++ js "`" ++ post)).
Proof.
  intros fuel pre body post Hpre Hbody Hpost Bpre Bbody Bpost.
  pose proof (md_plain_no_lb _ Hpre) as Lpre.
  pose proof (md_plain_no_lb _ Hbody) as Lbody.
  pose proof (md_plain_no_lb _ Hpost) as Lpost.
  unfold md_bgg_md.
  rewrite md_bold, md_strike, md_underline by assumption.
  split; [now apply bold_in_context|].
  split; [now apply strike_in_context|].
  split; [now apply underline_in_context|].
  split.
  - intros Hne Hsp. rewrite md_italic_star, md_italic_underscore by assumption.
    split; now apply italic_in_context.
  - intros Hne Hnl. rewrite md_inline_code by assumption. now apply tt_in_context.
Qed.

Lemma inline_marks_round_trip_witness :
  md_bgg_md 0 (js "a " ++ js "**" ++ js "b c" ++ js "**" ++ js " d") =
    Some (js "a " ++ js "**" ++ js "b c" ++ js "**" ++ js " d") /\
  md_bgg_md 0 (js "a " ++ js "_" ++ js "b c" ++ js "_" ++ js " d") =
    Some (js "a " ++ js "*" ++ js "b c" ++ js "*" ++ js " d").
Proof.
  pose proof (inline_marks_round_trip 0 (js "a ") (js "b c") (js " d")
                eq_refl eq_refl eq_refl eq_refl eq_refl eq_refl) as (Hb & _ & _ & Hi & _).
  split; [exact Hb|].
  apply Hi; [discriminate | reflexivity].
Defined.

(** X21: list blocks of clean items. An item is clean when it is not
    empty, has no white space at either end and holds no opening bracket,
    newline or carriage return. For every list of clean items, the block
    [list], each item behind a newline, the marker [*] and a space, a
    newline and [/list], given as the whole input, becomes one line per
    item, a dash and a space before each, between two newlines; with
    [olist] and [/olist] the lines carry the numbers 1, 2, ... in the
    order of the items. With no item the block becomes the empty
    text. *)
Theorem list_blocks_of_clean_items : forall fuel items,
  Forall item_ok items ->
  bggToMarkdown fuel (js "[list]" ++ list_body items ++ js "[/list]") =
    Some (match items with
          | [] => []
          | _ => js "\n" ++ join (js "\n") (map (fun it => js "- " ++ it) items) ++ js "\n"
          end) /\
  bggToMarkdown fuel (js "[olist]" ++ list_body items ++ js "[/olist]") =
    Some (match items with
          | [] => []
          | _ => js "\n" ++ join (js "\n") (numbered items) ++ js "\n"
          end).
Proof.
  intros fuel items H. split.
  - now apply list_lines.
  - now apply olist_lines.
Qed.

Lemma list_blocks_of_clean_items_witness :
  bggToMarkdown 0 (js "[list]" ++ list_body [js "One"; js "Two"; js "Three"] ++ js "[/list]") =
    Some (js "\n- One\n- Two\n- Three\n") /\
  bggToMarkdown 0 (js "[olist]" ++ list_body [js "One"; js "Two"; js "Three"] ++ js "[/olist]") =
    Some (js "\n1. One\n2. Two\n3. Three\n").
Proof.
  assert (H : Forall item_ok [js "One"; js "Two"; js "Three"]).
  { repeat constructor; solve [vm_compute; discriminate | vm_compute; reflexivity]. }
  split.
  - apply (proj1 (list_blocks_of_clean_items 0 _ H)).
  - apply (proj2 (list_blocks_of_clean_items 0 _ H)).
Defined.

(** X22: what restore does to every string. The global search of the
    placeholder pattern cuts the string into its matches and the
    characters between them; every match has the placeholder shape. For
    the store that protectSegments returns for the rule of either
    converter, restore gives the string back with each match that is a
    key of the store replaced by the recorded span, and each other match
    and every character between the matches as it was. Nothing is said
    here of a recorded token that the search finds only inside a longer
    match. *)
Theorem restore_replaces_matches : forall fuel input rl text st s,
  rl = rule_code_bgg \/ rl = rule_code_fence ->
  protectSegments fuel input [rl] = Some (text, st) ->
  List.concat (map seg_text (placeholders s)) = s /\
  Forall (fun sg => match sg with Hit t => placeholder_shaped t | Gap _ => True end)
    (placeholders s) /\
  restore st s =
    List.concat (map (fun sg => match sg with
                                | Gap c => [c]
                                | Hit t => match store_get t st with
                                           | Some chunk => chunk
                                           | None => t
                                           end
                                end) (placeholders s)).
Proof.
  intros fuel input rl text st s Hrl H.
  split; [apply scan_text|]. split; [apply placeholders_shaped|].
  apply restore_segments. eapply protected_chunks; eassumption.
Qed.

Lemma restore_replaces_matches_witness :
  placeholders (js "a__PROTECTED_CODE_BGG_0__b__PROTECTED_X_7__") =
    [Gap (ch "a"); Hit (js "__PROTECTED_CODE_BGG_0__"); Gap (ch "b");
     Hit (js "__PROTECTED_X_7__")] /\
  restore [(js "__PROTECTED_CODE_BGG_0__", js "[code]x[/code]")]
    (js "a__PROTECTED_CODE_BGG_0__b__PROTECTED_X_7__") =
    js "a[code]x[/code]b__PROTECTED_X_7__".
Proof.
  split; [vm_compute; reflexivity|].
  rewrite (proj2 (proj2 (restore_replaces_matches 1 (js "[code]x[/code]") rule_code_bgg
                           (js "__PROTECTED_CODE_BGG_0__")
                           [(js "__PROTECTED_CODE_BGG_0__", js "[code]x[/code]")]
                           (js "a__PROTECTED_CODE_BGG_0__b__PROTECTED_X_7__")
                           (or_introl eq_refl) eq_refl))).
  vm_compute. reflexivity.
Defined.

(** X23: a hard break. Between two plain texts as in X18, two spaces and
    a newline become the tag [br] and a newline; the texts stay as they
    are, spaces at the end of the first included. *)
Theorem markdownToBgg_hard_break : forall fuel pre post,
  free_of md_plain pre = true -> free_of md_plain post = true ->
  contains (js "  \n") pre = false -> contains (js "  \n") post = false ->
  markdownToBgg fuel (pre ++ js "  \n" ++ post) = Some (pre ++ js "[br]\n" ++ post).
Proof.
  intros fuel pre post Hpre Hpost Bpre Bpost. now apply md_hard_break.
Qed.

Lemma markdownToBgg_hard_break_witness :
  markdownToBgg 0 (js "one " ++ js "  \n" ++ js "two") =
  Some (js "one " ++ js "[br]\n" ++ js "two").
Proof.
  apply (markdownToBgg_hard_break 0 (js "one ") (js "two")); reflexivity.
Defined.

(** X24: a link to an address outside the site. Between plain texts as
    in X18, a link with a plain text that is not empty and holds no
    closing bracket, and an address made of http or https, a colon, two
    slashes and a plain rest that is not empty and holds no closing
    parenthesis, becomes a url tag with the address as its value and the
    text as its body, when the address does not hold boardgamegeek.com
    followed by a slash, in any case of the letters. *)
Theorem markdownToBgg_link : forall fuel pre text secure rest post,
  free_of md_plain pre = true -> free_of md_plain text = true ->
  free_of md_plain rest = true -> free_of md_plain post = true ->
  contains (js "  \n") pre = false -> contains (js "  \n") text = false ->
  contains (js "  \n") rest = false -> contains (js "  \n") post = false ->
  text <> [] -> free_of (fun c => (c =? rb)%N) text = true ->
  rest <> [] -> free_of is_rparen rest = true ->
  occ flag_i (js "boardgamegeek.com/") (http_href secure rest) = 0 ->
  markdownToBgg fuel
    (pre ++ js "[" ++ text ++ js "](" ++ http_href secure rest ++ js ")" ++ post) =
  Some (pre ++ js "[url=" ++ http_href secure rest ++ js "]" ++ text ++ js "[/url]" ++ post).
Proof.
  intros fuel pre text secure rest post.
  apply md_link_url.
Qed.

Lemma markdownToBgg_link_witness :
  markdownToBgg 0
    (js "see " ++ js "[" ++ js "the rules" ++ js "](" ++ http_href true (js "a.b/c?d=e") ++
     js ")" ++ js " now") =
  Some (js "see " ++ js "[url=" ++ http_href true (js "a.b/c?d=e") ++ js "]" ++
        js "the rules" ++ js "[/url]" ++ js " now").
Proof.
  apply (markdownToBgg_link 0 (js "see ") (js "the rules") true (js "a.b/c?d=e") (js " now"));
    solve [reflexivity | vm_compute; discriminate].
Defined.

(** X25: a heading line. A line of one to six hashes, a space and a
    title, standing at the start of the input or after a newline and
    followed by a newline or the end of the input, becomes a size tag
    around the title, with the size that headingToSize gives for the
    hashes. The title is a single line, not empty, without white space
    at either end; the title and the texts before and after are plain as
    in X18 and hold no period. *)
Theorem markdownToBgg_heading : forall fuel pre d title post,
  1 <= d <= 6 ->
  at_line_start pre = true -> starts_nl post = true \/ post = [] ->
  free_of md_plain pre = true -> free_of md_plain title = true ->
  free_of md_plain post = true ->
  free_of is_dot pre = true -> free_of is_dot title = true -> free_of is_dot post = true ->
  contains (js "  \n") pre = false -> contains (js "  \n") post = false ->
  title <> [] -> trim title = title -> single_line title = true ->
  markdownToBgg fuel (pre ++ hashes_of_depth d ++ js " " ++ title ++ post) =
  Some (pre ++ js "[size=" ++ number_to_str (headingToSize (hashes_of_depth d)) ++ js "]"
        ++ title ++ js "[/size]" ++ post).
Proof.
  intros fuel pre d title post.
  apply md_heading.
Qed.

Lemma markdownToBgg_heading_witness :
  markdownToBgg 0 (js "Intro\n" ++ hashes_of_depth 2 ++ js " " ++ js "Set up" ++ js "\nText") =
  Some (js "Intro\n" ++ js "[size=" ++ js "18" ++ js "]" ++ js "Set up" ++ js "[/size]" ++
        js "\nText").
Proof.
  apply (markdownToBgg_heading 0 (js "Intro\n") 2 (js "Set up") (js "\nText"));
    solve [reflexivity | lia | left; reflexivity | vm_compute; discriminate].
Defined.
